(** * Pluto: scanner, parser, scope chain, builtins and tree-walking
    evaluator

    A shallow embedding of the Pluto interpreter (lexer.js, parser.js,
    environment.js, builtins.js, interpreter.js, index.js) and the
    properties of its specification.

    Conventions of the embedding:
    - JavaScript numbers are IEEE-754 binary64 values: [PrimFloat.float].
    - An [Environment] object lives in a store ([envs]) and is named by its
      index; [parent] is an index into the same store.  Closures and loop
      scopes share environments by reference, exactly as the JS objects do.
    - A JS array lives in a second store ([arrays]); an array value is a
      reference into it.
    - [evaluate] is recursive in JS; here it takes a fuel argument that
      bounds the nesting depth of the recursion.
    - The loops of the scanner and of the parser are bounded by the length
      of their input, and the recursion of the parser by the number of
      tokens; these bounds are proved to be enough.
    - Host behaviour that the embedding does not cover (implicit coercions
      of [+] on mixed types, prototype lookups, most of the string and
      math builtins) yields the outcome [Unsupported]; it is never confused
      with a thrown error or with a value. *)

From Stdlib Require Import Floats.PrimFloat.
From Stdlib Require Numbers.Cyclic.Int63.Uint63.
From Stdlib Require Import Strings.String Strings.Ascii ZArith Lia.
From stdpp Require Import base option list gmap strings pretty.

Local Open Scope string_scope.
Local Open Scope list_scope.
Local Open Scope nat_scope.
Set Warnings "-register-all".
Set Warnings "-clear-no-such-hyp".
Set Warnings "-inexact-float".
Set Warnings "-abstract-large-number".

(* ================================================================= *)
(** ** Outcomes *)

(** Every failure of the source is [throw new Error(message)]. *)
Inductive error : Type :=
| Error_ (message : string).

Inductive outcome (A : Type) : Type :=
| Ok (a : A)
| Throw (e : error)
| Unsupported
| OutOfFuel.
Arguments Ok {A} a.
Arguments Throw {A} e.
Arguments Unsupported {A}.
Arguments OutOfFuel {A}.

Global Instance outcome_bind : MBind outcome := λ A B k m,
  match m with
  | Ok a => k a
  | Throw e => Throw e
  | Unsupported => Unsupported
  | OutOfFuel => OutOfFuel
  end.

(** The error kinds of the specification, as the messages the code throws. *)
Definition NameError (name : string) : error :=
  Error_ ("Undefined variable: " +:+ name).
Definition TypeError_each : error :=
  Error_ "Each statement requires an array".
Definition RuntimeLimitError : error :=
  Error_ "Maximum iteration limit exceeded in as loop".

(* ================================================================= *)
(** ** Syntax trees (parser.js) *)

Abbreviation loc := nat.

Inductive lit : Type :=
| LNum (f : float)
| LStr (s : string)
| LBool (b : bool).

(** One constructor per case of the [switch (node.type)] of [evaluate].
    The body of an action is the statement list of its [BlockStatement]. *)
Inductive node : Type :=
| Program (statements : list node)
| NodeDeclaration (name : string) (value : node)
| ActionDeclaration (name : string) (params : list string) (body : list node)
| CheckStatement (condition consequent : node) (alternate : option node)
| EachStatement (variable : string) (iterable body : node)
| AsStatement (condition body : node)
| BlockStatement (statements : list node)
| BinaryExpression (operator : string) (left right : node)
| UnaryExpression (operator : string) (argument : node)
| CallExpression (callee : node) (args : list node)
| MemberExpression (object property : node) (computed : bool)
| ArrayExpression (elements : list node)
| Identifier (name : string)
| Literal (value : lit).

(* ================================================================= *)
(** ** Values *)

Inductive value : Type :=
| VUndefined
| VNull
| VBool (b : bool)
| VNum (f : float)
| VStr (s : string)
| VArr (a : loc)
| VObj (fields : list (string * value))
| VAction (params : list string) (body : list node) (env : loc)
| VBuiltin (name : string).

(* ================================================================= *)
(** ** The store *)

(** The two methods an action call installs on its environment close over
    the parameter list and over the set [assignedVars] (a JS [Set]: a list
    without duplicates in insertion order). *)
Record tracker : Type := mkTracker {
  tr_params : list string;
  assignedVars : list string
}.

(** [hooks = None] is a plain instance of the class; [Some t] is an
    instance whose [define] and [set] were replaced by the action call. *)
Record Environment : Type := mkEnvironment {
  parent : option loc;
  variables : gmap string value;
  hooks : option tracker
}.

Record state : Type := mkState {
  envs : list Environment;
  arrays : list (list value);
  console : list (list value)
}.

Definition with_envs (st : state) (es : list Environment) : state :=
  mkState es (arrays st) (console st).

Definition with_arrays (st : state) (arrs : list (list value)) : state :=
  mkState (envs st) arrs (console st).

(** [new Environment(parent)] *)
Definition newEnvironment (p : option loc) (st : state) : loc * state :=
  (length (envs st),
   with_envs st (envs st ++ [mkEnvironment p ∅ None])).

(** [this.variables.set(name, value)] on the environment at [e]. *)
Definition variables_set (e : loc) (name : string) (v : value)
    (st : state) : state :=
  with_envs st
    (alter (fun fr => mkEnvironment (parent fr)
                        (<[name := v]> (variables fr)) (hooks fr))
           e (envs st)).

(** [this.variables.has(name)] *)
Definition variables_has (fr : Environment) (name : string) : bool :=
  match variables fr !! name with
  | Some _ => true
  | None => false
  end.

(** [Set.prototype.add] *)
Definition Set_add (name : string) (s : list string) : list string :=
  if bool_decide (name ∈ s) then s else s ++ [name].

Definition includes (xs : list string) (name : string) : bool :=
  bool_decide (name ∈ xs).

(** [assignedVars.add(name)] for the tracker installed at [e]. *)
Definition record_assigned (e : loc) (name : string) (st : state) : state :=
  with_envs st
    (alter (fun fr =>
              mkEnvironment (parent fr) (variables fr)
                (match hooks fr with
                 | Some t =>
                     Some (mkTracker (tr_params t)
                             (Set_add name (assignedVars t)))
                 | None => None
                 end))
           e (envs st)).

(* ================================================================= *)
(** ** environment.js *)

Module Env.

(** [Environment.prototype.define] *)
Definition define (e : loc) (name : string) (v : value) (st : state) : state :=
  variables_set e name v st.

(** The [define] and [set] an action call installs: both record the name
    unless it is a parameter and then call the original [define]. *)
Definition action_define (t : tracker) (e : loc) (name : string) (v : value)
    (st : state) : state :=
  let st1 := if includes (tr_params t) name then st
             else record_assigned e name st in
  define e name v st1.

Definition action_set := action_define.

(** [env.define(name, value)], dispatched on the receiver. *)
Definition call_define (e : loc) (name : string) (v : value)
    (st : state) : state :=
  match envs st !! e with
  | Some fr =>
      match hooks fr with
      | Some t => action_define t e name v st
      | None => define e name v st
      end
  | None => st
  end.

(** [Environment.prototype.get]; [k] bounds the length of the walk. *)
Fixpoint get_walk (k : nat) (st : state) (e : loc) (name : string)
    : outcome value :=
  match k with
  | 0 => OutOfFuel
  | S k' =>
      match envs st !! e with
      | None => Unsupported
      | Some fr =>
          match variables fr !! name with
          | Some v => Ok v
          | None =>
              match parent fr with
              | Some p => get_walk k' st p name
              | None => Throw (NameError name)
              end
          end
      end
  end.

Definition get (st : state) (e : loc) (name : string) : outcome value :=
  get_walk (S e) st e name.

(** [Environment.prototype.has] *)
Fixpoint has_walk (k : nat) (st : state) (e : loc) (name : string)
    : outcome bool :=
  match k with
  | 0 => OutOfFuel
  | S k' =>
      match envs st !! e with
      | None => Unsupported
      | Some fr =>
          if variables_has fr name then Ok true
          else match parent fr with
               | Some p => has_walk k' st p name
               | None => Ok false
               end
      end
  end.

Definition has (st : state) (e : loc) (name : string) : outcome bool :=
  has_walk (S e) st e name.

(** [env.set(name, value)], dispatched on the receiver: an environment
    with hooks runs the installed [set]; a plain one runs
    [Environment.prototype.set], whose [this.parent.set(...)] dispatches
    again. *)
Fixpoint set_walk (k : nat) (st : state) (e : loc) (name : string)
    (v : value) : outcome state :=
  match k with
  | 0 => OutOfFuel
  | S k' =>
      match envs st !! e with
      | None => Unsupported
      | Some fr =>
          match hooks fr with
          | Some t => Ok (action_set t e name v st)
          | None =>
              if variables_has fr name then Ok (variables_set e name v st)
              else match parent fr with
                   | Some p => set_walk k' st p name v
                   | None => Throw (NameError name)
                   end
          end
      end
  end.

Definition set (st : state) (e : loc) (name : string) (v : value)
    : outcome state :=
  set_walk (S e) st e name v.

End Env.

(* ================================================================= *)
(** ** Scope chains *)

(** Parent references point to environments created earlier. *)
Definition wf_envs (st : state) : Prop :=
  ∀ e fr p, envs st !! e = Some fr → parent fr = Some p → p < e.

(** [nearest st name e f]: walking from [e] towards the root, [f] is the
    first environment whose own map binds [name]. *)
Inductive nearest (st : state) (name : string) : loc → loc → Prop :=
| nearest_here e fr :
    envs st !! e = Some fr →
    is_Some (variables fr !! name) →
    nearest st name e e
| nearest_up e fr p f :
    envs st !! e = Some fr →
    variables fr !! name = None →
    parent fr = Some p →
    nearest st name p f →
    nearest st name e f.

(** [unbound st name e]: no environment from [e] to the root binds it. *)
Inductive unbound (st : state) (name : string) : loc → Prop :=
| unbound_root e fr :
    envs st !! e = Some fr →
    variables fr !! name = None →
    parent fr = None →
    unbound st name e
| unbound_up e fr p :
    envs st !! e = Some fr →
    variables fr !! name = None →
    parent fr = Some p →
    unbound st name p →
    unbound st name e.

(** Every environment from [e] to the root is a plain instance. *)
Inductive plain_chain (st : state) : loc → Prop :=
| plain_root e fr :
    envs st !! e = Some fr → hooks fr = None → parent fr = None →
    plain_chain st e
| plain_up e fr p :
    envs st !! e = Some fr → hooks fr = None → parent fr = Some p →
    plain_chain st p →
    plain_chain st e.

(** [set_target st name e f]: walking from [e] towards the root, [f] is
    the first environment that is the scope of an action call (an
    environment with hooks) or binds [name] itself.  This is where
    [env.set(name, _)] ends: [Environment.prototype.set] hands over to
    [this.parent.set], which is the installed [set] when the parent is the
    scope of an action call. *)
Inductive set_target (st : state) (name : string) : loc → loc → Prop :=
| set_target_here e fr :
    envs st !! e = Some fr →
    is_Some (hooks fr) ∨ is_Some (variables fr !! name) →
    set_target st name e e
| set_target_up e fr p f :
    envs st !! e = Some fr →
    hooks fr = None → variables fr !! name = None →
    parent fr = Some p →
    set_target st name p f →
    set_target st name e f.

(** The binding of [name] in the environment at [f] itself. *)
Definition binding (st : state) (f : loc) (name : string) : option value :=
  fr ← envs st !! f; variables fr !! name.

(** The names an environment binds itself. *)
Definition keys (st : state) (f : loc) : option (gset string) :=
  fr ← envs st !! f; Some (dom (variables fr)).

(* ================================================================= *)
(** ** Host operations on values *)

Definition number_of_nat (n : nat) : float :=
  PrimFloat.of_uint63 (Uint63.of_Z (Z.of_nat n)).

(** [isTruthy] of interpreter.js. *)
Definition isTruthy (v : value) : bool :=
  match v with
  | VUndefined | VNull => false
  | VBool b => b
  | VNum f => negb (PrimFloat.eqb f 0%float)
  | VStr s => (0 <? String.length s)%nat
  | VArr _ | VObj _ | VAction _ _ _ | VBuiltin _ => true
  end.

(** [typeof fn === 'function'] *)
Definition is_function (v : value) : bool :=
  match v with
  | VAction _ _ _ | VBuiltin _ => true
  | _ => false
  end.

(** [left === right].  Two arrays are equal when they are the same
    object; the identity of records and closures is not tracked. *)
Definition strict_equals (l r : value) : outcome bool :=
  match l, r with
  | VUndefined, VUndefined => Ok true
  | VNull, VNull => Ok true
  | VBool x, VBool y => Ok (Bool.eqb x y)
  | VNum x, VNum y => Ok (PrimFloat.eqb x y)
  | VStr x, VStr y => Ok (String.eqb x y)
  | VArr x, VArr y => Ok (x =? y)%nat
  | VBuiltin x, VBuiltin y => Ok (String.eqb x y)
  | VObj _, VObj _ => Unsupported
  | VAction _ _ _, VAction _ _ _ => Unsupported
  | _, _ => Ok false
  end.

Definition compare_values (num : float → float → bool)
    (str : string → string → bool) (l r : value) : outcome value :=
  match l, r with
  | VNum x, VNum y => Ok (VBool (num x y))
  | VStr x, VStr y => Ok (VBool (str x y))
  | _, _ => Unsupported
  end.

Definition arithmetic (op : float → float → float) (l r : value)
    : outcome value :=
  match l, r with
  | VNum x, VNum y => Ok (VNum (op x y))
  | _, _ => Unsupported
  end.

(** The [switch (node.operator)] of [evaluateBinaryExpression], applied to
    the two operand values. *)
Definition binary_operator (operator : string) (l r : value)
    : outcome value :=
  match operator with
  | "+" =>
      match l, r with
      | VNum x, VNum y => Ok (VNum (PrimFloat.add x y))
      | VStr x, VStr y => Ok (VStr (x +:+ y))
      | _, _ => Unsupported
      end
  | "-" => arithmetic PrimFloat.sub l r
  | "*" => arithmetic PrimFloat.mul l r
  | "/" => arithmetic PrimFloat.div l r
  | "%" => Unsupported
  | "==" => b ← strict_equals l r; Ok (VBool b)
  | "!=" => b ← strict_equals l r; Ok (VBool (negb b))
  | "<" => compare_values PrimFloat.ltb String.ltb l r
  | ">" => compare_values (fun x y => PrimFloat.ltb y x)
                          (fun x y => String.ltb y x) l r
  | "<=" => compare_values PrimFloat.leb String.leb l r
  | ">=" => compare_values (fun x y => PrimFloat.leb y x)
                           (fun x y => String.leb y x) l r
  | "&&" => Ok (VBool (isTruthy l && isTruthy r))
  | "||" => Ok (VBool (isTruthy l || isTruthy r))
  | _ => Throw (Error_ ("Unknown binary operator: " +:+ operator))
  end.

Definition unary_operator (operator : string) (v : value) : outcome value :=
  match operator with
  | "-" => match v with
           | VNum x => Ok (VNum (PrimFloat.opp x))
           | _ => Unsupported
           end
  | "!" => Ok (VBool (negb (isTruthy v)))
  | _ => Throw (Error_ ("Unknown unary operator: " +:+ operator))
  end.

(** [xs[f]] for a number [f]: the element whose index equals [f]. *)
Fixpoint element_at (xs : list value) (i f : float) : value :=
  match xs with
  | [] => VUndefined
  | x :: rest =>
      if PrimFloat.eqb i f then x
      else element_at rest (PrimFloat.add i 1%float) f
  end.

Fixpoint own_property (fields : list (string * value)) (k : string)
    : option value :=
  match fields with
  | [] => None
  | (k', v) :: rest => if String.eqb k' k then Some v else own_property rest k
  end.

(** Names every object inherits from [Object.prototype]. *)
Definition Object_prototype_names : list string :=
  [ "constructor"; "__defineGetter__"; "__defineSetter__"; "hasOwnProperty";
    "__lookupGetter__"; "__lookupSetter__"; "isPrototypeOf";
    "propertyIsEnumerable"; "toString"; "valueOf"; "__proto__";
    "toLocaleString" ].

(** [object[key]] *)
Definition get_member (object key : value) (st : state) : outcome value :=
  match object, key with
  | VArr a, VNum f =>
      match arrays st !! a with
      | Some xs => Ok (element_at xs 0%float f)
      | None => Unsupported
      end
  | VArr a, VStr "length" =>
      match arrays st !! a with
      | Some xs => Ok (VNum (number_of_nat (length xs)))
      | None => Unsupported
      end
  | VObj fields, VStr k =>
      match own_property fields k with
      | Some v => Ok v
      | None => if includes Object_prototype_names k then Unsupported
                else Ok VUndefined
      end
  | _, _ => Unsupported
  end.

(** A key that [result[key] = v] stores as an ordinary own property, after
    the properties already present: not [__proto__] (an accessor of
    [Object.prototype]) and not starting with a digit (integer keys are
    kept in numeric order before all others).  Every name the scanner
    classifies as IDENTIFIER is such a key. *)
Definition plain_key (k : string) : bool :=
  negb (String.eqb k "__proto__") &&
  match k with
  | String c _ =>
      negb ((48 <=? nat_of_ascii c)%nat && (nat_of_ascii c <=? 57)%nat)
  | EmptyString => true
  end.

(** [result[k] = v] *)
Definition set_property (fields : list (string * value)) (k : string)
    (v : value) : outcome (list (string * value)) :=
  if plain_key k then
    match own_property fields k with
    | Some _ =>
        Ok (map (fun kv => if String.eqb (fst kv) k then (k, v) else kv)
                fields)
    | None => Ok (fields ++ [(k, v)])
    end
  else Unsupported.

(* ================================================================= *)
(** ** builtins.js *)

Module Builtins.

(** [[...arr]]: a new array object with the elements of [arr]. *)
Definition spread (a : loc) (st : state) : outcome (loc * state) :=
  match arrays st !! a with
  | Some xs => Ok (length (arrays st), with_arrays st (arrays st ++ [xs]))
  | None => Unsupported
  end.

(** [Array.prototype.push], in place. *)
Definition Array_push (a : loc) (items : list value) (st : state) : state :=
  with_arrays st (alter (fun xs => xs ++ items) a (arrays st)).

(** [Array.prototype.pop], in place: the removed element, or [undefined]
    when the array is empty. *)
Definition Array_pop (a : loc) (st : state) : value * state :=
  match arrays st !! a with
  | Some xs =>
      match length xs with
      | 0 => (VUndefined, st)
      | S n => (nth n xs VUndefined,
                with_arrays st (alter (take n) a (arrays st)))
      end
  | None => (VUndefined, st)
  end.

(** [push: (arr, ...items) => { const copy = [...arr];
      copy.push(...items); return copy; }] *)
Definition push (args : list value) (st : state) : outcome (value * state) :=
  match args with
  | VArr arr :: items =>
      '(copy, st1) ← spread arr st;
      Ok (VArr copy, Array_push copy items st1)
  | _ => Unsupported
  end.

(** [pop: (arr) => { const copy = [...arr]; const item = copy.pop();
      return { array: copy, item }; }] *)
Definition pop (args : list value) (st : state) : outcome (value * state) :=
  match args with
  | VArr arr :: _ =>
      '(copy, st1) ← spread arr st;
      let '(item, st2) := Array_pop copy st1 in
      Ok (VObj [("array", VArr copy); ("item", item)], st2)
  | _ => Unsupported
  end.

(** [reverse: (arr) => [...arr].reverse()] *)
Definition reverse (args : list value) (st : state)
    : outcome (value * state) :=
  match args with
  | VArr arr :: _ =>
      '(copy, st1) ← spread arr st;
      Ok (VArr copy, with_arrays st1 (alter (@rev value) copy (arrays st1)))
  | _ => Unsupported
  end.

(** [print] and [log]: [console.log(...args);
      return args.length === 1 ? args[0] : args;] *)
Definition print (args : list value) (st : state) : outcome (value * state) :=
  let st1 := mkState (envs st) (arrays st) (console st ++ [args]) in
  match args with
  | [v] => Ok (v, st1)
  | _ => Ok (VArr (length (arrays st1)),
             with_arrays st1 (arrays st1 ++ [args]))
  end.

(** [length: (str) => Array.isArray(str) ? str.length
                                          : String(str).length] *)
Definition length_ (args : list value) (st : state)
    : outcome (value * state) :=
  match args with
  | VArr a :: _ =>
      match arrays st !! a with
      | Some xs => Ok (VNum (number_of_nat (length xs)), st)
      | None => Unsupported
      end
  | VStr s :: _ => Ok (VNum (number_of_nat (String.length s)), st)
  | _ => Unsupported
  end.

Definition typeof_is (p : value → bool) (args : list value) (st : state)
    : outcome (value * state) :=
  Ok (VBool (p (hd VUndefined args)), st).

(** The keys of the [builtins] object, in source order. *)
Definition names : list string :=
  [ "print"; "log"; "abs"; "sqrt"; "pow"; "min"; "max"; "random"; "floor";
    "ceil"; "round"; "length"; "substring"; "indexOf"; "toUpperCase";
    "toLowerCase"; "split"; "trim"; "replace"; "push"; "pop"; "slice";
    "map"; "filter"; "reduce"; "join"; "reverse"; "sort"; "sum"; "average";
    "minimum"; "maximum"; "toString"; "toNumber"; "toBoolean"; "isNumber";
    "isString"; "isBoolean"; "isArray"; "isObject" ].

Definition isNumber (v : value) : bool :=
  match v with VNum _ => true | _ => false end.
Definition isString (v : value) : bool :=
  match v with VStr _ => true | _ => false end.
Definition isBoolean (v : value) : bool :=
  match v with VBool _ => true | _ => false end.
Definition isArray (v : value) : bool :=
  match v with VArr _ => true | _ => false end.
Definition isObject (v : value) : bool :=
  match v with VObj _ => true | _ => false end.

(** The entries of the [builtins] object that are covered. *)
Definition table
    : list (string * (list value → state → outcome (value * state))) :=
  [ ("print", print); ("log", print); ("length", length_);
    ("push", push); ("pop", pop); ("reverse", reverse);
    ("isNumber", typeof_is isNumber); ("isString", typeof_is isString);
    ("isBoolean", typeof_is isBoolean); ("isArray", typeof_is isArray);
    ("isObject", typeof_is isObject) ].

Fixpoint find_entry {A} (name : string) (entries : list (string * A))
    : option A :=
  match entries with
  | [] => None
  | (k, f) :: rest => if String.eqb k name then Some f
                      else find_entry name rest
  end.

(** Calling the builtin bound to [name].  The builtins that are not
    covered are [Unsupported]. *)
Definition call (name : string) (args : list value) (st : state)
    : outcome (value * state) :=
  match find_entry name table with
  | Some f => f args st
  | None => Unsupported
  end.

End Builtins.

(* ================================================================= *)
(** ** interpreter.js *)

Record Interpreter : Type := mkInterpreter {
  globalEnv : loc;
  maxIterations : nat
}.

Definition value_of_lit (l : lit) : value :=
  match l with
  | LNum f => VNum f
  | LStr s => VStr s
  | LBool b => VBool b
  end.

(** [node.name], the string ["undefined"] when the node has no such field. *)
Definition node_name (nd : node) : string :=
  match nd with
  | Identifier name | NodeDeclaration name _ | ActionDeclaration name _ _ =>
      name
  | _ => "undefined"
  end.

(** The state of an action call before its body runs: the fresh
    environment with its parameters bound and the two hooks installed. *)
Fixpoint bindParameters (actionEnv : loc) (params : list string)
    (args : list value) (i : nat) (st : state) : state :=
  match params with
  | [] => st
  | p :: rest =>
      bindParameters actionEnv rest args (S i)
        (Env.call_define actionEnv p (nth i args VUndefined) st)
  end.

Definition install_hooks (e : loc) (params : list string) (st : state)
    : state :=
  with_envs st
    (alter (fun fr => mkEnvironment (parent fr) (variables fr)
                        (Some (mkTracker params [])))
           e (envs st)).

Definition enter_action (params : list string) (env : loc)
    (args : list value) (st : state) : loc * state :=
  let '(actionEnv, st1) := newEnvironment (Some env) st in
  (actionEnv,
   install_hooks actionEnv params (bindParameters actionEnv params args 0 st1)).

(** The names recorded by the hooks installed at [e]. *)
Definition recorded (st : state) (e : loc) : list string :=
  match envs st !! e with
  | Some fr => match hooks fr with
               | Some t => assignedVars t
               | None => []
               end
  | None => []
  end.

(** [for (const varName of assignedVars)
       result[varName] = actionEnv.get(varName)] *)
Fixpoint collect (st : state) (actionEnv : loc) (names : list string)
    (result : list (string * value)) : outcome (list (string * value)) :=
  match names with
  | [] => Ok result
  | varName :: rest =>
      v ← Env.get st actionEnv varName;
      result' ← set_property result varName v;
      collect st actionEnv rest result'
  end.

(** The tail of an action call, after the body has run. *)
Definition implicitReturn (actionEnv : loc) (lastValue : value)
    (st : state) : outcome (value * state) :=
  let assigned := recorded st actionEnv in
  if (1 <? length assigned)%nat then
    result ← collect st actionEnv assigned [];
    Ok (VObj result, st)
  else if (length assigned =? 1)%nat then
    v ← Env.get st actionEnv (hd "" assigned);
    Ok (v, st)
  else Ok (lastValue, st).

Section Evaluate.

Variable this : Interpreter.

(** [this.evaluate], one level deeper in the recursion. *)
Variable ev : node → loc → state → outcome (value * state).

(** [for (const statement of statements)
       result = this.evaluate(statement, env)] *)
Fixpoint evaluateStatements (statements : list node) (env : loc)
    (result : value) (st : state) : outcome (value * state) :=
  match statements with
  | [] => Ok (result, st)
  | statement :: rest =>
      '(r, st1) ← ev statement env st;
      evaluateStatements rest env r st1
  end.

(** [nodes.map(n => this.evaluate(n, env))] *)
Fixpoint evaluateAll (nodes : list node) (env : loc) (st : state)
    : outcome (list value * state) :=
  match nodes with
  | [] => Ok ([], st)
  | nd :: rest =>
      '(v, st1) ← ev nd env st;
      '(vs, st2) ← evaluateAll rest env st1;
      Ok (v :: vs, st2)
  end.

Definition evaluateProgram (statements : list node) (env : loc)
    (st : state) : outcome (value * state) :=
  evaluateStatements statements env VNull st.

Definition evaluateBlockStatement := evaluateProgram.

Definition evaluateNodeDeclaration (name : string) (valueNode : node)
    (env : loc) (st : state) : outcome (value * state) :=
  '(v, st1) ← ev valueNode env st;
  match envs st1 !! env with
  | None => Unsupported
  | Some fr =>
      if variables_has fr name then Ok (v, variables_set env name v st1)
      else
        inParent ← match parent fr with
                   | Some p => Env.has st1 p name
                   | None => Ok false
                   end;
        if (inParent : bool) then
          st2 ← Env.set st1 env name v; Ok (v, st2)
        else Ok (v, Env.call_define env name v st1)
  end.

(** The closure [action] of [evaluateActionDeclaration], applied.  The
    captured [env] is a reference to an environment object, so it is in
    the store; the test only makes that explicit. *)
Definition callAction (params : list string) (body : list node)
    (env : loc) (args : list value) (st : state)
    : outcome (value * state) :=
  if (env <? length (envs st))%nat then
    let '(actionEnv, st1) := enter_action params env args st in
    '(lastValue, st2) ← evaluateStatements body actionEnv VNull st1;
    implicitReturn actionEnv lastValue st2
  else Unsupported.

Definition evaluateActionDeclaration (name : string) (params : list string)
    (body : list node) (env : loc) (st : state) : outcome (value * state) :=
  let action := VAction params body env in
  Ok (action, Env.call_define env name action st).

Definition evaluateCheckStatement (condition consequent : node)
    (alternate : option node) (env : loc) (st : state)
    : outcome (value * state) :=
  '(c, st1) ← ev condition env st;
  if isTruthy c then ev consequent env st1
  else match alternate with
       | Some alt => ev alt env st1
       | None => Ok (VNull, st1)
       end.

(** [for (let i = 0; i < iterable.length && i < this.maxIterations; i++)]
    on the array object [a]; [k] bounds the number of passes. *)
Fixpoint eachLoop (k : nat) (variable : string) (body : node) (env : loc)
    (a : loc) (i : nat) (result : value) (st : state)
    : outcome (value * state) :=
  match arrays st !! a with
  | None => Unsupported
  | Some xs =>
      if (i <? length xs)%nat && (i <? maxIterations this)%nat then
        match k with
        | 0 => OutOfFuel
        | S k' =>
            let '(loopEnv, st1) := newEnvironment (Some env) st in
            let st2 :=
              Env.call_define loopEnv variable (nth i xs VUndefined) st1 in
            '(r, st3) ← ev body loopEnv st2;
            eachLoop k' variable body env a (S i) r st3
        end
      else Ok (result, st)
  end.

Definition evaluateEachStatement (variable : string) (iterable body : node)
    (env : loc) (st : state) : outcome (value * state) :=
  '(it, st1) ← ev iterable env st;
  match it with
  | VArr a =>
      match arrays st1 !! a with
      | Some xs => eachLoop (length xs) variable body env a 0 VNull st1
      | None => Unsupported
      end
  | _ => Throw TypeError_each
  end.

(** [while (this.isTruthy(this.evaluate(node.condition, env)))];
    [k] bounds the number of passes. *)
Fixpoint asLoop (k : nat) (condition body : node) (env : loc)
    (iterations : nat) (result : value) (st : state)
    : outcome (value * state) :=
  '(c, st1) ← ev condition env st;
  if isTruthy c then
    if (maxIterations this <=? iterations)%nat then Throw RuntimeLimitError
    else
      '(r, st2) ← ev body env st1;
      match k with
      | 0 => OutOfFuel
      | S k' => asLoop k' condition body env (S iterations) r st2
      end
  else Ok (result, st1).

Definition evaluateAsStatement (condition body : node) (env : loc)
    (st : state) : outcome (value * state) :=
  asLoop (maxIterations this) condition body env 0 VNull st.

Definition evaluateBinaryExpression (operator : string) (left right : node)
    (env : loc) (st : state) : outcome (value * state) :=
  '(l, st1) ← ev left env st;
  '(r, st2) ← ev right env st1;
  v ← binary_operator operator l r;
  Ok (v, st2).

Definition evaluateUnaryExpression (operator : string) (argument : node)
    (env : loc) (st : state) : outcome (value * state) :=
  '(a, st1) ← ev argument env st;
  v ← unary_operator operator a;
  Ok (v, st1).

(** [fn(...args)] *)
Definition applyFunction (fn : value) (args : list value) (st : state)
    : outcome (value * state) :=
  match fn with
  | VAction params body env => callAction params body env args st
  | VBuiltin name => Builtins.call name args st
  | _ => Unsupported
  end.

Definition evaluateCallExpression (callee : node) (args : list node)
    (env : loc) (st : state) : outcome (value * state) :=
  '(fn, st1) ← ev callee env st;
  if is_function fn then
    '(vs, st2) ← evaluateAll args env st1;
    applyFunction fn vs st2
  else Throw (Error_ (node_name callee +:+ " is not a function")).

Definition evaluateMemberExpression (object property : node)
    (computed : bool) (env : loc) (st : state) : outcome (value * state) :=
  '(o, st1) ← ev object env st;
  if computed then
    '(p, st2) ← ev property env st1;
    v ← get_member o p st2;
    Ok (v, st2)
  else
    v ← get_member o (VStr (node_name property)) st1;
    Ok (v, st1).

Definition evaluateArrayExpression (elements : list node) (env : loc)
    (st : state) : outcome (value * state) :=
  '(vs, st1) ← evaluateAll elements env st;
  Ok (VArr (length (arrays st1)), with_arrays st1 (arrays st1 ++ [vs])).

Definition evaluateIdentifier (name : string) (env : loc) (st : state)
    : outcome (value * state) :=
  v ← Env.get st env name;
  Ok (v, st).

End Evaluate.

(** [Interpreter.prototype.evaluate]; [fuel] bounds the recursion depth. *)
Fixpoint evaluate (this : Interpreter) (fuel : nat) (nd : node) (env : loc)
    (st : state) {struct fuel} : outcome (value * state) :=
  match fuel with
  | 0 => OutOfFuel
  | S n =>
      let ev := evaluate this n in
      match nd with
      | Program statements => evaluateProgram ev statements env st
      | NodeDeclaration name valueNode =>
          evaluateNodeDeclaration ev name valueNode env st
      | ActionDeclaration name params body =>
          evaluateActionDeclaration name params body env st
      | CheckStatement condition consequent alternate =>
          evaluateCheckStatement ev condition consequent alternate env st
      | EachStatement variable iterable body =>
          evaluateEachStatement this ev variable iterable body env st
      | AsStatement condition body =>
          evaluateAsStatement this ev condition body env st
      | BlockStatement statements =>
          evaluateBlockStatement ev statements env st
      | BinaryExpression operator l r =>
          evaluateBinaryExpression ev operator l r env st
      | UnaryExpression operator argument =>
          evaluateUnaryExpression ev operator argument env st
      | CallExpression callee args =>
          evaluateCallExpression ev callee args env st
      | MemberExpression object property computed =>
          evaluateMemberExpression ev object property computed env st
      | ArrayExpression elements => evaluateArrayExpression ev elements env st
      | Identifier name => evaluateIdentifier name env st
      | Literal l => Ok (value_of_lit l, st)
      end
  end.

(** [new Interpreter()]: the global environment holds every builtin and
    the iteration ceiling is 10000. *)
Definition Interpreter_new : Interpreter * state :=
  (mkInterpreter 0 10000,
   mkState
     [ mkEnvironment None
         (list_to_map (map (fun n => (n, VBuiltin n)) Builtins.names)) None ]
     [] []).

(** [Interpreter.prototype.execute] *)
Definition execute (this : Interpreter) (fuel : nat) (ast : node)
    (st : state) : outcome (value * state) :=
  evaluate this fuel ast (globalEnv this) st.

(* ================================================================= *)
(** ** lexer.js *)

Module Lexer.

Inductive TokenType : Type :=
| CHECK | ELSE | EACH | AS | ACTION | END | IN
| IDENTIFIER | NUMBER | STRING | BOOLEAN
| PLUS | MINUS | MULTIPLY | DIVIDE | MODULO | ASSIGN
| EQUAL | NOT_EQUAL | LESS_THAN | GREATER_THAN | LESS_EQUAL | GREATER_EQUAL
| AND | OR | NOT
| LPAREN | RPAREN | LBRACE | RBRACE | LBRACKET | RBRACKET | COMMA | DOT
| NEWLINE | EOF.

(** The [value] field of a token. *)
Inductive literal : Type :=
| NumberValue (f : float)
| StringValue (s : string)
| BooleanValue (b : bool)
| NullValue.

Record Token : Type := mkToken {
  type : TokenType;
  tvalue : literal;
  tline : nat;
  tcolumn : nat
}.

Record Lexer : Type := mkLexer {
  input : list ascii;
  position : nat;
  line : nat;
  column : nat;
  tokens : list Token
}.

(** [new Lexer(input)] *)
Definition new (text : string) : Lexer :=
  mkLexer (list_ascii_of_string text) 0 1 1 [].

Definition KEYWORDS : list (string * TokenType) :=
  [ ("check", CHECK); ("else", ELSE); ("each", EACH); ("as", AS);
    ("action", ACTION); ("end", END); ("in", IN);
    ("true", BOOLEAN); ("false", BOOLEAN) ].

Definition code (c : ascii) : nat := nat_of_ascii c.

(** [/[0-9]/] *)
Definition is_digit (c : ascii) : bool :=
  (48 <=? code c) && (code c <=? 57).

(** [/[a-zA-Z_]/] *)
Definition is_letter (c : ascii) : bool :=
  ((65 <=? code c) && (code c <=? 90)) ||
  ((97 <=? code c) && (code c <=? 122)) || (code c =? 95).

(** [/[ \t\r]/] *)
Definition is_blank (c : ascii) : bool :=
  (code c =? 32) || (code c =? 9) || (code c =? 13).

Definition is_char (c : ascii) (o : option ascii) : bool :=
  match o with
  | Some c' => Ascii.eqb c' c
  | None => false
  end.

Definition newline : ascii := ascii_of_nat 10.
Definition double_quote : ascii := ascii_of_nat 34.
Definition single_quote : ascii := ascii_of_nat 39.
Definition backslash : ascii := ascii_of_nat 92.

Definition peek (lx : Lexer) (offset : nat) : option ascii :=
  input lx !! (position lx + offset).

(** [advance]: the character at the position, [None] past the end. *)
Definition advance (lx : Lexer) : option ascii * Lexer :=
  let char := input lx !! position lx in
  (char,
   if is_char newline char
   then mkLexer (input lx) (S (position lx)) (S (line lx)) 1 (tokens lx)
   else mkLexer (input lx) (S (position lx)) (line lx) (S (column lx))
          (tokens lx)).

Definition push_token (t : Token) (lx : Lexer) : Lexer :=
  mkLexer (input lx) (position lx) (line lx) (column lx) (tokens lx ++ [t]).

(** In every loop below [k] bounds the number of passes; a pass consumes
    a character, so the length of the input is enough. *)
Fixpoint skipWhitespace (k : nat) (lx : Lexer) : outcome Lexer :=
  match peek lx 0 with
  | Some c =>
      if is_blank c then
        match k with
        | 0 => OutOfFuel
        | S k' => skipWhitespace k' (advance lx).2
        end
      else Ok lx
  | None => Ok lx
  end.

Fixpoint skipComment_loop (k : nat) (lx : Lexer) : outcome Lexer :=
  match peek lx 0 with
  | Some c =>
      if negb (Ascii.eqb c newline) then
        match k with
        | 0 => OutOfFuel
        | S k' => skipComment_loop k' (advance lx).2
        end
      else Ok lx
  | None => Ok lx
  end.

Definition skipComment (k : nat) (lx : Lexer) : outcome Lexer :=
  if is_char "/" (peek lx 0) && is_char "/" (peek lx 1)
  then skipComment_loop k lx
  else Ok lx.

(** The loop of [readNumber]: [num] is the text read so far. *)
Fixpoint readNumber_loop (k : nat) (lx : Lexer) (num : list ascii)
    (hasDecimal : bool) : outcome (list ascii * Lexer) :=
  match peek lx 0 with
  | Some c =>
      if is_digit c || (Ascii.eqb c "." && negb hasDecimal) then
        match k with
        | 0 => OutOfFuel
        | S k' =>
            let hasDecimal' := if Ascii.eqb c "." then true else hasDecimal in
            readNumber_loop k' (advance lx).2 (num ++ [c]) hasDecimal'
        end
      else Ok (num, lx)
  | None => Ok (num, lx)
  end.

Definition digit_value (c : ascii) : Z := Z.of_nat (code c) - 48.

Definition digits_value (ds : list ascii) : Z :=
  fold_left (fun acc c => 10 * acc + digit_value c)%Z ds 0%Z.

(** The characters before the first point. *)
Fixpoint before_point (num : list ascii) : list ascii :=
  match num with
  | [] => []
  | c :: rest => if Ascii.eqb c "." then [] else c :: before_point rest
  end.

Definition number_of_Z (z : Z) : float :=
  PrimFloat.of_uint63 (Uint63.of_Z z).

(** [parseFloat] on the text [readNumber] collects: digits with at most
    one point.  The digits without the point denote an integer [m] and
    the literal denotes [m / 10^d] for [d] digits after the point.  For
    [m < 2^53] and [d <= 18] both are 63-bit integers that are binary64
    values, and their quotient, rounded once, is the nearest binary64
    value, which is what [parseFloat] returns.  Longer literals are not
    covered. *)
Definition parseFloat (num : list ascii) : outcome float :=
  let whole := before_point num in
  let frac := drop (S (length whole)) num in
  let m := digits_value (whole ++ frac) in
  let d := length frac in
  if (m <? 2 ^ 53)%Z && (d <=? 18) then
    Ok (PrimFloat.div (number_of_Z m) (number_of_Z (10 ^ Z.of_nat d)))
  else Unsupported.

Definition readNumber (k : nat) (lx : Lexer) : outcome (Token * Lexer) :=
  let startLine := line lx in
  let startColumn := column lx in
  '(num, lx') ← readNumber_loop k lx [] false;
  v ← parseFloat num;
  Ok (mkToken NUMBER (NumberValue v) startLine startColumn, lx').

Definition at_position (l c : nat) : string :=
  " at line " +:+ pretty l +:+ ", column " +:+ pretty c.

Definition escape (next : option ascii) : list ascii :=
  match next with
  | Some c =>
      if Ascii.eqb c "n" then [newline]
      else if Ascii.eqb c "t" then [ascii_of_nat 9]
      else if Ascii.eqb c "r" then [ascii_of_nat 13]
      else [c]
  | None => list_ascii_of_string "undefined"
  end.

Fixpoint readString_loop (k : nat) (quote : ascii) (lx : Lexer)
    (str : list ascii) : outcome (list ascii * Lexer) :=
  match peek lx 0 with
  | Some c =>
      if negb (Ascii.eqb c quote) then
        match k with
        | 0 => OutOfFuel
        | S k' =>
            if Ascii.eqb c backslash then
              let lx1 := (advance lx).2 in
              let '(next, lx2) := advance lx1 in
              readString_loop k' quote lx2 (str ++ escape next)
            else readString_loop k' quote (advance lx).2 (str ++ [c])
        end
      else Ok (str, lx)
  | None => Ok (str, lx)
  end.

Definition readString (k : nat) (lx : Lexer) : outcome (Token * Lexer) :=
  let startLine := line lx in
  let startColumn := column lx in
  match advance lx with
  | (Some quote, lx1) =>
      '(str, lx2) ← readString_loop k quote lx1 [];
      if is_char quote (peek lx2 0) then
        Ok (mkToken STRING (StringValue (string_of_list_ascii str))
              startLine startColumn, (advance lx2).2)
      else Throw (Error_ ("Unterminated string"
                          +:+ at_position startLine startColumn))
  | (None, _) => Unsupported
  end.

Fixpoint readIdentifier_loop (k : nat) (lx : Lexer) (id : list ascii)
    : outcome (list ascii * Lexer) :=
  match peek lx 0 with
  | Some c =>
      if is_letter c || is_digit c then
        match k with
        | 0 => OutOfFuel
        | S k' => readIdentifier_loop k' (advance lx).2 (id ++ [c])
        end
      else Ok (id, lx)
  | None => Ok (id, lx)
  end.

(** [KEYWORDS[id] || TokenType.IDENTIFIER].  [KEYWORDS] is an object
    literal: for a name it inherits from [Object.prototype] the lookup
    yields that inherited member, which is no token type. *)
Definition classify (id : string) : outcome TokenType :=
  match Builtins.find_entry id KEYWORDS with
  | Some t => Ok t
  | None => if includes Object_prototype_names id then Unsupported
            else Ok IDENTIFIER
  end.

Definition readIdentifier (k : nat) (lx : Lexer)
    : outcome (Token * Lexer) :=
  let startLine := line lx in
  let startColumn := column lx in
  '(chars, lx') ← readIdentifier_loop k lx [];
  let id := string_of_list_ascii chars in
  t ← classify id;
  let v := match t with
           | BOOLEAN => BooleanValue (String.eqb id "true")
           | _ => StringValue id
           end in
  Ok (mkToken t v startLine startColumn, lx').

Definition twoChar : list (ascii * ascii * (TokenType * string)) :=
  [ ("="%char, "="%char, (EQUAL, "=="));
    ("!"%char, "="%char, (NOT_EQUAL, "!="));
    ("<"%char, "="%char, (LESS_EQUAL, "<="));
    (">"%char, "="%char, (GREATER_EQUAL, ">="));
    ("&"%char, "&"%char, (AND, "&&"));
    ("|"%char, "|"%char, (OR, "||")) ].

Definition singleChar : list (string * TokenType) :=
  [ ("+", PLUS); ("-", MINUS); ("*", MULTIPLY); ("/", DIVIDE);
    ("%", MODULO); ("=", ASSIGN); ("<", LESS_THAN); (">", GREATER_THAN);
    ("!", NOT); ("(", LPAREN); (")", RPAREN); ("{", LBRACE); ("}", RBRACE);
    ("[", LBRACKET); ("]", RBRACKET); (",", COMMA); (".", DOT) ].

Fixpoint find_two (c : ascii) (next : option ascii)
    (table : list (ascii * ascii * (TokenType * string)))
    : option (TokenType * string) :=
  match table with
  | [] => None
  | (a, b, t) :: rest =>
      if Ascii.eqb c a && is_char b next then Some t
      else find_two c next rest
  end.

Definition string_of_char (c : ascii) : string := String c EmptyString.

(** One pass of the [while] loop of [tokenize], after the whitespace has
    been skipped, on the character [char]. *)
Definition scan (k : nat) (char : ascii) (lx : Lexer) : outcome Lexer :=
  let startLine := line lx in
  let startColumn := column lx in
  if Ascii.eqb char "/" && is_char "/" (peek lx 1) then skipComment k lx
  else if Ascii.eqb char newline then
    Ok (push_token
          (mkToken NEWLINE (StringValue (string_of_char newline))
             startLine startColumn)
          (advance lx).2)
  else if is_digit char then
    '(t, lx') ← readNumber k lx; Ok (push_token t lx')
  else if Ascii.eqb char double_quote || Ascii.eqb char single_quote then
    '(t, lx') ← readString k lx; Ok (push_token t lx')
  else if is_letter char then
    '(t, lx') ← readIdentifier k lx; Ok (push_token t lx')
  else
    match find_two char (peek lx 1) twoChar with
    | Some (t, text) =>
        Ok (push_token (mkToken t (StringValue text) startLine startColumn)
              (advance (advance lx).2).2)
    | None =>
        match Builtins.find_entry (string_of_char char) singleChar with
        | Some t =>
            Ok (push_token
                  (mkToken t (StringValue (string_of_char char))
                     startLine startColumn)
                  (advance lx).2)
        | None =>
            Throw (Error_ ("Unexpected character '" +:+ string_of_char char
                           +:+ "'" +:+ at_position startLine startColumn))
        end
    end.

Fixpoint tokenize_loop (k : nat) (bound : nat) (lx : Lexer)
    : outcome Lexer :=
  if position lx <? length (input lx) then
    lx1 ← skipWhitespace bound lx;
    match peek lx1 0 with
    | None => Ok lx1
    | Some char =>
        match k with
        | 0 => OutOfFuel
        | S k' => lx2 ← scan bound char lx1; tokenize_loop k' bound lx2
        end
    end
  else Ok lx.

Definition tokenize (text : string) : outcome (list Token) :=
  let lx := new text in
  let bound := length (input lx) in
  lx' ← tokenize_loop bound bound lx;
  Ok (tokens lx' ++ [mkToken EOF NullValue (line lx') (column lx')]).

End Lexer.

(* ================================================================= *)
(** ** parser.js *)

Module Parser.

Global Instance TokenType_eq_dec : EqDecision Lexer.TokenType.
Proof. solve_decision. Defined.

(** The string a token type is: each entry of [TokenType] maps a name to
    that same name. *)
Definition type_name (t : Lexer.TokenType) : string :=
  match t with
  | Lexer.CHECK => "CHECK" | Lexer.ELSE => "ELSE" | Lexer.EACH => "EACH"
  | Lexer.AS => "AS" | Lexer.ACTION => "ACTION" | Lexer.END => "END"
  | Lexer.IN => "IN" | Lexer.IDENTIFIER => "IDENTIFIER"
  | Lexer.NUMBER => "NUMBER" | Lexer.STRING => "STRING"
  | Lexer.BOOLEAN => "BOOLEAN" | Lexer.PLUS => "PLUS"
  | Lexer.MINUS => "MINUS" | Lexer.MULTIPLY => "MULTIPLY"
  | Lexer.DIVIDE => "DIVIDE" | Lexer.MODULO => "MODULO"
  | Lexer.ASSIGN => "ASSIGN" | Lexer.EQUAL => "EQUAL"
  | Lexer.NOT_EQUAL => "NOT_EQUAL" | Lexer.LESS_THAN => "LESS_THAN"
  | Lexer.GREATER_THAN => "GREATER_THAN" | Lexer.LESS_EQUAL => "LESS_EQUAL"
  | Lexer.GREATER_EQUAL => "GREATER_EQUAL" | Lexer.AND => "AND"
  | Lexer.OR => "OR" | Lexer.NOT => "NOT" | Lexer.LPAREN => "LPAREN"
  | Lexer.RPAREN => "RPAREN" | Lexer.LBRACE => "LBRACE"
  | Lexer.RBRACE => "RBRACE" | Lexer.LBRACKET => "LBRACKET"
  | Lexer.RBRACKET => "RBRACKET" | Lexer.COMMA => "COMMA"
  | Lexer.DOT => "DOT" | Lexer.NEWLINE => "NEWLINE" | Lexer.EOF => "EOF"
  end.

Record Parser : Type := mkParser {
  tokens : list Lexer.Token;
  position : nat
}.

(** [new Parser(tokens)]: the NEWLINE tokens are dropped. *)
Definition new (toks : list Lexer.Token) : Parser :=
  mkParser (filter (fun t => Lexer.type t ≠ Lexer.NEWLINE) toks) 0.

(** [current()]: [None] is [undefined], past the last token. *)
Definition current (p : Parser) : option Lexer.Token :=
  tokens p !! position p.

Definition peek (p : Parser) (offset : nat) : option Lexer.Token :=
  tokens p !! (position p + offset).

Definition advance (p : Parser) : option Lexer.Token * Parser :=
  (tokens p !! position p, mkParser (tokens p) (S (position p))).

(** [${token?.type}] and [${token?.line}] *)
Definition type_text (token : option Lexer.Token) : string :=
  match token with
  | Some t => type_name (Lexer.type t)
  | None => "undefined"
  end.

Definition line_text (token : option Lexer.Token) : string :=
  match token with
  | Some t => pretty (Lexer.tline t)
  | None => "undefined"
  end.

(** [expect(type)]; no caller passes a message. *)
Definition expect (type : Lexer.TokenType) (p : Parser)
    : outcome (Lexer.Token * Parser) :=
  match current p with
  | Some token =>
      if bool_decide (Lexer.type token = type) then Ok (token, (advance p).2)
      else Throw (Error_ ("Expected " +:+ type_name type +:+ " but got "
                          +:+ type_text (Some token) +:+ " at line "
                          +:+ line_text (Some token)))
  | None =>
      Throw (Error_ ("Expected " +:+ type_name type +:+ " but got "
                     +:+ type_text None +:+ " at line " +:+ line_text None))
  end.

(** [match(...types)], as a condition. *)
Definition match_ (types : list Lexer.TokenType) (p : Parser) : bool :=
  match current p with
  | Some token => bool_decide (Lexer.type token ∈ types)
  | None => false
  end.

(** [token.value] where the code uses it as a name or as an operator:
    the scanner stores a string there. *)
Definition text_value (token : option Lexer.Token) : outcome string :=
  match token with
  | Some t => match Lexer.tvalue t with
              | Lexer.StringValue s => Ok s
              | _ => Unsupported
              end
  | None => Unsupported
  end.

(** [new Literal(token.value)] *)
Definition literal_value (token : option Lexer.Token) : outcome lit :=
  match token with
  | Some t => match Lexer.tvalue t with
              | Lexer.NumberValue f => Ok (LNum f)
              | Lexer.StringValue s => Ok (LStr s)
              | Lexer.BooleanValue b => Ok (LBool b)
              | Lexer.NullValue => Unsupported
              end
  | None => Unsupported
  end.

(** [if (this.match(TokenType.COMMA)) this.advance()] *)
Definition skipComma (p : Parser) : Parser :=
  if match_ [Lexer.COMMA] p then (advance p).2 else p.

Section Expressions.

(** [this.parseExpression], one level deeper in the recursion. *)
Variable parseExpression_ : Parser → outcome (node * Parser).

(** The loop that reads call arguments and array elements up to the
    token [close]:
    [do { items.push(this.parseExpression());
          if (this.match(TokenType.COMMA)) this.advance();
        } while (!this.match(close))].  [k] bounds the passes. *)
Fixpoint parseItems (close : Lexer.TokenType) (k : nat) (items : list node)
    (p : Parser) : outcome (list node * Parser) :=
  '(item, p1) ← parseExpression_ p;
  let p2 := skipComma p1 in
  if match_ [close] p2 then Ok (items ++ [item], p2)
  else match k with
       | 0 => OutOfFuel
       | S k' => parseItems close k' (items ++ [item]) p2
       end.

(** [if (!this.match(close)) { do ... while ... } this.expect(close)] *)
Definition parseItemList (close : Lexer.TokenType) (p : Parser)
    : outcome (list node * Parser) :=
  '(items, p1) ← (if match_ [close] p then Ok ([], p)
                  else parseItems close (length (tokens p)) [] p);
  '(_, p2) ← expect close p1;
  Ok (items, p2).

Definition parsePrimary (p : Parser) : outcome (node * Parser) :=
  if match_ [Lexer.NUMBER] p then
    let '(token, p1) := advance p in
    v ← literal_value token; Ok (Literal v, p1)
  else if match_ [Lexer.STRING] p then
    let '(token, p1) := advance p in
    v ← literal_value token; Ok (Literal v, p1)
  else if match_ [Lexer.BOOLEAN] p then
    let '(token, p1) := advance p in
    v ← literal_value token; Ok (Literal v, p1)
  else if match_ [Lexer.IDENTIFIER] p then
    let '(token, p1) := advance p in
    name ← text_value token; Ok (Identifier name, p1)
  else if match_ [Lexer.LBRACKET] p then
    '(elements, p1) ← parseItemList Lexer.RBRACKET (advance p).2;
    Ok (ArrayExpression elements, p1)
  else if match_ [Lexer.LPAREN] p then
    '(expr, p1) ← parseExpression_ (advance p).2;
    '(_, p2) ← expect Lexer.RPAREN p1;
    Ok (expr, p2)
  else
    Throw (Error_ ("Unexpected token " +:+ type_text (current p)
                   +:+ " at line " +:+ line_text (current p))).

(** The [while (true)] loop of [parsePostfix]; [k] bounds the passes. *)
Fixpoint postfixLoop (k : nat) (expr : node) (p : Parser)
    : outcome (node * Parser) :=
  if match_ [Lexer.LPAREN] p then
    '(args, p1) ← parseItemList Lexer.RPAREN (advance p).2;
    match k with
    | 0 => OutOfFuel
    | S k' => postfixLoop k' (CallExpression expr args) p1
    end
  else if match_ [Lexer.LBRACKET] p then
    '(index, p1) ← parseExpression_ (advance p).2;
    '(_, p2) ← expect Lexer.RBRACKET p1;
    match k with
    | 0 => OutOfFuel
    | S k' => postfixLoop k' (MemberExpression expr index true) p2
    end
  else if match_ [Lexer.DOT] p then
    '(token, p1) ← expect Lexer.IDENTIFIER (advance p).2;
    property ← text_value (Some token);
    match k with
    | 0 => OutOfFuel
    | S k' =>
        postfixLoop k' (MemberExpression expr (Identifier property) false) p1
    end
  else Ok (expr, p).

Definition parsePostfix (p : Parser) : outcome (node * Parser) :=
  '(expr, p1) ← parsePrimary p;
  postfixLoop (length (tokens p)) expr p1.

(** [parseUnary] calls itself once for each prefix operator; [k] bounds
    their number. *)
Fixpoint parseUnary_ (k : nat) (p : Parser) : outcome (node * Parser) :=
  if match_ [Lexer.NOT; Lexer.MINUS] p then
    match k with
    | 0 => OutOfFuel
    | S k' =>
        let '(token, p1) := advance p in
        operator ← text_value token;
        '(argument, p2) ← parseUnary_ k' p1;
        Ok (UnaryExpression operator argument, p2)
    end
  else parsePostfix p.

Definition parseUnary (p : Parser) : outcome (node * Parser) :=
  parseUnary_ (length (tokens p)) p.

(** The loop shared by the six binary levels:
    [while (this.match(...types)) {
       const operator = this.advance().value;
       const right = next();
       left = new BinaryExpression(operator, left, right); }] *)
Fixpoint binaryLoop (types : list Lexer.TokenType)
    (next : Parser → outcome (node * Parser)) (k : nat) (lhs : node)
    (p : Parser) : outcome (node * Parser) :=
  if match_ types p then
    match k with
    | 0 => OutOfFuel
    | S k' =>
        let '(token, p1) := advance p in
        operator ← text_value token;
        '(rhs, p2) ← next p1;
        binaryLoop types next k' (BinaryExpression operator lhs rhs) p2
    end
  else Ok (lhs, p).

Definition binaryLevel (types : list Lexer.TokenType)
    (next : Parser → outcome (node * Parser)) (p : Parser)
    : outcome (node * Parser) :=
  '(lhs, p1) ← next p;
  binaryLoop types next (length (tokens p)) lhs p1.

Definition parseMultiplicative : Parser → outcome (node * Parser) :=
  binaryLevel [Lexer.MULTIPLY; Lexer.DIVIDE; Lexer.MODULO] parseUnary.

Definition parseAdditive : Parser → outcome (node * Parser) :=
  binaryLevel [Lexer.PLUS; Lexer.MINUS] parseMultiplicative.

Definition parseRelational : Parser → outcome (node * Parser) :=
  binaryLevel [Lexer.LESS_THAN; Lexer.GREATER_THAN; Lexer.LESS_EQUAL;
               Lexer.GREATER_EQUAL] parseAdditive.

Definition parseEquality : Parser → outcome (node * Parser) :=
  binaryLevel [Lexer.EQUAL; Lexer.NOT_EQUAL] parseRelational.

Definition parseLogicalAnd : Parser → outcome (node * Parser) :=
  binaryLevel [Lexer.AND] parseEquality.

Definition parseLogicalOr : Parser → outcome (node * Parser) :=
  binaryLevel [Lexer.OR] parseLogicalAnd.

End Expressions.

(** [parseExpression]; [fuel] bounds the nesting depth of brackets. *)
Fixpoint parseExpression_fuel (fuel : nat) (p : Parser)
    : outcome (node * Parser) :=
  match fuel with
  | 0 => OutOfFuel
  | S n => parseLogicalOr (parseExpression_fuel n) p
  end.

(** Every level of nesting consumes a token, so the number of tokens is
    enough. *)
Definition parseExpression (p : Parser) : outcome (node * Parser) :=
  parseExpression_fuel (S (length (tokens p))) p.

Section Statements.

(** [this.parseStatement], one level deeper in the recursion. *)
Variable parseStatement_ : Parser → outcome (node * Parser).

(** [while (!this.match(END, ELSE, EOF))
       statements.push(this.parseStatement())] *)
Fixpoint parseBlock_loop (k : nat) (statements : list node) (p : Parser)
    : outcome (list node * Parser) :=
  if negb (match_ [Lexer.END; Lexer.ELSE; Lexer.EOF] p) then
    match k with
    | 0 => OutOfFuel
    | S k' =>
        '(statement, p1) ← parseStatement_ p;
        parseBlock_loop k' (statements ++ [statement]) p1
    end
  else Ok (statements, p).

(** [parseBlock], returning the statements of the block. *)
Definition parseBlock (p : Parser) : outcome (list node * Parser) :=
  parseBlock_loop (length (tokens p)) [] p.

(** The loop that reads the parameter names:
    [do { params.push(this.expect(TokenType.IDENTIFIER).value);
          if (this.match(TokenType.COMMA)) this.advance();
        } while (!this.match(TokenType.RPAREN))] *)
Fixpoint parseParams (k : nat) (params : list string) (p : Parser)
    : outcome (list string * Parser) :=
  '(token, p1) ← expect Lexer.IDENTIFIER p;
  name ← text_value (Some token);
  let p2 := skipComma p1 in
  if match_ [Lexer.RPAREN] p2 then Ok (params ++ [name], p2)
  else match k with
       | 0 => OutOfFuel
       | S k' => parseParams k' (params ++ [name]) p2
       end.

Definition parseActionDeclaration (p : Parser) : outcome (node * Parser) :=
  '(_, p1) ← expect Lexer.ACTION p;
  '(token, p2) ← expect Lexer.IDENTIFIER p1;
  name ← text_value (Some token);
  '(_, p3) ← expect Lexer.LPAREN p2;
  '(params, p4) ← (if match_ [Lexer.RPAREN] p3 then Ok ([], p3)
                   else parseParams (length (tokens p)) [] p3);
  '(_, p5) ← expect Lexer.RPAREN p4;
  '(body, p6) ← parseBlock p5;
  '(_, p7) ← expect Lexer.END p6;
  Ok (ActionDeclaration name params body, p7).

Definition parseCheckStatement (p : Parser) : outcome (node * Parser) :=
  '(_, p1) ← expect Lexer.CHECK p;
  '(_, p2) ← expect Lexer.LPAREN p1;
  '(condition, p3) ← parseExpression p2;
  '(_, p4) ← expect Lexer.RPAREN p3;
  '(consequent, p5) ← parseBlock p4;
  '(alternate, p6) ←
    (if match_ [Lexer.ELSE] p5 then
       '(statements, p6) ← parseBlock (advance p5).2;
       Ok (Some (BlockStatement statements), p6)
     else Ok (None, p5));
  '(_, p7) ← expect Lexer.END p6;
  Ok (CheckStatement condition (BlockStatement consequent) alternate, p7).

Definition parseEachStatement (p : Parser) : outcome (node * Parser) :=
  '(_, p1) ← expect Lexer.EACH p;
  '(_, p2) ← expect Lexer.LPAREN p1;
  '(token, p3) ← expect Lexer.IDENTIFIER p2;
  variable ← text_value (Some token);
  '(_, p4) ← expect Lexer.IN p3;
  '(iterable, p5) ← parseExpression p4;
  '(_, p6) ← expect Lexer.RPAREN p5;
  '(body, p7) ← parseBlock p6;
  '(_, p8) ← expect Lexer.END p7;
  Ok (EachStatement variable iterable (BlockStatement body), p8).

Definition parseAsStatement (p : Parser) : outcome (node * Parser) :=
  '(_, p1) ← expect Lexer.AS p;
  '(_, p2) ← expect Lexer.LPAREN p1;
  '(condition, p3) ← parseExpression p2;
  '(_, p4) ← expect Lexer.RPAREN p3;
  '(body, p5) ← parseBlock p4;
  '(_, p6) ← expect Lexer.END p5;
  Ok (AsStatement condition (BlockStatement body), p6).

(** [this.peek()?.type === TokenType.ASSIGN] *)
Definition peek_is (type : Lexer.TokenType) (p : Parser) : bool :=
  match peek p 1 with
  | Some token => bool_decide (Lexer.type token = type)
  | None => false
  end.

Definition parseExpressionStatement (p : Parser) : outcome (node * Parser) :=
  if match_ [Lexer.IDENTIFIER] p && peek_is Lexer.ASSIGN p then
    let '(token, p1) := advance p in
    name ← text_value token;
    let p2 := (advance p1).2 in
    '(value, p3) ← parseExpression p2;
    Ok (NodeDeclaration name value, p3)
  else parseExpression p.

Definition parseStatement_body (p : Parser) : outcome (node * Parser) :=
  if match_ [Lexer.ACTION] p then parseActionDeclaration p
  else if match_ [Lexer.CHECK] p then parseCheckStatement p
  else if match_ [Lexer.EACH] p then parseEachStatement p
  else if match_ [Lexer.AS] p then parseAsStatement p
  else parseExpressionStatement p.

End Statements.

(** [parseStatement]; [fuel] bounds the nesting depth of blocks. *)
Fixpoint parseStatement_fuel (fuel : nat) (p : Parser)
    : outcome (node * Parser) :=
  match fuel with
  | 0 => OutOfFuel
  | S n => parseStatement_body (parseStatement_fuel n) p
  end.

Definition parseStatement (p : Parser) : outcome (node * Parser) :=
  parseStatement_fuel (S (length (tokens p))) p.

(** [while (this.current() && this.current().type !== TokenType.EOF)
       statements.push(this.parseStatement())] *)
Fixpoint parse_loop (k : nat) (statements : list node) (p : Parser)
    : outcome (list node) :=
  match current p with
  | Some token =>
      if bool_decide (Lexer.type token ≠ Lexer.EOF) then
        match k with
        | 0 => OutOfFuel
        | S k' =>
            '(statement, p1) ← parseStatement p;
            parse_loop k' (statements ++ [statement]) p1
        end
      else Ok statements
  | None => Ok statements
  end.

(** [parse()] *)
Definition parse (p : Parser) : outcome node :=
  statements ← parse_loop (length (tokens p)) [] p;
  Ok (Program statements).

End Parser.

(* ================================================================= *)
(** ** index.js *)

(** [PlutoInterpreter.prototype.execute]: scan, parse and run [code],
    rethrowing every error with the prefix of the product.  [fuel] is the
    fuel of [evaluate]. *)
Definition PlutoInterpreter_execute (this : Interpreter) (fuel : nat)
    (code : string) (st : state) : outcome (value * state) :=
  match
    toks ← Lexer.tokenize code;
    ast ← Parser.parse (Parser.new toks);
    execute this fuel ast st
  with
  | Throw (Error_ message) => Throw (Error_ ("Pluto Error: " +:+ message))
  | r => r
  end.

(* ================================================================= *)
(** ** Invariants of the store *)

(** Every name recorded by the hooks of an environment is bound in that
    environment, and is recorded once. *)
Definition tracked_ok (st : state) : Prop :=
  ∀ e fr t, envs st !! e = Some fr → hooks fr = Some t →
    NoDup (assignedVars t) ∧
    ∀ x, x ∈ assignedVars t → is_Some (variables fr !! x).

Definition good (st : state) : Prop := wf_envs st ∧ tracked_ok st.

(** How an environment may change while a node is evaluated. *)
Definition frame_ext (fr fr' : Environment) : Prop :=
  parent fr' = parent fr ∧
  tr_params <$> hooks fr' = tr_params <$> hooks fr ∧
  match hooks fr, hooks fr' with
  | Some t, Some t' => assignedVars t `prefix_of` assignedVars t'
  | _, _ => True
  end.

(** [ext e st st']: [st'] extends [st] by an evaluation in the environment
    [e].  Existing arrays are unchanged, existing environments keep their
    parent and their hooks, and a plain environment other than [e] binds
    the same names as before. *)
Definition ext (e : loc) (st st' : state) : Prop :=
  arrays st `prefix_of` arrays st' ∧
  ∀ g fr, envs st !! g = Some fr →
    ∃ fr', envs st' !! g = Some fr' ∧ frame_ext fr fr' ∧
           (g ≠ e → hooks fr = None →
            dom (variables fr') = dom (variables fr)).

(** The effect of the installed [define]/[set] as one update. *)
Definition action_define_frame (t : tracker) (name : string) (v : value)
    (fr : Environment) : Environment :=
  mkEnvironment (parent fr) (<[name := v]> (variables fr))
    (if includes (tr_params t) name then hooks fr
     else match hooks fr with
          | Some t0 =>
              Some (mkTracker (tr_params t0) (Set_add name (assignedVars t0)))
          | None => None
          end).

(** A computation run in environment [e] keeps the invariants and extends
    the store. *)
Definition sound {A} (e : loc) (m : state → outcome (A * state)) : Prop :=
  ∀ st a st', m st = Ok (a, st') → good st → e < length (envs st) →
              good st' ∧ ext e st st'.

(** A builtin leaves the environments and the existing arrays alone. *)
Definition builtin_ok (f : list value → state → outcome (value * state))
    : Prop :=
  ∀ args st v st', f args st = Ok (v, st') →
    envs st' = envs st ∧ arrays st `prefix_of` arrays st'.

(** The environment at [a] is a plain instance. *)
Definition plain_at (st : state) (a : loc) : Prop :=
  ∃ fr, envs st !! a = Some fr ∧ hooks fr = None.

(** The hooks installed at [a] account for the bindings of the
    environment: no recorded name is a parameter of the call, and every
    name the environment binds is a parameter or has been recorded. *)
Definition accounted_at (a : loc) (st : state) : Prop :=
  ∀ fr t, envs st !! a = Some fr → hooks fr = Some t →
    (∀ x, x ∈ assignedVars t → x ∉ tr_params t) ∧
    (∀ x, is_Some (variables fr !! x) →
          x ∈ tr_params t ∨ x ∈ assignedVars t).

(** A computation run in environment [e] keeps the account of [a]. *)
Definition accounting {A} (a e : loc) (m : state → outcome (A * state))
    : Prop :=
  ∀ st r st', m st = Ok (r, st') → good st → e < length (envs st) →
              accounted_at a st → accounted_at a st'.

(* ================================================================= *)
(** ** Specification functions *)

(** What the specification says an action call returns, given the names
    recorded for the call, the bindings of the call's scope and the value
    of the last body statement. *)
Definition implicit_return_spec (names : list string)
    (scope : string → option value) (lastValue result : value) : Prop :=
  match names with
  | [] => result = lastValue
  | [x] => scope x = Some result
  | _ => ∃ fields, result = VObj fields ∧ fields.*1 = names ∧
                   Forall (fun kv => scope kv.1 = Some kv.2) fields
  end.

Section LoopSpec.

Variable ev : node → loc → state → outcome (value * state).

(** The scope of one pass of an each-loop: a new child of [env] that binds
    the loop variable and nothing else. *)
Definition iteration_scope (env : loc) (variable : string) (x : value)
    (st : state) : loc * state :=
  (length (envs st),
   with_envs st
     (envs st ++ [mkEnvironment (Some env) {[variable := x]} None])).

(** Running the body once for each element of [items], in order, each
    pass in its own scope. *)
Fixpoint each_items (variable : string) (body : node) (env : loc)
    (items : list value) (result : value) (st : state)
    : outcome (value * state) :=
  match items with
  | [] => Ok (result, st)
  | x :: rest =>
      let '(loopEnv, st1) := iteration_scope env variable x st in
      '(r, st2) ← ev body loopEnv st1;
      each_items variable body env rest r st2
  end.

(** The condition of an as-loop is truthy [n + 1] times in a row, the body
    running after each of the first [n]. *)
Fixpoint stays_true (condition body : node) (env : loc) (n : nat)
    (st : state) : bool :=
  match ev condition env st with
  | Ok (c, st1) =>
      isTruthy c &&
      match n with
      | 0 => true
      | S n' =>
          match ev body env st1 with
          | Ok (_, st2) => stays_true condition body env n' st2
          | _ => false
          end
      end
  | _ => false
  end.

End LoopSpec.

(** The number of points in a text. *)
Fixpoint points (num : list ascii) : nat :=
  match num with
  | [] => 0
  | c :: rest => (if Ascii.eqb c "." then 1 else 0) + points rest
  end.

(* ================================================================= *)
(** ** Example programs and states *)

(** What an example looks at in the final state of a run. *)
Definition observe {A} (f : state → A) (r : outcome (value * state))
    : outcome (value * A) :=
  '(v, st) ← r; Ok (v, f st).

Definition final_state (r : outcome (value * state)) (d : state) : state :=
  match r with
  | Ok (_, st) => st
  | _ => d
  end.

Definition num (f : float) : node := Literal (LNum f).

(** A global scope binding [x] and a child scope binding [y]. *)
Definition chain_example : state :=
  mkState
    [ mkEnvironment None (<["x" := VBool true]> ∅) None;
      mkEnvironment (Some 0) (<["y" := VBool false]> ∅) None ]
    [] [].

(** [action calculate(a, b) sum = a + b  diff = a - b  prod = a * b end] *)
Definition calculate_body : list node :=
  [ NodeDeclaration "sum"
      (BinaryExpression "+" (Identifier "a") (Identifier "b"));
    NodeDeclaration "diff"
      (BinaryExpression "-" (Identifier "a") (Identifier "b"));
    NodeDeclaration "prod"
      (BinaryExpression "*" (Identifier "a") (Identifier "b")) ].

Definition calculate_final : state :=
  final_state
    (evaluateStatements (evaluate Interpreter_new.1 3) calculate_body 1
       VNull
       (enter_action ["a"; "b"] 0 [VNum 10; VNum 5] Interpreter_new.2).2)
    Interpreter_new.2.

(** A global scope that binds [xs] to an array of 10001 elements. *)
Definition long_array_state : state :=
  mkState [mkEnvironment None {["xs" := VArr 0]} None]
          [replicate 10001 VNull] [].

(** [sum = sum + item] *)
Definition add_item : node :=
  BlockStatement
    [ NodeDeclaration "sum"
        (BinaryExpression "+" (Identifier "sum") (Identifier "item")) ].

(** A global scope with [sum = 0] and [items = [1, 2, 3]]. *)
Definition sum_state : state :=
  mkState
    [mkEnvironment None (<["sum" := VNum 0]> {["items" := VArr 0]}) None]
    [[VNum 1; VNum 2; VNum 3]] [].

(** The scope of a call of an action without parameters (1) under a
    global scope that binds [g] (0), and the scope of one pass of an
    each-loop in the body (2). *)
Definition nested_state : state :=
  mkState
    [ mkEnvironment None {["g" := VNum 0]} None;
      mkEnvironment (Some 0) ∅ (Some (mkTracker [] []));
      mkEnvironment (Some 1) {["i" := VNum 1]} None ]
    [] [].

(** [each (i in [1]) g = 5 end], the body of the action [f] below. *)
Definition assign_global_body : list node :=
  [ EachStatement "i" (ArrayExpression [num 1])
      (BlockStatement [NodeDeclaration "g" (num 5)]) ].

(** The state in which [f] is called: after [g = 0] and the declaration
    of [f]. *)
Definition before_call : state :=
  final_state
    (execute Interpreter_new.1 3
       (Program [ NodeDeclaration "g" (num 0);
                  ActionDeclaration "f" [] assign_global_body ])
       Interpreter_new.2)
    Interpreter_new.2.

(** The store when the innermost assignment of
    [g = 0  action f() each (g in [1]) each (j in [2]) g = 5 end end 7 end
     f()]
    is about to run: the global scope (0), the scope of the call (1), the
    scope of the outer loop (2), which binds the loop variable [g], and
    the scope of the inner loop (3). *)
Definition deep_state : state :=
  mkState
    [ mkEnvironment None {["g" := VNum 0]} None;
      mkEnvironment (Some 0) ∅ (Some (mkTracker [] []));
      mkEnvironment (Some 1) {["g" := VNum 1]} None;
      mkEnvironment (Some 2) {["j" := VNum 2]} None ]
    [] [].

Definition shadowed_loop_body : list node :=
  [ EachStatement "g" (ArrayExpression [num 1])
      (BlockStatement
         [ EachStatement "j" (ArrayExpression [num 2])
             (BlockStatement [NodeDeclaration "g" (num 5)]) ]);
    num 7 ].

(* ================================================================= *)
(** ** Confinement of action calls: definitions *)

(** [guarded b st e]: walking from [e] towards the root, through plain
    environments, one reaches an environment with hooks, and every
    environment met on the way (that one included) has index at least
    [b]. *)
Inductive guarded (b : loc) (st : state) : loc → Prop :=
| guarded_here e fr t :
    b ≤ e → envs st !! e = Some fr → hooks fr = Some t →
    guarded b st e
| guarded_up e fr p :
    b ≤ e → envs st !! e = Some fr → hooks fr = None →
    parent fr = Some p → guarded b st p →
    guarded b st e.

(** The environments below [b] are the same objects with the same
    contents. *)
Definition same_below (b : loc) (st st' : state) : Prop :=
  ∀ g, g < b → envs st' !! g = envs st !! g.

(** A computation run in a guarded environment leaves the environments
    below the guard alone. *)
Definition confined {A} (b e : loc) (m : state → outcome (A * state))
    : Prop :=
  ∀ st a st', m st = Ok (a, st') → good st → e < length (envs st) →
              guarded b st e → same_below b st st'.

(** A store with the one global [g = 0], and the store after a call of
    an action whose body is [assign_global_body]. *)
Definition global_g : state :=
  mkState [mkEnvironment None {["g" := VNum 0]} None] [] [].

Definition global_g_called : state :=
  final_state
    (callAction (evaluate Interpreter_new.1 4) [] assign_global_body 0 []
       global_g)
    global_g.

(* ================================================================= *)
(** ** Progress of the scanner: definitions *)

(** The two errors of the scanner. *)
Definition lexical_error (message : string) : Prop :=
  (∃ c l k, message = "Unexpected character '" +:+ Lexer.string_of_char c
                      +:+ "'" +:+ Lexer.at_position l k) ∨
  (∃ l k, message = "Unterminated string" +:+ Lexer.at_position l k).

(** The [value] field fits the type of the token: a number for NUMBER,
    a boolean for BOOLEAN, null for EOF, a string for the others. *)
Definition well_typed (t : Lexer.Token) : bool :=
  match Lexer.type t, Lexer.tvalue t with
  | Lexer.NUMBER, Lexer.NumberValue _ => true
  | Lexer.NUMBER, _ => false
  | Lexer.BOOLEAN, Lexer.BooleanValue _ => true
  | Lexer.BOOLEAN, _ => false
  | Lexer.EOF, Lexer.NullValue => true
  | Lexer.EOF, _ => false
  | _, Lexer.StringValue _ => true
  | _, _ => false
  end.

(** A token the loop of the scanner makes. *)
Definition lexical (t : Lexer.Token) : Prop :=
  Lexer.type t ≠ Lexer.EOF ∧ well_typed t = true.

(** A numeric literal outside the range on which [parseFloat] is
    modelled: its digits denote 2^53 or more, or more than 18 of them
    follow the point. *)
Definition long_literal (num : list ascii) : Prop :=
  let whole := Lexer.before_point num in
  let frac := drop (S (length whole)) num in
  (2 ^ 53 ≤ Lexer.digits_value (whole ++ frac))%Z ∨ 18 < length frac.

(** The texts the embedding of the scanner leaves out.  Such a text
    contains a run of characters [w] that is either one of the names every
    object inherits from [Object.prototype], where [KEYWORDS[id]] is the
    inherited member and the token gets that member as its type, or a
    numeric literal (digits and points) that is a [long_literal]. *)
Definition left_out (text : list ascii) : Prop :=
  ∃ pre w post,
    text = pre ++ w ++ post ∧
    (string_of_list_ascii w ∈ Object_prototype_names ∨
     (Forall (fun c => Lexer.is_digit c = true ∨ c = "."%char) w ∧
      long_literal w)).

(** What a run of the scanner loop over [text] may end in: new tokens
    after the old ones, none of them the end marker, each with a value
    that fits its type; one of the two errors; no result, on a text that is
    [left_out]; never an exhausted bound. *)
Definition scanned (text : list ascii) (old : list Lexer.Token)
    (r : outcome Lexer.Lexer) : Prop :=
  match r with
  | Ok lx' => ∃ new, Lexer.tokens lx' = old ++ new ∧
                     Forall lexical new
  | Throw (Error_ message) => lexical_error message
  | Unsupported => left_out text
  | OutOfFuel => False
  end.

(* ================================================================= *)
(** ** String literals: definitions *)

(** How to write the character [c] inside a string literal delimited by
    [quote]: line feed, tab and carriage return by their escapes, the
    backslash and the delimiter behind a backslash, any other character as
    itself. *)
Definition encode_char (quote c : ascii) : list ascii :=
  if Ascii.eqb c Lexer.newline then [Lexer.backslash; "n"%char]
  else if Ascii.eqb c (ascii_of_nat 9) then [Lexer.backslash; "t"%char]
  else if Ascii.eqb c (ascii_of_nat 13) then [Lexer.backslash; "r"%char]
  else if Ascii.eqb c Lexer.backslash || Ascii.eqb c quote
       then [Lexer.backslash; c]
  else [c].

Definition encode_string (quote : ascii) (s : list ascii) : list ascii :=
  flat_map (encode_char quote) s.

(** The text of the literal that denotes [s]. *)
Definition string_literal (quote : ascii) (s : list ascii) : string :=
  string_of_list_ascii (quote :: encode_string quote s ++ [quote]).

(** The same text without its closing delimiter. *)
Definition open_string_literal (quote : ascii) (s : list ascii) : string :=
  string_of_list_ascii (quote :: encode_string quote s).

(** The scanner stands between [pre] and [rest]. *)
Definition between (pre rest : list ascii) (lx : Lexer.Lexer) : Prop :=
  Lexer.input lx = pre ++ rest ∧ Lexer.position lx = length pre.

(* ================================================================= *)
(** ** Words: definitions *)

(** [/[a-zA-Z0-9_]/] *)
Definition is_word_char (c : ascii) : bool :=
  Lexer.is_letter c || Lexer.is_digit c.

(** The [value] field of the token of a keyword. *)
Definition keyword_value (k : string) (t : Lexer.TokenType)
    : Lexer.literal :=
  match t with
  | Lexer.BOOLEAN => Lexer.BooleanValue (String.eqb k "true")
  | _ => Lexer.StringValue k
  end.

(* ================================================================= *)
(** ** Comments: definitions *)

(** The text of a comment with the content [w]. *)
Definition comment (w : list ascii) : string :=
  string_of_list_ascii ("/"%char :: "/"%char :: w).

(* ================================================================= *)
(** ** Precedence: definitions *)

(** The binding strength of the token types of the binary operators,
    weakest first. *)
Definition precedence (t : Lexer.TokenType) : option nat :=
  match t with
  | Lexer.OR => Some 1
  | Lexer.AND => Some 2
  | Lexer.EQUAL | Lexer.NOT_EQUAL => Some 3
  | Lexer.LESS_THAN | Lexer.GREATER_THAN | Lexer.LESS_EQUAL
  | Lexer.GREATER_EQUAL => Some 4
  | Lexer.PLUS | Lexer.MINUS => Some 5
  | Lexer.MULTIPLY | Lexer.DIVIDE | Lexer.MODULO => Some 6
  | _ => None
  end.

(** The tokens of [x o1 y o2 z] followed by the end marker; [line] and
    [column] give the position of each token. *)
Definition two_operators (x y z o1 o2 : string) (t1 t2 : Lexer.TokenType)
    (line column : nat → nat) : list Lexer.Token :=
  [ Lexer.mkToken Lexer.IDENTIFIER (Lexer.StringValue x) (line 0) (column 0);
    Lexer.mkToken t1 (Lexer.StringValue o1) (line 1) (column 1);
    Lexer.mkToken Lexer.IDENTIFIER (Lexer.StringValue y) (line 2) (column 2);
    Lexer.mkToken t2 (Lexer.StringValue o2) (line 3) (column 3);
    Lexer.mkToken Lexer.IDENTIFIER (Lexer.StringValue z) (line 4) (column 4);
    Lexer.mkToken Lexer.EOF Lexer.NullValue (line 5) (column 5) ].

(* ================================================================= *)
(** ** The printer of expressions: definitions *)

(** The token type the scanner gives to the text of an operator or
    punctuation mark: the two-character table first, then the
    one-character table. *)
Definition lexeme_type (text : string) : option Lexer.TokenType :=
  Builtins.find_entry text
    (map (fun entry => (entry.2.2, entry.2.1)) Lexer.twoChar
     ++ Lexer.singleChar).

(** The token of an operator or punctuation mark. *)
Definition mark (t : Lexer.TokenType) (text : string) : Lexer.Token :=
  Lexer.mkToken t (Lexer.StringValue text) 1 1.

Definition binary_type (operator : string) : option Lexer.TokenType :=
  t ← lexeme_type operator;
  match precedence t with Some _ => Some t | None => None end.

Definition unary_type (operator : string) : option Lexer.TokenType :=
  t ← lexeme_type operator;
  if bool_decide (t ∈ [Lexer.NOT; Lexer.MINUS]) then Some t else None.

(** The parts of a list, separated by commas. *)
Definition separate (parts : list (list Lexer.Token)) : list Lexer.Token :=
  match parts with
  | [] => []
  | first :: rest =>
      first ++ flat_map (fun part => mark Lexer.COMMA "," :: part) rest
  end.

(** The trees [parseExpression] can return for the tokens of the scanner:
    expressions whose operators are operators of the language. *)
Fixpoint wf_expr (e : node) : bool :=
  match e with
  | Literal _ | Identifier _ => true
  | ArrayExpression elements => forallb wf_expr elements
  | BinaryExpression operator l r =>
      bool_decide (is_Some (binary_type operator)) && wf_expr l && wf_expr r
  | UnaryExpression operator argument =>
      bool_decide (is_Some (unary_type operator)) && wf_expr argument
  | CallExpression callee args => wf_expr callee && forallb wf_expr args
  | MemberExpression object property computed =>
      wf_expr object &&
      (if computed then wf_expr property
       else match property with Identifier _ => true | _ => false end)
  | _ => false
  end.

(** A token sequence for an expression: every compound expression in
    brackets of its own, list items separated by commas. *)
Fixpoint print (e : node) : list Lexer.Token :=
  match e with
  | Literal (LNum f) => [Lexer.mkToken Lexer.NUMBER (Lexer.NumberValue f) 1 1]
  | Literal (LStr s) => [Lexer.mkToken Lexer.STRING (Lexer.StringValue s) 1 1]
  | Literal (LBool b) =>
      [Lexer.mkToken Lexer.BOOLEAN (Lexer.BooleanValue b) 1 1]
  | Identifier name => [mark Lexer.IDENTIFIER name]
  | ArrayExpression elements =>
      mark Lexer.LBRACKET "[" :: separate (map print elements)
      ++ [mark Lexer.RBRACKET "]"]
  | BinaryExpression operator l r =>
      mark Lexer.LPAREN "(" :: print l
      ++ mark (default Lexer.EOF (binary_type operator)) operator :: print r
      ++ [mark Lexer.RPAREN ")"]
  | UnaryExpression operator argument =>
      mark Lexer.LPAREN "("
      :: mark (default Lexer.EOF (unary_type operator)) operator
      :: print argument ++ [mark Lexer.RPAREN ")"]
  | CallExpression callee args =>
      mark Lexer.LPAREN "(" :: print callee
      ++ mark Lexer.LPAREN "(" :: separate (map print args)
      ++ [mark Lexer.RPAREN ")"; mark Lexer.RPAREN ")"]
  | MemberExpression object property computed =>
      mark Lexer.LPAREN "(" :: print object
      ++ (if computed
          then mark Lexer.LBRACKET "[" :: print property
               ++ [mark Lexer.RBRACKET "]"]
          else mark Lexer.DOT "." :: print property)
      ++ [mark Lexer.RPAREN ")"]
  | _ => []
  end.

(** The token types that continue an expression: the three postfix
    openers and the binary operators. *)
Definition continues (t : Lexer.TokenType) : bool :=
  bool_decide (t ∈ [Lexer.LPAREN; Lexer.LBRACKET; Lexer.DOT])
  || bool_decide (is_Some (precedence t)).

(** The tokens [ts] occur in [T] from position [i] on. *)
Definition occurs (T : list Lexer.Token) (i : nat) (ts : list Lexer.Token)
    : Prop :=
  ∀ j t, ts !! j = Some t → T !! (i + j) = Some t.

(** No token at position [i] of [T] continues an expression. *)
Definition stops (T : list Lexer.Token) (i : nat) : Prop :=
  ∀ t, T !! i = Some t → continues (Lexer.type t) = false.

(** The binary levels, the one that binds strongest first. *)
Definition levels : list (list Lexer.TokenType) :=
  [ [Lexer.MULTIPLY; Lexer.DIVIDE; Lexer.MODULO];
    [Lexer.PLUS; Lexer.MINUS];
    [Lexer.LESS_THAN; Lexer.GREATER_THAN; Lexer.LESS_EQUAL;
     Lexer.GREATER_EQUAL];
    [Lexer.EQUAL; Lexer.NOT_EQUAL];
    [Lexer.AND];
    [Lexer.OR] ].

Definition climb (ls : list (list Lexer.TokenType))
    (next : Parser.Parser → outcome (node * Parser.Parser))
    : Parser.Parser → outcome (node * Parser.Parser) :=
  foldl (fun next types => Parser.binaryLevel types next) next ls.

(* ================================================================= *)
(** ** The printer of statements: definitions *)

(** The tokens of the parameter names of an action. *)
Definition print_params (params : list string) : list Lexer.Token :=
  separate (map (fun name => [mark Lexer.IDENTIFIER name]) params).

(** A token sequence for a statement: the statements of a block one after
    the other, every expression as [print] gives it. *)
Fixpoint print_statement (s : node) : list Lexer.Token :=
  match s with
  | NodeDeclaration name value =>
      mark Lexer.IDENTIFIER name :: mark Lexer.ASSIGN "=" :: print value
  | ActionDeclaration name params body =>
      mark Lexer.ACTION "action" :: mark Lexer.IDENTIFIER name
      :: mark Lexer.LPAREN "(" :: print_params params
      ++ mark Lexer.RPAREN ")" :: flat_map print_statement body
      ++ [mark Lexer.END "end"]
  | CheckStatement condition consequent alternate =>
      mark Lexer.CHECK "check" :: mark Lexer.LPAREN "(" :: print condition
      ++ mark Lexer.RPAREN ")"
      :: match consequent with
         | BlockStatement statements => flat_map print_statement statements
         | _ => []
         end
      ++ match alternate with
         | Some a =>
             match a with
             | BlockStatement statements =>
                 mark Lexer.ELSE "else" :: flat_map print_statement statements
             | _ => []
             end
         | None => []
         end
      ++ [mark Lexer.END "end"]
  | EachStatement variable iterable body =>
      mark Lexer.EACH "each" :: mark Lexer.LPAREN "("
      :: mark Lexer.IDENTIFIER variable :: mark Lexer.IN "in"
      :: print iterable
      ++ mark Lexer.RPAREN ")"
      :: match body with
         | BlockStatement statements => flat_map print_statement statements
         | _ => []
         end
      ++ [mark Lexer.END "end"]
  | AsStatement condition body =>
      mark Lexer.AS "as" :: mark Lexer.LPAREN "(" :: print condition
      ++ mark Lexer.RPAREN ")"
      :: match body with
         | BlockStatement statements => flat_map print_statement statements
         | _ => []
         end
      ++ [mark Lexer.END "end"]
  | e => print e
  end.

(** A statement that ends with an expression: an assignment or an
    expression statement. *)
Definition open_ended (s : node) : bool :=
  match s with
  | ActionDeclaration _ _ _ | CheckStatement _ _ _ | EachStatement _ _ _
  | AsStatement _ _ => false
  | _ => true
  end.

(** The first of the tokens [ts] does not continue an expression. *)
Definition stops_before (ts : list Lexer.Token) : bool :=
  match ts with
  | t :: _ => negb (continues (Lexer.type t))
  | [] => true
  end.

(** No statement of the list that ends with an expression is followed by
    a statement whose first token would continue that expression (an
    opening bracket or a minus sign). *)
Fixpoint sequenced (ss : list node) : bool :=
  match ss with
  | [] => true
  | s :: rest =>
      match rest with
      | [] => true
      | s' :: _ =>
          (negb (open_ended s) || stops_before (print_statement s'))
          && sequenced rest
      end
  end.

(** The statements [parseStatement] can return for the tokens of the
    scanner. *)
Fixpoint wf_statement (s : node) : bool :=
  match s with
  | Program _ | BlockStatement _ => false
  | NodeDeclaration name value => wf_expr value
  | ActionDeclaration name params body =>
      forallb wf_statement body && sequenced body
  | CheckStatement condition consequent alternate =>
      wf_expr condition
      && match consequent with
         | BlockStatement statements =>
             forallb wf_statement statements && sequenced statements
         | _ => false
         end
      && match alternate with
         | Some a =>
             match a with
             | BlockStatement statements =>
                 forallb wf_statement statements && sequenced statements
             | _ => false
             end
         | None => true
         end
  | EachStatement variable iterable body =>
      wf_expr iterable
      && match body with
         | BlockStatement statements =>
             forallb wf_statement statements && sequenced statements
         | _ => false
         end
  | AsStatement condition body =>
      wf_expr condition
      && match body with
         | BlockStatement statements =>
             forallb wf_statement statements && sequenced statements
         | _ => false
         end
  | e => wf_expr e
  end.

(** The token at position [j] of [T], if any, neither continues an
    expression nor turns a name into an assignment. *)
Definition ends (T : list Lexer.Token) (j : nat) : Prop :=
  ∀ t, T !! j = Some t →
       continues (Lexer.type t) = false ∧ Lexer.type t ≠ Lexer.ASSIGN.

(** [ps] reads the tokens of [s] as [s], wherever they stand in [T]. *)
Definition statement_reads
    (ps : Parser.Parser → outcome (node * Parser.Parser))
    (T : list Lexer.Token) (s : node) : Prop :=
  ∀ i, occurs T i (print_statement s) →
       (open_ended s = true → ends T (i + length (print_statement s))) →
       ps (Parser.mkParser T i)
         = Ok (s, Parser.mkParser T (i + length (print_statement s))).

(** A program with every kind of statement. *)
Definition every_statement : list node :=
  [ ActionDeclaration "f" ["a"; "b"]
      [ NodeDeclaration "r"
          (BinaryExpression "+" (Identifier "a") (Identifier "b")) ];
    NodeDeclaration "x" (CallExpression (Identifier "f") [num 1; num 2]);
    CheckStatement (Identifier "x")
      (BlockStatement [Identifier "x"])
      (Some (BlockStatement
               [ EachStatement "i" (ArrayExpression [])
                   (BlockStatement []) ]));
    AsStatement (Literal (LBool false)) (BlockStatement []) ].

(* ================================================================= *)
(** ** Lists without commas: definitions *)

(** The tokens of a list of names; the boolean says whether a comma
    follows the name. *)
Definition loose_items (items : list (string * bool)) : list Lexer.Token :=
  flat_map (fun item : string * bool =>
              mark Lexer.IDENTIFIER item.1
              :: (if item.2 then [mark Lexer.COMMA ","] else []))
    items.

(** The names of the list, as expressions. *)
Definition item_names (items : list (string * bool)) : list node :=
  map (fun item : string * bool => Identifier item.1) items.

(* ================================================================= *)
(** ** Progress of the parser: definitions *)

(** The two errors of the parser. *)
Definition syntax_error (message : string) : Prop :=
  (∃ type token,
     message = "Expected " +:+ Parser.type_name type +:+ " but got "
               +:+ Parser.type_text token +:+ " at line "
               +:+ Parser.line_text token) ∨
  (∃ token,
     message = "Unexpected token " +:+ Parser.type_text token
               +:+ " at line " +:+ Parser.line_text token).

(** The tokens the parser still has to read. *)
Definition remaining (p : Parser.Parser) : nat :=
  length (Parser.tokens p) - Parser.position p.

(** What a parsing function may end in when it starts at [p]: a result
    and a parser further on in the same tokens ([strict]: at least one
    token further); one of the two errors; never an exhausted bound; and
    it leaves the embedding only when some token is not well typed. *)
Definition advances {A} (strict : bool) (p : Parser.Parser)
    (r : outcome (A * Parser.Parser)) : Prop :=
  match r with
  | Ok (_, p') =>
      Parser.tokens p' = Parser.tokens p ∧
      Parser.position p + (if strict then 1 else 0) ≤ Parser.position p' ∧
      Parser.position p' ≤ length (Parser.tokens p)
  | Throw (Error_ message) => syntax_error message
  | Unsupported => ¬ Forall (fun t => well_typed t = true) (Parser.tokens p)
  | OutOfFuel => False
  end.

(** The same for a step that does not move the parser. *)
Definition settles {A} (p : Parser.Parser) (r : outcome A) : Prop :=
  match r with
  | Ok _ => True
  | Unsupported => ¬ Forall (fun t => well_typed t = true) (Parser.tokens p)
  | _ => False
  end.

(* ================================================================= *)
(** ** Whole programs: definitions *)

(** The tokens of a prefix operator applied to [x], followed by the
    tokens [rest] and the end marker. *)
Definition prefixed (u : Lexer.TokenType) (o x : string)
    (rest : list Lexer.Token) : list Lexer.Token :=
  mark u o :: mark Lexer.IDENTIFIER x :: rest
  ++ [Lexer.mkToken Lexer.EOF Lexer.NullValue 1 1].

(* ================================================================= *)
(** ** Facts about the store operations *)

Section StoreFacts.
Implicit Types (st : state) (e f g : loc) (name : string) (v : value).

Lemma envs_variables_set e name v st :
  envs (variables_set e name v st) =
  alter (fun fr => mkEnvironment (parent fr)
                     (<[name := v]> (variables fr)) (hooks fr)) e (envs st).
Proof. reflexivity. Qed.

Lemma lookup_variables_set_eq e name v st fr :
  envs st !! e = Some fr →
  envs (variables_set e name v st) !! e =
  Some (mkEnvironment (parent fr) (<[name := v]> (variables fr)) (hooks fr)).
Proof.
  intros H. rewrite envs_variables_set, list_lookup_alter_eq, H. reflexivity.
Qed.

Lemma lookup_variables_set_ne e g name v st :
  e ≠ g → envs (variables_set e name v st) !! g = envs st !! g.
Proof.
  intros H. rewrite envs_variables_set. by apply list_lookup_alter_ne.
Qed.

Lemma binding_variables_set_same f name v st :
  f < length (envs st) →
  binding (variables_set f name v st) f name = Some v.
Proof.
  intros Hf. apply lookup_lt_is_Some in Hf as [fr Hfr].
  unfold binding. rewrite (lookup_variables_set_eq _ _ _ _ _ Hfr). simpl.
  apply lookup_insert_eq.
Qed.

Lemma binding_variables_set_other f g name name' v st :
  (g, name') ≠ (f, name) →
  binding (variables_set f name v st) g name' = binding st g name'.
Proof.
  intros Hne. unfold binding.
  destruct (decide (f = g)) as [<- | Hfg].
  - destruct (envs st !! f) as [fr|] eqn:Hfr.
    + rewrite (lookup_variables_set_eq _ _ _ _ _ Hfr). simpl.
      apply lookup_insert_ne. congruence.
    + rewrite envs_variables_set, list_lookup_alter_eq, Hfr. reflexivity.
  - by rewrite lookup_variables_set_ne.
Qed.

Lemma keys_variables_set_bound f g name v st :
  is_Some (binding st f name) →
  keys (variables_set f name v st) g = keys st g.
Proof.
  intros [w Hw]. unfold keys, binding in *.
  destruct (decide (f = g)) as [<- | Hfg].
  - destruct (envs st !! f) as [fr|] eqn:Hfr; [|discriminate].
    rewrite (lookup_variables_set_eq _ _ _ _ _ Hfr). simpl in *.
    f_equal. rewrite dom_insert_L.
    assert (Hin : name ∈ dom (variables fr)) by (apply elem_of_dom; eauto).
    apply subseteq_union_1_L. by apply singleton_subseteq_l.
  - by rewrite lookup_variables_set_ne.
Qed.

Lemma plain_chain_inv st e fr :
  plain_chain st e → envs st !! e = Some fr →
  hooks fr = None ∧ ∀ p, parent fr = Some p → plain_chain st p.
Proof.
  intros Hpl Hfr.
  destruct Hpl as [e fr' Hfr' Hh Hp | e fr' p' Hfr' Hh Hp Hpl];
    rewrite Hfr in Hfr'; injection Hfr' as <-; split; try assumption.
  - intros p Hp'. congruence.
  - intros p Hp'. congruence.
Qed.

Lemma nearest_binding st name e f :
  nearest st name e f → is_Some (binding st f name).
Proof.
  induction 1 as [e fr Hfr Hb | ]; [|assumption].
  unfold binding. rewrite Hfr. exact Hb.
Qed.

Lemma get_walk_nearest st name e f k :
  wf_envs st → nearest st name e f → e < k →
  ∃ v, binding st f name = Some v ∧ Env.get_walk k st e name = Ok v.
Proof.
  intros Hwf Hn. revert k.
  induction Hn as [e fr Hfr [v Hv] | e fr p f Hfr Hnone Hp Hn IH]; intros k Hk.
  - exists v. destruct k; [lia|]. cbn [Env.get_walk]. unfold binding.
    rewrite Hfr. simpl. by rewrite Hv.
  - destruct k; [lia|]. cbn [Env.get_walk]. rewrite Hfr, Hnone, Hp.
    apply IH. specialize (Hwf _ _ _ Hfr Hp). lia.
Qed.

Lemma get_walk_unbound st name e k :
  wf_envs st → unbound st name e → e < k →
  Env.get_walk k st e name = Throw (NameError name).
Proof.
  intros Hwf Hu. revert k.
  induction Hu as [e fr Hfr Hnone Hp | e fr p Hfr Hnone Hp Hu IH]; intros k Hk;
    (destruct k; [lia|]); cbn [Env.get_walk]; rewrite Hfr, Hnone, Hp; [done|].
  apply IH. specialize (Hwf _ _ _ Hfr Hp). lia.
Qed.

Lemma set_walk_nearest st name e f v k :
  wf_envs st → plain_chain st e → nearest st name e f → e < k →
  Env.set_walk k st e name v = Ok (variables_set f name v st).
Proof.
  intros Hwf Hpl Hn. revert k Hpl.
  induction Hn as [e fr Hfr [w Hw] | e fr p f Hfr Hnone Hp Hn IH];
    intros k Hpl Hk; (destruct k; [lia|]); cbn [Env.set_walk]; rewrite Hfr.
  - destruct (plain_chain_inv _ _ _ Hpl Hfr) as [-> _].
    unfold variables_has. by rewrite Hw.
  - destruct (plain_chain_inv _ _ _ Hpl Hfr) as [-> Hpl'].
    specialize (Hpl' _ Hp).
    unfold variables_has. rewrite Hnone, Hp.
    apply IH; [assumption|]. specialize (Hwf _ _ _ Hfr Hp). lia.
Qed.

Lemma set_walk_unbound st name e v k :
  wf_envs st → plain_chain st e → unbound st name e → e < k →
  Env.set_walk k st e name v = Throw (NameError name).
Proof.
  intros Hwf Hpl Hu. revert k Hpl.
  induction Hu as [e fr Hfr Hnone Hp | e fr p Hfr Hnone Hp Hu IH];
    intros k Hpl Hk; (destruct k; [lia|]); cbn [Env.set_walk]; rewrite Hfr.
  - destruct (plain_chain_inv _ _ _ Hpl Hfr) as [-> _].
    unfold variables_has. by rewrite Hnone, Hp.
  - destruct (plain_chain_inv _ _ _ Hpl Hfr) as [-> Hpl'].
    specialize (Hpl' _ Hp).
    unfold variables_has. rewrite Hnone, Hp.
    apply IH; [assumption|]. specialize (Hwf _ _ _ Hfr Hp). lia.
Qed.

(** A walk over a well-formed store either finds a binder or ends. *)
Lemma nearest_or_unbound st name e :
  wf_envs st → e < length (envs st) →
  (∃ f, nearest st name e f) ∨ unbound st name e.
Proof.
  intros Hwf. induction (lt_wf e) as [e _ IH]. intros He.
  destruct (lookup_lt_is_Some_2 _ _ He) as [fr Hfr].
  destruct (variables fr !! name) as [v|] eqn:Hv.
  { left. exists e. econstructor; eauto. }
  destruct (parent fr) as [p|] eqn:Hp.
  - pose proof (Hwf _ _ _ Hfr Hp) as Hlt.
    destruct (IH p Hlt) as [[f Hf] | Hu]; [lia | |].
    + left. exists f. eapply nearest_up; eauto.
    + right. eapply unbound_up; eauto.
  - right. eapply unbound_root; eauto.
Qed.

Lemma plain_chain_valid st e : plain_chain st e → e < length (envs st).
Proof. inversion 1; eapply lookup_lt_Some; eauto. Qed.

End StoreFacts.

Section ExtFacts.
Implicit Types (st : state) (e f g : loc) (name : string) (v : value).

Lemma frame_ext_refl fr : frame_ext fr fr.
Proof. repeat split. by destruct (hooks fr). Qed.

Lemma frame_ext_trans fr1 fr2 fr3 :
  frame_ext fr1 fr2 → frame_ext fr2 fr3 → frame_ext fr1 fr3.
Proof.
  intros (Hp & Hh & Ha) (Hp' & Hh' & Ha'). split; [congruence|].
  split; [congruence|].
  destruct (hooks fr1), (hooks fr2), (hooks fr3); try done.
  by etrans.
Qed.

Lemma frame_ext_plain fr fr' :
  frame_ext fr fr' → hooks fr = None → hooks fr' = None.
Proof.
  intros (_ & Hh & _) Hn. rewrite Hn in Hh. by destruct (hooks fr').
Qed.

Lemma ext_refl e st : ext e st st.
Proof.
  split; [done|]. intros g fr Hg. exists fr.
  split; [done|]. split; [apply frame_ext_refl | done].
Qed.

Lemma ext_length e st st' : ext e st st' → length (envs st) ≤ length (envs st').
Proof.
  intros [_ H]. destruct (envs st) as [|fr0 l] eqn:El using rev_ind;
    [simpl; lia|].
  destruct (H (length l) fr0) as (fr' & Hfr' & _).
  { rewrite lookup_app_r, Nat.sub_diag; [done | lia]. }
  apply lookup_lt_Some in Hfr'. rewrite length_app. simpl. lia.
Qed.

(** Extensions compose, also when the second evaluation runs in an
    environment [e2] that did not exist at the start. *)
Lemma ext_trans_gen e e2 st1 st2 st3 :
  ext e st1 st2 → ext e2 st2 st3 →
  e2 = e ∨ length (envs st1) ≤ e2 →
  ext e st1 st3.
Proof.
  intros [Ha H12] [Ha' H23] He2. split; [by etrans|].
  intros g fr Hg.
  destruct (H12 g fr Hg) as (fr2 & Hg2 & Hf2 & Hd2).
  destruct (H23 g fr2 Hg2) as (fr3 & Hg3 & Hf3 & Hd3).
  exists fr3. split; [done|]. split; [by eapply frame_ext_trans|].
  intros Hne Hpl. rewrite Hd3, Hd2; try done.
  - destruct He2 as [-> | Hfresh]; [done|].
    apply lookup_lt_Some in Hg. lia.
  - by eapply frame_ext_plain.
Qed.

Lemma ext_trans e st1 st2 st3 :
  ext e st1 st2 → ext e st2 st3 → ext e st1 st3.
Proof. intros H1 H2. eapply ext_trans_gen; eauto. Qed.

(** An evaluation in an environment that did not exist before extends
    the store for every observer. *)
Lemma ext_fresh e e' st st' :
  ext e st st' → length (envs st) ≤ e → ext e' st st'.
Proof.
  intros [Ha H] Hfresh. split; [done|]. intros g fr Hg.
  destruct (H g fr Hg) as (fr' & Hg' & Hf & Hd).
  exists fr'. split; [done|]. split; [done|].
  intros _ Hpl. apply Hd; [|done]. apply lookup_lt_Some in Hg. lia.
Qed.

Lemma ext_arrays e st st' a xs :
  ext e st st' → arrays st !! a = Some xs → arrays st' !! a = Some xs.
Proof. intros [Ha _] H. by eapply prefix_lookup_Some. Qed.

End ExtFacts.

Section PrimitiveFacts.
Implicit Types (st : state) (e f g : loc) (name : string) (v : value).

Lemma ext_alter e g (F : Environment → Environment) st :
  (∀ fr, envs st !! g = Some fr →
     frame_ext fr (F fr) ∧
     (g ≠ e → hooks fr = None →
      dom (variables (F fr)) = dom (variables fr))) →
  ext e st (with_envs st (alter F g (envs st))).
Proof.
  intros HF. split; [done|]. intros h fr Hh. simpl.
  destruct (decide (g = h)) as [<- | Hne].
  - exists (F fr). rewrite list_lookup_alter_eq, Hh.
    split; [done|]. by apply HF.
  - exists fr. rewrite list_lookup_alter_ne by done.
    split; [done|]. split; [apply frame_ext_refl | done].
Qed.

Lemma good_alter g (F : Environment → Environment) st :
  good st →
  (∀ fr, envs st !! g = Some fr →
     parent (F fr) = parent fr ∧
     ∀ t', hooks (F fr) = Some t' →
       NoDup (assignedVars t') ∧
       ∀ x, x ∈ assignedVars t' → is_Some (variables (F fr) !! x)) →
  good (with_envs st (alter F g (envs st))).
Proof.
  intros [Hwf Htr] HF. split.
  - intros h fr p Hh Hp. simpl in Hh.
    destruct (decide (g = h)) as [<- | Hne].
    + rewrite list_lookup_alter_eq in Hh.
      destruct (envs st !! g) as [fr0|] eqn:Hg; [|discriminate].
      simpl in Hh. injection Hh as <-.
      destruct (HF _ eq_refl) as [Hpar _]. rewrite Hpar in Hp. eauto.
    + rewrite list_lookup_alter_ne in Hh by done. eauto.
  - intros h fr t Hh Ht. simpl in Hh.
    destruct (decide (g = h)) as [<- | Hne].
    + rewrite list_lookup_alter_eq in Hh.
      destruct (envs st !! g) as [fr0|] eqn:Hg; [|discriminate].
      simpl in Hh. injection Hh as <-.
      destruct (HF _ eq_refl) as [_ Hok]. by apply Hok.
    + rewrite list_lookup_alter_ne in Hh by done. eauto.
Qed.

Lemma good_variables_set g name v st :
  good st → good (variables_set g name v st).
Proof.
  intros Hg. apply good_alter; [done|]. intros fr Hfr. split; [done|].
  simpl. intros t' Ht'. destruct Hg as [_ Htr].
  destruct (Htr _ _ _ Hfr Ht') as [Hnd Hb]. split; [done|].
  intros x Hx. apply lookup_insert_is_Some.
  destruct (decide (name = x)); [by left | right; split; [done|]].
  by apply Hb.
Qed.

Lemma ext_variables_set e g name v st :
  (∀ fr, envs st !! g = Some fr →
         g = e ∨ hooks fr ≠ None ∨ is_Some (variables fr !! name)) →
  ext e st (variables_set g name v st).
Proof.
  intros H. apply ext_alter. intros fr Hfr. split.
  - repeat split. simpl. by destruct (hooks fr).
  - intros Hne Hpl. simpl.
    destruct (H _ Hfr) as [? | [? | Hb]]; [done..|].
    rewrite dom_insert_L. apply subseteq_union_1_L.
    apply singleton_subseteq_l. by apply elem_of_dom.
Qed.

Lemma Set_add_NoDup name s : NoDup s → NoDup (Set_add name s).
Proof.
  intros Hs. unfold Set_add. case_bool_decide as Hin; [done|].
  apply NoDup_app. split; [done|]. split; [|apply NoDup_singleton].
  intros x Hx Hx'. apply list_elem_of_singleton in Hx' as ->. done.
Qed.

Lemma Set_add_elem name s x : x ∈ Set_add name s ↔ x ∈ s ∨ x = name.
Proof.
  unfold Set_add. case_bool_decide as Hin.
  - split; [by left|]. intros [? | ->]; done.
  - rewrite elem_of_app, list_elem_of_singleton. done.
Qed.

(** A recorded name keeps its place: new names are only appended. *)
Lemma Set_add_prefix name s : s `prefix_of` Set_add name s.
Proof.
  unfold Set_add. case_bool_decide; [done|]. by apply prefix_app_r.
Qed.

Lemma action_define_alter t g name v st :
  Env.action_define t g name v st =
  with_envs st (alter (action_define_frame t name v) g (envs st)).
Proof.
  unfold Env.action_define, Env.define, variables_set, record_assigned,
    action_define_frame.
  destruct (includes (tr_params t) name); simpl.
  - unfold with_envs. f_equal.
  - unfold with_envs. simpl. f_equal.
    rewrite list_alter_alter_eq. apply list_alter_ext; [|done].
    by intros [].
Qed.

Lemma good_action_define t g name v st :
  good st → good (Env.action_define t g name v st).
Proof.
  intros Hg. rewrite action_define_alter. apply good_alter; [done|].
  intros fr Hfr. split; [done|]. intros t' Ht'.
  destruct Hg as [_ Htr]. unfold action_define_frame in *. simpl in *.
  assert (Hkeep : ∀ t0, hooks fr = Some t0 →
            NoDup (assignedVars t0) ∧
            ∀ x, x ∈ assignedVars t0 →
                 is_Some (<[name := v]> (variables fr) !! x)).
  { intros t0 Ht0. destruct (Htr _ _ _ Hfr Ht0) as [Hnd Hb].
    split; [done|]. intros x Hx. apply lookup_insert_is_Some.
    destruct (decide (name = x)); [by left | right; split; [done|]].
    by apply Hb. }
  destruct (includes (tr_params t) name); [by apply Hkeep|].
  destruct (hooks fr) as [t0|] eqn:Ht0; [|discriminate].
  injection Ht' as <-. simpl. destruct (Hkeep _ eq_refl) as [Hnd Hb].
  split; [by apply Set_add_NoDup|].
  intros x [Hx | ->]%Set_add_elem; [by apply Hb|].
  rewrite lookup_insert_eq. by eexists.
Qed.

Lemma ext_action_define e t g name v st :
  (∀ fr, envs st !! g = Some fr → g = e ∨ hooks fr ≠ None) →
  ext e st (Env.action_define t g name v st).
Proof.
  intros H. rewrite action_define_alter. apply ext_alter.
  intros fr Hfr. unfold action_define_frame. split.
  - split; [done|]. simpl.
    destruct (includes (tr_params t) name); [by destruct (hooks fr)|].
    destruct (hooks fr) as [t0|]; [|done]. simpl.
    split; [done|]. apply Set_add_prefix.
  - intros Hne Hpl. destruct (H _ Hfr); done.
Qed.

Lemma good_call_define g name v st :
  good st → good (Env.call_define g name v st).
Proof.
  intros Hg. unfold Env.call_define.
  destruct (envs st !! g) as [fr|]; [|done].
  destruct (hooks fr); [by apply good_action_define|].
  by apply good_variables_set.
Qed.

Lemma ext_call_define e name v st : ext e st (Env.call_define e name v st).
Proof.
  unfold Env.call_define.
  destruct (envs st !! e) as [fr|] eqn:Hfr; [|apply ext_refl].
  destruct (hooks fr).
  - apply ext_action_define. auto.
  - apply ext_variables_set. auto.
Qed.

Lemma set_walk_good_ext k e st g name v st' :
  Env.set_walk k st g name v = Ok st' → good st → good st' ∧ ext e st st'.
Proof.
  revert g. induction k as [|k IH]; intros g Hs Hg; [discriminate|].
  cbn [Env.set_walk] in Hs.
  destruct (envs st !! g) as [fr|] eqn:Hfr; [|discriminate].
  destruct (hooks fr) as [t|] eqn:Ht.
  - injection Hs as <-. split; [by apply good_action_define|].
    apply ext_action_define. intros fr' Hfr'. right. congruence.
  - destruct (variables_has fr name) eqn:Hhas.
    + injection Hs as <-. split; [by apply good_variables_set|].
      apply ext_variables_set. intros fr' Hfr'. right; right.
      assert (fr' = fr) as -> by congruence.
      unfold variables_has in Hhas.
      destruct (variables fr !! name); [by eexists | discriminate].
    + destruct (parent fr); [eauto | discriminate].
Qed.

Lemma good_newEnvironment p st :
  good st → p < length (envs st) →
  good (newEnvironment (Some p) st).2.
Proof.
  intros [Hwf Htr] Hp. split.
  - intros h fr q Hh Hq. simpl in Hh.
    apply lookup_app_Some in Hh as [Hh | [Hlen Hh]]; [eauto|].
    apply list_lookup_singleton_Some in Hh as [Hz <-].
    simpl in Hq. injection Hq as <-. lia.
  - intros h fr t Hh Ht. simpl in Hh.
    apply lookup_app_Some in Hh as [Hh | [Hlen Hh]]; [eauto|].
    apply list_lookup_singleton_Some in Hh as [Hz <-]. discriminate.
Qed.

Lemma ext_newEnvironment e p st : ext e st (newEnvironment p st).2.
Proof.
  split; [done|]. intros g fr Hg. exists fr. simpl.
  rewrite lookup_app_l by (by eapply lookup_lt_Some).
  split; [done|]. split; [apply frame_ext_refl | done].
Qed.

Lemma length_variables_set g name v st :
  length (envs (variables_set g name v st)) = length (envs st).
Proof. simpl. apply length_alter. Qed.

Lemma length_call_define g name v st :
  length (envs (Env.call_define g name v st)) = length (envs st).
Proof.
  unfold Env.call_define. destruct (envs st !! g) as [fr|]; [|done].
  destruct (hooks fr); [|apply length_variables_set].
  rewrite action_define_alter. simpl. apply length_alter.
Qed.

End PrimitiveFacts.

(* ================================================================= *)
(** ** Every evaluation extends the store *)

Section BuiltinFacts.

Lemma prefix_alter_fresh {A} (f : A → A) (l l' : list A) a :
  l `prefix_of` l' → length l ≤ a → l `prefix_of` alter f a l'.
Proof.
  intros [k ->] Ha. rewrite alter_app_r_alt by done. by apply prefix_app_r.
Qed.

Lemma ext_same_envs e st st' :
  envs st' = envs st → arrays st `prefix_of` arrays st' → ext e st st'.
Proof.
  intros He Ha. split; [done|]. intros g fr Hg. exists fr.
  rewrite He. split; [done|]. split; [apply frame_ext_refl | done].
Qed.

Lemma good_same_envs st st' : envs st' = envs st → good st → good st'.
Proof. unfold good, wf_envs, tracked_ok. by intros ->. Qed.

Lemma spread_ok a st copy st1 :
  Builtins.spread a st = Ok (copy, st1) →
  ∃ xs, arrays st !! a = Some xs ∧ copy = length (arrays st) ∧
        envs st1 = envs st ∧ console st1 = console st ∧
        arrays st1 = arrays st ++ [xs].
Proof.
  unfold Builtins.spread. destruct (arrays st !! a) as [xs|]; [|done].
  intros [= <- <-]. by exists xs.
Qed.

Lemma push_ok : builtin_ok Builtins.push.
Proof.
  intros args st v st' H. unfold Builtins.push in H.
  destruct args as [|[] items]; try discriminate.
  destruct (Builtins.spread a st) as [[copy st1]| | |] eqn:Hs;
    try discriminate.
  apply spread_ok in Hs as (xs & _ & -> & He & _ & Ha).
  simpl in H. injection H as <- <-. simpl. split; [done|].
  apply prefix_alter_fresh; [|done]. rewrite Ha. by apply prefix_app_r.
Qed.

Lemma pop_ok : builtin_ok Builtins.pop.
Proof.
  intros args st v st' H. unfold Builtins.pop in H.
  destruct args as [|[] items]; try discriminate.
  destruct (Builtins.spread a st) as [[copy st1]| | |] eqn:Hs;
    try discriminate.
  apply spread_ok in Hs as (xs & _ & -> & He & _ & Ha).
  simpl in H. unfold Builtins.Array_pop in H.
  destruct (arrays st1 !! length (arrays st)) as [ys|]; simpl in H.
  - destruct (length ys); injection H as <- <-; simpl.
    + split; [done|]. rewrite Ha. by apply prefix_app_r.
    + split; [done|]. apply prefix_alter_fresh; [|done].
      rewrite Ha. by apply prefix_app_r.
  - injection H as <- <-. split; [done|]. rewrite Ha. by apply prefix_app_r.
Qed.

Lemma reverse_ok : builtin_ok Builtins.reverse.
Proof.
  intros args st v st' H. unfold Builtins.reverse in H.
  destruct args as [|[] items]; try discriminate.
  destruct (Builtins.spread a st) as [[copy st1]| | |] eqn:Hs;
    try discriminate.
  apply spread_ok in Hs as (xs & _ & -> & He & _ & Ha).
  simpl in H. injection H as <- <-. simpl. split; [done|].
  apply prefix_alter_fresh; [|done]. rewrite Ha. by apply prefix_app_r.
Qed.

Lemma print_ok : builtin_ok Builtins.print.
Proof.
  intros args st v st' H. unfold Builtins.print in H.
  destruct args as [|x [|y rest]]; injection H as <- <-; simpl;
    (split; [done|]); try done; by apply prefix_app_r.
Qed.

Lemma length_ok : builtin_ok Builtins.length_.
Proof.
  intros args st v st' H. unfold Builtins.length_ in H.
  destruct args as [|[] items]; try discriminate.
  - by injection H as <- <-.
  - destruct (arrays st !! a); [|discriminate]. by injection H as <- <-.
Qed.

Lemma typeof_is_ok p : builtin_ok (Builtins.typeof_is p).
Proof. intros args st v st' [= <- <-]. done. Qed.

Lemma table_ok : Forall (fun entry => builtin_ok entry.2) Builtins.table.
Proof.
  unfold Builtins.table.
  repeat (apply List.Forall_cons;
          [simpl; auto using print_ok, length_ok, push_ok, pop_ok,
                             reverse_ok, typeof_is_ok |]).
  apply List.Forall_nil.
Qed.

Lemma find_entry_Forall {A} (P : A → Prop) name entries f :
  Forall (fun entry => P entry.2) entries →
  Builtins.find_entry name entries = Some f → P f.
Proof.
  induction 1 as [|[k g] rest Hg _ IH]; [done|]. simpl.
  destruct (String.eqb k name); [by intros [= <-] | exact IH].
Qed.

Lemma call_ok name : builtin_ok (Builtins.call name).
Proof.
  intros args st v st' H. unfold Builtins.call in H.
  destruct (Builtins.find_entry name Builtins.table) as [f|] eqn:Hf;
    [|discriminate].
  by eapply (find_entry_Forall builtin_ok _ _ _ table_ok Hf).
Qed.

Lemma builtin_sound e name args : sound e (Builtins.call name args).
Proof.
  intros st v st' H Hg He. destruct (call_ok _ _ _ _ _ H) as [Henvs Harr].
  split; [by eapply good_same_envs | by apply ext_same_envs].
Qed.

End BuiltinFacts.

Ltac inv_bind H :=
  match type of H with
  | mbind _ ?m = Ok _ =>
      let E := fresh "E" in
      destruct m as [[? ?]| | |] eqn:E; simpl in H; [|discriminate..]
  end.

Section EnterAction.
Implicit Types (st : state) (e g h : loc) (name : string) (v : value).

Lemma lookup_call_define_ne g h name v st :
  g ≠ h → envs (Env.call_define g name v st) !! h = envs st !! h.
Proof.
  intros Hne. unfold Env.call_define.
  destruct (envs st !! g) as [fr|]; [|done].
  destruct (hooks fr).
  - rewrite action_define_alter. simpl. by apply list_lookup_alter_ne.
  - by apply lookup_variables_set_ne.
Qed.

Lemma arrays_call_define g name v st :
  arrays (Env.call_define g name v st) = arrays st.
Proof.
  unfold Env.call_define. destruct (envs st !! g) as [fr|]; [|done].
  destruct (hooks fr); [|done]. by rewrite action_define_alter.
Qed.

Lemma bindParameters_facts a params args i st :
  let st' := bindParameters a params args i st in
  (good st → good st') ∧
  length (envs st') = length (envs st) ∧
  arrays st' = arrays st ∧
  (∀ h, a ≠ h → envs st' !! h = envs st !! h).
Proof.
  revert i st. induction params as [|p ps IH]; intros i st; simpl; [done|].
  destruct (IH (S i) (Env.call_define a p (nth i args VUndefined) st))
    as (Hg & Hl & Ha & Ho).
  split; [|split; [|split]].
  - intros H. by apply Hg, good_call_define.
  - by rewrite Hl, length_call_define.
  - by rewrite Ha, arrays_call_define.
  - intros h Hne. by rewrite Ho, lookup_call_define_ne.
Qed.

Lemma bindParameters_ext a params args i st :
  ext a st (bindParameters a params args i st).
Proof.
  revert i st. induction params as [|p ps IH]; intros i st; simpl;
    [apply ext_refl|].
  eapply ext_trans; [apply ext_call_define | apply IH].
Qed.

Lemma ext_old_same e st st' :
  (∀ g, g < length (envs st) → envs st' !! g = envs st !! g) →
  arrays st `prefix_of` arrays st' → ext e st st'.
Proof.
  intros H Ha. split; [done|]. intros g fr Hg. exists fr.
  rewrite H by (by eapply lookup_lt_Some).
  split; [done|]. split; [apply frame_ext_refl | done].
Qed.

(** The environment of a call is new, its parent is the captured
    environment, and its hooks start with an empty set. *)
Lemma enter_action_facts params cenv args st a st' :
  enter_action params cenv args st = (a, st') →
  a = length (envs st) ∧
  length (envs st') = S (length (envs st)) ∧
  arrays st' = arrays st ∧
  (∀ g, g < length (envs st) → envs st' !! g = envs st !! g) ∧
  (∃ fr, envs st' !! a = Some fr ∧ parent fr = Some cenv ∧
         hooks fr = Some (mkTracker params [])) ∧
  (good st → cenv < length (envs st) → good st').
Proof.
  unfold enter_action. intros [= <- <-].
  set (a := length (envs st)).
  set (st1 := (newEnvironment (Some cenv) st).2).
  destruct (bindParameters_facts a params args 0 st1)
    as (Hg & Hl & Ha & Ho).
  set (st2 := bindParameters a params args 0 st1) in *.
  assert (Hlen1 : length (envs st1) = S a).
  { unfold st1. simpl. rewrite length_app. simpl. lia. }
  split; [done|]. split; [|split; [|split; [|split]]].
  - unfold install_hooks, with_envs. cbn [envs].
    rewrite length_alter. exact (eq_trans Hl Hlen1).
  - done.
  - intros g Hlt. unfold install_hooks. simpl.
    rewrite list_lookup_alter_ne by (unfold a in *; lia).
    rewrite Ho by (unfold a in *; lia). unfold st1. simpl.
    by apply lookup_app_l.
  - assert (Hpar : ∃ fr2, envs st2 !! a = Some fr2 ∧ parent fr2 = Some cenv).
    { destruct (bindParameters_ext a params args 0 st1) as [_ He1].
      destruct (He1 a (mkEnvironment (Some cenv) ∅ None))
        as (fr2 & Hfr2 & (Hp & _) & _).
      { unfold st1. simpl. rewrite lookup_app_r by done.
        by rewrite Nat.sub_diag. }
      by exists fr2. }
    destruct Hpar as (fr2 & Hfr2 & Hp).
    exists (mkEnvironment (parent fr2) (variables fr2)
              (Some (mkTracker params []))).
    split; [|done].
    exact (eq_trans (list_lookup_alter_eq _ _ _) (f_equal (fmap _) Hfr2)).
  - intros Hgood Hcenv. unfold install_hooks. apply good_alter.
    + apply Hg. unfold st1. by apply good_newEnvironment.
    + intros fr Hfr. split; [done|]. simpl. intros t' [= <-]. simpl.
      split; [constructor|]. intros x Hx. by apply elem_of_nil in Hx.
Qed.

Lemma implicitReturn_state a lastValue st v st' :
  implicitReturn a lastValue st = Ok (v, st') → st' = st.
Proof.
  unfold implicitReturn. intros H.
  destruct (1 <? length (recorded st a)).
  - destruct (collect st a (recorded st a) []); simpl in H;
      congruence.
  - destruct (length (recorded st a) =? 1); [|congruence].
    destruct (Env.get st a (hd "" (recorded st a))); simpl in H; congruence.
Qed.

End EnterAction.

Section EvaluateSound.

Variable this : Interpreter.
Variable ev : node → loc → state → outcome (value * state).
Hypothesis Hev : ∀ nd e, sound e (ev nd e).

Lemma sound_step {A} e (m : state → outcome (A * state)) st a st1 :
  sound e m → m st = Ok (a, st1) → good st → e < length (envs st) →
  good st1 ∧ ext e st st1 ∧ e < length (envs st1).
Proof.
  intros Hm H Hg He. destruct (Hm _ _ _ H Hg He) as [Hg1 Hx].
  split; [done|]. split; [done|]. apply ext_length in Hx. lia.
Qed.

Lemma evaluateStatements_sound statements e result :
  sound e (evaluateStatements ev statements e result).
Proof.
  revert result. induction statements as [|s rest IH];
    intros result st a st' H Hg He; simpl in H.
  - injection H as <- <-. split; [done | apply ext_refl].
  - inv_bind H.
    destruct (sound_step _ _ _ _ _ (Hev s e) E Hg He) as (Hg1 & Hx1 & He1).
    destruct (IH _ _ _ _ H Hg1 He1) as [Hg2 Hx2].
    split; [done | by eapply ext_trans].
Qed.

Lemma evaluateAll_sound nodes e : sound e (evaluateAll ev nodes e).
Proof.
  induction nodes as [|nd rest IH]; intros st a st' H Hg He; simpl in H.
  - injection H as <- <-. split; [done | apply ext_refl].
  - inv_bind H.
    destruct (sound_step _ _ _ _ _ (Hev nd e) E Hg He) as (Hg1 & Hx1 & He1).
    inv_bind H. injection H as <- <-.
    destruct (IH _ _ _ E0 Hg1 He1) as [Hg2 Hx2].
    split; [done | by eapply ext_trans].
Qed.

Lemma evaluateNodeDeclaration_sound name valueNode e :
  sound e (evaluateNodeDeclaration ev name valueNode e).
Proof.
  intros st a st' H Hg He. unfold evaluateNodeDeclaration in H.
  inv_bind H.
  destruct (sound_step _ _ _ _ _ (Hev valueNode e) E Hg He)
    as (Hg1 & Hx1 & He1).
  destruct (envs s !! e) as [fr|] eqn:Hfr; [|discriminate].
  destruct (variables_has fr name) eqn:Hhas.
  { injection H as <- <-. split; [by apply good_variables_set|].
    eapply ext_trans; [done|]. apply ext_variables_set. auto. }
  destruct (match parent fr with
            | Some p => Env.has s p name
            | None => Ok false
            end) as [inParent| | |]; simpl in H; try discriminate.
  destruct inParent.
  - destruct (Env.set s e name v) as [st2| | |] eqn:Hset; simpl in H;
      try discriminate.
    injection H as <- <-.
    destruct (set_walk_good_ext _ e _ _ _ _ _ Hset Hg1) as [Hg2 Hx2].
    split; [done | by eapply ext_trans].
  - injection H as <- <-. split; [by apply good_call_define|].
    eapply ext_trans; [done | apply ext_call_define].
Qed.

Lemma callAction_sound params body cenv args e :
  sound e (callAction ev params body cenv args).
Proof.
  intros st a st' H Hg He. unfold callAction in H.
  destruct (cenv <? length (envs st)) eqn:Hc; [|discriminate].
  apply Nat.ltb_lt in Hc.
  destruct (enter_action params cenv args st) as [actionEnv st1] eqn:Hent.
  destruct (enter_action_facts _ _ _ _ _ _ Hent)
    as (-> & Hlen & Harr & Hold & _ & Hgood).
  inv_bind H. apply implicitReturn_state in H as Hst. subst st'.
  assert (Hx0 : ext e st st1).
  { apply ext_old_same; [done | by rewrite Harr]. }
  destruct (evaluateStatements_sound body (length (envs st)) VNull
              _ _ _ E (Hgood Hg Hc)) as [Hg2 Hx2]; [lia|].
  split; [done|]. eapply ext_trans_gen; [done | done | by right].
Qed.

Lemma applyFunction_sound fn args e : sound e (applyFunction ev fn args).
Proof.
  destruct fn; try (by intros st r st' H).
  - apply callAction_sound.
  - apply builtin_sound.
Qed.

(** The passes of an each-loop run in scopes of their own: the loop
    extends the store for every observer. *)
Lemma eachLoop_ext k variable body e a i result st r st' e' :
  eachLoop this ev k variable body e a i result st = Ok (r, st') →
  good st → e < length (envs st) →
  good st' ∧ ext e' st st'.
Proof.
  revert i result st. induction k as [|k IH]; intros i result st H Hg He;
    cbn [eachLoop] in H;
    (destruct (arrays st !! a) as [xs|]; [|discriminate]);
    (destruct ((i <? length xs) && (i <? maxIterations this));
       [| injection H as <- <-; split; [done | apply ext_refl]]);
    [discriminate|].
  cbn [newEnvironment] in H.
  set (st1 := (newEnvironment (Some e) st).2) in *.
  set (l := length (envs st)) in *.
  set (st2 := Env.call_define l variable (nth i xs VUndefined) st1) in *.
  assert (Hg2 : good st2).
  { apply good_call_define. by apply good_newEnvironment. }
  assert (Hl2 : length (envs st2) = S l).
  { unfold st2. rewrite length_call_define. unfold st1. simpl.
    rewrite length_app. simpl. unfold l. lia. }
  assert (Hx02 : ext e' st st2).
  { eapply ext_trans_gen; [apply ext_newEnvironment | |by right].
    apply ext_call_define. }
  inv_bind H.
  destruct (sound_step _ _ _ _ _ (Hev body l) E Hg2) as (Hg3 & Hx3 & Hl3).
  { change (l < length (envs st2)). lia. }
  assert (Hx03 : ext e' st s).
  { eapply ext_trans_gen; [exact Hx02 | exact Hx3 | by right]. }
  destruct (IH _ _ _ H Hg3) as [Hg4 Hx4].
  { apply ext_length in Hx03. lia. }
  split; [done | by eapply ext_trans].
Qed.

Lemma eachLoop_sound k variable body e a i result :
  sound e (eachLoop this ev k variable body e a i result).
Proof. intros st r st' H Hg He. by eapply eachLoop_ext. Qed.

Lemma evaluateEachStatement_sound variable iterable body e :
  sound e (evaluateEachStatement this ev variable iterable body e).
Proof.
  intros st r st' H Hg He. unfold evaluateEachStatement in H.
  inv_bind H.
  destruct (sound_step _ _ _ _ _ (Hev iterable e) E Hg He)
    as (Hg1 & Hx1 & He1).
  destruct v; try discriminate.
  destruct (arrays s !! a) as [xs|]; [|discriminate].
  destruct (eachLoop_sound _ _ _ _ _ _ _ _ _ _ H Hg1 He1) as [Hg2 Hx2].
  split; [done | by eapply ext_trans].
Qed.

Lemma asLoop_sound k condition body e iterations result :
  sound e (asLoop this ev k condition body e iterations result).
Proof.
  revert iterations result.
  induction k as [|k IH]; intros iterations result st r st' H Hg He;
    cbn [asLoop] in H; inv_bind H;
    destruct (sound_step _ _ _ _ _ (Hev condition e) E Hg He)
      as (Hg1 & Hx1 & He1);
    (destruct (isTruthy v);
       [| injection H as <- <-; by split]);
    (destruct (maxIterations this <=? iterations); [discriminate|]);
    inv_bind H; [discriminate|].
  destruct (sound_step _ _ _ _ _ (Hev body e) E0 Hg1 He1)
    as (Hg2 & Hx2 & He2).
  destruct (IH _ _ _ _ _ H Hg2 He2) as [Hg3 Hx3].
  split; [done|]. eapply ext_trans; [done|]. by eapply ext_trans.
Qed.

End EvaluateSound.

(** Evaluating a node keeps the store invariants and extends the store. *)
Lemma evaluate_sound this fuel : ∀ nd e, sound e (evaluate this fuel nd e).
Proof.
  induction fuel as [|n IH]; intros nd e; [by intros st a st' H|].
  destruct nd; cbn [evaluate].
  - by apply evaluateStatements_sound.
  - by apply evaluateNodeDeclaration_sound.
  - intros st a st' [= <- <-] Hg He.
    split; [by apply good_call_define | apply ext_call_define].
  - intros st a st' H Hg He. unfold evaluateCheckStatement in H.
    inv_bind H.
    destruct (sound_step _ _ _ _ _ (IH nd1 e) E Hg He) as (Hg1 & Hx1 & He1).
    destruct (isTruthy v).
    + destruct (IH _ _ _ _ _ H Hg1 He1). split; [done|by eapply ext_trans].
    + destruct alternate as [alt|].
      * destruct (IH _ _ _ _ _ H Hg1 He1).
        split; [done|by eapply ext_trans].
      * by injection H as <- <-.
  - by apply evaluateEachStatement_sound.
  - by apply asLoop_sound.
  - by apply evaluateStatements_sound.
  - intros st a st' H Hg He. unfold evaluateBinaryExpression in H.
    inv_bind H.
    destruct (sound_step _ _ _ _ _ (IH nd1 e) E Hg He) as (Hg1 & Hx1 & He1).
    inv_bind H.
    destruct (sound_step _ _ _ _ _ (IH nd2 e) E0 Hg1 He1)
      as (Hg2 & Hx2 & He2).
    destruct (binary_operator operator v v0); simpl in H; try discriminate.
    injection H as <- <-. split; [done | by eapply ext_trans].
  - intros st a st' H Hg He. unfold evaluateUnaryExpression in H.
    inv_bind H.
    destruct (sound_step _ _ _ _ _ (IH nd e) E Hg He) as (Hg1 & Hx1 & He1).
    destruct (unary_operator operator v); simpl in H; try discriminate.
    by injection H as <- <-.
  - intros st a st' H Hg He. unfold evaluateCallExpression in H.
    inv_bind H.
    destruct (sound_step _ _ _ _ _ (IH nd e) E Hg He) as (Hg1 & Hx1 & He1).
    destruct (is_function v); [|discriminate].
    inv_bind H.
    destruct (sound_step _ _ _ _ _ (evaluateAll_sound _ IH args e) E0 Hg1 He1)
      as (Hg2 & Hx2 & He2).
    destruct (applyFunction_sound _ IH _ _ e _ _ _ H Hg2 He2) as [Hg3 Hx3].
    split; [done|]. eapply ext_trans; [done|]. by eapply ext_trans.
  - intros st a st' H Hg He. unfold evaluateMemberExpression in H.
    inv_bind H.
    destruct (sound_step _ _ _ _ _ (IH nd1 e) E Hg He) as (Hg1 & Hx1 & He1).
    destruct computed.
    + inv_bind H.
      destruct (sound_step _ _ _ _ _ (IH nd2 e) E0 Hg1 He1)
        as (Hg2 & Hx2 & He2).
      destruct (get_member v v0 s0); simpl in H; try discriminate.
      injection H as <- <-. split; [done | by eapply ext_trans].
    + destruct (get_member v _ s); simpl in H; try discriminate.
      by injection H as <- <-.
  - intros st a st' H Hg He. unfold evaluateArrayExpression in H.
    inv_bind H. injection H as <- <-.
    destruct (sound_step _ _ _ _ _ (evaluateAll_sound _ IH elements e)
                E Hg He) as (Hg1 & Hx1 & He1).
    split; [by eapply good_same_envs|].
    eapply ext_trans; [done|]. apply ext_same_envs; [done|].
    simpl. by apply prefix_app_r.
  - intros st a st' H Hg He. unfold evaluateIdentifier in H.
    destruct (Env.get st e name); simpl in H; try discriminate.
    injection H as <- <-. split; [done | apply ext_refl].
  - intros st a st' [= <- <-] Hg He. split; [done | apply ext_refl].
Qed.

(* ================================================================= *)
(** ** Facts about action calls *)

Section ImplicitReturn.
Implicit Types (st : state) (a : loc) (names : list string).

Lemma get_local st a x v :
  binding st a x = Some v → Env.get st a x = Ok v.
Proof.
  unfold binding, Env.get. cbn [Env.get_walk].
  destruct (envs st !! a) as [fr|]; [|done]. simpl. by intros ->.
Qed.

Lemma own_property_None fields k :
  k ∉ fields.*1 → own_property fields k = None.
Proof.
  induction fields as [|[k' v] rest IH]; [done|]. simpl.
  intros Hk. apply not_elem_of_cons in Hk as [Hne Hk].
  destruct (String.eqb_spec k' k); [congruence | auto].
Qed.

Lemma collect_spec st a names acc :
  (∀ x, x ∈ names → is_Some (binding st a x)) →
  Forall (fun x => plain_key x = true) names →
  NoDup (acc.*1 ++ names) →
  ∃ fields, collect st a names acc = Ok (acc ++ fields) ∧
            fields.*1 = names ∧
            Forall (fun kv => binding st a kv.1 = Some kv.2) fields.
Proof.
  revert acc. induction names as [|x rest IH]; intros acc Hb Hp Hnd.
  { exists []. by rewrite app_nil_r. }
  destruct (Hb x) as [v Hv]; [by left|].
  apply Forall_cons in Hp as [Hpx Hp].
  cbn [collect]. rewrite (get_local _ _ _ _ Hv). simpl.
  unfold set_property. rewrite Hpx.
  rewrite own_property_None; last first.
  { apply NoDup_app in Hnd as (_ & Hdisj & _). intros Hin.
    apply (Hdisj x Hin). by left. }
  simpl. destruct (IH (acc ++ [(x, v)])) as (fields & Hc & Hk & Hf).
  - intros y Hy. apply Hb. by right.
  - done.
  - rewrite fmap_app. simpl. by rewrite <- app_assoc.
  - exists ((x, v) :: fields). rewrite Hc. rewrite <- app_assoc. simpl.
    split; [done|]. split; [exact (f_equal (cons x) Hk)|]. by constructor.
Qed.

Lemma evaluateStatements_app ev pre post env result st :
  evaluateStatements ev (pre ++ post) env result st =
  '(r, st1) ← evaluateStatements ev pre env result st;
  evaluateStatements ev post env r st1.
Proof.
  revert result st. induction pre as [|s pre IH]; intros result st; [done|].
  simpl. destruct (ev s env st) as [[r st1]| | |]; simpl; auto.
Qed.

Lemma recorded_bound st a :
  good st →
  NoDup (recorded st a) ∧
  ∀ x, x ∈ recorded st a → is_Some (binding st a x).
Proof.
  intros [_ Htr]. unfold recorded, binding.
  destruct (envs st !! a) as [fr|] eqn:Hfr;
    [|split; [constructor | intros x Hx; by apply elem_of_nil in Hx]].
  destruct (hooks fr) as [t|] eqn:Ht;
    [|split; [constructor | intros x Hx; by apply elem_of_nil in Hx]].
  exact (Htr _ _ _ Hfr Ht).
Qed.

Lemma recorded_prefix e st st' a :
  ext e st st' → recorded st a `prefix_of` recorded st' a.
Proof.
  intros [_ Hx]. unfold recorded.
  destruct (envs st !! a) as [fr|] eqn:Hfr; [|apply prefix_nil].
  destruct (Hx _ _ Hfr) as (fr' & -> & (_ & Hh & Hpre) & _).
  destruct (hooks fr) as [t|], (hooks fr') as [t'|];
    try done; apply prefix_nil.
Qed.

End ImplicitReturn.

Section Parameters.
Implicit Types (st : state) (a : loc) (params : list string).

Lemma call_define_plain a p v st :
  plain_at st a →
  plain_at (Env.call_define a p v st) a ∧
  (∀ q, binding (Env.call_define a p v st) a q =
        if decide (q = p) then Some v else binding st a q) ∧
  keys (Env.call_define a p v st) a = union {[p]} <$> keys st a.
Proof.
  intros (fr & Hfr & Hpl). unfold Env.call_define, Env.define.
  rewrite Hfr, Hpl. unfold plain_at, binding, keys.
  rewrite (lookup_variables_set_eq _ _ _ _ _ Hfr), Hfr. simpl.
  split; [by eexists|]. split.
  - intros q. case_decide as Hq.
    + subst q. apply lookup_insert_eq.
    + by apply lookup_insert_ne.
  - by rewrite dom_insert_L.
Qed.

Lemma bindParameters_plain a params args i st :
  plain_at st a → plain_at (bindParameters a params args i st) a.
Proof.
  revert i st. induction params as [|p ps IH]; intros i st Hpl; [done|].
  simpl. apply IH. by apply call_define_plain.
Qed.

Lemma bindParameters_keys a params args i st :
  plain_at st a →
  keys (bindParameters a params args i st) a =
  union (list_to_set params) <$> keys st a.
Proof.
  revert i st. induction params as [|p ps IH]; intros i st Hpl; simpl.
  - destruct (keys st a) as [K|]; [|done]. simpl. f_equal. set_solver.
  - destruct (call_define_plain a p (nth i args VUndefined) st Hpl)
      as (Hpl' & _ & Hk).
    rewrite IH, Hk by done.
    destruct (keys st a) as [K|]; [|done]. simpl. f_equal. set_solver.
Qed.

(** A binding to [undefined] survives the binding of parameters that have
    no argument. *)
Lemma bindParameters_keep a params args i st p :
  plain_at st a → length args ≤ i →
  binding st a p = Some VUndefined →
  binding (bindParameters a params args i st) a p = Some VUndefined.
Proof.
  revert i st. induction params as [|q ps IH]; intros i st Hpl Hi Hb; [done|].
  simpl. destruct (call_define_plain a q (nth i args VUndefined) st Hpl)
    as (Hpl' & Hbq & _).
  apply IH; [done | lia |]. rewrite Hbq. case_decide; [|done].
  by rewrite nth_overflow.
Qed.

Lemma bindParameters_missing a params args i st j p :
  plain_at st a → params !! j = Some p → length args ≤ i + j →
  binding (bindParameters a params args i st) a p = Some VUndefined.
Proof.
  revert i j st. induction params as [|q ps IH]; intros i j st Hpl Hj Hi;
    [done|].
  simpl. destruct (call_define_plain a q (nth i args VUndefined) st Hpl)
    as (Hpl' & Hbq & _).
  destruct j as [|j]; simpl in Hj.
  - injection Hj as ->. apply bindParameters_keep; [done | lia |].
    rewrite Hbq. rewrite decide_True by done.
    by rewrite nth_overflow by lia.
  - eapply IH; [done | exact Hj | lia].
Qed.

Lemma bindParameters_other a params args i st p :
  plain_at st a → p ∉ params →
  binding (bindParameters a params args i st) a p = binding st a p.
Proof.
  revert i st. induction params as [|q ps IH]; intros i st Hpl Hp; [done|].
  apply not_elem_of_cons in Hp as [Hne Hp]. simpl.
  destruct (call_define_plain a q (nth i args VUndefined) st Hpl)
    as (Hpl' & Hbq & _).
  rewrite IH by done. rewrite Hbq. by rewrite decide_False.
Qed.

Lemma bindParameters_last a params args i st j p :
  plain_at st a → params !! j = Some p → p ∉ drop (S j) params →
  binding (bindParameters a params args i st) a p =
  Some (nth (i + j) args VUndefined).
Proof.
  revert i j st. induction params as [|q ps IH]; intros i j st Hpl Hj Hlast;
    [done|].
  simpl. destruct (call_define_plain a q (nth i args VUndefined) st Hpl)
    as (Hpl' & Hbq & _).
  destruct j as [|j]; simpl in Hj.
  - injection Hj as ->. simpl in Hlast. rewrite drop_0 in Hlast.
    rewrite bindParameters_other by done.
    rewrite Hbq, decide_True by done. by rewrite Nat.add_0_r.
  - simpl in Hlast. rewrite (IH (S i) j) by done.
    by replace (S i + j) with (i + S j) by lia.
Qed.

Lemma bindParameters_take a params args i st :
  bindParameters a params (take (i + length params) args) i st =
  bindParameters a params args i st.
Proof.
  revert i st. induction params as [|p ps IH]; intros i st; [done|].
  simpl. replace (i + S (length ps)) with (S i + length ps) by lia.
  rewrite IH. do 2 f_equal.
  rewrite nth_firstn.
  destruct (Nat.ltb_spec i (S i + length ps)); [done | lia].
Qed.

End Parameters.

(* ================================================================= *)
(** ** Facts about loops and assignments *)

Section LoopFacts.

Variable this : Interpreter.
Variable ev : node → loc → state → outcome (value * state).
Hypothesis Hev : ∀ nd e, sound e (ev nd e).

Lemma iteration_scope_define env variable x st :
  (length (envs st),
   Env.call_define (length (envs st)) variable x
     (newEnvironment (Some env) st).2)
  = iteration_scope env variable x st.
Proof.
  unfold iteration_scope, Env.call_define, newEnvironment. simpl.
  rewrite lookup_app_r by done. rewrite Nat.sub_diag. simpl.
  unfold Env.define, variables_set, with_envs. simpl. do 2 f_equal.
  rewrite alter_app_r_alt by done. rewrite Nat.sub_diag. simpl.
  by rewrite insert_empty.
Qed.

Lemma eachLoop_each_items k variable body env a xs i result st :
  good st → env < length (envs st) →
  arrays st !! a = Some xs →
  length xs - i ≤ k →
  eachLoop this ev k variable body env a i result st =
  each_items ev variable body env
    (drop i (take (maxIterations this) xs)) result st.
Proof.
  revert i result st.
  induction k as [|k IH]; intros i result st Hg He Ha Hk;
    cbn [eachLoop]; rewrite Ha.
  - replace (i <? length xs) with false
      by (symmetry; apply Nat.ltb_ge; lia).
    simpl. rewrite drop_ge; [done|]. rewrite length_take. lia.
  - destruct (Nat.ltb_spec i (length xs)) as [Hlt | Hge];
      [destruct (Nat.ltb_spec i (maxIterations this)) as [Hlt' | Hge']|];
      simpl.
    + assert (Hnth : take (maxIterations this) xs !! i
                     = Some (nth i xs VUndefined)).
      { rewrite lookup_take_lt by done.
        destruct (nth_lookup_or_length xs i VUndefined); [done | lia]. }
      rewrite (drop_S _ _ _ Hnth). cbn [each_items].
      rewrite <- iteration_scope_define.
      set (l := length (envs st)).
      set (st2 := Env.call_define l variable (nth i xs VUndefined)
                    (newEnvironment (Some env) st).2).
      assert (Hg2 : good st2).
      { apply good_call_define. by apply good_newEnvironment. }
      assert (Hl2 : length (envs st2) = S l).
      { unfold st2. rewrite length_call_define. simpl.
        rewrite length_app. simpl. unfold l. lia. }
      assert (Hx2 : ext env st st2).
      { eapply ext_trans_gen; [apply ext_newEnvironment | | by right].
        apply ext_call_define. }
      change (ev body l (Env.call_define _ _ _ _)) with (ev body l st2).
      destruct (ev body l st2) as [[r st3]| | |] eqn:E; simpl; try done.
      destruct (sound_step _ _ _ _ _ (Hev body l) E Hg2) as (Hg3 & Hx3 & Hl3);
        [lia|].
      apply IH; [done | lia | | lia].
      eapply ext_arrays; [exact Hx3|]. eapply ext_arrays; [exact Hx2|done].
    + rewrite drop_ge; [done|]. rewrite length_take. lia.
    + rewrite drop_ge; [done|]. rewrite length_take. lia.
Qed.

Lemma asLoop_limit k condition body env iterations result st :
  maxIterations this = iterations + k →
  stays_true ev condition body env k st = true →
  asLoop this ev k condition body env iterations result st
    = Throw RuntimeLimitError.
Proof.
  revert iterations result st.
  induction k as [|k IH]; intros iterations result st Hmax Hst;
    cbn [asLoop]; cbn [stays_true] in Hst;
    destruct (ev condition env st) as [[c st1]| | |]; try discriminate;
    apply andb_prop in Hst as [Hc Hst]; simpl; rewrite Hc.
  - replace (maxIterations this <=? iterations) with true
      by (symmetry; apply Nat.leb_le; lia).
    done.
  - replace (maxIterations this <=? iterations) with false
      by (symmetry; apply Nat.leb_gt; lia).
    destruct (ev body env st1) as [[r st2]| | |]; try discriminate. simpl.
    apply IH; [lia | done].
Qed.

End LoopFacts.

Section Assignment.
Implicit Types (st : state) (e f g l a : loc) (name : string) (v : value).

Lemma has_walk_nearest st name e f k :
  wf_envs st → nearest st name e f → e < k →
  Env.has_walk k st e name = Ok true.
Proof.
  intros Hwf Hn. revert k.
  induction Hn as [e fr Hfr [v Hv] | e fr p f Hfr Hnone Hp Hn IH];
    intros k Hk; (destruct k; [lia|]); cbn [Env.has_walk]; rewrite Hfr;
    unfold variables_has.
  - by rewrite Hv.
  - rewrite Hnone, Hp. apply IH. specialize (Hwf _ _ _ Hfr Hp). lia.
Qed.

Lemma has_walk_unbound st name e k :
  wf_envs st → unbound st name e → e < k →
  Env.has_walk k st e name = Ok false.
Proof.
  intros Hwf Hu. revert k.
  induction Hu as [e fr Hfr Hnone Hp | e fr p Hfr Hnone Hp Hu IH];
    intros k Hk; (destruct k; [lia|]); cbn [Env.has_walk]; rewrite Hfr;
    unfold variables_has; rewrite Hnone, Hp; [done|].
  apply IH. specialize (Hwf _ _ _ Hfr Hp). lia.
Qed.

(** An assignment in a plain scope [l] that does not bind the name, when
    the chain above [l] is plain and binds it: [set] overwrites the
    nearest binding. *)
Lemma assign_through_plain ev name valueNode l st v st1 frl p f :
  ev valueNode l st = Ok (v, st1) →
  wf_envs st1 →
  envs st1 !! l = Some frl → parent frl = Some p → hooks frl = None →
  variables frl !! name = None →
  plain_chain st1 p → nearest st1 name p f →
  evaluateNodeDeclaration ev name valueNode l st
    = Ok (v, variables_set f name v st1).
Proof.
  intros Hv Hwf Hl Hp Hh Hnone Hpl Hn. unfold evaluateNodeDeclaration.
  rewrite Hv. simpl. rewrite Hl. unfold variables_has. rewrite Hnone, Hp.
  unfold Env.has. rewrite (has_walk_nearest _ _ _ _ _ Hwf Hn) by lia.
  simpl. unfold Env.set. cbn [Env.set_walk].
  rewrite Hl, Hh. unfold variables_has. rewrite Hnone, Hp.
  pose proof (Hwf _ _ _ Hl Hp) as Hlt.
  rewrite (set_walk_nearest _ _ _ _ v l Hwf Hpl Hn Hlt). done.
Qed.

(** The same assignment when the scope above [l] carries the hooks of an
    action call: the installed [set] binds the name in that scope. *)
Lemma assign_through_action ev name valueNode l st v st1 frl a fra t f :
  ev valueNode l st = Ok (v, st1) →
  wf_envs st1 →
  envs st1 !! l = Some frl → parent frl = Some a → hooks frl = None →
  variables frl !! name = None →
  envs st1 !! a = Some fra → hooks fra = Some t →
  nearest st1 name a f →
  evaluateNodeDeclaration ev name valueNode l st
    = Ok (v, Env.action_set t a name v st1).
Proof.
  intros Hv Hwf Hl Hp Hh Hnone Ha Ht Hn. unfold evaluateNodeDeclaration.
  rewrite Hv. simpl. rewrite Hl. unfold variables_has. rewrite Hnone, Hp.
  unfold Env.has. rewrite (has_walk_nearest _ _ _ _ _ Hwf Hn) by lia.
  simpl. unfold Env.set. cbn [Env.set_walk].
  rewrite Hl, Hh. unfold variables_has. rewrite Hnone, Hp.
  pose proof (Hwf _ _ _ Hl Hp) as Hlt.
  destruct l as [|l']; [lia|]. cbn [Env.set_walk]. by rewrite Ha, Ht.
Qed.

(** The same assignment when no scope binds the name: it is defined in
    [l] itself. *)
Lemma assign_new ev name valueNode l st v st1 frl p :
  ev valueNode l st = Ok (v, st1) →
  wf_envs st1 →
  envs st1 !! l = Some frl → parent frl = Some p → hooks frl = None →
  variables frl !! name = None →
  unbound st1 name p →
  evaluateNodeDeclaration ev name valueNode l st
    = Ok (v, variables_set l name v st1).
Proof.
  intros Hv Hwf Hl Hp Hh Hnone Hu. unfold evaluateNodeDeclaration.
  rewrite Hv. simpl. rewrite Hl. unfold variables_has. rewrite Hnone, Hp.
  unfold Env.has. rewrite (has_walk_unbound _ _ _ _ Hwf Hu) by lia.
  simpl. unfold Env.call_define. by rewrite Hl, Hh.
Qed.

Lemma recorded_action_define t a name v st fra :
  envs st !! a = Some fra → hooks fra = Some t →
  recorded (Env.action_define t a name v st) a =
    (if includes (tr_params t) name then assignedVars t
     else Set_add name (assignedVars t)) ∧
  binding (Env.action_define t a name v st) a name = Some v ∧
  (∀ g, g ≠ a → envs (Env.action_define t a name v st) !! g = envs st !! g).
Proof.
  intros Ha Ht. rewrite action_define_alter. unfold recorded, binding.
  simpl. rewrite list_lookup_alter_eq, Ha. simpl.
  split; [|split].
  - rewrite Ht. by destruct (includes (tr_params t) name).
  - apply lookup_insert_eq.
  - intros g Hg. by apply list_lookup_alter_ne.
Qed.

End Assignment.

(* ================================================================= *)
(** ** Where an assignment ends *)

Section SetTarget.
Implicit Types (st : state) (e f g : loc) (name : string) (v : value).

Lemma set_target_valid st name e f :
  set_target st name e f → f < length (envs st) ∧
  (wf_envs st → f ≤ e).
Proof.
  induction 1 as [e fr Hfr _ | e fr p f Hfr Hh Hnone Hp Ht [IH1 IH2]].
  - split; [by eapply lookup_lt_Some | done].
  - split; [done|]. intros Hwf. specialize (IH2 Hwf).
    specialize (Hwf _ _ _ Hfr Hp). lia.
Qed.

(** The walk of [set] ends at a plain environment only if it binds the
    name; the binding is overwritten. *)
Lemma set_walk_target_plain st name e f fr v k :
  wf_envs st → set_target st name e f →
  envs st !! f = Some fr → hooks fr = None → e < k →
  is_Some (variables fr !! name) ∧
  Env.set_walk k st e name v = Ok (variables_set f name v st).
Proof.
  intros Hwf Ht. revert k.
  induction Ht as [e fr' Hfr' Hor | e fr' p f Hfr' Hh' Hnone Hp Ht IH];
    intros k Hfr Hh Hk; (destruct k; [lia|]); cbn [Env.set_walk].
  - rewrite Hfr in Hfr'. injection Hfr' as <-.
    destruct Hor as [[t Ht] | Hb]; [congruence|].
    split; [done|]. rewrite Hfr, Hh. unfold variables_has.
    by destruct Hb as [w ->].
  - rewrite Hfr', Hh'. unfold variables_has. rewrite Hnone, Hp.
    apply IH; [done | done |]. specialize (Hwf _ _ _ Hfr' Hp). lia.
Qed.

(** The walk of [set] ends at the scope of an action call with the
    installed [set]. *)
Lemma set_walk_target_action st name e f fr t v k :
  wf_envs st → set_target st name e f →
  envs st !! f = Some fr → hooks fr = Some t → e < k →
  Env.set_walk k st e name v = Ok (Env.action_set t f name v st).
Proof.
  intros Hwf Ht. revert k.
  induction Ht as [e fr' Hfr' Hor | e fr' p f Hfr' Hh' Hnone Hp Ht IH];
    intros k Hfr Hh Hk; (destruct k; [lia|]); cbn [Env.set_walk].
  - by rewrite Hfr, Hh.
  - rewrite Hfr', Hh'. unfold variables_has. rewrite Hnone, Hp.
    apply IH; [done | done |]. specialize (Hwf _ _ _ Hfr' Hp). lia.
Qed.

(** A walk over a well-formed store ends at a target, or reaches the
    root through plain environments that do not bind the name. *)
Lemma set_target_or_none st name e :
  wf_envs st → e < length (envs st) →
  (∃ f, set_target st name e f) ∨ (unbound st name e ∧ plain_chain st e).
Proof.
  intros Hwf. induction (lt_wf e) as [e _ IH]. intros He.
  destruct (lookup_lt_is_Some_2 _ _ He) as [fr Hfr].
  destruct (hooks fr) as [t|] eqn:Hh.
  { left. exists e. eapply set_target_here; [done|]. left. by rewrite Hh. }
  destruct (variables fr !! name) as [w|] eqn:Hv.
  { left. exists e. eapply set_target_here; [done|]. right. by rewrite Hv. }
  destruct (parent fr) as [p|] eqn:Hp.
  - pose proof (Hwf _ _ _ Hfr Hp) as Hlt.
    destruct (IH p Hlt) as [[f Hf] | [Hu Hpl]]; [lia | |].
    + left. exists f. by eapply set_target_up.
    + right. split; [by eapply unbound_up | by eapply plain_up].
  - right. split; [by eapply unbound_root | by eapply plain_root].
Qed.

(** The nearest binding is the target of [set] unless the scope of an
    action call comes first. *)
Lemma nearest_set_target st name e n :
  nearest st name e n → ∃ f, set_target st name e f.
Proof.
  induction 1 as [e fr Hfr Hb | e fr p n Hfr Hnone Hp Hn [f Hf]].
  - exists e. eapply set_target_here; [done | by right].
  - destruct (hooks fr) as [t|] eqn:Hh.
    + exists e. eapply set_target_here; [done|]. left. by rewrite Hh.
    + exists f. by eapply set_target_up.
Qed.

(** On a chain of plain environments the target is the nearest
    binding. *)
Lemma set_target_plain_chain st name e f :
  plain_chain st e → set_target st name e f ↔ nearest st name e f.
Proof.
  intros Hpl. split.
  - intros Ht. induction Ht as [e fr Hfr Hor | e fr p f Hfr Hh Hnone Hp Ht IH].
    + destruct (plain_chain_inv _ _ _ Hpl Hfr) as [Hh _].
      destruct Hor as [[t Ht] | Hb]; [congruence|].
      by eapply nearest_here.
    + destruct (plain_chain_inv _ _ _ Hpl Hfr) as [_ Hpl'].
      eapply nearest_up; [done..|]. apply IH. by apply Hpl'.
  - intros Hn. induction Hn as [e fr Hfr Hb | e fr p n Hfr Hnone Hp Hn IH].
    + eapply set_target_here; [done | by right].
    + destruct (plain_chain_inv _ _ _ Hpl Hfr) as [Hh Hpl'].
      eapply set_target_up; [done..|]. apply IH. by apply Hpl'.
Qed.

Lemma nearest_plain st name e f :
  plain_chain st e → nearest st name e f → plain_at st f.
Proof.
  intros Hpl Hn. induction Hn as [e fr Hfr Hb | e fr p n Hfr Hnone Hp Hn IH].
  - destruct (plain_chain_inv _ _ _ Hpl Hfr) as [Hh _]. by exists fr.
  - destruct (plain_chain_inv _ _ _ Hpl Hfr) as [_ Hpl'].
    apply IH. by apply Hpl'.
Qed.

Lemma recorded_variables_set f g name v st :
  recorded (variables_set f name v st) g = recorded st g.
Proof.
  unfold recorded. destruct (decide (f = g)) as [<- | Hfg].
  - destruct (envs st !! f) as [fr|] eqn:Hfr.
    + by rewrite (lookup_variables_set_eq _ _ _ _ _ Hfr).
    + by rewrite envs_variables_set, list_lookup_alter_eq, Hfr.
  - by rewrite lookup_variables_set_ne.
Qed.

Lemma binding_other_frames st st' f g name' :
  (∀ h, h ≠ f → envs st' !! h = envs st !! h) → g ≠ f →
  binding st' g name' = binding st g name'.
Proof. intros H Hg. unfold binding. by rewrite H. Qed.

(** The installed [set] changes one binding. *)
Lemma binding_action_define t f g name name' v st :
  (g, name') ≠ (f, name) →
  binding (Env.action_define t f name v st) g name' = binding st g name'.
Proof.
  intros Hne. rewrite action_define_alter. unfold binding. simpl.
  destruct (decide (f = g)) as [<- | Hfg].
  - rewrite list_lookup_alter_eq. destruct (envs st !! f) as [fr|]; [|done].
    simpl. apply lookup_insert_ne. congruence.
  - by rewrite list_lookup_alter_ne.
Qed.

End SetTarget.

Section AssignmentTarget.
Implicit Types (st : state) (e f g l a : loc) (name : string) (v : value).

(** An assignment in a plain scope [l] that does not bind the name, when
    the chain above [l] binds it: [set] ends at the first scope that binds
    the name or is the scope of an action call. *)
Lemma assign_through_target ev name valueNode l st v st1 frl p b f fr :
  ev valueNode l st = Ok (v, st1) →
  wf_envs st1 →
  envs st1 !! l = Some frl → parent frl = Some p → hooks frl = None →
  variables frl !! name = None →
  nearest st1 name p b → set_target st1 name p f →
  envs st1 !! f = Some fr →
  evaluateNodeDeclaration ev name valueNode l st
    = Ok (v, match hooks fr with
             | Some t => Env.action_set t f name v st1
             | None => variables_set f name v st1
             end).
Proof.
  intros Hv Hwf Hl Hp Hh Hnone Hn Ht Hf. unfold evaluateNodeDeclaration.
  rewrite Hv. simpl. rewrite Hl. unfold variables_has. rewrite Hnone, Hp.
  unfold Env.has. rewrite (has_walk_nearest _ _ _ _ _ Hwf Hn) by lia.
  simpl. unfold Env.set.
  assert (Htl : set_target st1 name l f) by (by eapply set_target_up).
  destruct (hooks fr) as [t|] eqn:Hhf.
  - by rewrite (set_walk_target_action _ _ _ _ _ _ v (S l) Hwf Htl Hf Hhf)
      by lia.
  - destruct (set_walk_target_plain _ _ _ _ _ v (S l) Hwf Htl Hf Hhf)
      as [_ ->]; [lia | done].
Qed.

(** An assignment to a name that the scope binds itself overwrites that
    binding, whatever the scope. *)
Lemma assign_own ev name valueNode l st v st1 frl :
  ev valueNode l st = Ok (v, st1) →
  envs st1 !! l = Some frl → is_Some (variables frl !! name) →
  evaluateNodeDeclaration ev name valueNode l st
    = Ok (v, variables_set l name v st1).
Proof.
  intros Hv Hl [w Hw]. unfold evaluateNodeDeclaration.
  rewrite Hv. simpl. rewrite Hl. unfold variables_has. by rewrite Hw.
Qed.

End AssignmentTarget.

(* ================================================================= *)
(** ** The account of an action call *)

Section Accounted.
Implicit Types (st : state) (a e g : loc) (name : string) (v : value).

Lemma accounted_at_alter a g (F : Environment → Environment) st :
  accounted_at a st →
  (g = a → ∀ fr t', envs st !! g = Some fr → hooks (F fr) = Some t' →
     (∀ x, x ∈ assignedVars t' → x ∉ tr_params t') ∧
     (∀ x, is_Some (variables (F fr) !! x) →
           x ∈ tr_params t' ∨ x ∈ assignedVars t')) →
  accounted_at a (with_envs st (alter F g (envs st))).
Proof.
  intros Hacc HF fr t Hfr Ht. simpl in Hfr.
  destruct (decide (g = a)) as [-> | Hne].
  - rewrite list_lookup_alter_eq in Hfr.
    destruct (envs st !! a) as [fr0|] eqn:Ha; [|discriminate].
    simpl in Hfr. injection Hfr as <-. by eapply HF.
  - rewrite list_lookup_alter_ne in Hfr by done. by eapply Hacc.
Qed.

Lemma accounted_at_same_envs a st st' :
  envs st' = envs st → accounted_at a st → accounted_at a st'.
Proof. intros Heq Hacc fr t. rewrite Heq. apply Hacc. Qed.

(** [variables.set] keeps the account when it overwrites a binding or
    works on a plain environment. *)
Lemma accounted_at_variables_set a g name v st :
  (∀ fr, envs st !! g = Some fr →
         hooks fr = None ∨ is_Some (variables fr !! name)) →
  accounted_at a st → accounted_at a (variables_set g name v st).
Proof.
  intros H Hacc. apply accounted_at_alter; [done|].
  intros -> fr t' Hfr Ht'. simpl in *.
  destruct (H _ Hfr) as [Hn | Hb]; [congruence|].
  destruct (Hacc _ _ Hfr Ht') as [H1 H2]. split; [done|].
  intros x Hx. apply lookup_insert_is_Some in Hx as [<- | [_ Hx]]; auto.
Qed.

(** The installed [define] keeps the account: it records what it
    binds, unless that is a parameter. *)
Lemma accounted_at_action_define a t g name v st :
  (∀ fr, envs st !! g = Some fr → hooks fr = Some t) →
  accounted_at a st → accounted_at a (Env.action_define t g name v st).
Proof.
  intros H Hacc. rewrite action_define_alter.
  apply accounted_at_alter; [done|].
  intros -> fr t' Hfr Ht'. pose proof (H _ Hfr) as Ht.
  destruct (Hacc _ _ Hfr Ht) as [H1 H2].
  unfold action_define_frame in *. simpl in *. rewrite Ht in Ht'.
  unfold includes in Ht'. case_bool_decide as Hinc.
  - injection Ht' as <-. split; [done|]. intros x Hx.
    apply lookup_insert_is_Some in Hx as [<- | [_ Hx]]; auto.
  - injection Ht' as <-. simpl. split.
    + intros x [Hx | ->]%Set_add_elem; auto.
    + intros x Hx. apply lookup_insert_is_Some in Hx as [<- | [_ Hx]].
      * right. apply Set_add_elem. by right.
      * destruct (H2 x Hx); [by left | right].
        apply Set_add_elem. by left.
Qed.

Lemma accounted_at_call_define a g name v st :
  accounted_at a st → accounted_at a (Env.call_define g name v st).
Proof.
  intros Hacc. unfold Env.call_define.
  destruct (envs st !! g) as [fr|] eqn:Hfr; [|done].
  destruct (hooks fr) as [t|] eqn:Ht.
  - apply accounted_at_action_define; [|done]. intros fr' Hfr'. congruence.
  - apply accounted_at_variables_set; [|done].
    intros fr' Hfr'. left. congruence.
Qed.

Lemma set_walk_accounted a k st g name v st' :
  Env.set_walk k st g name v = Ok st' →
  accounted_at a st → accounted_at a st'.
Proof.
  revert g. induction k as [|k IH]; intros g Hs Hacc; [discriminate|].
  cbn [Env.set_walk] in Hs.
  destruct (envs st !! g) as [fr|] eqn:Hfr; [|discriminate].
  destruct (hooks fr) as [t|] eqn:Ht.
  - injection Hs as <-. apply accounted_at_action_define; [|done].
    intros fr' Hfr'. congruence.
  - destruct (variables_has fr name) eqn:Hhas.
    + injection Hs as <-. apply accounted_at_variables_set; [|done].
      intros fr' Hfr'. left. congruence.
    + destruct (parent fr); [eauto | discriminate].
Qed.

Lemma accounted_at_newEnvironment a p st :
  accounted_at a st → accounted_at a (newEnvironment p st).2.
Proof.
  intros Hacc fr t Hfr Ht. simpl in Hfr.
  apply lookup_app_Some in Hfr as [Hfr | [_ Hfr]]; [by eapply Hacc|].
  apply list_lookup_singleton_Some in Hfr as [_ <-]. discriminate.
Qed.

Lemma bindParameters_accounted a b params args i st :
  accounted_at a st → accounted_at a (bindParameters b params args i st).
Proof.
  revert i st. induction params as [|p ps IH]; intros i st Hacc; [done|].
  simpl. apply IH. by apply accounted_at_call_define.
Qed.

(** When a call starts, its scope binds parameters only and nothing is
    recorded. *)
Lemma enter_action_accounted a params cenv args st :
  accounted_at a st → accounted_at a (enter_action params cenv args st).2.
Proof.
  intros Hacc. unfold enter_action. cbn [newEnvironment snd].
  set (b := length (envs st)).
  set (st1 := with_envs st (envs st ++ [mkEnvironment (Some cenv) ∅ None])).
  assert (Hpl : plain_at st1 b).
  { exists (mkEnvironment (Some cenv) ∅ None). split; [|done].
    unfold st1. simpl. rewrite lookup_app_r by done.
    by rewrite Nat.sub_diag. }
  pose proof (bindParameters_keys b params args 0 st1 Hpl) as Hkeys.
  assert (Hacc1 : accounted_at a st1).
  { exact (accounted_at_newEnvironment a (Some cenv) st Hacc). }
  pose proof (bindParameters_accounted a b params args 0 st1 Hacc1) as Hacc2.
  set (st2 := bindParameters b params args 0 st1) in *.
  unfold install_hooks. apply accounted_at_alter; [done|].
  intros _ fr t' Hfr Hh. simpl in Hh. injection Hh as <-. simpl.
  split; [intros x Hx; by apply elem_of_nil in Hx|].
  intros x Hx. left. unfold keys in Hkeys. rewrite Hfr in Hkeys.
  assert (Hfr1 : envs st1 !! b = Some (mkEnvironment (Some cenv) ∅ None)).
  { unfold st1. simpl. rewrite lookup_app_r by done.
    by rewrite Nat.sub_diag. }
  rewrite Hfr1 in Hkeys. simpl in Hkeys.
  injection Hkeys as Hkeys. rewrite <- elem_of_dom in Hx.
  rewrite Hkeys in Hx. set_solver.
Qed.

(** What the account says about the recorded names. *)
Lemma accounted_recorded a st fr t x :
  accounted_at a st → envs st !! a = Some fr → hooks fr = Some t →
  (x ∈ recorded st a → x ∉ tr_params t) ∧
  (is_Some (binding st a x) → x ∉ tr_params t → x ∈ recorded st a).
Proof.
  intros Hacc Hfr Ht. destruct (Hacc _ _ Hfr Ht) as [H1 H2].
  unfold recorded, binding. rewrite Hfr, Ht. simpl.
  split; [by apply H1|]. intros Hb Hx. by destruct (H2 x Hb).
Qed.

(** The hooks of an environment stay installed, for the same
    parameters. *)
Lemma ext_hooks e st st' a fr t :
  ext e st st' → envs st !! a = Some fr → hooks fr = Some t →
  ∃ fr' t', envs st' !! a = Some fr' ∧ hooks fr' = Some t' ∧
            tr_params t' = tr_params t.
Proof.
  intros [_ Hx] Hfr Ht.
  destruct (Hx _ _ Hfr) as (fr' & Hfr' & (_ & Hh & _) & _).
  rewrite Ht in Hh. destruct (hooks fr') as [t'|] eqn:Ht'; [|done].
  exists fr', t'. simpl in Hh. split; [done|]. split; [done|]. congruence.
Qed.

(** An assignment, as a statement of an action body, to a name that is
    no parameter: the name is bound in the scope of the call and is
    recorded, after the names recorded so far unless it is one of them. *)
Lemma assign_in_action ev name valueNode a st r st1 v stv fr t :
  evaluateNodeDeclaration ev name valueNode a st = Ok (r, st1) →
  ev valueNode a st = Ok (v, stv) →
  envs stv !! a = Some fr → hooks fr = Some t →
  name ∉ tr_params t → accounted_at a stv →
  r = v ∧
  recorded st1 a = Set_add name (recorded stv a) ∧
  binding st1 a name = Some v.
Proof.
  intros H Hv Hfr Ht Hname Hacc. unfold evaluateNodeDeclaration in H.
  rewrite Hv in H. simpl in H. rewrite Hfr in H.
  assert (Hrec : recorded stv a = assignedVars t).
  { unfold recorded. by rewrite Hfr, Ht. }
  assert (Hinc : includes (tr_params t) name = false).
  { unfold includes. by apply bool_decide_eq_false. }
  destruct (recorded_action_define t a name v stv fr Hfr Ht)
    as (Hr & Hb & _). rewrite Hinc in Hr.
  destruct (variables_has fr name) eqn:Hhas.
  { injection H as <- <-. split; [done|].
    assert (Hbound : is_Some (variables fr !! name)).
    { unfold variables_has in Hhas.
      destruct (variables fr !! name); [by eexists | discriminate]. }
    destruct (Hacc _ _ Hfr Ht) as [_ H2].
    destruct (H2 name Hbound) as [Hp | Hin]; [done|].
    split.
    - rewrite recorded_variables_set, Hrec. unfold Set_add.
      by rewrite bool_decide_eq_true_2.
    - apply binding_variables_set_same. by eapply lookup_lt_Some. }
  destruct (match parent fr with
            | Some p => Env.has stv p name
            | None => Ok false
            end) as [inParent| | |]; simpl in H; try discriminate.
  destruct inParent.
  - unfold Env.set in H. cbn [Env.set_walk] in H. rewrite Hfr, Ht in H.
    simpl in H. injection H as <- <-. by rewrite Hrec.
  - unfold Env.call_define in H. rewrite Hfr, Ht in H.
    injection H as <- <-. by rewrite Hrec.
Qed.

End Accounted.

Section EvaluateAccounted.

Variable this : Interpreter.
Variable ev : node → loc → state → outcome (value * state).
Variable a : loc.
Hypothesis Hev : ∀ nd e, sound e (ev nd e).
Hypothesis Hac : ∀ nd e, accounting a e (ev nd e).

Lemma evaluateStatements_accounting statements e result :
  accounting a e (evaluateStatements ev statements e result).
Proof.
  revert result. induction statements as [|s rest IH];
    intros result st r st' H Hg He Hacc; simpl in H.
  - by injection H as <- <-.
  - inv_bind H.
    destruct (sound_step _ _ _ _ _ (Hev s e) E Hg He) as (Hg1 & _ & He1).
    eapply IH; [done..|]. by eapply Hac.
Qed.

Lemma evaluateAll_accounting nodes e :
  accounting a e (evaluateAll ev nodes e).
Proof.
  induction nodes as [|nd rest IH]; intros st r st' H Hg He Hacc;
    simpl in H.
  - by injection H as <- <-.
  - inv_bind H.
    destruct (sound_step _ _ _ _ _ (Hev nd e) E Hg He) as (Hg1 & _ & He1).
    inv_bind H. injection H as <- <-.
    eapply IH; [done..|]. by eapply Hac.
Qed.

Lemma evaluateNodeDeclaration_accounting name valueNode e :
  accounting a e (evaluateNodeDeclaration ev name valueNode e).
Proof.
  intros st r st' H Hg He Hacc. unfold evaluateNodeDeclaration in H.
  inv_bind H. pose proof (Hac _ _ _ _ _ E Hg He Hacc) as Hacc1.
  destruct (envs s !! e) as [fr|] eqn:Hfr; [|discriminate].
  destruct (variables_has fr name) eqn:Hhas.
  { injection H as <- <-. apply accounted_at_variables_set; [|done].
    intros fr' Hfr'. right. assert (fr' = fr) as -> by congruence.
    unfold variables_has in Hhas.
    destruct (variables fr !! name); [by eexists | discriminate]. }
  destruct (match parent fr with
            | Some p => Env.has s p name
            | None => Ok false
            end) as [inParent| | |]; simpl in H; try discriminate.
  destruct inParent.
  - destruct (Env.set s e name v) as [st2| | |] eqn:Hset; simpl in H;
      try discriminate.
    injection H as <- <-. by eapply set_walk_accounted.
  - injection H as <- <-. by apply accounted_at_call_define.
Qed.

Lemma callAction_accounting params body cenv args e :
  accounting a e (callAction ev params body cenv args).
Proof.
  intros st r st' H Hg He Hacc. unfold callAction in H.
  destruct (cenv <? length (envs st)) eqn:Hc; [|discriminate].
  apply Nat.ltb_lt in Hc.
  pose proof (enter_action_accounted a params cenv args st Hacc) as Hacc1.
  destruct (enter_action params cenv args st) as [actionEnv st1] eqn:Hent.
  destruct (enter_action_facts _ _ _ _ _ _ Hent)
    as (-> & Hlen & _ & _ & _ & Hgood).
  inv_bind H. apply implicitReturn_state in H as Hst. subst st'.
  eapply evaluateStatements_accounting; [exact E | by apply Hgood | lia |].
  exact Hacc1.
Qed.

Lemma applyFunction_accounting fn args e :
  accounting a e (applyFunction ev fn args).
Proof.
  destruct fn; try (by intros st r st' H).
  - apply callAction_accounting.
  - intros st r st' H _ _. apply accounted_at_same_envs.
    by destruct (call_ok _ _ _ _ _ H).
Qed.

Lemma eachLoop_accounting k variable body e arr i result :
  accounting a e (eachLoop this ev k variable body e arr i result).
Proof.
  revert i result. induction k as [|k IH];
    intros i result st r st' H Hg He Hacc;
    cbn [eachLoop] in H;
    (destruct (arrays st !! arr) as [xs|]; [|discriminate]);
    (destruct ((i <? length xs) && (i <? maxIterations this));
       [| by injection H as <- <-]);
    [discriminate|].
  cbn [newEnvironment] in H.
  set (st1 := (newEnvironment (Some e) st).2) in *.
  set (l := length (envs st)) in *.
  set (st2 := Env.call_define l variable (nth i xs VUndefined) st1) in *.
  assert (Hg2 : good st2).
  { apply good_call_define. by apply good_newEnvironment. }
  assert (Hl2 : length (envs st2) = S l).
  { unfold st2. rewrite length_call_define. unfold st1. simpl.
    rewrite length_app. simpl. unfold l. lia. }
  assert (Hacc2 : accounted_at a st2).
  { apply accounted_at_call_define. by apply accounted_at_newEnvironment. }
  inv_bind H.
  destruct (sound_step _ _ _ _ _ (Hev body l) E Hg2) as (Hg3 & Hx3 & Hl3).
  { change (l < length (envs st2)). lia. }
  assert (Hacc3 : accounted_at a s).
  { eapply Hac; [exact E | done | | done].
    change (l < length (envs st2)). lia. }
  eapply IH; [exact H | done | | done]. unfold l in Hl3. lia.
Qed.

Lemma evaluateEachStatement_accounting variable iterable body e :
  accounting a e (evaluateEachStatement this ev variable iterable body e).
Proof.
  intros st r st' H Hg He Hacc. unfold evaluateEachStatement in H.
  inv_bind H.
  destruct (sound_step _ _ _ _ _ (Hev iterable e) E Hg He)
    as (Hg1 & _ & He1).
  pose proof (Hac _ _ _ _ _ E Hg He Hacc) as Hacc1.
  destruct v; try discriminate.
  destruct (arrays s !! a0) as [xs|]; [|discriminate].
  by eapply eachLoop_accounting.
Qed.

Lemma asLoop_accounting k condition body e iterations result :
  accounting a e (asLoop this ev k condition body e iterations result).
Proof.
  revert iterations result.
  induction k as [|k IH]; intros iterations result st r st' H Hg He Hacc;
    cbn [asLoop] in H; inv_bind H;
    destruct (sound_step _ _ _ _ _ (Hev condition e) E Hg He)
      as (Hg1 & _ & He1);
    pose proof (Hac _ _ _ _ _ E Hg He Hacc) as Hacc1;
    (destruct (isTruthy v);
       [| by injection H as <- <-]);
    (destruct (maxIterations this <=? iterations); [discriminate|]);
    inv_bind H; [discriminate|].
  destruct (sound_step _ _ _ _ _ (Hev body e) E0 Hg1 He1)
    as (Hg2 & _ & He2).
  pose proof (Hac _ _ _ _ _ E0 Hg1 He1 Hacc1) as Hacc2.
  by eapply IH.
Qed.

End EvaluateAccounted.

(** Evaluating a node keeps the account of every scope. *)
Lemma evaluate_accounting this fuel a :
  ∀ nd e, accounting a e (evaluate this fuel nd e).
Proof.
  induction fuel as [|n IH]; intros nd e; [by intros st r st' H|].
  pose proof (evaluate_sound this n) as IHs.
  destruct nd; cbn [evaluate].
  - by apply evaluateStatements_accounting.
  - by apply evaluateNodeDeclaration_accounting.
  - intros st r st' [= <- <-] Hg He Hacc. by apply accounted_at_call_define.
  - intros st r st' H Hg He Hacc. unfold evaluateCheckStatement in H.
    inv_bind H.
    destruct (sound_step _ _ _ _ _ (IHs nd1 e) E Hg He) as (Hg1 & _ & He1).
    pose proof (IH _ _ _ _ _ E Hg He Hacc) as Hacc1.
    destruct (isTruthy v).
    + by eapply IH.
    + destruct alternate as [alt|].
      * by eapply IH.
      * by injection H as <- <-.
  - by apply evaluateEachStatement_accounting.
  - by apply asLoop_accounting.
  - by apply evaluateStatements_accounting.
  - intros st r st' H Hg He Hacc. unfold evaluateBinaryExpression in H.
    inv_bind H.
    destruct (sound_step _ _ _ _ _ (IHs nd1 e) E Hg He) as (Hg1 & _ & He1).
    pose proof (IH _ _ _ _ _ E Hg He Hacc) as Hacc1.
    inv_bind H.
    pose proof (IH _ _ _ _ _ E0 Hg1 He1 Hacc1) as Hacc2.
    destruct (binary_operator operator v v0); simpl in H; try discriminate.
    by injection H as <- <-.
  - intros st r st' H Hg He Hacc. unfold evaluateUnaryExpression in H.
    inv_bind H.
    pose proof (IH _ _ _ _ _ E Hg He Hacc) as Hacc1.
    destruct (unary_operator operator v); simpl in H; try discriminate.
    by injection H as <- <-.
  - intros st r st' H Hg He Hacc. unfold evaluateCallExpression in H.
    inv_bind H.
    destruct (sound_step _ _ _ _ _ (IHs nd e) E Hg He) as (Hg1 & _ & He1).
    pose proof (IH _ _ _ _ _ E Hg He Hacc) as Hacc1.
    destruct (is_function v); [|discriminate].
    inv_bind H.
    destruct (sound_step _ _ _ _ _ (evaluateAll_sound _ IHs args e)
                E0 Hg1 He1) as (Hg2 & _ & He2).
    pose proof (evaluateAll_accounting _ a IHs IH args e _ _ _ E0 Hg1 He1
                  Hacc1) as Hacc2.
    by eapply (applyFunction_accounting _ a IHs IH).
  - intros st r st' H Hg He Hacc. unfold evaluateMemberExpression in H.
    inv_bind H.
    destruct (sound_step _ _ _ _ _ (IHs nd1 e) E Hg He) as (Hg1 & _ & He1).
    pose proof (IH _ _ _ _ _ E Hg He Hacc) as Hacc1.
    destruct computed.
    + inv_bind H.
      pose proof (IH _ _ _ _ _ E0 Hg1 He1 Hacc1) as Hacc2.
      destruct (get_member v v0 s0); simpl in H; try discriminate.
      by injection H as <- <-.
    + destruct (get_member v _ s); simpl in H; try discriminate.
      by injection H as <- <-.
  - intros st r st' H Hg He Hacc. unfold evaluateArrayExpression in H.
    inv_bind H. injection H as <- <-.
    pose proof (evaluateAll_accounting _ a IHs IH elements e _ _ _ E Hg He
                  Hacc) as Hacc1.
    by eapply accounted_at_same_envs.
  - intros st r st' H Hg He Hacc. unfold evaluateIdentifier in H.
    destruct (Env.get st e name); simpl in H; try discriminate.
    by injection H as <- <-.
  - by intros st r st' [= <- <-] Hg He Hacc.
Qed.

(* ================================================================= *)
(** ** Facts about the scanner *)

Section NumberFacts.
Import Lexer.

Lemma points_app xs ys : points (xs ++ ys) = points xs + points ys.
Proof. induction xs as [|c xs IH]; simpl; [done|]. rewrite IH. lia. Qed.

Lemma advance_fields lx :
  input (advance lx).2 = input lx ∧
  position (advance lx).2 = S (position lx) ∧
  tokens (advance lx).2 = tokens lx.
Proof. unfold advance. simpl. by destruct (is_char newline _). Qed.

(** [readNumber] reads the longest run of digits with at most one point
    that starts at the position. *)
Lemma readNumber_loop_spec k lx num hasDecimal :
  length (input lx) - position lx ≤ k →
  ∃ lexeme lx',
    readNumber_loop k lx num hasDecimal = Ok (num ++ lexeme, lx') ∧
    input lx' = input lx ∧
    position lx' = position lx + length lexeme ∧
    tokens lx' = tokens lx ∧
    take (length lexeme) (drop (position lx) (input lx)) = lexeme ∧
    Forall (fun c => is_digit c = true ∨ c = "."%char) lexeme ∧
    points lexeme ≤ (if hasDecimal then 0 else 1) ∧
    match peek lx' 0 with
    | None => True
    | Some c =>
        is_digit c = false ∧
        (c = "."%char → hasDecimal = true ∨ points lexeme = 1)
    end.
Proof.
  revert lx num hasDecimal.
  induction k as [|k IH]; intros lx num hasDecimal Hk;
    cbn [readNumber_loop]; destruct (peek lx 0) as [c|] eqn:Hpeek.
  - unfold peek in Hpeek. apply lookup_lt_Some in Hpeek. lia.
  - exists [], lx. rewrite app_nil_r, Hpeek, Nat.add_0_r. simpl.
    repeat split; try done. destruct hasDecimal; lia.
  - destruct (is_digit c || (Ascii.eqb c "." && negb hasDecimal)) eqn:Hc.
    + destruct (advance_fields lx) as (Hin & Hpos & Htok).
      destruct (IH (advance lx).2 (num ++ [c])
                  (if Ascii.eqb c "." then true else hasDecimal))
        as (lexeme & lx' & Hrun & Hin' & Hpos' & Htok' & Htake & Hall
            & Hpts & Hstop).
      { rewrite Hin, Hpos. lia. }
      exists (c :: lexeme), lx'. rewrite Hrun, <- app_assoc. simpl.
      unfold peek in Hpeek. rewrite Nat.add_0_r in Hpeek.
      split; [done|]. split; [congruence|]. split; [lia|].
      split; [congruence|]. split; [|split; [|split]].
      * rewrite (drop_S _ _ _ Hpeek). simpl. f_equal.
        by rewrite Hin, Hpos in Htake.
      * constructor; [|done]. apply orb_prop in Hc as [Hd | Hp];
          [by left | right].
        apply andb_prop in Hp as [Hp _]. by apply Ascii.eqb_eq in Hp.
      * destruct (Ascii.eqb c ".") eqn:Hdot; [|simpl; lia].
        apply orb_prop in Hc as [Hd | Hp].
        -- apply Ascii.eqb_eq in Hdot as ->. discriminate.
        -- apply andb_prop in Hp as [_ Hn]. apply negb_true_iff in Hn.
           subst hasDecimal. lia.
      * destruct (peek lx' 0) as [c'|]; [|done].
        destruct Hstop as [Hnd Hdot']. split; [done|]. intros Hc'.
        destruct (Hdot' Hc') as [Hh | Hone];
          destruct (Ascii.eqb c "."); try (by left); right; simpl in *; lia.
    + exists [], lx. rewrite app_nil_r, Hpeek, Nat.add_0_r. simpl.
      apply orb_false_elim in Hc as [Hd Hp].
      repeat split; try done; [destruct hasDecimal; lia|].
      intros ->. simpl in Hp. apply negb_false_iff in Hp. by left.
  - exists [], lx. rewrite app_nil_r, Hpeek, Nat.add_0_r. simpl.
    repeat split; try done. destruct hasDecimal; lia.
Qed.

End NumberFacts.

Section IdentifierFacts.
Import Lexer.

Lemma readIdentifier_loop_prefix k lx id chars lx' :
  readIdentifier_loop k lx id = Ok (chars, lx') → id `prefix_of` chars.
Proof.
  revert lx id. induction k as [|k IH]; intros lx id H;
    cbn [readIdentifier_loop] in H;
    (destruct (peek lx 0) as [c|]; [|by injection H as <- _]);
    (destruct (is_letter c || is_digit c); [|by injection H as <- _]);
    [discriminate|].
  apply IH in H. etrans; [|exact H]. by apply prefix_app_r.
Qed.

Lemma classify_IDENTIFIER id :
  classify id = Ok IDENTIFIER → id ≠ "__proto__".
Proof.
  unfold classify. intros H ->. vm_compute in H. discriminate.
Qed.

(** A name the scanner classifies as IDENTIFIER, read where [tokenize]
    reads identifiers (not at a digit), is a plain record key. *)
Lemma identifier_plain_key k lx t lx' :
  (∀ c, peek lx 0 = Some c → is_digit c = false) →
  readIdentifier k lx = Ok (t, lx') → type t = IDENTIFIER →
  ∃ id, tvalue t = StringValue id ∧ plain_key id = true.
Proof.
  intros Hstart H Ht. unfold readIdentifier in H.
  destruct (readIdentifier_loop k lx []) as [[chars lx1]| | |] eqn:Hloop;
    simpl in H; try discriminate.
  destruct (classify (string_of_list_ascii chars)) as [ty| | |] eqn:Hcl;
    simpl in H; try discriminate.
  injection H as <- <-. simpl in Ht. subst ty. simpl.
  exists (string_of_list_ascii chars). split; [done|].
  unfold plain_key. apply andb_true_intro. split.
  - apply negb_true_iff, String.eqb_neq. by apply classify_IDENTIFIER.
  - destruct k as [|k]; cbn [readIdentifier_loop] in Hloop;
      destruct (peek lx 0) as [c|] eqn:Hpeek;
      try (by injection Hloop as <- _);
      (destruct (is_letter c || is_digit c);
         [|by injection Hloop as <- _]); [discriminate|].
    apply readIdentifier_loop_prefix in Hloop as [rest ->]. simpl.
    apply negb_true_iff. exact (Hstart c eq_refl).
Qed.

End IdentifierFacts.


(* ================================================================= *)
(** ** Facts about the example states *)

Lemma observe_final (r : outcome (value * state)) (v : value) (d : state) :
  observe (fun _ => tt) r = Ok (v, tt) → r = Ok (v, final_state r d).
Proof. destruct r as [[w st]| | |]; simpl; congruence. Qed.

Lemma good_single m arrs out :
  good (mkState [mkEnvironment None m None] arrs out).
Proof.
  split.
  - intros e fr p Hfr Hp. destruct e as [|e]; [|done].
    injection Hfr as <-. discriminate.
  - intros e fr t Hfr Ht. destruct e as [|e]; [|done].
    injection Hfr as <-. discriminate.
Qed.

Lemma good_Interpreter_new : good Interpreter_new.2.
Proof. apply good_single. Qed.

(* ================================================================= *)
(** ** Confinement of action calls: lemmas *)

Section Confinement.
Implicit Types (st : state) (b e g : loc) (name : string) (v : value).

Lemma same_below_refl b st : same_below b st st.
Proof. by intros g Hg. Qed.

Lemma same_below_trans b st1 st2 st3 :
  same_below b st1 st2 → same_below b st2 st3 → same_below b st1 st3.
Proof. intros H1 H2 g Hg. by rewrite H2, H1. Qed.

Lemma guarded_le b st e : guarded b st e → b ≤ e.
Proof. by destruct 1. Qed.

Lemma guarded_ext b e' st st' e :
  ext e' st st' → guarded b st e → guarded b st' e.
Proof.
  intros [_ Hx]. induction 1 as [e fr t Hb Hfr Ht | e fr p Hb Hfr Hh Hp _ IH].
  - destruct (Hx _ _ Hfr) as (fr' & Hfr' & (_ & Hpar & _) & _).
    rewrite Ht in Hpar. destruct (hooks fr') as [t'|] eqn:Ht'; [|done].
    by eapply guarded_here.
  - destruct (Hx _ _ Hfr) as (fr' & Hfr' & (Hpar & Hhk & _) & _).
    rewrite Hh in Hhk. destruct (hooks fr') as [t'|] eqn:Ht'; [done|].
    eapply guarded_up; [done..| |done]. congruence.
Qed.

Lemma same_below_variables_set b e name v st :
  b ≤ e → same_below b st (variables_set e name v st).
Proof. intros Hb g Hg. apply lookup_variables_set_ne. lia. Qed.

Lemma same_below_call_define b e name v st :
  b ≤ e → same_below b st (Env.call_define e name v st).
Proof. intros Hb g Hg. apply lookup_call_define_ne. lia. Qed.

Lemma same_below_action_define b t e name v st :
  b ≤ e → same_below b st (Env.action_define t e name v st).
Proof.
  intros Hb g Hg. rewrite action_define_alter. simpl.
  apply list_lookup_alter_ne. lia.
Qed.

(** An assignment that starts in a guarded environment stops at the
    guard. *)
Lemma set_walk_confined k b st e name v st' :
  guarded b st e → Env.set_walk k st e name v = Ok st' →
  same_below b st st'.
Proof.
  revert e. induction k as [|k IH]; intros e Hgd H; [discriminate|].
  cbn [Env.set_walk] in H.
  destruct Hgd as [e fr t Hb Hfr Ht | e fr p Hb Hfr Hh Hp Hgd];
    rewrite Hfr in H.
  - rewrite Ht in H. injection H as <-. by apply same_below_action_define.
  - rewrite Hh in H. destruct (variables_has fr name).
    + injection H as <-. by apply same_below_variables_set.
    + rewrite Hp in H. by eapply IH.
Qed.

End Confinement.

Section EvaluateConfined.

Variable this : Interpreter.
Variable ev : node → loc → state → outcome (value * state).
Hypothesis Hev : ∀ nd e, sound e (ev nd e).
Hypothesis Hcf : ∀ b nd e, confined b e (ev nd e).

Lemma confined_step {A} b e (m : state → outcome (A * state)) st a st1 :
  sound e m → confined b e m → m st = Ok (a, st1) →
  good st → e < length (envs st) → guarded b st e →
  good st1 ∧ e < length (envs st1) ∧ guarded b st1 e ∧ same_below b st st1.
Proof.
  intros Hs Hc H Hg He Hgd.
  destruct (sound_step _ _ _ _ _ Hs H Hg He) as (Hg1 & Hx1 & He1).
  split; [done|]. split; [done|]. split; [by eapply guarded_ext|].
  by eapply Hc.
Qed.

Lemma evaluateStatements_confined b statements e result :
  confined b e (evaluateStatements ev statements e result).
Proof.
  revert result. induction statements as [|s rest IH];
    intros result st a st' H Hg He Hgd; simpl in H.
  - injection H as <- <-. apply same_below_refl.
  - inv_bind H.
    destruct (confined_step b _ _ _ _ _ (Hev s e) (Hcf b s e) E Hg He Hgd)
      as (Hg1 & He1 & Hgd1 & Hs1).
    eapply same_below_trans; [done|]. by eapply IH.
Qed.

Lemma evaluateAll_confined b nodes e : confined b e (evaluateAll ev nodes e).
Proof.
  induction nodes as [|nd rest IH]; intros st a st' H Hg He Hgd; simpl in H.
  - injection H as <- <-. apply same_below_refl.
  - inv_bind H.
    destruct (confined_step b _ _ _ _ _ (Hev nd e) (Hcf b nd e) E Hg He Hgd)
      as (Hg1 & He1 & Hgd1 & Hs1).
    inv_bind H. injection H as <- <-.
    eapply same_below_trans; [done|]. by eapply IH.
Qed.

Lemma evaluateNodeDeclaration_confined b name valueNode e :
  confined b e (evaluateNodeDeclaration ev name valueNode e).
Proof.
  intros st a st' H Hg He Hgd. unfold evaluateNodeDeclaration in H.
  inv_bind H.
  destruct (confined_step b _ _ _ _ _ (Hev valueNode e) (Hcf b valueNode e)
              E Hg He Hgd) as (Hg1 & He1 & Hgd1 & Hs1).
  eapply same_below_trans; [done|].
  pose proof (guarded_le _ _ _ Hgd) as Hb.
  destruct (envs s !! e) as [fr|] eqn:Hfr; [|discriminate].
  destruct (variables_has fr name).
  { injection H as <- <-. by apply same_below_variables_set. }
  destruct (match parent fr with
            | Some p => Env.has s p name
            | None => Ok false
            end) as [inParent| | |]; simpl in H; try discriminate.
  destruct inParent.
  - destruct (Env.set s e name v) as [st2| | |] eqn:Hset; simpl in H;
      try discriminate.
    injection H as <- <-. by eapply set_walk_confined.
  - injection H as <- <-. by apply same_below_call_define.
Qed.

(** The scope of a call is its own guard: whatever the body assigns stays
    in the scopes the call creates. *)
Lemma callAction_same_below params body cenv args st a st' :
  callAction ev params body cenv args st = Ok (a, st') → good st →
  same_below (length (envs st)) st st'.
Proof.
  intros H Hg. unfold callAction in H.
  destruct (cenv <? length (envs st)) eqn:Hc; [|discriminate].
  apply Nat.ltb_lt in Hc.
  destruct (enter_action params cenv args st) as [actionEnv st1] eqn:Hent.
  destruct (enter_action_facts _ _ _ _ _ _ Hent)
    as (-> & Hlen & Harr & Hold & (fr & Hfr & _ & Hhk) & Hgood).
  inv_bind H. apply implicitReturn_state in H as Hst. subst st'.
  eapply same_below_trans; [exact Hold|].
  eapply (evaluateStatements_confined (length (envs st))); [done|by auto| |].
  - lia.
  - by eapply guarded_here.
Qed.

Lemma applyFunction_confined b fn args e :
  confined b e (applyFunction ev fn args).
Proof.
  intros st a st' H Hg He Hgd. destruct fn; try discriminate; simpl in H.
  - intros g Hlt. apply (callAction_same_below _ _ _ _ _ _ _ H Hg).
    apply guarded_le in Hgd. lia.
  - destruct (call_ok _ _ _ _ _ H) as [Henvs _]. intros g _.
    by rewrite Henvs.
Qed.

Lemma eachLoop_confined b k variable body e a i result :
  confined b e (eachLoop this ev k variable body e a i result).
Proof.
  revert i result. induction k as [|k IH];
    intros i result st r st' H Hg He Hgd;
    cbn [eachLoop] in H;
    (destruct (arrays st !! a) as [xs|]; [|discriminate]);
    (destruct ((i <? length xs) && (i <? maxIterations this));
       [| injection H as <- <-; apply same_below_refl]);
    [discriminate|].
  pose proof (guarded_le _ _ _ Hgd) as Hb.
  cbn [newEnvironment] in H.
  set (st1 := (newEnvironment (Some e) st).2) in *.
  set (l := length (envs st)) in *.
  set (st2 := Env.call_define l variable (nth i xs VUndefined) st1) in *.
  assert (Hg1 : good st1) by (by apply good_newEnvironment).
  assert (Hg2 : good st2) by (by apply good_call_define).
  assert (Hl2 : length (envs st2) = S l).
  { unfold st2. rewrite length_call_define. unfold st1. simpl.
    rewrite length_app. simpl. unfold l. lia. }
  assert (Hx02 : ext e st st2).
  { eapply ext_trans_gen; [apply ext_newEnvironment | |by right].
    apply ext_call_define. }
  assert (Hs02 : same_below b st st2).
  { eapply same_below_trans; [|apply same_below_call_define; lia].
    intros g Hlt. unfold st1. simpl. apply lookup_app_l. lia. }
  assert (Hgd2 : guarded b st2 l).
  { destruct (ext_call_define l variable (nth i xs VUndefined) st1)
      as [_ Hx].
    destruct (Hx l (mkEnvironment (Some e) ∅ None))
      as (fr' & Hfr' & (Hpar & Hhk & _) & _).
    { unfold st1. simpl. rewrite lookup_app_r by done.
      by rewrite Nat.sub_diag. }
    simpl in Hpar, Hhk.
    eapply guarded_up; [lia | exact Hfr' | | exact Hpar |].
    - by destruct (hooks fr').
    - by eapply guarded_ext. }
  inv_bind H.
  destruct (confined_step b _ _ _ _ _ (Hev body l) (Hcf b body l) E Hg2)
    as (Hg3 & Hl3 & Hgd3 & Hs3); [change (l < length (envs st2)); lia|done|].
  destruct (sound_step _ _ _ _ _ (Hev body l) E Hg2) as (_ & Hx3 & _);
    [change (l < length (envs st2)); lia|].
  assert (Hx03 : ext e st s).
  { eapply ext_trans_gen; [exact Hx02 | exact Hx3 | by right]. }
  eapply same_below_trans; [exact Hs02|].
  eapply same_below_trans; [exact Hs3|].
  eapply IH; [done..| |].
  - apply ext_length in Hx03. lia.
  - by eapply guarded_ext.
Qed.

Lemma asLoop_confined b k condition body e iterations result :
  confined b e (asLoop this ev k condition body e iterations result).
Proof.
  revert iterations result.
  induction k as [|k IH]; intros iterations result st r st' H Hg He Hgd;
    cbn [asLoop] in H; inv_bind H;
    destruct (confined_step b _ _ _ _ _ (Hev condition e)
                (Hcf b condition e) E Hg He Hgd)
      as (Hg1 & He1 & Hgd1 & Hs1);
    (destruct (isTruthy v);
       [| by injection H as <- <-]);
    (destruct (maxIterations this <=? iterations); [discriminate|]);
    inv_bind H; [discriminate|].
  destruct (confined_step b _ _ _ _ _ (Hev body e) (Hcf b body e)
              E0 Hg1 He1 Hgd1) as (Hg2 & He2 & Hgd2 & Hs2).
  eapply same_below_trans; [done|]. eapply same_below_trans; [done|].
  by eapply IH.
Qed.

End EvaluateConfined.

Lemma evaluate_confined this fuel :
  ∀ b nd e, confined b e (evaluate this fuel nd e).
Proof.
  induction fuel as [|n IH]; intros b nd e; [by intros st a st' H|].
  pose proof (evaluate_sound this n) as HS.
  destruct nd; cbn [evaluate].
  - by apply evaluateStatements_confined.
  - by apply evaluateNodeDeclaration_confined.
  - intros st a st' [= <- <-] Hg He Hgd.
    apply same_below_call_define. by eapply guarded_le.
  - intros st a st' H Hg He Hgd. unfold evaluateCheckStatement in H.
    inv_bind H.
    destruct (confined_step b _ _ _ _ _ (HS nd1 e) (IH b nd1 e) E Hg He Hgd)
      as (Hg1 & He1 & Hgd1 & Hs1).
    eapply same_below_trans; [done|].
    destruct (isTruthy v).
    + by eapply IH.
    + destruct alternate as [alt|].
      * by eapply IH.
      * injection H as <- <-. apply same_below_refl.
  - intros st a st' H Hg He Hgd. unfold evaluateEachStatement in H.
    inv_bind H.
    destruct (confined_step b _ _ _ _ _ (HS nd1 e) (IH b nd1 e) E Hg He Hgd)
      as (Hg1 & He1 & Hgd1 & Hs1).
    eapply same_below_trans; [done|].
    destruct v; try discriminate.
    destruct (arrays s !! a0) as [xs|]; [|discriminate].
    by eapply eachLoop_confined.
  - by apply asLoop_confined.
  - by apply evaluateStatements_confined.
  - intros st a st' H Hg He Hgd. unfold evaluateBinaryExpression in H.
    inv_bind H.
    destruct (confined_step b _ _ _ _ _ (HS nd1 e) (IH b nd1 e) E Hg He Hgd)
      as (Hg1 & He1 & Hgd1 & Hs1).
    inv_bind H.
    destruct (confined_step b _ _ _ _ _ (HS nd2 e) (IH b nd2 e) E0 Hg1 He1
                Hgd1) as (Hg2 & He2 & Hgd2 & Hs2).
    destruct (binary_operator operator v v0); simpl in H; try discriminate.
    injection H as <- <-. by eapply same_below_trans.
  - intros st a st' H Hg He Hgd. unfold evaluateUnaryExpression in H.
    inv_bind H.
    destruct (confined_step b _ _ _ _ _ (HS nd e) (IH b nd e) E Hg He Hgd)
      as (Hg1 & He1 & Hgd1 & Hs1).
    destruct (unary_operator operator v); simpl in H; try discriminate.
    by injection H as <- <-.
  - intros st a st' H Hg He Hgd. unfold evaluateCallExpression in H.
    inv_bind H.
    destruct (confined_step b _ _ _ _ _ (HS nd e) (IH b nd e) E Hg He Hgd)
      as (Hg1 & He1 & Hgd1 & Hs1).
    destruct (is_function v); [|discriminate].
    inv_bind H.
    destruct (confined_step b _ _ _ _ _ (evaluateAll_sound _ HS args e)
                (evaluateAll_confined _ HS IH b args e) E0 Hg1 He1 Hgd1)
      as (Hg2 & He2 & Hgd2 & Hs2).
    eapply same_below_trans; [done|]. eapply same_below_trans; [done|].
    by eapply (applyFunction_confined _ HS IH).
  - intros st a st' H Hg He Hgd. unfold evaluateMemberExpression in H.
    inv_bind H.
    destruct (confined_step b _ _ _ _ _ (HS nd1 e) (IH b nd1 e) E Hg He Hgd)
      as (Hg1 & He1 & Hgd1 & Hs1).
    destruct computed.
    + inv_bind H.
      destruct (confined_step b _ _ _ _ _ (HS nd2 e) (IH b nd2 e) E0 Hg1 He1
                  Hgd1) as (Hg2 & He2 & Hgd2 & Hs2).
      destruct (get_member v v0 s0); simpl in H; try discriminate.
      injection H as <- <-. by eapply same_below_trans.
    + destruct (get_member v _ s); simpl in H; try discriminate.
      by injection H as <- <-.
  - intros st a st' H Hg He Hgd. unfold evaluateArrayExpression in H.
    inv_bind H. injection H as <- <-.
    exact (evaluateAll_confined _ HS IH b elements e _ _ _ E Hg He Hgd).
  - intros st a st' H Hg He Hgd. unfold evaluateIdentifier in H.
    destruct (Env.get st e name); simpl in H; try discriminate.
    injection H as <- <-. apply same_below_refl.
  - intros st a st' [= <- <-] Hg He Hgd. apply same_below_refl.
Qed.

Section ScopeFacts.
Implicit Types (st : state) (e g p : loc) (name : string) (v : value).

Lemma get_walk_define_other k st e name v g name' :
  name' ≠ name →
  Env.get_walk k (Env.define e name v st) g name' = Env.get_walk k st g name'.
Proof.
  intros Hne. revert g. induction k as [|k IH]; intros g; [done|].
  cbn [Env.get_walk]. unfold Env.define. rewrite envs_variables_set.
  destruct (decide (g = e)) as [->|Hg].
  - rewrite list_lookup_alter_eq. destruct (envs st !! e) as [fr|]; [|done].
    simpl. rewrite lookup_insert_ne by done.
    destruct (variables fr !! name'); [done|].
    destruct (parent fr); [|done]. apply IH.
  - rewrite list_lookup_alter_ne by done.
    destruct (envs st !! g) as [fr|]; [|done].
    destruct (variables fr !! name'); [done|].
    destruct (parent fr); [|done]. apply IH.
Qed.

Lemma get_walk_define_below k st e name v g name' :
  wf_envs st → g < e →
  Env.get_walk k (Env.define e name v st) g name' = Env.get_walk k st g name'.
Proof.
  intros Hwf. revert g. induction k as [|k IH]; intros g Hlt; [done|].
  cbn [Env.get_walk]. unfold Env.define. rewrite envs_variables_set.
  rewrite list_lookup_alter_ne by lia.
  destruct (envs st !! g) as [fr|] eqn:Hfr; [|done].
  destruct (variables fr !! name'); [done|].
  destruct (parent fr) as [p|] eqn:Hp; [|done].
  apply IH. specialize (Hwf _ _ _ Hfr Hp). lia.
Qed.

End ScopeFacts.

(* ================================================================= *)
(** ** Array builtins: lemmas *)

Section ArrayBuiltins.
Implicit Types (st : state) (a : loc) (xs : list value).

Lemma alter_last {A} (f : A → A) (l : list A) (x : A) :
  alter f (length l) (l ++ [x]) = l ++ [f x].
Proof.
  induction l as [|y l IH]; simpl; [done|]. by rewrite <- IH.
Qed.

Lemma spread_spec a xs st :
  arrays st !! a = Some xs →
  Builtins.spread a st =
    Ok (length (arrays st), with_arrays st (arrays st ++ [xs])).
Proof. unfold Builtins.spread. by intros ->. Qed.

Lemma push_spec a xs items st :
  arrays st !! a = Some xs →
  Builtins.push (VArr a :: items) st =
    Ok (VArr (length (arrays st)),
        with_arrays st (arrays st ++ [xs ++ items])).
Proof.
  intros Ha. unfold Builtins.push. rewrite (spread_spec _ _ _ Ha). simpl.
  unfold Builtins.Array_push, with_arrays. simpl. by rewrite alter_last.
Qed.

Lemma Array_pop_last (arrs : list (list value)) xs x st :
  arrays st = arrs ++ [xs ++ [x]] →
  Builtins.Array_pop (length arrs) st = (x, with_arrays st (arrs ++ [xs])).
Proof.
  intros H. unfold Builtins.Array_pop. rewrite H.
  rewrite lookup_app_r by done. rewrite Nat.sub_diag. cbn [lookup list_lookup].
  rewrite length_app. cbn [length]. rewrite Nat.add_1_r.
  rewrite app_nth2 by lia. rewrite Nat.sub_diag. cbn [nth].
  rewrite alter_last. by rewrite take_app_length.
Qed.

Lemma pop_spec a xs x rest st :
  arrays st !! a = Some (xs ++ [x]) →
  Builtins.pop (VArr a :: rest) st =
    Ok (VObj [("array", VArr (length (arrays st))); ("item", x)],
        with_arrays st (arrays st ++ [xs])).
Proof.
  intros Ha. unfold Builtins.pop. rewrite (spread_spec _ _ _ Ha).
  cbn [mbind outcome_bind].
  by rewrite (Array_pop_last (arrays st) xs x).
Qed.

Lemma reverse_spec a xs rest st :
  arrays st !! a = Some xs →
  Builtins.reverse (VArr a :: rest) st =
    Ok (VArr (length (arrays st)),
        with_arrays st (arrays st ++ [rev xs])).
Proof.
  intros Ha. unfold Builtins.reverse. rewrite (spread_spec _ _ _ Ha). simpl.
  unfold with_arrays. simpl. by rewrite alter_last.
Qed.

Lemma call_console name args st v st' :
  Builtins.call name args st = Ok (v, st') →
  console st `prefix_of` console st'.
Proof.
  unfold Builtins.call, Builtins.table. cbn [Builtins.find_entry].
  repeat (destruct (String.eqb _ name); [|]);
    try discriminate.
  all: try (unfold Builtins.typeof_is; intros [= _ <-]; done).
  - unfold Builtins.print. destruct args as [|? [|]]; intros [= _ <-];
      by eexists.
  - unfold Builtins.print. destruct args as [|? [|]]; intros [= _ <-];
      by eexists.
  - unfold Builtins.length_. destruct args as [|[] ?]; try discriminate.
    + by intros [= _ <-].
    + destruct (arrays st !! a); [|discriminate]. by intros [= _ <-].
  - unfold Builtins.push. destruct args as [|[] ?]; try discriminate.
    unfold Builtins.spread. destruct (arrays st !! a); [|discriminate].
    by intros [= _ <-].
  - unfold Builtins.pop. destruct args as [|[] ?]; try discriminate.
    unfold Builtins.spread. destruct (arrays st !! a); [|discriminate].
    cbn [mbind outcome_bind]. unfold Builtins.Array_pop.
    destruct (_ !! _); [destruct (length _)|]; by intros [= _ <-].
  - unfold Builtins.reverse. destruct args as [|[] ?]; try discriminate.
    unfold Builtins.spread. destruct (arrays st !! a); [|discriminate].
    by intros [= _ <-].
Qed.

End ArrayBuiltins.

(* ================================================================= *)
(** ** Progress of the scanner: lemmas *)

Section ScannerProgress.
Import Lexer.
Implicit Types (lx : Lexer) (k : nat) (c : ascii).

Lemma peek_lt lx c : peek lx 0 = Some c → position lx < length (input lx).
Proof.
  unfold peek. rewrite Nat.add_0_r. apply lookup_lt_Some.
Qed.

Lemma skipWhitespace_spec k lx :
  length (input lx) - position lx ≤ k →
  ∃ lx', skipWhitespace k lx = Ok lx' ∧
         input lx' = input lx ∧ position lx ≤ position lx' ∧
         tokens lx' = tokens lx.
Proof.
  revert lx. induction k as [|k IH]; intros lx Hk; cbn [skipWhitespace];
    destruct (peek lx 0) as [c|] eqn:Hpeek; try (by exists lx).
  - apply peek_lt in Hpeek. lia.
  - destruct (is_blank c); [|by exists lx].
    destruct (advance_fields lx) as (Hin & Hpos & Htok).
    apply peek_lt in Hpeek.
    destruct (IH (advance lx).2) as (lx' & -> & Hin' & Hpos' & Htok');
      [rewrite Hin, Hpos; lia|].
    exists lx'. split; [done|]. split; [congruence|].
    split; [lia | congruence].
Qed.

Lemma skipComment_loop_spec k lx :
  length (input lx) - position lx ≤ k →
  ∃ lx', skipComment_loop k lx = Ok lx' ∧
         input lx' = input lx ∧ position lx ≤ position lx' ∧
         tokens lx' = tokens lx ∧
         (∀ c, peek lx 0 = Some c → c ≠ newline →
               position lx < position lx').
Proof.
  revert lx. induction k as [|k IH]; intros lx Hk; cbn [skipComment_loop];
    destruct (peek lx 0) as [c|] eqn:Hpeek; try (by exists lx).
  - apply peek_lt in Hpeek. lia.
  - destruct (Ascii.eqb c newline) eqn:Hc; cbn [negb].
    { exists lx. repeat split; try done. intros c' [= <-] Hne.
      by apply Ascii.eqb_eq in Hc. }
    destruct (advance_fields lx) as (Hin & Hpos & Htok).
    apply peek_lt in Hpeek.
    destruct (IH (advance lx).2) as (lx' & -> & Hin' & Hpos' & Htok' & _);
      [rewrite Hin, Hpos; lia|].
    exists lx'. split; [done|]. split; [congruence|].
    split; [lia|]. split; [congruence|]. intros; lia.
Qed.

Lemma readString_loop_spec k quote lx str :
  length (input lx) - position lx ≤ k →
  ∃ str' lx', readString_loop k quote lx str = Ok (str', lx') ∧
              input lx' = input lx ∧ position lx ≤ position lx' ∧
              tokens lx' = tokens lx.
Proof.
  revert lx str. induction k as [|k IH]; intros lx str Hk;
    cbn [readString_loop];
    destruct (peek lx 0) as [c|] eqn:Hpeek; try (by exists str, lx).
  - apply peek_lt in Hpeek. lia.
  - destruct (Ascii.eqb c quote); cbn [negb]; [by exists str, lx|].
    destruct (advance_fields lx) as (Hin & Hpos & Htok).
    apply peek_lt in Hpeek.
    destruct (Ascii.eqb c backslash).
    + destruct (advance (advance lx).2) as [next lx2] eqn:Hadv.
      destruct (advance_fields (advance lx).2) as (Hin2 & Hpos2 & Htok2).
      rewrite Hadv in Hin2, Hpos2, Htok2. cbn [snd] in Hin2, Hpos2, Htok2.
      destruct (IH lx2 (str ++ escape next))
        as (str' & lx' & -> & Hin' & Hpos' & Htok');
        [rewrite Hin2, Hpos2, Hin, Hpos; lia|].
      exists str', lx'. split; [done|]. split; [congruence|].
      split; [lia | congruence].
    + destruct (IH (advance lx).2 (str ++ [c]))
        as (str' & lx' & -> & Hin' & Hpos' & Htok');
        [rewrite Hin, Hpos; lia|].
      exists str', lx'. split; [done|]. split; [congruence|].
      split; [lia | congruence].
Qed.

Lemma readIdentifier_loop_spec k lx id :
  length (input lx) - position lx ≤ k →
  ∃ chars lx', readIdentifier_loop k lx id = Ok (chars, lx') ∧
               input lx' = input lx ∧ position lx ≤ position lx' ∧
               tokens lx' = tokens lx ∧
               (∀ c, peek lx 0 = Some c → is_letter c = true →
                     position lx < position lx').
Proof.
  revert lx id. induction k as [|k IH]; intros lx id Hk;
    cbn [readIdentifier_loop];
    destruct (peek lx 0) as [c|] eqn:Hpeek; try (by exists id, lx).
  - apply peek_lt in Hpeek. lia.
  - destruct (is_letter c || is_digit c) eqn:Hc.
    + destruct (advance_fields lx) as (Hin & Hpos & Htok).
      apply peek_lt in Hpeek.
      destruct (IH (advance lx).2 (id ++ [c]))
        as (chars & lx' & -> & Hin' & Hpos' & Htok' & _);
        [rewrite Hin, Hpos; lia|].
      exists chars, lx'. split; [done|]. split; [congruence|].
      split; [lia|]. split; [congruence|]. intros; lia.
    + exists id, lx. repeat split; try done. intros c' [= <-] Hl.
      rewrite Hl in Hc. discriminate.
Qed.

Lemma find_entry_elem {A} name (entries : list (string * A)) f :
  Builtins.find_entry name entries = Some f → f ∈ entries.*2.
Proof.
  induction entries as [|[k g] rest IH]; simpl; [done|].
  destruct (String.eqb k name).
  - intros [= ->]. by left.
  - intros H. right. by apply IH.
Qed.

Lemma find_two_elem c next table t :
  find_two c next table = Some t → t ∈ table.*2.
Proof.
  induction table as [|[[a b] u] rest IH]; simpl; [done|].
  destruct (Ascii.eqb c a && is_char b next).
  - intros [= ->]. by left.
  - intros H. right. by apply IH.
Qed.

Lemma classify_not_EOF id t : classify id = Ok t → t ≠ EOF.
Proof.
  unfold classify.
  destruct (Builtins.find_entry id KEYWORDS) as [u|] eqn:Hf.
  - intros [= ->] ->. apply find_entry_elem in Hf. simpl in Hf.
    set_solver.
  - destruct (includes _ _); [done|]. by intros [= <-].
Qed.

Lemma push_token_fields t lx :
  input (push_token t lx) = input lx ∧
  position (push_token t lx) = position lx ∧
  tokens (push_token t lx) = tokens lx ++ [t].
Proof. done. Qed.

Lemma classify_lexical id t (l m : nat) :
  classify id = Ok t →
  lexical (mkToken t match t with
                     | BOOLEAN => BooleanValue (String.eqb id "true")
                     | _ => StringValue id
                     end l m).
Proof.
  intros Hcl. split; [by eapply classify_not_EOF|]. revert Hcl.
  unfold classify.
  destruct (Builtins.find_entry id KEYWORDS) as [u|] eqn:Hf.
  - intros [= ->]. apply find_entry_elem in Hf. simpl in Hf.
    destruct t; try done; set_solver.
  - destruct (includes _ _); [done|]. by intros [= <-].
Qed.

(** The identifier is the run of characters read from the text. *)
Lemma readIdentifier_loop_lexeme k lx id chars lx' :
  readIdentifier_loop k lx id = Ok (chars, lx') →
  ∃ lexeme, chars = id ++ lexeme ∧
            take (length lexeme) (drop (position lx) (input lx)) = lexeme.
Proof.
  revert lx id. induction k as [|k IH]; intros lx id H;
    cbn [readIdentifier_loop] in H;
    (destruct (peek lx 0) as [c|] eqn:Hpeek;
       [|injection H as <- _; exists []; by rewrite app_nil_r]);
    (destruct (is_letter c || is_digit c);
       [|injection H as <- _; exists []; by rewrite app_nil_r]);
    [discriminate|].
  destruct (advance_fields lx) as (Hin & Hpos & _).
  apply IH in H as (lexeme & -> & Htake). rewrite Hin, Hpos in Htake.
  exists (c :: lexeme). rewrite <- app_assoc. split; [done|].
  unfold peek in Hpeek. rewrite Nat.add_0_r in Hpeek.
  rewrite (drop_S _ _ _ Hpeek). simpl. by f_equal.
Qed.

(** A run of characters read at a position is a part of the text. *)
Lemma lexeme_splits (text w : list ascii) (i : nat) :
  take (length w) (drop i text) = w →
  text = take i text ++ w ++ drop (i + length w) text.
Proof.
  intros H. rewrite <- H at 1. rewrite <- drop_drop, take_drop.
  by rewrite take_drop.
Qed.

Lemma classify_cases id :
  (∃ t, classify id = Ok t) ∨
  (classify id = Unsupported ∧ id ∈ Object_prototype_names).
Proof.
  unfold classify. destruct (Builtins.find_entry id KEYWORDS); [eauto|].
  unfold includes.
  destruct (bool_decide (id ∈ Object_prototype_names)) eqn:Hd; [|eauto].
  right. split; [done|]. by apply bool_decide_eq_true in Hd.
Qed.

Lemma parseFloat_cases num :
  (∃ f, parseFloat num = Ok f) ∨
  (parseFloat num = Unsupported ∧ long_literal num).
Proof.
  unfold parseFloat, long_literal.
  destruct (_ && _) eqn:Hc; [eauto|]. right. split; [done|].
  apply andb_false_iff in Hc as [Hc | Hc].
  - left. apply Z.ltb_ge in Hc. done.
  - right. apply Nat.leb_gt in Hc. done.
Qed.

(** The result of a pass that pushes one token. *)
Lemma pushed_one t lx lx0 :
  lexical t →
  input lx = input lx0 → position lx0 < position lx →
  tokens lx = tokens lx0 →
  input (push_token t lx) = input lx0 ∧
  position lx0 < position (push_token t lx) ∧
  ∃ new, tokens (push_token t lx) = tokens lx0 ++ new ∧
         Forall lexical new.
Proof.
  intros Ht Hin Hpos Htok.
  destruct (push_token_fields t lx) as (-> & -> & ->).
  split; [done|]. split; [done|]. exists [t].
  split; [by rewrite Htok|]. by constructor.
Qed.

(** One pass of the loop of [tokenize] consumes at least one character. *)
Lemma scan_spec k char lx :
  peek lx 0 = Some char →
  length (input lx) - position lx ≤ k →
  match scan k char lx with
  | Ok lx' => input lx' = input lx ∧ position lx < position lx' ∧
              ∃ new, tokens lx' = tokens lx ++ new ∧
                     Forall lexical new
  | Throw (Error_ message) => lexical_error message
  | Unsupported => left_out (input lx)
  | OutOfFuel => False
  end.
Proof.
  intros Hpeek Hk. unfold scan.
  destruct (advance_fields lx) as (Hin & Hpos & Htok).
  destruct (advance_fields (advance lx).2) as (Hin2 & Hpos2 & Htok2).
  destruct (Ascii.eqb char "/" && is_char "/" (peek lx 1)) eqn:Hcomment.
  { unfold skipComment. apply andb_prop in Hcomment as [Hc1 Hc2].
    apply Ascii.eqb_eq in Hc1. subst char.
    rewrite Hpeek. simpl. rewrite Hc2.
    destruct (skipComment_loop_spec k lx Hk)
      as (lx' & -> & Hin' & _ & Htok' & Hprog).
    split; [done|]. split; [by apply (Hprog "/"%char)|].
    exists []. by rewrite app_nil_r. }
  destruct (Ascii.eqb char newline).
  { apply pushed_one; [done | done | lia | done]. }
  destruct (is_digit char) eqn:Hdigit.
  { unfold readNumber.
    destruct (readNumber_loop_spec k lx [] false Hk)
      as (lexeme & lx' & -> & Hin' & Hpos' & Htok' & Htake & Hall & _
          & Hstop).
    cbn [mbind outcome_bind app].
    destruct (parseFloat_cases lexeme) as [[f ->] | [-> Hlong]];
      cbn [mbind outcome_bind].
    2:{ eexists _, lexeme, _. split; [by apply lexeme_splits|].
        by right. }
    apply pushed_one; [done | done | | done].
    destruct lexeme as [|c lexeme]; [|simpl in Hpos'; lia].
    simpl in Hpos'. rewrite Nat.add_0_r in Hpos'.
    unfold peek in Hstop, Hpeek. rewrite Hin', Hpos', Hpeek in Hstop.
    destruct Hstop as [Hnd _]. congruence. }
  destruct (Ascii.eqb char double_quote || Ascii.eqb char single_quote).
  { unfold readString.
    assert (Hadv : advance lx = (Some char, (advance lx).2)).
    { unfold peek in Hpeek. rewrite Nat.add_0_r in Hpeek.
      unfold advance. by rewrite Hpeek. }
    rewrite Hadv.
    destruct (readString_loop_spec k char (advance lx).2 [])
      as (str & lx2 & -> & Hin' & Hpos' & Htok'); [rewrite Hin, Hpos; lia|].
    cbn [mbind outcome_bind].
    destruct (is_char char (peek lx2 0)); cbn [mbind outcome_bind].
    - destruct (advance_fields lx2) as (Hin3 & Hpos3 & Htok3).
      apply pushed_one; [done | congruence | lia | congruence].
    - right. by eexists _, _. }
  destruct (is_letter char) eqn:Hletter.
  { unfold readIdentifier.
    destruct (readIdentifier_loop_spec k lx [] Hk)
      as (chars & lx' & Hrun & Hin' & _ & Htok' & Hprog).
    rewrite Hrun. cbn [mbind outcome_bind].
    destruct (classify_cases (string_of_list_ascii chars))
      as [[t Hcl] | [Hcl Hname]]; rewrite Hcl; cbn [mbind outcome_bind].
    2:{ apply readIdentifier_loop_lexeme in Hrun as (w & -> & Htake).
        eexists _, w, _. split; [by apply lexeme_splits|]. by left. }
    apply pushed_one; [|done|by eapply Hprog|done].
    by apply classify_lexical. }
  destruct (find_two char (peek lx 1) twoChar) as [[t text]|] eqn:Htwo.
  { apply pushed_one; [|congruence|lia|congruence].
    apply find_two_elem in Htwo. simpl in Htwo.
    split; [simpl; intros ->; set_solver|].
    destruct t; try done; set_solver. }
  destruct (Builtins.find_entry (string_of_char char) singleChar)
    as [t|] eqn:Hone.
  { apply pushed_one; [|done|lia|done].
    apply find_entry_elem in Hone. simpl in Hone.
    split; [simpl; intros ->; set_solver|].
    destruct t; try done; set_solver. }
  left. by eexists _, _, _.
Qed.

Lemma tokenize_loop_spec k bound lx :
  length (input lx) - position lx ≤ k →
  length (input lx) ≤ bound →
  scanned (input lx) (tokens lx) (tokenize_loop k bound lx).
Proof.
  revert lx. induction k as [|k IH]; intros lx Hk Hb;
    cbn [tokenize_loop];
    (destruct (position lx <? length (input lx)) eqn:Hpos;
       [| exists []; by rewrite app_nil_r]);
    apply Nat.ltb_lt in Hpos; [lia|].
  destruct (skipWhitespace_spec bound lx) as (lx1 & -> & Hin1 & Hpos1 & Htok1);
    [lia|]. cbn [mbind outcome_bind].
  destruct (peek lx1 0) as [char|] eqn:Hpeek.
  - pose proof (scan_spec bound char lx1 Hpeek) as Hscan.
    assert (Hb1 : length (input lx1) - position lx1 ≤ bound)
      by (rewrite Hin1; lia).
    specialize (Hscan Hb1).
    destruct (scan bound char lx1) as [lx2|[message]| |];
      cbn [mbind outcome_bind]; try done; [|by rewrite <- Hin1].
    destruct Hscan as (Hin2 & Hpos2 & new & Htok2 & Hnew).
    assert (Hk2 : length (input lx2) - position lx2 ≤ k)
      by (rewrite Hin2, Hin1; lia).
    assert (Hb2 : length (input lx2) ≤ bound) by (by rewrite Hin2, Hin1).
    specialize (IH lx2 Hk2 Hb2). unfold scanned in IH |- *.
    destruct (tokenize_loop k bound lx2) as [lx3|[message]| |]; try done;
      [|by rewrite <- Hin1, <- Hin2].
    destruct IH as (new' & Htok3 & Hnew').
    exists (new ++ new'). split; [|by apply Forall_app].
    by rewrite Htok3, Htok2, Htok1, app_assoc.
  - exists []. split; [by rewrite app_nil_r | done].
Qed.

End ScannerProgress.

(* ================================================================= *)
(** ** String literals: lemmas *)

Section StringLiterals.
Import Lexer.
Implicit Types (lx : Lexer) (k : nat) (c q : ascii) (s pre rest : list ascii).

Definition is_quote q : Prop := q = double_quote ∨ q = single_quote.

Lemma between_peek pre c rest lx :
  between pre (c :: rest) lx → peek lx 0 = Some c.
Proof.
  intros [Hin Hpos]. unfold peek. rewrite Hin, Hpos, Nat.add_0_r.
  rewrite lookup_app_r by done. by rewrite Nat.sub_diag.
Qed.

Lemma between_peek_end pre lx : between pre [] lx → peek lx 0 = None.
Proof.
  intros [Hin Hpos]. unfold peek. rewrite Hin, Hpos, Nat.add_0_r.
  apply lookup_ge_None. rewrite length_app. simpl. lia.
Qed.

Lemma between_advance pre c rest lx :
  between pre (c :: rest) lx → c ≠ newline →
  (advance lx).1 = Some c ∧
  between (pre ++ [c]) rest (advance lx).2 ∧
  line (advance lx).2 = line lx ∧
  column (advance lx).2 = S (column lx) ∧
  tokens (advance lx).2 = tokens lx.
Proof.
  intros Hb Hc. pose proof (between_peek _ _ _ _ Hb) as Hpeek.
  destruct Hb as [Hin Hpos].
  unfold peek in Hpeek. rewrite Nat.add_0_r in Hpeek.
  unfold advance. rewrite Hpeek. cbn [fst snd is_char].
  assert (Hne : Ascii.eqb c newline = false) by (by apply Ascii.eqb_neq).
  rewrite Hne. cbn [input position line column tokens].
  split; [done|]. split; [|done].
  split; [by rewrite <- app_assoc|].
  rewrite length_app. simpl. lia.
Qed.

Lemma encode_char_cases q c :
  is_quote q →
  (∃ x, encode_char q c = [backslash; x] ∧ escape (Some x) = [c] ∧
        x ≠ newline) ∨
  (encode_char q c = [c] ∧ Ascii.eqb c q = false ∧
   Ascii.eqb c backslash = false ∧ c ≠ newline).
Proof.
  intros Hq. unfold encode_char.
  destruct (Ascii.eqb c newline) eqn:H1.
  { apply Ascii.eqb_eq in H1 as ->. left. by exists "n"%char. }
  destruct (Ascii.eqb c (ascii_of_nat 9)) eqn:H2.
  { apply Ascii.eqb_eq in H2 as ->. left. by exists "t"%char. }
  destruct (Ascii.eqb c (ascii_of_nat 13)) eqn:H3.
  { apply Ascii.eqb_eq in H3 as ->. left. by exists "r"%char. }
  apply Ascii.eqb_neq in H1.
  destruct (Ascii.eqb c backslash) eqn:H4.
  { apply Ascii.eqb_eq in H4 as ->. left. by exists backslash. }
  destruct (Ascii.eqb c q) eqn:H5; simpl.
  { apply Ascii.eqb_eq in H5 as ->. left. exists q.
    destruct Hq as [-> | ->]; by repeat split. }
  by right.
Qed.

(** The loop of [readString] decodes what [encode_string] wrote and stops
    in front of whatever follows, be it the closing delimiter or the end
    of the input. *)
Lemma readString_loop_decodes q s : is_quote q →
  ∀ k lx pre rest str,
    between pre (encode_string q s ++ rest) lx →
    head rest = Some q ∨ rest = [] →
    length s ≤ k →
    ∃ lx', readString_loop k q lx str = Ok (str ++ s, lx') ∧
           between (pre ++ encode_string q s) rest lx' ∧
           line lx' = line lx ∧
           column lx' = column lx + length (encode_string q s) ∧
           tokens lx' = tokens lx.
Proof.
  intros Hq. induction s as [|c s IH]; intros k lx pre rest str Hb Hrest Hk.
  - simpl in Hb. exists lx. rewrite !app_nil_r, Nat.add_0_r.
    split; [|done].
    destruct Hrest as [Hhd | ->].
    + destruct rest as [|c rest]; [done|]. injection Hhd as ->.
      destruct k; cbn [readString_loop];
        rewrite (between_peek _ _ _ _ Hb), Ascii.eqb_refl; done.
    + destruct k; cbn [readString_loop];
        by rewrite (between_peek_end _ _ Hb).
  - destruct k as [|k]; [simpl in Hk; lia|]. simpl in Hk.
    change (encode_string q (c :: s))
      with (encode_char q c ++ encode_string q s) in *.
    assert (Hbs : q ≠ backslash) by (destruct Hq as [-> | ->]; done).
    destruct (encode_char_cases q c Hq)
      as [(x & Henc & Hesc & Hx) | (Henc & Hcq & Hcb & Hcn)];
      rewrite Henc in *; cbn [app] in Hb; cbn [readString_loop];
      rewrite (between_peek _ _ _ _ Hb).
    + assert (Hbq : Ascii.eqb backslash q = false).
      { apply Ascii.eqb_neq. congruence. }
      rewrite Hbq, Ascii.eqb_refl. cbn [negb].
      destruct (between_advance _ _ _ _ Hb) as (_ & Hb1 & Hl1 & Hc1 & Ht1);
        [done|].
      destruct (between_advance _ _ _ _ Hb1) as (Hn2 & Hb2 & Hl2 & Hc2 & Ht2);
        [done|].
      destruct (advance (advance lx).2) as [next lx2]. cbn [fst snd] in *.
      subst next. rewrite Hesc.
      destruct (IH k lx2 _ rest (str ++ [c]) Hb2 Hrest)
        as (lx' & Hrun & Hb' & Hl' & Hc' & Ht'); [lia|].
      exists lx'. rewrite Hrun, <- !app_assoc. cbn [app length].
      rewrite <- !app_assoc in Hb'.
      split; [done|]. split; [done|]. split; [congruence|].
      split; [lia | congruence].
    + rewrite Hcq, Hcb. cbn [negb].
      destruct (between_advance _ _ _ _ Hb) as (_ & Hb1 & Hl1 & Hc1 & Ht1);
        [done|].
      destruct (IH k (advance lx).2 _ rest (str ++ [c]) Hb1 Hrest)
        as (lx' & Hrun & Hb' & Hl' & Hc' & Ht'); [lia|].
      exists lx'. rewrite Hrun, <- !app_assoc. cbn [app length].
      rewrite <- !app_assoc in Hb'.
      split; [done|]. split; [done|]. split; [congruence|].
      split; [lia | congruence].
Qed.

Lemma length_encode_string q s : length s ≤ length (encode_string q s).
Proof.
  induction s as [|c s IH]; [done|].
  change (encode_string q (c :: s))
    with (encode_char q c ++ encode_string q s).
  rewrite length_app. simpl.
  assert (1 ≤ length (encode_char q c)); [|lia].
  unfold encode_char.
  destruct (Ascii.eqb c Lexer.newline); [simpl; lia|].
  destruct (Ascii.eqb c (ascii_of_nat 9)); [simpl; lia|].
  destruct (Ascii.eqb c (ascii_of_nat 13)); [simpl; lia|].
  destruct (_ || _); simpl; lia.
Qed.

(** [scan] on a delimiter reads a string. *)
Lemma scan_quote k q lx :
  is_quote q →
  scan k q lx = '(t, lx') ← readString k lx; Ok (push_token t lx').
Proof. intros [-> | ->]; reflexivity. Qed.

Lemma skipWhitespace_quote k q lx pre rest :
  is_quote q → between pre (q :: rest) lx → skipWhitespace k lx = Ok lx.
Proof.
  intros Hq Hb. destruct k; cbn [skipWhitespace];
    rewrite (between_peek _ _ _ _ Hb); by destruct Hq as [-> | ->].
Qed.

Lemma tokenize_loop_step k bound lx lx1 char :
  position lx < length (input lx) →
  skipWhitespace bound lx = Ok lx1 → peek lx1 0 = Some char →
  tokenize_loop (S k) bound lx =
    lx2 ← scan bound char lx1; tokenize_loop k bound lx2.
Proof.
  intros Hpos Hws Hpeek. cbn [tokenize_loop].
  apply Nat.ltb_lt in Hpos. rewrite Hpos, Hws. cbn [mbind outcome_bind].
  by rewrite Hpeek.
Qed.

Lemma tokenize_loop_done k bound lx :
  length (input lx) ≤ position lx → tokenize_loop k bound lx = Ok lx.
Proof.
  intros Hpos. apply Nat.ltb_ge in Hpos.
  destruct k; cbn [tokenize_loop]; by rewrite Hpos.
Qed.

End StringLiterals.

(** The scanner on the literal of a string. *)
Lemma tokenize_string_literal (quote : ascii) (s : list ascii) :
  quote = Lexer.double_quote ∨ quote = Lexer.single_quote →
  Lexer.tokenize (string_literal quote s) =
    Ok [ Lexer.mkToken Lexer.STRING
           (Lexer.StringValue (string_of_list_ascii s)) 1 1;
         Lexer.mkToken Lexer.EOF Lexer.NullValue 1
           (3 + length (encode_string quote s)) ].
Proof.
  intros Hq. unfold Lexer.tokenize, string_literal, Lexer.new.
  rewrite list_ascii_of_string_of_list_ascii.
  set (text := quote :: encode_string quote s ++ [quote]).
  set (lx := Lexer.mkLexer text 0 1 1 []).
  assert (Hlen : length text = S (S (length (encode_string quote s)))).
  { unfold text. simpl. rewrite length_app. simpl. lia. }
  change (Lexer.input lx) with text. rewrite Hlen.
  assert (Hb : between [] text lx) by done.
  destruct (between_advance _ _ _ _ Hb) as (Ha & Hb1 & Hl1 & Hc1 & Ht1);
    [destruct Hq as [-> | ->]; done|].
  destruct (readString_loop_decodes quote s Hq
              (S (S (length (encode_string quote s)))) (Lexer.advance lx).2
              _ [quote] [] Hb1) as (lx2 & Hrun & Hb2 & Hl2 & Hc2 & Ht2);
    [by left | pose proof (length_encode_string quote s); lia |].
  destruct (between_advance _ _ _ _ Hb2) as (_ & Hb3 & Hl3 & Hc3 & Ht3);
    [destruct Hq as [-> | ->]; done|].
  rewrite (tokenize_loop_step _ _ lx lx quote);
    [| change (0 < length text); lia
     | by apply (skipWhitespace_quote _ quote lx [] _ Hq Hb)
     | by apply (between_peek _ _ _ _ Hb) ].
  rewrite (scan_quote _ _ _ Hq). unfold Lexer.readString.
  destruct (Lexer.advance lx) as [first lx1]. cbn [fst snd] in *.
  subst first. rewrite Hrun. cbn [mbind outcome_bind app].
  rewrite (between_peek _ _ _ _ Hb2). cbn [Lexer.is_char].
  rewrite Ascii.eqb_refl. cbn [mbind outcome_bind].
  rewrite tokenize_loop_done.
  2:{ destruct Hb3 as [Hin3 Hpos3]. cbn [Lexer.push_token Lexer.input
        Lexer.position]. rewrite Hin3, Hpos3, app_nil_r. done. }
  cbn [mbind outcome_bind Lexer.tokens Lexer.line Lexer.column
       Lexer.push_token].
  rewrite Ht3, Ht2, Ht1, Hl3, Hl2, Hl1, Hc3, Hc2, Hc1.
  cbn [app Lexer.tokens Lexer.line Lexer.column lx]. reflexivity.
Qed.

(* ================================================================= *)
(** ** Words: lemmas *)

Section Words.
Import Lexer.
Implicit Types (lx : Lexer) (k : nat) (c : ascii) (w pre rest : list ascii).

Lemma letter_code c : is_letter c = true → 65 ≤ code c.
Proof.
  unfold is_letter. intros H.
  apply orb_prop in H as [H | H]; [apply orb_prop in H as [H | H]|].
  - apply andb_prop in H as [H _]. apply Nat.leb_le in H. lia.
  - apply andb_prop in H as [H _]. apply Nat.leb_le in H. lia.
  - apply Nat.eqb_eq in H. lia.
Qed.

Lemma word_char_code c : is_word_char c = true → 48 ≤ code c.
Proof.
  unfold is_word_char. intros H. apply orb_prop in H as [H | H].
  - apply letter_code in H. lia.
  - unfold is_digit in H. apply andb_prop in H as [H _].
    by apply Nat.leb_le in H.
Qed.

Lemma word_char_not c x :
  is_word_char c = true → (code x <? 48) = true → Ascii.eqb c x = false.
Proof.
  intros Hc Hx. apply Ascii.eqb_neq. intros ->.
  apply word_char_code in Hc. apply Nat.ltb_lt in Hx. lia.
Qed.

Lemma letter_not c x :
  is_letter c = true → (code x <? 48) = true → Ascii.eqb c x = false.
Proof.
  intros Hc. apply word_char_not. unfold is_word_char. by rewrite Hc.
Qed.

Lemma readIdentifier_loop_reads w :
  Forall (fun c => is_word_char c = true) w →
  ∀ k lx pre rest id,
    between pre (w ++ rest) lx →
    (∀ c, head rest = Some c → is_word_char c = false) →
    length w ≤ k →
    ∃ lx', readIdentifier_loop k lx id = Ok (id ++ w, lx') ∧
           between (pre ++ w) rest lx' ∧
           line lx' = line lx ∧
           column lx' = column lx + length w ∧
           tokens lx' = tokens lx.
Proof.
  induction 1 as [|c w Hc Hw IH]; intros k lx pre rest id Hb Hrest Hk.
  - simpl in Hb. exists lx. rewrite !app_nil_r, Nat.add_0_r.
    split; [|done].
    destruct rest as [|c rest].
    + destruct k; cbn [readIdentifier_loop];
        by rewrite (between_peek_end _ _ Hb).
    + specialize (Hrest c eq_refl). unfold is_word_char in Hrest.
      destruct k; cbn [readIdentifier_loop];
        by rewrite (between_peek _ _ _ _ Hb), Hrest.
  - destruct k as [|k]; [simpl in Hk; lia|]. simpl in Hk, Hb.
    cbn [readIdentifier_loop]. rewrite (between_peek _ _ _ _ Hb).
    unfold is_word_char in Hc. rewrite Hc.
    destruct (between_advance _ _ _ _ Hb) as (_ & Hb1 & Hl1 & Hc1 & Ht1).
    { apply Ascii.eqb_neq. by apply word_char_not. }
    destruct (IH k (advance lx).2 _ rest (id ++ [c]) Hb1 Hrest)
      as (lx' & Hrun & Hb' & Hl' & Hc' & Ht'); [lia|].
    exists lx'. rewrite Hrun, <- !app_assoc. cbn [app length].
    rewrite <- !app_assoc in Hb'.
    split; [done|]. split; [done|]. split; [congruence|].
    split; [lia | congruence].
Qed.

Lemma scan_letter k c lx :
  is_letter c = true → peek lx 0 = Some c →
  scan k c lx = '(t, lx') ← readIdentifier k lx; Ok (push_token t lx').
Proof.
  intros Hc Hpeek. apply letter_code in Hc as Hcode. unfold scan.
  rewrite (letter_not c "/") by done.
  rewrite (letter_not c newline) by done.
  rewrite (letter_not c double_quote) by done.
  rewrite (letter_not c single_quote) by done.
  cbn [andb orb].
  assert (Hd : is_digit c = false).
  { unfold is_digit. apply andb_false_intro2. apply Nat.leb_gt. lia. }
  by rewrite Hd, Hc.
Qed.

Lemma skipWhitespace_letter k c lx :
  is_letter c = true → peek lx 0 = Some c → skipWhitespace k lx = Ok lx.
Proof.
  intros Hc Hpeek. apply letter_code in Hc.
  assert (Hb : is_blank c = false).
  { unfold is_blank.
    repeat (apply orb_false_intro); apply Nat.eqb_neq; lia. }
  destruct k; cbn [skipWhitespace]; by rewrite Hpeek, Hb.
Qed.

Lemma find_entry_None {A} name (entries : list (string * A)) :
  name ∉ entries.*1 → Builtins.find_entry name entries = None.
Proof.
  induction entries as [|[k f] rest IH]; simpl; [done|].
  intros Hn. apply not_elem_of_cons in Hn as [Hne Hn].
  destruct (String.eqb k name) eqn:Hk.
  - apply String.eqb_eq in Hk. congruence.
  - by apply IH.
Qed.

(** The scanner on a text that is one word. *)
Lemma tokenize_one_word c w :
  is_letter c = true → Forall (fun x => is_word_char x = true) w →
  let id := string_of_list_ascii (c :: w) in
  tokenize id =
    t ← classify id;
    Ok [ mkToken t (keyword_value id t) 1 1;
         mkToken EOF NullValue 1 (2 + length w) ].
Proof.
  intros Hc Hw id. unfold tokenize, new. subst id.
  rewrite list_ascii_of_string_of_list_ascii.
  set (lx := mkLexer (c :: w) 0 1 1 []).
  change (input lx) with (c :: w). cbn [length].
  assert (Hb : between [] ((c :: w) ++ []) lx) by (by rewrite app_nil_r).
  assert (Hpeek : peek lx 0 = Some c) by done.
  destruct (readIdentifier_loop_reads (c :: w)
              ltac:(constructor; [unfold is_word_char; by rewrite Hc | done])
              (S (length w)) lx [] [] [] Hb)
    as (lx1 & Hrun & [Hin1 Hpos1] & Hl1 & Hc1 & Ht1); [done | done |].
  rewrite (tokenize_loop_step _ _ lx lx c);
    [| change (0 < S (length w)); lia
     | by apply (skipWhitespace_letter _ c)
     | done ].
  rewrite (scan_letter _ _ _ Hc Hpeek). unfold readIdentifier.
  rewrite Hrun. cbn [mbind outcome_bind app].
  destruct (classify (string_of_list_ascii (c :: w))) as [t| | |];
    cbn [mbind outcome_bind]; try done.
  rewrite tokenize_loop_done.
  2:{ cbn [push_token input position]. by rewrite Hin1, Hpos1, app_nil_r. }
  cbn [mbind outcome_bind tokens line column push_token].
  rewrite Ht1, Hl1, Hc1. cbn [app tokens line column lx length].
  unfold keyword_value. by destruct t.
Qed.

End Words.

(* ================================================================= *)
(** ** Comments: lemmas *)

Section Comments.
Import Lexer.
Implicit Types (lx : Lexer) (k : nat) (c : ascii) (w pre rest : list ascii).

(** The loop of [skipComment] reads up to the end of the line. *)
Lemma skipComment_loop_reads w :
  Forall (fun c => c ≠ newline) w →
  ∀ k lx pre rest,
    between pre (w ++ rest) lx →
    head rest = Some newline ∨ rest = [] →
    length w ≤ k →
    ∃ lx', skipComment_loop k lx = Ok lx' ∧
           between (pre ++ w) rest lx' ∧
           line lx' = line lx ∧
           column lx' = column lx + length w ∧
           tokens lx' = tokens lx.
Proof.
  induction 1 as [|c w Hc Hw IH]; intros k lx pre rest Hb Hrest Hk.
  - simpl in Hb. exists lx. rewrite app_nil_r, Nat.add_0_r.
    split; [|done].
    destruct Hrest as [Hrest | ->].
    + destruct rest as [|c rest]; [done|]. injection Hrest as ->.
      destruct k; cbn [skipComment_loop];
        by rewrite (between_peek _ _ _ _ Hb), Ascii.eqb_refl.
    + destruct k; cbn [skipComment_loop];
        by rewrite (between_peek_end _ _ Hb).
  - destruct k as [|k]; [simpl in Hk; lia|]. simpl in Hk, Hb.
    cbn [skipComment_loop]. rewrite (between_peek _ _ _ _ Hb).
    assert (Hne : Ascii.eqb c newline = false) by (by apply Ascii.eqb_neq).
    rewrite Hne. cbn [negb].
    destruct (between_advance _ _ _ _ Hb Hc) as (_ & Hb1 & Hl1 & Hc1 & Ht1).
    destruct (IH k (advance lx).2 _ rest Hb1 Hrest)
      as (lx' & Hrun & Hb' & Hl' & Hc' & Ht'); [lia|].
    exists lx'. rewrite Hrun. cbn [length].
    rewrite <- !app_assoc in Hb'.
    split; [done|]. split; [done|]. split; [congruence|].
    split; [lia | congruence].
Qed.

End Comments.

(* ================================================================= *)
(** ** The printer of expressions: lemmas *)

Section NodeInduction.

Variable P : node → Prop.
Hypothesis HProgram : ∀ statements, P (Program statements).
Hypothesis HNodeDeclaration : ∀ name value, P (NodeDeclaration name value).
Hypothesis HActionDeclaration :
  ∀ name params body, P (ActionDeclaration name params body).
Hypothesis HCheckStatement :
  ∀ condition consequent alternate,
    P (CheckStatement condition consequent alternate).
Hypothesis HEachStatement :
  ∀ variable iterable body, P (EachStatement variable iterable body).
Hypothesis HAsStatement : ∀ condition body, P (AsStatement condition body).
Hypothesis HBlockStatement : ∀ statements, P (BlockStatement statements).
Hypothesis HBinaryExpression :
  ∀ operator l r, P l → P r → P (BinaryExpression operator l r).
Hypothesis HUnaryExpression :
  ∀ operator argument, P argument → P (UnaryExpression operator argument).
Hypothesis HCallExpression :
  ∀ callee args, P callee → Forall P args → P (CallExpression callee args).
Hypothesis HMemberExpression :
  ∀ object property computed, P object → P property →
    P (MemberExpression object property computed).
Hypothesis HArrayExpression :
  ∀ elements, Forall P elements → P (ArrayExpression elements).
Hypothesis HIdentifier : ∀ name, P (Identifier name).
Hypothesis HLiteral : ∀ value, P (Literal value).

(** Induction on expressions, with the items of a list as smaller
    expressions. *)
Fixpoint expression_ind (e : node) : P e :=
  match e with
  | Program statements => HProgram statements
  | NodeDeclaration name value => HNodeDeclaration name value
  | ActionDeclaration name params body =>
      HActionDeclaration name params body
  | CheckStatement condition consequent alternate =>
      HCheckStatement condition consequent alternate
  | EachStatement variable iterable body =>
      HEachStatement variable iterable body
  | AsStatement condition body => HAsStatement condition body
  | BlockStatement statements => HBlockStatement statements
  | BinaryExpression operator l r =>
      HBinaryExpression operator l r (expression_ind l) (expression_ind r)
  | UnaryExpression operator argument =>
      HUnaryExpression operator argument (expression_ind argument)
  | CallExpression callee args =>
      HCallExpression callee args (expression_ind callee)
        ((fix items (es : list node) : Forall P es :=
            match es return Forall P es with
            | [] => @List.Forall_nil _ P
            | x :: rest =>
                @List.Forall_cons _ P x rest (expression_ind x) (items rest)
            end) args)
  | MemberExpression object property computed =>
      HMemberExpression object property computed (expression_ind object)
        (expression_ind property)
  | ArrayExpression elements =>
      HArrayExpression elements
        ((fix items (es : list node) : Forall P es :=
            match es return Forall P es with
            | [] => @List.Forall_nil _ P
            | x :: rest =>
                @List.Forall_cons _ P x rest (expression_ind x) (items rest)
            end) elements)
  | Identifier name => HIdentifier name
  | Literal value => HLiteral value
  end.

End NodeInduction.

Section ParserFacts.
Import Parser.
Implicit Types (T ts : list Lexer.Token) (i j k : nat) (p : Parser)
  (e : node) (t : Lexer.Token).

Lemma occurs_cons T i t ts :
  occurs T i (t :: ts) ↔ T !! i = Some t ∧ occurs T (S i) ts.
Proof.
  split.
  - intros H. split.
    + specialize (H 0 t eq_refl). by rewrite Nat.add_0_r in H.
    + intros j u Hj. specialize (H (S j) u Hj).
      by rewrite Nat.add_succ_r in H.
  - intros [H0 H] [|j] u Hj; simpl in Hj.
    + injection Hj as <-. by rewrite Nat.add_0_r.
    + rewrite Nat.add_succ_r. by apply H.
Qed.

Lemma occurs_nil T i : occurs T i [].
Proof. by intros j u Hj. Qed.

Lemma occurs_app T i ts1 ts2 :
  occurs T i (ts1 ++ ts2) ↔
  occurs T i ts1 ∧ occurs T (i + length ts1) ts2.
Proof.
  revert i. induction ts1 as [|t ts1 IH]; intros i; simpl.
  - rewrite Nat.add_0_r. split; [intros H | by intros [_ H]].
    split; [apply occurs_nil | done].
  - rewrite !occurs_cons, IH, Nat.add_succ_r. simpl. tauto.
Qed.

Lemma occurs_bound T i ts t :
  occurs T i (ts ++ [t]) → i + length ts < length T.
Proof.
  intros H. apply occurs_app in H as [_ H]. apply occurs_cons in H as [H _].
  by apply lookup_lt_Some in H.
Qed.

Lemma match_at T i t types :
  T !! i = Some t →
  match_ types (mkParser T i) = bool_decide (Lexer.type t ∈ types).
Proof. unfold match_, current. simpl. by intros ->. Qed.

Lemma match_end T i types : T !! i = None → match_ types (mkParser T i) = false.
Proof. unfold match_, current. simpl. by intros ->. Qed.

Lemma expect_at T i t type :
  T !! i = Some t → Lexer.type t = type →
  expect type (mkParser T i) = Ok (t, mkParser T (S i)).
Proof.
  intros Ht Hty. unfold expect, current. simpl. rewrite Ht.
  by rewrite bool_decide_eq_true_2.
Qed.

Lemma match_stops T i types :
  stops T i → Forall (fun ty => continues ty = true) types →
  match_ types (mkParser T i) = false.
Proof.
  intros Hs Hc. destruct (T !! i) as [t|] eqn:Ht; [|by apply match_end].
  rewrite (match_at _ _ _ _ Ht). apply bool_decide_eq_false_2.
  intros Hin. rewrite Forall_forall in Hc.
  specialize (Hc _ Hin). specialize (Hs _ Ht). congruence.
Qed.

(** A token that is none of [types] is no match for them. *)
Lemma match_other T i t types :
  T !! i = Some t → Lexer.type t ∉ types →
  match_ types (mkParser T i) = false.
Proof.
  intros Ht Hn. rewrite (match_at _ _ _ _ Ht).
  by apply bool_decide_eq_false_2.
Qed.

Lemma match_one T i t types :
  T !! i = Some t → Lexer.type t ∈ types →
  match_ types (mkParser T i) = true.
Proof.
  intros Ht Hn. rewrite (match_at _ _ _ _ Ht).
  by apply bool_decide_eq_true_2.
Qed.

End ParserFacts.

(** The token types an expression can begin with, prefix operators
    apart. *)
Definition opens (ty : Lexer.TokenType) : bool :=
  bool_decide (ty ∈ [Lexer.NUMBER; Lexer.STRING; Lexer.BOOLEAN;
                     Lexer.IDENTIFIER; Lexer.LBRACKET; Lexer.LPAREN]).

Section Climb.
Import Parser.
Implicit Types (T : list Lexer.Token) (i j k : nat) (p : Parser) (e : node)
  (next : Parser → outcome (node * Parser))
  (ls : list (list Lexer.TokenType)).

Lemma parseLogicalOr_climb pe :
  parseLogicalOr pe = climb levels (parseUnary pe).
Proof. reflexivity. Qed.

Lemma binaryLoop_stop types next k lhs p :
  match_ types p = false → binaryLoop types next k lhs p = Ok (lhs, p).
Proof. intros H. destruct k; cbn [binaryLoop]; by rewrite H. Qed.

Lemma climb_pass ls : ∀ next p e p',
  next p = Ok (e, p') →
  Forall (fun types => match_ types p' = false) ls →
  climb ls next p = Ok (e, p').
Proof.
  induction ls as [|types ls IH]; intros next p e p' Hn Hl; [done|].
  apply Forall_cons in Hl as [Ht Hl]. unfold climb. cbn [foldl].
  apply IH; [|done]. unfold binaryLevel. rewrite Hn.
  cbn [mbind outcome_bind]. by apply binaryLoop_stop.
Qed.

(** One operator of the level [types] between two operands of the levels
    below. *)
Lemma climb_operator before types after next p l p1 t operator r p3 :
  next p = Ok (l, p1) →
  current p1 = Some t → Lexer.type t ∈ types →
  Lexer.tvalue t = Lexer.StringValue operator →
  Forall (fun tys => Lexer.type t ∉ tys) before →
  next (advance p1).2 = Ok (r, p3) →
  Forall (fun tys => match_ tys p3 = false) (before ++ types :: after) →
  1 ≤ length (tokens p) →
  climb (before ++ types :: after) next p
    = Ok (BinaryExpression operator l r, p3).
Proof.
  intros Hl Ht Hin Hop Hbefore Hr Hstop Hlen.
  apply Forall_app in Hstop as [Hs1 Hs2].
  apply Forall_cons in Hs2 as [Hs2 Hs3].
  unfold climb. rewrite foldl_app. cbn [foldl].
  fold (climb before next). fold (climb after).
  apply climb_pass; [|done].
  assert (Hl' : climb before next p = Ok (l, p1)).
  { apply climb_pass; [done|]. eapply Forall_impl; [exact Hbefore|].
    intros tys Hn. unfold match_. rewrite Ht.
    by apply bool_decide_eq_false_2. }
  assert (Hr' : climb before next (advance p1).2 = Ok (r, p3))
    by (by apply climb_pass).
  unfold binaryLevel. rewrite Hl'. cbn [mbind outcome_bind].
  destruct (length (tokens p)) as [|k]; [lia|]. cbn [binaryLoop].
  assert (Hm : match_ types p1 = true).
  { unfold match_. rewrite Ht. by apply bool_decide_eq_true_2. }
  rewrite Hm. unfold advance at 1. fold (current p1). rewrite Ht.
  unfold text_value. rewrite Hop. cbn [mbind outcome_bind].
  change (mkParser (tokens p1) (S (position p1))) with (advance p1).2.
  rewrite Hr'. cbn [mbind outcome_bind]. by apply binaryLoop_stop.
Qed.

Lemma postfixLoop_stop pe k expr T i :
  stops T i → postfixLoop pe k expr (mkParser T i) = Ok (expr, mkParser T i).
Proof.
  intros Hs.
  destruct k; cbn [postfixLoop];
    rewrite !(match_stops _ _ _ Hs) by (by repeat constructor); done.
Qed.

(** The postfix loop also stops in front of a binary operator. *)
Lemma postfixLoop_operator pe k expr T i t :
  T !! i = Some t → is_Some (precedence (Lexer.type t)) →
  postfixLoop pe k expr (mkParser T i) = Ok (expr, mkParser T i).
Proof.
  intros Ht Hp.
  assert (Hn : ∀ ty, ty ∈ [Lexer.LPAREN; Lexer.LBRACKET; Lexer.DOT] →
                     match_ [ty] (mkParser T i) = false).
  { intros ty Hty. apply (match_other _ _ _ _ Ht). intros Hin.
    apply list_elem_of_singleton in Hin. rewrite Hin in Hp.
    repeat (apply elem_of_cons in Hty as [-> | Hty];
            [by destruct Hp|]).
    by apply elem_of_nil in Hty. }
  destruct k; cbn [postfixLoop]; rewrite !Hn by set_solver; done.
Qed.

Lemma parseUnary_plain pe k p :
  match_ [Lexer.NOT; Lexer.MINUS] p = false →
  parseUnary_ pe k p = parsePostfix pe p.
Proof. intros H. destruct k; cbn [parseUnary_]; by rewrite H. Qed.

Lemma opens_plain T i t :
  T !! i = Some t → opens (Lexer.type t) = true →
  match_ [Lexer.NOT; Lexer.MINUS] (mkParser T i) = false.
Proof.
  intros Ht Ho. apply (match_other _ _ _ _ Ht).
  unfold opens in Ho.
  destruct (Lexer.type t); try (vm_compute in Ho; discriminate Ho);
    by apply (bool_decide_eq_false_1 _).
Qed.

(** What [parsePrimary] reads is a whole expression when nothing that
    follows continues it. *)
Lemma lift_primary pe T i t e i' :
  T !! i = Some t → opens (Lexer.type t) = true →
  parsePrimary pe (mkParser T i) = Ok (e, mkParser T i') →
  stops T i' →
  parseLogicalOr pe (mkParser T i) = Ok (e, mkParser T i').
Proof.
  intros Ht Ho Hp Hs. rewrite parseLogicalOr_climb. apply climb_pass.
  - unfold parseUnary. rewrite parseUnary_plain by (by eapply opens_plain).
    unfold parsePostfix. rewrite Hp. cbn [mbind outcome_bind].
    by apply postfixLoop_stop.
  - unfold levels. repeat constructor;
      apply (match_stops _ _ _ Hs); by repeat constructor.
Qed.

End Climb.

(** [o] reads the tokens of [e] as [e], wherever they stand in [T]. *)
Definition reads (o : Parser.Parser → outcome (node * Parser.Parser))
    (T : list Lexer.Token) (e : node) : Prop :=
  ∀ i, occurs T i (print e) → stops T (i + length (print e)) →
       o (Parser.mkParser T i)
         = Ok (e, Parser.mkParser T (i + length (print e))).

Ltac types :=
  simpl Lexer.type;
  first [ apply (bool_decide_eq_false_1 _) | apply (bool_decide_eq_true_1 _) ];
  vm_compute; reflexivity.

Section PrintFacts.
Import Parser.
Implicit Types (T ts : list Lexer.Token) (i j k : nat) (p : Parser)
  (e : node) (es : list node).

Lemma binary_type_precedence operator t :
  binary_type operator = Some t → is_Some (precedence t).
Proof.
  unfold binary_type. destruct (lexeme_type operator) as [u|]; [|done].
  simpl. destruct (precedence u) eqn:Hp; [|done]. intros [= <-].
  by rewrite Hp.
Qed.

Lemma unary_type_prefix operator t :
  unary_type operator = Some t → t ∈ [Lexer.NOT; Lexer.MINUS].
Proof.
  unfold unary_type. destruct (lexeme_type operator) as [u|]; [|done].
  simpl. destruct (bool_decide _) eqn:Hp; [|done]. intros [= <-].
  by apply bool_decide_eq_true_1 in Hp.
Qed.

Lemma print_opens e :
  wf_expr e = true →
  ∃ t ts, print e = t :: ts ∧ opens (Lexer.type t) = true.
Proof.
  destruct e as [| | | | | | | | | | | | |[]]; try discriminate;
    intros Hwf; by eexists _, _.
Qed.

Lemma print_nonempty e : wf_expr e = true → 1 ≤ length (print e).
Proof.
  intros Hwf. destruct (print_opens e Hwf) as (t & ts & -> & _). simpl. lia.
Qed.

Lemma separate_cons e e2 es :
  separate (map print (e :: e2 :: es)) =
  print e ++ mark Lexer.COMMA "," :: separate (map print (e2 :: es)).
Proof. reflexivity. Qed.

Lemma length_print_item e es :
  e ∈ es → length (print e) ≤ length (separate (map print es)).
Proof.
  intros Hin. induction es as [|x es IH]; [by apply elem_of_nil in Hin|].
  destruct es as [|y es].
  - apply list_elem_of_singleton in Hin as ->. simpl.
    rewrite app_nil_r. lia.
  - rewrite separate_cons, length_app. cbn [length].
    apply elem_of_cons in Hin as [-> | Hin]; [lia|].
    specialize (IH Hin). lia.
Qed.

Lemma length_separate es :
  Forall (fun e => wf_expr e = true) es →
  length es ≤ length (separate (map print es)).
Proof.
  induction 1 as [|x es Hx Hes IH]; [done|].
  destruct es as [|y es].
  - simpl. rewrite app_nil_r. by apply print_nonempty.
  - rewrite separate_cons, length_app. cbn [length].
    apply print_nonempty in Hx. cbn [length] in IH. lia.
Qed.

(** The loop over the items of a list reads the items. *)
Lemma parseItems_print o close T :
  close ∈ [Lexer.RPAREN; Lexer.RBRACKET] →
  ∀ rest e k items i tclose,
    Forall (fun e => wf_expr e = true ∧ reads o T e) (e :: rest) →
    occurs T i (separate (map print (e :: rest))) →
    T !! (i + length (separate (map print (e :: rest)))) = Some tclose →
    Lexer.type tclose = close →
    length rest ≤ k →
    parseItems o close k items (mkParser T i)
      = Ok (items ++ e :: rest,
            mkParser T (i + length (separate (map print (e :: rest))))).
Proof.
  intros Hclose.
  assert (Hcl : continues close = false).
  { repeat (apply elem_of_cons in Hclose as [-> | Hclose]; [done|]).
    by apply elem_of_nil in Hclose. }
  induction rest as [|e2 rest IH];
    intros e k items i tclose Hes Hocc Hend Hty Hk;
    apply Forall_cons in Hes as [[Hwf Hread] Hes].
  - simpl in Hocc, Hend. rewrite app_nil_r in Hocc, Hend.
    simpl. rewrite app_nil_r.
    assert (Hrun : o (mkParser T i)
                   = Ok (e, mkParser T (i + length (print e)))).
    { apply Hread; [done|]. intros t Ht. rewrite Hend in Ht.
      injection Ht as <-. by rewrite Hty. }
    assert (Hskip : skipComma (mkParser T (i + length (print e)))
                    = mkParser T (i + length (print e))).
    { unfold skipComma. rewrite (match_other _ _ _ _ Hend); [done|].
      rewrite Hty. intros Hin. apply list_elem_of_singleton in Hin.
      rewrite Hin in Hclose. revert Hclose. types. }
    destruct k; cbn [parseItems]; rewrite Hrun; cbn [mbind outcome_bind];
      rewrite Hskip, (match_one _ _ _ _ Hend) by (rewrite Hty; by left);
      done.
  - rewrite separate_cons in Hocc, Hend |- *.
    apply occurs_app in Hocc as [Hocc1 Hocc2].
    apply occurs_cons in Hocc2 as [Hcomma Hocc2].
    rewrite length_app in Hend |- *. cbn [length] in Hend |- *.
    assert (Hrun : o (mkParser T i)
                   = Ok (e, mkParser T (i + length (print e)))).
    { apply Hread; [done|]. intros t Ht. rewrite Hcomma in Ht.
      by injection Ht as <-. }
    assert (Hskip : skipComma (mkParser T (i + length (print e)))
                    = mkParser T (S (i + length (print e)))).
    { unfold skipComma. by rewrite (match_one _ _ _ _ Hcomma) by types. }
    pose proof Hes as Hes'. apply Forall_cons in Hes' as [[Hwf2 _] _].
    destruct (print_opens e2 Hwf2) as (t2 & ts2 & Hp2 & Ho2).
    assert (Ht2 : T !! S (i + length (print e)) = Some t2).
    { destruct rest as [|e3 rest].
      - simpl in Hocc2. rewrite app_nil_r, Hp2 in Hocc2.
        by apply occurs_cons in Hocc2 as [? _].
      - rewrite separate_cons, Hp2 in Hocc2. simpl in Hocc2.
        by apply occurs_cons in Hocc2 as [? _]. }
    assert (Hnc : match_ [close] (mkParser T (S (i + length (print e))))
                  = false).
    { apply (match_other _ _ _ _ Ht2). intros Hin.
      apply list_elem_of_singleton in Hin. unfold opens in Ho2.
      rewrite Hin in Ho2.
      repeat (apply elem_of_cons in Hclose as [-> | Hclose];
              [discriminate Ho2|]).
      by apply elem_of_nil in Hclose. }
    destruct k as [|k]; [simpl in Hk; lia|]. cbn [parseItems].
    rewrite Hrun. cbn [mbind outcome_bind]. rewrite Hskip, Hnc.
    rewrite (IH e2 k (items ++ [e]) _ tclose Hes Hocc2).
    + rewrite <- app_assoc. simpl. do 3 f_equal. lia.
    + rewrite <- Hend. f_equal. lia.
    + done.
    + simpl in Hk. lia.
Qed.

Lemma parseItemList_print o close T es i tclose :
  close ∈ [Lexer.RPAREN; Lexer.RBRACKET] →
  Forall (fun e => wf_expr e = true ∧ reads o T e) es →
  occurs T i (separate (map print es)) →
  T !! (i + length (separate (map print es))) = Some tclose →
  Lexer.type tclose = close →
  parseItemList o close (mkParser T i)
    = Ok (es, mkParser T (S (i + length (separate (map print es))))).
Proof.
  intros Hclose Hes Hocc Hend Hty. unfold parseItemList.
  destruct es as [|e rest].
  - simpl in Hend |- *. rewrite Nat.add_0_r in Hend |- *.
    rewrite (match_one _ _ _ _ Hend) by (rewrite Hty; by left).
    cbn [mbind outcome_bind]. by rewrite (expect_at _ _ _ _ Hend Hty).
  - pose proof Hes as Hes'. apply Forall_cons in Hes' as [[Hwf _] Hrest].
    destruct (print_opens e Hwf) as (t & ts & Hp & Ho).
    assert (Ht : T !! i = Some t).
    { destruct rest as [|e2 rest].
      - simpl in Hocc. rewrite app_nil_r, Hp in Hocc.
        by apply occurs_cons in Hocc as [? _].
      - rewrite separate_cons, Hp in Hocc. simpl in Hocc.
        by apply occurs_cons in Hocc as [? _]. }
    assert (Hnc : match_ [close] (mkParser T i) = false).
    { apply (match_other _ _ _ _ Ht). intros Hin.
      apply list_elem_of_singleton in Hin. unfold opens in Ho.
      rewrite Hin in Ho.
      repeat (apply elem_of_cons in Hclose as [-> | Hclose];
              [discriminate Ho|]).
      by apply elem_of_nil in Hclose. }
    rewrite Hnc. cbn [tokens].
    rewrite (parseItems_print o close T Hclose rest e (length T) [] i tclose
               Hes Hocc Hend Hty).
    + cbn [mbind outcome_bind app].
      by rewrite (expect_at _ _ _ _ Hend Hty).
    + apply lookup_lt_Some in Hend.
      assert (length (e :: rest) ≤ length (separate (map print (e :: rest)))).
      { apply length_separate. eapply Forall_impl; [exact Hes|].
        by intros x [? _]. }
      simpl in *. lia.
Qed.

End PrintFacts.

Section RoundTrip.
Import Parser.
Implicit Types (T ts : list Lexer.Token) (i j k : nat) (p : Parser)
  (e : node) (es : list node).

Local Abbreviation pe := parseExpression_fuel.

(** The statement proved by induction on the expression. *)
Definition primary_reads (e : node) : Prop :=
  wf_expr e = true →
  ∀ n T i, length (print e) ≤ n → occurs T i (print e) →
    parsePrimary (pe n) (mkParser T i)
      = Ok (e, mkParser T (i + length (print e))).

Lemma primary_reads_expression e n T :
  primary_reads e → wf_expr e = true → length (print e) < n →
  reads (pe n) T e.
Proof.
  intros HP Hwf Hn i Hocc Hstop. destruct n as [|n]; [lia|].
  cbn [parseExpression_fuel].
  destruct (print_opens e Hwf) as (t & ts & Hp & Ho).
  assert (Ht : T !! i = Some t).
  { rewrite Hp in Hocc. by apply occurs_cons in Hocc as [? _]. }
  apply (lift_primary _ _ _ t); [done..| |done].
  apply HP; [done | lia | done].
Qed.

Lemma items_read es n T :
  Forall primary_reads es → forallb wf_expr es = true →
  length (separate (map print es)) < n →
  Forall (fun e => wf_expr e = true ∧ reads (pe n) T e) es.
Proof.
  intros HP Hwf Hn. apply Forall_forall. intros e Hin.
  rewrite Forall_forall in HP.
  assert (He : wf_expr e = true).
  { rewrite forallb_forall in Hwf. apply Hwf.
    by apply list_elem_of_In. }
  split; [done|]. apply primary_reads_expression; [by apply HP | done |].
  pose proof (length_print_item e es Hin). lia.
Qed.

Lemma primary_reads_Literal value : primary_reads (Literal value).
Proof.
  intros _ n T i _ Hocc. unfold parsePrimary.
  destruct value; simpl in Hocc; apply occurs_cons in Hocc as [Ht _];
    rewrite ?(match_other _ _ _ _ Ht) by types;
    rewrite (match_one _ _ _ _ Ht) by types;
    unfold advance; cbn [tokens position]; rewrite Ht;
    cbn [literal_value Lexer.tvalue mbind outcome_bind length];
    by rewrite Nat.add_1_r.
Qed.

Lemma primary_reads_Identifier name : primary_reads (Identifier name).
Proof.
  intros _ n T i _ Hocc. unfold parsePrimary.
  simpl in Hocc. apply occurs_cons in Hocc as [Ht _].
  rewrite ?(match_other _ _ _ _ Ht) by types.
  rewrite (match_one _ _ _ _ Ht) by types.
  unfold advance. cbn [tokens position]. rewrite Ht.
  cbn [text_value Lexer.tvalue mark mbind outcome_bind length].
  by rewrite Nat.add_1_r.
Qed.

Lemma primary_reads_Array elements :
  Forall primary_reads elements → primary_reads (ArrayExpression elements).
Proof.
  intros IH Hwf n T i Hn Hocc. simpl in Hwf.
  cbn [print] in Hn, Hocc |- *.
  cbn [length] in Hn |- *. rewrite length_app in Hn |- *.
  cbn [length] in Hn |- *.
  apply occurs_cons in Hocc as [Hopen Hocc].
  apply occurs_app in Hocc as [Hitems Hclose].
  apply occurs_cons in Hclose as [Hclose _].
  unfold parsePrimary.
  rewrite ?(match_other _ _ _ _ Hopen) by types.
  rewrite (match_one _ _ _ _ Hopen) by types.
  cbn [advance snd tokens position].
  rewrite (parseItemList_print (pe n) Lexer.RBRACKET T elements (S i)
             (mark Lexer.RBRACKET "]")); [| set_solver | | done.. ].
  - cbn [mbind outcome_bind]. do 3 f_equal. lia.
  - apply items_read; [done..|lia].
Qed.

Lemma stops_at T j t :
  T !! j = Some t → continues (Lexer.type t) = false → stops T j.
Proof. intros Ht Hc u Hu. rewrite Ht in Hu. by injection Hu as <-. Qed.

Lemma levels_stop T j :
  stops T j →
  Forall (fun types => match_ types (mkParser T j) = false) levels.
Proof.
  intros Hs. unfold levels.
  repeat constructor; apply (match_stops _ _ _ Hs); by repeat constructor.
Qed.

(** What [parseUnary] reads is a whole expression when nothing that
    follows continues it. *)
Lemma lift_unary o T i e j :
  parseUnary o (mkParser T i) = Ok (e, mkParser T j) → stops T j →
  parseLogicalOr o (mkParser T i) = Ok (e, mkParser T j).
Proof.
  intros Hu Hs. rewrite parseLogicalOr_climb.
  apply climb_pass; [done | by apply levels_stop].
Qed.

(** A bracketed expression. *)
Lemma primary_paren o T i e j :
  T !! i = Some (mark Lexer.LPAREN "(") →
  o (mkParser T (S i)) = Ok (e, mkParser T j) →
  T !! j = Some (mark Lexer.RPAREN ")") →
  parsePrimary o (mkParser T i) = Ok (e, mkParser T (S j)).
Proof.
  intros Hopen Hrun Hclose. unfold parsePrimary.
  rewrite ?(match_other _ _ _ _ Hopen) by types.
  rewrite (match_one _ _ _ _ Hopen) by types.
  cbn [advance snd tokens position]. rewrite Hrun.
  cbn [mbind outcome_bind].
  by rewrite (expect_at T j _ Lexer.RPAREN Hclose eq_refl).
Qed.

(** An expression in operand position: followed by a token that ends the
    expression or by a binary operator. *)
Lemma unary_reads e m T i :
  primary_reads e → wf_expr e = true → length (print e) ≤ m →
  occurs T i (print e) →
  stops T (i + length (print e)) ∨
  (∃ t, T !! (i + length (print e)) = Some t ∧
        is_Some (precedence (Lexer.type t))) →
  parseUnary (pe m) (mkParser T i)
    = Ok (e, mkParser T (i + length (print e))).
Proof.
  intros HP Hwf Hm Hocc Hnext.
  destruct (print_opens e Hwf) as (t & ts & Hp & Ho).
  assert (Ht : T !! i = Some t).
  { rewrite Hp in Hocc. by apply occurs_cons in Hocc as [? _]. }
  unfold parseUnary. rewrite parseUnary_plain by (by eapply opens_plain).
  unfold parsePostfix. rewrite (HP Hwf m T i Hm Hocc).
  cbn [mbind outcome_bind].
  destruct Hnext as [Hs | (u & Hu & Hprec)].
  - by apply postfixLoop_stop.
  - by eapply postfixLoop_operator.
Qed.

(** Where a binary operator stands in the levels. *)
Lemma level_split ty n :
  precedence ty = Some n →
  ∃ before types after,
    levels = before ++ types :: after ∧ ty ∈ types ∧
    Forall (fun tys => ty ∉ tys) before.
Proof.
  intros Hp.
  exists (take (6 - n) levels), (nth (6 - n) levels []),
         (drop (7 - n) levels).
  destruct ty; try discriminate; injection Hp as <-;
    (split; [reflexivity|]); (split; [types|]);
    repeat constructor; types.
Qed.

Lemma primary_reads_Binary operator l r :
  primary_reads l → primary_reads r →
  primary_reads (BinaryExpression operator l r).
Proof.
  intros IHl IHr Hwf n T i Hn Hocc. simpl in Hwf.
  apply andb_prop in Hwf as [Hwf Hr]. apply andb_prop in Hwf as [Hop Hl].
  apply bool_decide_eq_true_1 in Hop as [ty Hty].
  cbn [print] in Hn, Hocc |- *. rewrite Hty in Hn, Hocc |- *.
  cbn [default id] in Hn, Hocc |- *.
  cbn [length] in Hn |- *. rewrite length_app in Hn |- *.
  cbn [length] in Hn |- *. rewrite length_app in Hn |- *.
  cbn [length] in Hn |- *.
  apply occurs_cons in Hocc as [Hopen Hocc].
  apply occurs_app in Hocc as [Hleft Hocc].
  apply occurs_cons in Hocc as [Hoper Hocc].
  apply occurs_app in Hocc as [Hright Hclose].
  apply occurs_cons in Hclose as [Hclose _].
  destruct n as [|m]; [lia|].
  set (j1 := S i + length (print l)) in *.
  set (j2 := S j1 + length (print r)) in *.
  replace (i + S (length (print l) + S (length (print r) + 1)))
    with (S j2) by (unfold j2, j1; lia).
  apply primary_paren; [done| |done].
  cbn [parseExpression_fuel]. rewrite parseLogicalOr_climb.
  destruct (binary_type_precedence _ _ Hty) as [prec Hprec].
  destruct (level_split ty prec Hprec)
    as (before & types & after & Hlev & Hin & Hbefore).
  assert (Hstop : stops T j2) by (by eapply stops_at).
  pose proof (levels_stop T j2 Hstop) as Hstops.
  rewrite Hlev in Hstops |- *.
  eapply (climb_operator before types after _ _ l (mkParser T j1)
            (mark ty operator) operator r (mkParser T j2)).
  - apply unary_reads; [done | done | lia | done |].
    right. exists (mark ty operator). split; [done|].
    cbn [Lexer.type mark]. by rewrite Hprec.
  - done.
  - done.
  - done.
  - done.
  - cbn [advance snd tokens position].
    apply unary_reads; [done | done | lia | done | by left].
  - done.
  - cbn [tokens]. apply lookup_lt_Some in Hopen. lia.
Qed.

Lemma primary_reads_Unary operator argument :
  primary_reads argument → primary_reads (UnaryExpression operator argument).
Proof.
  intros IH Hwf n T i Hn Hocc. simpl in Hwf.
  apply andb_prop in Hwf as [Hop Ha].
  apply bool_decide_eq_true_1 in Hop as [ty Hty].
  cbn [print] in Hn, Hocc |- *. rewrite Hty in Hn, Hocc |- *.
  cbn [default id] in Hn, Hocc |- *.
  cbn [length] in Hn |- *. rewrite length_app in Hn |- *.
  cbn [length] in Hn |- *.
  apply occurs_cons in Hocc as [Hopen Hocc].
  apply occurs_cons in Hocc as [Hoper Hocc].
  apply occurs_app in Hocc as [Harg Hclose].
  apply occurs_cons in Hclose as [Hclose _].
  destruct n as [|m]; [lia|].
  set (j := S (S i) + length (print argument)) in *.
  replace (i + S (S (length (print argument) + 1))) with (S j)
    by (unfold j; lia).
  apply primary_paren; [done| |done].
  cbn [parseExpression_fuel].
  assert (Hstop : stops T j) by (by eapply stops_at).
  apply lift_unary; [|done].
  unfold parseUnary. cbn [tokens].
  destruct (length T) as [|k] eqn:Hlen.
  { apply lookup_lt_Some in Hopen. lia. }
  cbn [parseUnary_].
  rewrite (match_one _ _ _ _ Hoper)
    by (simpl; by eapply unary_type_prefix).
  cbn [advance tokens position]. rewrite Hoper.
  cbn [text_value Lexer.tvalue mark mbind outcome_bind].
  destruct (print_opens argument Ha) as (t & ts & Hp & Ho).
  assert (Ht : T !! S (S i) = Some t).
  { rewrite Hp in Harg. by apply occurs_cons in Harg as [? _]. }
  rewrite parseUnary_plain by (by eapply opens_plain).
  unfold parsePostfix. rewrite (IH Ha m T (S (S i))) by (done || lia).
  cbn [mbind outcome_bind]. fold j.
  by rewrite postfixLoop_stop.
Qed.

Lemma primary_reads_Call callee args :
  primary_reads callee → Forall primary_reads args →
  primary_reads (CallExpression callee args).
Proof.
  intros IHc IHa Hwf n T i Hn Hocc. simpl in Hwf.
  apply andb_prop in Hwf as [Hc Ha].
  cbn [print] in Hn, Hocc |- *.
  cbn [length] in Hn |- *. rewrite length_app in Hn |- *.
  cbn [length] in Hn |- *. rewrite length_app in Hn |- *.
  cbn [length] in Hn |- *.
  apply occurs_cons in Hocc as [Hopen Hocc].
  apply occurs_app in Hocc as [Hcallee Hocc].
  apply occurs_cons in Hocc as [Hopen2 Hocc].
  apply occurs_app in Hocc as [Hargs Hclose].
  apply occurs_cons in Hclose as [Hclose1 Hclose2].
  apply occurs_cons in Hclose2 as [Hclose2 _].
  destruct n as [|m]; [lia|].
  set (j1 := S i + length (print callee)) in *.
  set (j2 := S j1 + length (separate (map print args))) in *.
  replace (i + S (length (print callee)
                  + S (length (separate (map print args)) + 2)))
    with (S (S j2)) by (unfold j2, j1; lia).
  apply primary_paren; [done| |done].
  cbn [parseExpression_fuel].
  assert (Hstop : stops T (S j2)) by (by eapply stops_at).
  apply lift_unary; [|done].
  destruct (print_opens callee Hc) as (t & ts & Hp & Ho).
  assert (Ht : T !! S i = Some t).
  { rewrite Hp in Hcallee. by apply occurs_cons in Hcallee as [? _]. }
  unfold parseUnary. rewrite parseUnary_plain by (by eapply opens_plain).
  unfold parsePostfix. rewrite (IHc Hc m T (S i)) by (done || lia).
  cbn [mbind outcome_bind tokens]. fold j1.
  destruct (length T) as [|k] eqn:Hlen.
  { apply lookup_lt_Some in Hopen. lia. }
  cbn [postfixLoop]. rewrite (match_one _ _ _ _ Hopen2) by types.
  cbn [advance snd tokens position].
  rewrite (parseItemList_print (pe m) Lexer.RPAREN T args (S j1)
             (mark Lexer.RPAREN ")")); [| set_solver | | done..].
  - cbn [mbind outcome_bind]. fold j2. by rewrite postfixLoop_stop.
  - apply items_read; [done..|lia].
Qed.

Lemma primary_reads_Member object property computed :
  primary_reads object → primary_reads property →
  primary_reads (MemberExpression object property computed).
Proof.
  intros IHo IHp Hwf n T i Hn Hocc. simpl in Hwf.
  apply andb_prop in Hwf as [Ho Hp].
  cbn [print] in Hn, Hocc |- *.
  cbn [length] in Hn |- *. rewrite !length_app in Hn |- *.
  apply occurs_cons in Hocc as [Hopen Hocc].
  apply occurs_app in Hocc as [Hobject Hocc].
  apply occurs_app in Hocc as [Hocc Hclose].
  apply occurs_cons in Hclose as [Hclose _].
  destruct n as [|m]; [cbn [length] in Hn; lia|].
  set (j1 := S i + length (print object)) in *.
  destruct (print_opens object Ho) as (t & ts & Hpo & Hoo).
  assert (Ht : T !! S i = Some t).
  { rewrite Hpo in Hobject. by apply occurs_cons in Hobject as [? _]. }
  assert (Hlen : 1 ≤ length T) by (apply lookup_lt_Some in Hopen; lia).
  destruct computed.
  - cbn [length] in Hn, Hclose |- *. rewrite length_app in Hn, Hclose |- *.
    cbn [length] in Hn, Hclose |- *.
    apply occurs_cons in Hocc as [Hopen2 Hocc].
    apply occurs_app in Hocc as [Hprop Hclose2].
    apply occurs_cons in Hclose2 as [Hclose2 _].
    set (j2 := S j1 + length (print property)) in *.
    replace (j1 + S (length (print property) + 1)) with (S j2) in Hclose
      by (unfold j2; lia).
    replace (i + S (length (print object)
                    + (S (length (print property) + 1) + 1)))
      with (S (S j2)) by (unfold j2, j1; lia).
    apply primary_paren; [done| |done].
    cbn [parseExpression_fuel].
    assert (Hstop : stops T (S j2)) by (by eapply stops_at).
    apply lift_unary; [|done].
    unfold parseUnary. rewrite parseUnary_plain by (by eapply opens_plain).
    unfold parsePostfix. rewrite (IHo Ho m T (S i)) by (done || lia).
    cbn [mbind outcome_bind tokens]. fold j1.
    destruct (length T) as [|k]; [lia|].
    cbn [postfixLoop]. rewrite (match_other _ _ _ _ Hopen2) by types.
    rewrite (match_one _ _ _ _ Hopen2) by types.
    cbn [advance snd tokens position].
    rewrite (primary_reads_expression property m T IHp Hp ltac:(lia)
               (S j1) Hprop) by (by eapply stops_at).
    cbn [mbind outcome_bind]. fold j2.
    rewrite (expect_at T j2 _ Lexer.RBRACKET Hclose2 eq_refl).
    cbn [mbind outcome_bind]. by rewrite postfixLoop_stop.
  - destruct property; try discriminate.
    cbn [print length] in Hn, Hocc, Hclose |- *.
    apply occurs_cons in Hocc as [Hdot Hocc].
    apply occurs_cons in Hocc as [Hname _].
    replace (j1 + 2) with (S (S j1)) in Hclose by lia.
    replace (i + S (length (print object) + (2 + 1)))
      with (S (S (S j1))) by (unfold j1; lia).
    apply primary_paren; [done| |done].
    cbn [parseExpression_fuel].
    assert (Hstop : stops T (S (S j1))) by (by eapply stops_at).
    apply lift_unary; [|done].
    unfold parseUnary. rewrite parseUnary_plain by (by eapply opens_plain).
    unfold parsePostfix. rewrite (IHo Ho m T (S i)) by (done || lia).
    cbn [mbind outcome_bind tokens]. fold j1.
    destruct (length T) as [|k]; [lia|].
    cbn [postfixLoop]. rewrite !(match_other _ _ _ _ Hdot) by types.
    rewrite (match_one _ _ _ _ Hdot) by types.
    cbn [advance snd tokens position].
    rewrite (expect_at T (S j1) _ Lexer.IDENTIFIER Hname eq_refl).
    cbn [mbind outcome_bind text_value Lexer.tvalue mark].
    by rewrite postfixLoop_stop.
Qed.

(** [parsePrimary] reads the tokens of an expression as that
    expression. *)
Lemma parsePrimary_print e : primary_reads e.
Proof.
  induction e using expression_ind; try (by intros Hwf).
  - by apply primary_reads_Binary.
  - by apply primary_reads_Unary.
  - by apply primary_reads_Call.
  - by apply primary_reads_Member.
  - by apply primary_reads_Array.
  - apply primary_reads_Identifier.
  - apply primary_reads_Literal.
Qed.

Lemma parseExpression_print e T i :
  wf_expr e = true → occurs T i (print e) →
  stops T (i + length (print e)) →
  parseExpression (mkParser T i)
    = Ok (e, mkParser T (i + length (print e))).
Proof.
  intros Hwf Hocc Hstop. unfold parseExpression. cbn [tokens].
  apply (primary_reads_expression e _ T (parsePrimary_print e) Hwf);
    [|done..].
  pose proof (print_nonempty e Hwf) as Hne.
  destruct (lookup_lt_is_Some_2 (print e) (length (print e) - 1))
    as [u Hu]; [lia|].
  apply Hocc, lookup_lt_Some in Hu. lia.
Qed.

End RoundTrip.

(** The token types of an expression. *)
Definition expression_token (ty : Lexer.TokenType) : bool :=
  bool_decide (ty ∈ [Lexer.NUMBER; Lexer.STRING; Lexer.BOOLEAN;
                     Lexer.IDENTIFIER; Lexer.LBRACKET; Lexer.RBRACKET;
                     Lexer.LPAREN; Lexer.RPAREN; Lexer.COMMA; Lexer.DOT;
                     Lexer.NOT])
  || bool_decide (is_Some (precedence ty)).

Section WholeProgram.
Import Parser.
Implicit Types (T ts : list Lexer.Token) (e : node) (es : list node).

Lemma separate_tokens (P : Lexer.Token → Prop) (parts : list (list Lexer.Token)) :
  P (mark Lexer.COMMA ",") → Forall (Forall P) parts →
  Forall P (separate parts).
Proof.
  intros Hc Hparts. destruct Hparts as [|first rest Hf Hr]; [done|].
  simpl. apply Forall_app. split; [done|].
  induction Hr as [|part rest Hp Hr IH]; simpl; [done|].
  constructor; [done|]. by apply Forall_app.
Qed.

Lemma print_tokens e :
  wf_expr e = true →
  Forall (fun t => expression_token (Lexer.type t) = true) (print e).
Proof.
  induction e as [| | | | | | |operator l r IHl IHr|operator a IHa
                  |callee args IHc IHargs|object property computed IHo IHp
                  |elements IH|name|value] using expression_ind;
    try discriminate; intros Hwf; simpl in Hwf.
  - apply andb_prop in Hwf as [Hwf Hr].
    apply andb_prop in Hwf as [Hop Hl].
    apply bool_decide_eq_true_1 in Hop as [ty Hty].
    cbn [print]. rewrite Hty. cbn [default id].
    constructor; [done|]. apply Forall_app. split; [by apply IHl|].
    constructor.
    { cbn [Lexer.type mark]. unfold expression_token.
      apply orb_true_intro. right. apply bool_decide_eq_true_2.
      by eapply binary_type_precedence. }
    apply Forall_app. split; [by apply IHr|]. by repeat constructor.
  - apply andb_prop in Hwf as [Hop Ha].
    apply bool_decide_eq_true_1 in Hop as [ty Hty].
    cbn [print]. rewrite Hty. cbn [default id].
    constructor; [done|]. constructor.
    { cbn [Lexer.type mark]. apply unary_type_prefix in Hty.
      repeat (apply elem_of_cons in Hty as [-> | Hty]; [done|]).
      by apply elem_of_nil in Hty. }
    apply Forall_app. split; [by apply IHa|]. by repeat constructor.
  - apply andb_prop in Hwf as [Hc Ha]. cbn [print].
    constructor; [done|]. apply Forall_app. split; [by apply IHc|].
    constructor; [done|]. apply Forall_app.
    split; [|by repeat constructor].
    apply separate_tokens; [done|]. apply Forall_fmap, Forall_forall.
    intros x Hx. rewrite Forall_forall in IHargs. apply IHargs; [done|].
    rewrite forallb_forall in Ha. apply Ha. by apply list_elem_of_In.
  - apply andb_prop in Hwf as [Ho Hp]. cbn [print].
    constructor; [done|]. apply Forall_app. split; [by apply IHo|].
    apply Forall_app. split; [|by repeat constructor].
    destruct computed.
    + constructor; [done|]. apply Forall_app.
      split; [by apply IHp | by repeat constructor].
    + destruct property; try discriminate. by repeat constructor.
  - cbn [print]. constructor; [done|]. apply Forall_app.
    split; [|by repeat constructor].
    apply separate_tokens; [done|]. apply Forall_fmap, Forall_forall.
    intros x Hx. rewrite Forall_forall in IH. apply IH; [done|].
    rewrite forallb_forall in Hwf. apply Hwf. by apply list_elem_of_In.
  - by repeat constructor.
  - destruct value; by repeat constructor.
Qed.

Lemma filter_all {A} (P : A → Prop) `{!∀ x, Decision (P x)} (l : list A) :
  Forall P l → filter P l = l.
Proof.
  induction 1 as [|x l Hx Hl IH]; [done|].
  by rewrite filter_cons_True, IH.
Qed.

Lemma occurs_prefix ts rest : occurs (ts ++ rest) 0 ts.
Proof. intros j t Hj. simpl. by apply lookup_app_l_Some. Qed.

End WholeProgram.

(* ================================================================= *)
(** ** The printer of statements: lemmas *)

Section StatementFacts.
Import Parser.
Implicit Types (T ts : list Lexer.Token) (i j k : nat) (p : Parser)
  (s : node) (ss : list node)
  (ps : Parser → outcome (node * Parser)).

(** A statement begins with its keyword, or as an expression begins. *)
Lemma print_statement_first s :
  wf_statement s = true →
  ∃ t ts, print_statement s = t :: ts ∧
          if open_ended s then opens (Lexer.type t) = true
          else Lexer.type t ∈ [Lexer.ACTION; Lexer.CHECK; Lexer.EACH;
                              Lexer.AS].
Proof.
  intros Hwf.
  destruct s; try discriminate;
    try (destruct (print_opens _ Hwf) as (t & ts & Hp & Ho);
         by exists t, ts);
    eexists _, _; (split; [reflexivity|]); cbn; set_solver.
Qed.

Lemma print_statement_nonempty s :
  wf_statement s = true → 1 ≤ length (print_statement s).
Proof.
  intros Hwf.
  destruct (print_statement_first s Hwf) as (t & ts & -> & _). simpl. lia.
Qed.

Lemma first_not_closing s t ts :
  wf_statement s = true → print_statement s = t :: ts →
  (Lexer.type t ∉ [Lexer.END; Lexer.ELSE; Lexer.EOF]) ∧
  Lexer.type t ≠ Lexer.ASSIGN.
Proof.
  intros Hwf Hp.
  destruct (print_statement_first s Hwf) as (t' & ts' & Hp' & Ht).
  rewrite Hp in Hp'. injection Hp' as <- <-.
  destruct (open_ended s).
  - unfold opens in Ht. apply bool_decide_eq_true_1 in Ht.
    split; [intros Hin|intros Heq; rewrite Heq in Ht];
      destruct (Lexer.type t); set_solver.
  - split; [intros Hin|intros Heq; rewrite Heq in Ht];
      destruct (Lexer.type t); set_solver.
Qed.

Lemma length_flat_map_print ss :
  forallb wf_statement ss = true →
  length ss ≤ length (flat_map print_statement ss).
Proof.
  induction ss as [|s ss IH]; [done|]. simpl.
  intros [Hs Hss]%andb_prop. rewrite length_app.
  apply print_statement_nonempty in Hs. specialize (IH Hss). lia.
Qed.

Lemma length_print_statement_item s ss :
  s ∈ ss → length (print_statement s) ≤ length (flat_map print_statement ss).
Proof.
  induction ss as [|x ss IH]; [by intros ?%elem_of_nil|].
  simpl. rewrite length_app.
  intros [-> | Hin]%elem_of_cons; [lia|]. specialize (IH Hin). lia.
Qed.

(** A closing token ends an expression. *)
Lemma closing_ends T j t :
  T !! j = Some t →
  Lexer.type t ∈ [Lexer.END; Lexer.ELSE; Lexer.EOF; Lexer.RPAREN] →
  ends T j ∧ stops T j.
Proof.
  intros Ht Hin.
  assert (continues (Lexer.type t) = false ∧ Lexer.type t ≠ Lexer.ASSIGN).
  { repeat (apply elem_of_cons in Hin as [-> | Hin]; [by split|]).
    by apply elem_of_nil in Hin. }
  split; intros u Hu; rewrite Ht in Hu; injection Hu as <-; tauto.
Qed.

(** The statements of a block are read one after the other, up to the
    token that closes the block. *)
Lemma parseBlock_loop_print ps T ss :
  Forall (fun s => wf_statement s = true ∧ statement_reads ps T s) ss →
  sequenced ss = true →
  ∀ k statements i t,
    length ss ≤ k →
    occurs T i (flat_map print_statement ss ++ [t]) →
    Lexer.type t ∈ [Lexer.END; Lexer.ELSE; Lexer.EOF] →
    parseBlock_loop ps k statements (mkParser T i)
      = Ok (statements ++ ss,
            mkParser T (i + length (flat_map print_statement ss))).
Proof.
  induction 1 as [|s ss [Hwf Hread] Hss IH];
    intros Hseq k statements i t Hk Hocc Hty.
  - simpl in Hocc |- *. apply occurs_cons in Hocc as [Ht _].
    rewrite app_nil_r, Nat.add_0_r.
    destruct k; cbn [parseBlock_loop];
      by rewrite (match_one _ _ _ _ Ht Hty).
  - destruct k as [|k]; [simpl in Hk; lia|]. cbn [parseBlock_loop].
    cbn [flat_map] in Hocc |- *. rewrite <- app_assoc in Hocc.
    apply occurs_app in Hocc as [Hocc1 Hocc2].
    destruct (print_statement_first s Hwf) as (t1 & ts1 & Hp1 & _).
    destruct (first_not_closing s t1 ts1 Hwf Hp1) as [Hnc _].
    assert (Ht1 : T !! i = Some t1).
    { rewrite Hp1 in Hocc1. by apply occurs_cons in Hocc1 as [? _]. }
    rewrite (match_other _ _ _ _ Ht1 Hnc). cbn [negb].
    rewrite Hread; [|done|].
    + cbn [mbind outcome_bind].
      rewrite (IH ltac:(by destruct ss; [|apply andb_prop in Hseq as [_ ?]])
                 k _ _ t); [| simpl in Hk; lia | done | done].
      rewrite <- app_assoc, length_app. cbn [app].
      do 3 f_equal. lia.
    + intros Hopen. destruct ss as [|s' ss'].
      * simpl in Hocc2. apply occurs_cons in Hocc2 as [Ht _].
        eapply closing_ends; [done|]. set_solver.
      * apply andb_prop in Hseq as [Hs' _]. rewrite Hopen in Hs'.
        cbn [negb orb] in Hs'.
        apply Forall_cons in Hss as [[Hwf' _] _].
        destruct (print_statement_first s' Hwf') as (t2 & ts2 & Hp2 & _).
        destruct (first_not_closing s' t2 ts2 Hwf' Hp2) as [_ Hna].
        rewrite Hp2 in Hs'. cbn [stops_before] in Hs'.
        cbn [flat_map] in Hocc2. rewrite Hp2 in Hocc2. simpl in Hocc2.
        apply occurs_cons in Hocc2 as [Ht2 _].
        intros u Hu. rewrite Ht2 in Hu. injection Hu as <-.
        split; [by apply negb_true_iff in Hs'|done].
Qed.

Lemma parseBlock_print ps T ss i t :
  Forall (fun s => wf_statement s = true ∧ statement_reads ps T s) ss →
  sequenced ss = true →
  occurs T i (flat_map print_statement ss ++ [t]) →
  Lexer.type t ∈ [Lexer.END; Lexer.ELSE; Lexer.EOF] →
  parseBlock ps (mkParser T i)
    = Ok (ss, mkParser T (i + length (flat_map print_statement ss))).
Proof.
  intros Hss Hseq Hocc Hty. unfold parseBlock. cbn [tokens].
  rewrite (parseBlock_loop_print ps T ss Hss Hseq (length T) [] i t);
    [done | | done | done].
  apply occurs_bound in Hocc.
  assert (length ss ≤ length (flat_map print_statement ss)).
  { apply length_flat_map_print. apply forallb_forall.
    intros s Hin%list_elem_of_In. rewrite Forall_forall in Hss.
    by apply Hss. }
  lia.
Qed.

Lemma print_params_cons name name2 rest :
  print_params (name :: name2 :: rest) =
  mark Lexer.IDENTIFIER name :: mark Lexer.COMMA ","
  :: print_params (name2 :: rest).
Proof. reflexivity. Qed.

Lemma length_print_params params :
  length params ≤ length (print_params params).
Proof.
  induction params as [|name [|name2 rest] IH]; [done | simpl; lia |].
  rewrite print_params_cons. cbn [length] in IH |- *. lia.
Qed.

(** The loop over the parameter names reads the names. *)
Lemma parseParams_print T :
  ∀ rest name k params i tclose,
    occurs T i (print_params (name :: rest)) →
    T !! (i + length (print_params (name :: rest))) = Some tclose →
    Lexer.type tclose = Lexer.RPAREN →
    length rest ≤ k →
    parseParams k params (mkParser T i)
      = Ok (params ++ name :: rest,
            mkParser T (i + length (print_params (name :: rest)))).
Proof.
  induction rest as [|name2 rest IH];
    intros name k params i tclose Hocc Hend Hty Hk.
  - change (print_params [name]) with [mark Lexer.IDENTIFIER name] in *.
    cbn [length] in Hend |- *. apply occurs_cons in Hocc as [Hname _].
    rewrite Nat.add_1_r in Hend |- *.
    assert (Hskip : skipComma (mkParser T (S i)) = mkParser T (S i)).
    { unfold skipComma. rewrite (match_other _ _ _ _ Hend); [done|].
      rewrite Hty. set_solver. }
    destruct k; cbn [parseParams];
      rewrite (expect_at T i _ Lexer.IDENTIFIER Hname eq_refl); cbn [mbind outcome_bind];
      cbn [text_value mark Lexer.tvalue]; cbn [mbind outcome_bind];
      rewrite Hskip, (match_one _ _ _ _ Hend) by (rewrite Hty; by left);
      done.
  - rewrite print_params_cons in Hocc, Hend |- *.
    apply occurs_cons in Hocc as [Hname Hocc].
    apply occurs_cons in Hocc as [Hcomma Hocc].
    cbn [length] in Hend |- *.
    assert (Hskip : skipComma (mkParser T (S i)) = mkParser T (S (S i))).
    { unfold skipComma. by rewrite (match_one _ _ _ _ Hcomma) by types. }
    assert (Hname2 : T !! S (S i) = Some (mark Lexer.IDENTIFIER name2)).
    { destruct rest as [|name3 rest].
      - by apply occurs_cons in Hocc as [? _].
      - rewrite print_params_cons in Hocc.
        by apply occurs_cons in Hocc as [? _]. }
    destruct k as [|k]; [simpl in Hk; lia|]. cbn [parseParams].
    rewrite (expect_at T i _ Lexer.IDENTIFIER Hname eq_refl). cbn [mbind outcome_bind].
    cbn [text_value mark Lexer.tvalue]. cbn [mbind outcome_bind].
    rewrite Hskip, (match_other _ _ _ _ Hname2) by (simpl; set_solver).
    rewrite (IH name2 k (params ++ [name]) _ tclose Hocc).
    + rewrite <- app_assoc. simpl. do 3 f_equal. lia.
    + rewrite <- Hend. f_equal. lia.
    + done.
    + simpl in Hk. lia.
Qed.

(** The parameter list of a declaration, brackets apart. *)
Lemma parseParams_list T params i tclose :
  occurs T i (print_params params) →
  T !! (i + length (print_params params)) = Some tclose →
  Lexer.type tclose = Lexer.RPAREN →
  ∀ k, length T ≤ k →
  (if match_ [Lexer.RPAREN] (mkParser T i) then Ok ([], mkParser T i)
   else parseParams k [] (mkParser T i))
    = Ok (params, mkParser T (i + length (print_params params))).
Proof.
  intros Hocc Hend Hty k Hk. destruct params as [|name rest].
  - simpl in Hend |- *. rewrite Nat.add_0_r in Hend |- *.
    by rewrite (match_one _ _ _ _ Hend) by (rewrite Hty; by left).
  - assert (Hname : T !! i = Some (mark Lexer.IDENTIFIER name)).
    { destruct rest as [|name2 rest].
      - by apply occurs_cons in Hocc as [? _].
      - rewrite print_params_cons in Hocc.
        by apply occurs_cons in Hocc as [? _]. }
    rewrite (match_other _ _ _ _ Hname) by (simpl; set_solver).
    rewrite (parseParams_print T rest name k [] i tclose Hocc Hend Hty);
      [done|].
    apply lookup_lt_Some in Hend.
    pose proof (length_print_params (name :: rest)) as Hlen.
    cbn [length] in Hlen. lia.
Qed.

(** Bring the position a parser has reached into the form of the
    statement. *)
Ltac position :=
  do 3 f_equal; cbn [print_statement length fmap option_fmap option_map];
  rewrite ?length_app; cbn [length]; rewrite ?length_app; cbn [length]; lia.

Lemma parseActionDeclaration_print ps T name params body i :
  Forall (fun s => wf_statement s = true ∧ statement_reads ps T s) body →
  sequenced body = true →
  let s := ActionDeclaration name params body in
  occurs T i (print_statement s) →
  parseActionDeclaration ps (mkParser T i)
    = Ok (s, mkParser T (i + length (print_statement s))).
Proof.
  intros Hbody Hseq s Hocc. subst s. cbn [print_statement] in Hocc.
  apply occurs_cons in Hocc as [H1 Hocc].
  apply occurs_cons in Hocc as [H2 Hocc].
  apply occurs_cons in Hocc as [H3 Hocc].
  apply occurs_app in Hocc as [Hparams Hocc].
  apply occurs_cons in Hocc as [H4 Hocc].
  pose proof Hocc as Hend. apply occurs_app in Hend as [_ Hend].
  apply occurs_cons in Hend as [Hend _].
  unfold parseActionDeclaration.
  rewrite (expect_at T i _ Lexer.ACTION H1 eq_refl).
  cbn [mbind outcome_bind].
  rewrite (expect_at T (S i) _ Lexer.IDENTIFIER H2 eq_refl).
  cbn [mbind outcome_bind text_value mark Lexer.tvalue].
  rewrite (expect_at T (S (S i)) _ Lexer.LPAREN H3 eq_refl).
  cbn [mbind outcome_bind tokens].
  rewrite (parseParams_list T params (S (S (S i))) _ Hparams H4 eq_refl
             (length T)) by done.
  cbn [mbind outcome_bind].
  rewrite (expect_at T _ _ Lexer.RPAREN H4 eq_refl).
  cbn [mbind outcome_bind].
  rewrite (parseBlock_print ps T body _ _ Hbody Hseq Hocc) by set_solver.
  cbn [mbind outcome_bind].
  rewrite (expect_at T _ _ Lexer.END Hend eq_refl).
  cbn [mbind outcome_bind]. position.
Qed.

Lemma parseCheckStatement_print ps T condition consequent alternate i :
  wf_expr condition = true →
  Forall (fun s => wf_statement s = true ∧ statement_reads ps T s)
    consequent →
  sequenced consequent = true →
  (∀ ss, alternate = Some ss →
         Forall (fun s => wf_statement s = true ∧ statement_reads ps T s) ss
         ∧ sequenced ss = true) →
  let s := CheckStatement condition (BlockStatement consequent)
             (BlockStatement <$> alternate) in
  occurs T i (print_statement s) →
  parseCheckStatement ps (mkParser T i)
    = Ok (s, mkParser T (i + length (print_statement s))).
Proof.
  intros Hwf Hcons Hseq Halt s Hocc. subst s. cbn [print_statement] in Hocc.
  apply occurs_cons in Hocc as [H1 Hocc].
  apply occurs_cons in Hocc as [H2 Hocc].
  apply occurs_app in Hocc as [Hcond Hocc].
  apply occurs_cons in Hocc as [H3 Hocc].
  unfold parseCheckStatement.
  rewrite (expect_at T i _ Lexer.CHECK H1 eq_refl).
  cbn [mbind outcome_bind].
  rewrite (expect_at T (S i) _ Lexer.LPAREN H2 eq_refl).
  cbn [mbind outcome_bind].
  rewrite (parseExpression_print condition T _ Hwf Hcond)
    by (eapply closing_ends; [done | set_solver]).
  cbn [mbind outcome_bind].
  rewrite (expect_at T _ _ Lexer.RPAREN H3 eq_refl).
  cbn [mbind outcome_bind].
  destruct alternate as [ss|]; cbn [fmap option_fmap option_map] in Hocc.
  - destruct (Halt ss eq_refl) as [Hss Hseq'].
    apply occurs_app in Hocc as [Hocc1 Hocc2].
    rewrite <- app_comm_cons in Hocc2.
    apply occurs_cons in Hocc2 as [Helse Hocc2].
    pose proof Hocc2 as Hend. apply occurs_app in Hend as [_ Hend].
    apply occurs_cons in Hend as [Hend _].
    rewrite (parseBlock_print ps T consequent _ (mark Lexer.ELSE "else")
               Hcons Hseq);
      [| apply occurs_app; split; [done|];
         apply occurs_cons; split; [done | apply occurs_nil]
       | set_solver].
    cbn [mbind outcome_bind].
    rewrite (match_one _ _ _ _ Helse) by (simpl; set_solver).
    cbn [advance snd tokens position].
    rewrite (parseBlock_print ps T ss _ _ Hss Hseq' Hocc2) by set_solver.
    cbn [mbind outcome_bind].
    rewrite (expect_at T _ _ Lexer.END Hend eq_refl).
    cbn [mbind outcome_bind]. position.
  - rewrite app_nil_l in Hocc.
    pose proof Hocc as Hend. apply occurs_app in Hend as [_ Hend].
    apply occurs_cons in Hend as [Hend _].
    rewrite (parseBlock_print ps T consequent _ _ Hcons Hseq Hocc)
      by set_solver.
    cbn [mbind outcome_bind].
    rewrite (match_other _ _ _ _ Hend) by (simpl; set_solver).
    cbn [mbind outcome_bind].
    rewrite (expect_at T _ _ Lexer.END Hend eq_refl).
    cbn [mbind outcome_bind]. position.
Qed.

Lemma parseEachStatement_print ps T variable iterable body i :
  wf_expr iterable = true →
  Forall (fun s => wf_statement s = true ∧ statement_reads ps T s) body →
  sequenced body = true →
  let s := EachStatement variable iterable (BlockStatement body) in
  occurs T i (print_statement s) →
  parseEachStatement ps (mkParser T i)
    = Ok (s, mkParser T (i + length (print_statement s))).
Proof.
  intros Hwf Hbody Hseq s Hocc. subst s. cbn [print_statement] in Hocc.
  apply occurs_cons in Hocc as [H1 Hocc].
  apply occurs_cons in Hocc as [H2 Hocc].
  apply occurs_cons in Hocc as [H3 Hocc].
  apply occurs_cons in Hocc as [H4 Hocc].
  apply occurs_app in Hocc as [Hiter Hocc].
  apply occurs_cons in Hocc as [H5 Hocc].
  pose proof Hocc as Hend. apply occurs_app in Hend as [_ Hend].
  apply occurs_cons in Hend as [Hend _].
  unfold parseEachStatement.
  rewrite (expect_at T i _ Lexer.EACH H1 eq_refl).
  cbn [mbind outcome_bind].
  rewrite (expect_at T (S i) _ Lexer.LPAREN H2 eq_refl).
  cbn [mbind outcome_bind].
  rewrite (expect_at T (S (S i)) _ Lexer.IDENTIFIER H3 eq_refl).
  cbn [mbind outcome_bind text_value mark Lexer.tvalue].
  rewrite (expect_at T (S (S (S i))) _ Lexer.IN H4 eq_refl).
  cbn [mbind outcome_bind].
  rewrite (parseExpression_print iterable T _ Hwf Hiter)
    by (eapply closing_ends; [done | set_solver]).
  cbn [mbind outcome_bind].
  rewrite (expect_at T _ _ Lexer.RPAREN H5 eq_refl).
  cbn [mbind outcome_bind].
  rewrite (parseBlock_print ps T body _ _ Hbody Hseq Hocc) by set_solver.
  cbn [mbind outcome_bind].
  rewrite (expect_at T _ _ Lexer.END Hend eq_refl).
  cbn [mbind outcome_bind]. position.
Qed.

Lemma parseAsStatement_print ps T condition body i :
  wf_expr condition = true →
  Forall (fun s => wf_statement s = true ∧ statement_reads ps T s) body →
  sequenced body = true →
  let s := AsStatement condition (BlockStatement body) in
  occurs T i (print_statement s) →
  parseAsStatement ps (mkParser T i)
    = Ok (s, mkParser T (i + length (print_statement s))).
Proof.
  intros Hwf Hbody Hseq s Hocc. subst s. cbn [print_statement] in Hocc.
  apply occurs_cons in Hocc as [H1 Hocc].
  apply occurs_cons in Hocc as [H2 Hocc].
  apply occurs_app in Hocc as [Hcond Hocc].
  apply occurs_cons in Hocc as [H3 Hocc].
  pose proof Hocc as Hend. apply occurs_app in Hend as [_ Hend].
  apply occurs_cons in Hend as [Hend _].
  unfold parseAsStatement.
  rewrite (expect_at T i _ Lexer.AS H1 eq_refl).
  cbn [mbind outcome_bind].
  rewrite (expect_at T (S i) _ Lexer.LPAREN H2 eq_refl).
  cbn [mbind outcome_bind].
  rewrite (parseExpression_print condition T _ Hwf Hcond)
    by (eapply closing_ends; [done | set_solver]).
  cbn [mbind outcome_bind].
  rewrite (expect_at T _ _ Lexer.RPAREN H3 eq_refl).
  cbn [mbind outcome_bind].
  rewrite (parseBlock_print ps T body _ _ Hbody Hseq Hocc) by set_solver.
  cbn [mbind outcome_bind].
  rewrite (expect_at T _ _ Lexer.END Hend eq_refl).
  cbn [mbind outcome_bind]. position.
Qed.

Lemma ends_stops T j : ends T j → stops T j.
Proof. intros H t Ht. by destruct (H t Ht). Qed.

Lemma parseNodeDeclaration_print T name value i :
  wf_expr value = true →
  let s := NodeDeclaration name value in
  occurs T i (print_statement s) →
  ends T (i + length (print_statement s)) →
  parseExpressionStatement (mkParser T i)
    = Ok (s, mkParser T (i + length (print_statement s))).
Proof.
  intros Hwf s Hocc Hends. subst s. cbn [print_statement] in Hocc, Hends.
  apply occurs_cons in Hocc as [H1 Hocc].
  apply occurs_cons in Hocc as [H2 Hocc].
  unfold parseExpressionStatement.
  rewrite (match_one _ _ _ _ H1) by (simpl; set_solver).
  unfold peek_is, peek. cbn [tokens position]. rewrite Nat.add_1_r, H2.
  cbn [mark Lexer.type]. rewrite bool_decide_eq_true_2 by done.
  cbn [andb advance tokens position fst snd]. rewrite H1.
  cbn [mbind outcome_bind text_value mark Lexer.tvalue].
  rewrite (parseExpression_print value T _ Hwf Hocc).
  - cbn [mbind outcome_bind]. position.
  - apply ends_stops. cbn [length] in Hends.
    by rewrite !Nat.add_succ_r in Hends.
Qed.

(** An expression as a statement. *)
Lemma parseExpressionStatement_print T e i :
  wf_expr e = true →
  occurs T i (print e) → ends T (i + length (print e)) →
  parseExpressionStatement (mkParser T i)
    = Ok (e, mkParser T (i + length (print e))).
Proof.
  intros Hwf Hocc Hends. unfold parseExpressionStatement.
  assert (Hno : match_ [Lexer.IDENTIFIER] (mkParser T i)
                && peek_is Lexer.ASSIGN (mkParser T i) = false).
  { destruct (match_ [Lexer.IDENTIFIER] (mkParser T i)) eqn:Hm; [|done].
    cbn [andb]. unfold peek_is, peek. cbn [tokens position].
    destruct (T !! (i + 1)) as [u|] eqn:Hu; [|done].
    apply bool_decide_eq_false_2. intros Hty.
    destruct (print_opens e Hwf) as (t & ts & Hp & Ho).
    rewrite Hp in Hocc. apply occurs_cons in Hocc as [Ht Hocc].
    rewrite (match_at _ _ _ _ Ht) in Hm. apply bool_decide_eq_true_1 in Hm.
    apply list_elem_of_singleton in Hm.
    destruct e as [| | | | | | | | | | | | |[]]; try discriminate;
      try (injection Hp as <- <-; discriminate Hm).
    injection Hp as <- <-. cbn [print length] in Hends.
    destruct (Hends u Hu) as [_ Hna]. done. }
  rewrite Hno. apply parseExpression_print; [done | done |].
  by apply ends_stops.
Qed.

(** [parseStatement] looks at the first token. *)
Lemma parseStatement_body_at ps T i t :
  T !! i = Some t →
  parseStatement_body ps (mkParser T i) =
    match Lexer.type t with
    | Lexer.ACTION => parseActionDeclaration ps (mkParser T i)
    | Lexer.CHECK => parseCheckStatement ps (mkParser T i)
    | Lexer.EACH => parseEachStatement ps (mkParser T i)
    | Lexer.AS => parseAsStatement ps (mkParser T i)
    | _ => parseExpressionStatement (mkParser T i)
    end.
Proof.
  intros Ht. unfold parseStatement_body. rewrite !(match_at _ _ _ _ Ht).
  by destruct (Lexer.type t).
Qed.

(** The statements of a block are smaller than the statement. *)
Lemma block_reads n T ss :
  (∀ s, wf_statement s = true → length (print_statement s) < n →
        statement_reads (parseStatement_fuel n) T s) →
  forallb wf_statement ss = true →
  length (flat_map print_statement ss) < n →
  Forall (fun s => wf_statement s = true
                   ∧ statement_reads (parseStatement_fuel n) T s) ss.
Proof.
  intros IH Hwf Hlen. apply Forall_forall. intros s Hin.
  assert (Hs : wf_statement s = true).
  { rewrite forallb_forall in Hwf. by apply Hwf, list_elem_of_In. }
  split; [done|]. apply IH; [done|].
  pose proof (length_print_statement_item s ss Hin). lia.
Qed.

Lemma parseStatement_fuel_print n :
  ∀ s T, wf_statement s = true → length (print_statement s) < n →
         statement_reads (parseStatement_fuel n) T s.
Proof.
  induction n as [|n IH]; intros s T Hwf Hlen i Hocc Hends; [lia|].
  cbn [parseStatement_fuel].
  destruct (print_statement_first s Hwf) as (t & ts & Hp & Hfirst).
  assert (Ht : T !! i = Some t).
  { rewrite Hp in Hocc. by apply occurs_cons in Hocc as [? _]. }
  rewrite (parseStatement_body_at _ _ _ _ Ht).
  assert (Hexpr : open_ended s = true →
                  match Lexer.type t with
                  | Lexer.ACTION | Lexer.CHECK | Lexer.EACH | Lexer.AS =>
                      False
                  | _ => True
                  end).
  { intros Ho. rewrite Ho in Hfirst. unfold opens in Hfirst.
    apply bool_decide_eq_true_1 in Hfirst.
    destruct (Lexer.type t); try done; set_solver. }
  destruct s; try discriminate Hwf;
    try (specialize (Hexpr eq_refl); specialize (Hends eq_refl);
         destruct (Lexer.type t); try done;
         by apply parseExpressionStatement_print).
  - (* NodeDeclaration *)
    specialize (Hexpr eq_refl). specialize (Hends eq_refl).
    destruct (Lexer.type t); try done;
      by apply parseNodeDeclaration_print.
  - (* ActionDeclaration *)
    injection Hp as <- _. cbn [mark Lexer.type].
    cbn [wf_statement] in Hwf. apply andb_prop in Hwf as [Hbody Hseq].
    apply parseActionDeclaration_print; [|done..].
    apply block_reads; [intros; by apply IH | done |].
    cbn [print_statement length] in Hlen.
    rewrite !length_app in Hlen. cbn [length] in Hlen.
    rewrite !length_app in Hlen. lia.
  - (* CheckStatement *)
    injection Hp as <- _. cbn [mark Lexer.type].
    cbn [wf_statement] in Hwf.
    apply andb_prop in Hwf as [[Hcond Hcons]%andb_prop Halt].
    destruct s2; try discriminate Hcons.
    apply andb_prop in Hcons as [Hcons Hseq].
    cbn [print_statement length] in Hlen.
    rewrite !length_app in Hlen. cbn [length] in Hlen.
    rewrite !length_app in Hlen.
    destruct alternate as [[]|]; try discriminate Halt.
    + apply andb_prop in Halt as [Halt Hseq'].
      cbn [length] in Hlen.
      apply (parseCheckStatement_print _ T s1 statements (Some statements0));
        [done | apply block_reads; [intros; by apply IH | done | lia] | done | |
         done].
      intros ss [= <-].
      split; [apply block_reads; [intros; by apply IH | done | lia] | done].
    + apply (parseCheckStatement_print _ T s1 statements None);
        [done | apply block_reads; [intros; by apply IH | done | lia] | done | |
         done].
      by intros ss [=].
  - (* EachStatement *)
    injection Hp as <- _. cbn [mark Lexer.type].
    cbn [wf_statement] in Hwf. apply andb_prop in Hwf as [Hiter Hbody].
    destruct s2; try discriminate Hbody.
    apply andb_prop in Hbody as [Hbody Hseq].
    cbn [print_statement length] in Hlen.
    rewrite !length_app in Hlen. cbn [length] in Hlen.
    rewrite !length_app in Hlen.
    apply parseEachStatement_print; [done | | done | done].
    apply block_reads; [intros; by apply IH | done | lia].
  - (* AsStatement *)
    injection Hp as <- _. cbn [mark Lexer.type].
    cbn [wf_statement] in Hwf. apply andb_prop in Hwf as [Hcond Hbody].
    destruct s2; try discriminate Hbody.
    apply andb_prop in Hbody as [Hbody Hseq].
    cbn [print_statement length] in Hlen.
    rewrite !length_app in Hlen. cbn [length] in Hlen.
    rewrite !length_app in Hlen.
    apply parseAsStatement_print; [done | | done | done].
    apply block_reads; [intros; by apply IH | done | lia].
Qed.

Lemma parseStatement_print s T :
  wf_statement s = true → statement_reads parseStatement T s.
Proof.
  intros Hwf i Hocc Hends. unfold parseStatement. cbn [tokens].
  apply parseStatement_fuel_print; [done | | done | done].
  pose proof (print_statement_nonempty s Hwf) as Hne.
  destruct (lookup_lt_is_Some_2 (print_statement s)
              (length (print_statement s) - 1)) as [u Hu]; [lia|].
  apply Hocc, lookup_lt_Some in Hu. lia.
Qed.

(** The loop of [parse] reads the statements up to the end marker. *)
Lemma parse_loop_print T ss :
  forallb wf_statement ss = true →
  sequenced ss = true →
  ∀ k statements i eof,
    length ss ≤ k →
    occurs T i (flat_map print_statement ss ++ [eof]) →
    Lexer.type eof = Lexer.EOF →
    parse_loop k statements (mkParser T i) = Ok (statements ++ ss).
Proof.
  induction ss as [|s ss IH];
    intros Hwf Hseq k statements i eof Hk Hocc Hty.
  - simpl in Hocc. apply occurs_cons in Hocc as [Ht _].
    rewrite app_nil_r.
    destruct k; cbn [parse_loop]; unfold current; cbn [tokens position];
      rewrite Ht, Hty; done.
  - destruct k as [|k]; [simpl in Hk; lia|]. cbn [parse_loop].
    cbn [forallb] in Hwf. apply andb_prop in Hwf as [Hs Hss].
    cbn [flat_map] in Hocc. rewrite <- app_assoc in Hocc.
    apply occurs_app in Hocc as [Hocc1 Hocc2].
    destruct (print_statement_first s Hs) as (t1 & ts1 & Hp1 & _).
    destruct (first_not_closing s t1 ts1 Hs Hp1) as [Hnc _].
    assert (Ht1 : T !! i = Some t1).
    { rewrite Hp1 in Hocc1. by apply occurs_cons in Hocc1 as [? _]. }
    unfold current. cbn [tokens position]. rewrite Ht1.
    rewrite bool_decide_eq_true_2 by set_solver.
    rewrite (parseStatement_print s T Hs i Hocc1).
    + cbn [mbind outcome_bind].
      rewrite (IH Hss ltac:(by destruct ss; [|apply andb_prop in Hseq as [_ ?]])
                 k _ _ eof); [| simpl in Hk; lia | done | done].
      by rewrite <- app_assoc.
    + intros Hopen. destruct ss as [|s' ss'].
      * simpl in Hocc2. apply occurs_cons in Hocc2 as [Ht _].
        eapply closing_ends; [done|]. rewrite Hty. set_solver.
      * apply andb_prop in Hseq as [Hs' _]. rewrite Hopen in Hs'.
        cbn [negb orb] in Hs'.
        cbn [forallb] in Hss. apply andb_prop in Hss as [Hwf' _].
        destruct (print_statement_first s' Hwf') as (t2 & ts2 & Hp2 & _).
        destruct (first_not_closing s' t2 ts2 Hwf' Hp2) as [_ Hna].
        rewrite Hp2 in Hs'. cbn [stops_before] in Hs'.
        cbn [flat_map] in Hocc2. rewrite Hp2 in Hocc2. simpl in Hocc2.
        apply occurs_cons in Hocc2 as [Ht2 _].
        intros u Hu. rewrite Ht2 in Hu. injection Hu as <-.
        split; [by apply negb_true_iff in Hs'|done].
Qed.

(** No token of a statement is a NEWLINE. *)
Lemma print_statement_tokens n :
  ∀ s, wf_statement s = true → length (print_statement s) < n →
       Forall (fun t => Lexer.type t ≠ Lexer.NEWLINE) (print_statement s).
Proof.
  assert (Hexpr : ∀ e, wf_expr e = true →
            Forall (fun t => Lexer.type t ≠ Lexer.NEWLINE) (print e)).
  { intros e Hwf. eapply Forall_impl; [exact (print_tokens e Hwf)|].
    intros u Hu Hnl. cbv beta in Hu. rewrite Hnl in Hu. discriminate Hu. }
  assert (Hparams : ∀ params,
            Forall (fun t => Lexer.type t ≠ Lexer.NEWLINE)
              (print_params params)).
  { induction params as [|name [|name2 rest] IH];
      [constructor | by repeat constructor |].
    rewrite print_params_cons. constructor; [done|].
    constructor; [done | exact IH]. }
  induction n as [|n IH]; intros s Hwf Hlen; [lia|].
  assert (Hblock : ∀ ss, forallb wf_statement ss = true →
            length (flat_map print_statement ss) < n →
            Forall (fun t => Lexer.type t ≠ Lexer.NEWLINE)
              (flat_map print_statement ss)).
  { intros ss Hss Hl. apply Forall_flat_map, Forall_forall.
    intros x Hin. apply IH.
    - rewrite forallb_forall in Hss. by apply Hss, list_elem_of_In.
    - pose proof (length_print_statement_item x ss Hin). lia. }
  destruct s; try discriminate Hwf; try (by apply Hexpr);
    cbn [wf_statement] in Hwf; cbn [print_statement length] in Hlen |- *;
    rewrite ?length_app in Hlen; cbn [length] in Hlen;
    rewrite ?length_app in Hlen.
  - repeat (constructor; [done|]). by apply Hexpr.
  - apply andb_prop in Hwf as [Hbody _].
    repeat (constructor; [done|]). apply Forall_app. split; [done|].
    constructor; [done|]. apply Forall_app.
    split; [apply Hblock; [done | lia] | by repeat constructor].
  - apply andb_prop in Hwf as [[Hcond Hcons]%andb_prop Halt].
    destruct s2; try discriminate Hcons.
    apply andb_prop in Hcons as [Hcons _].
    repeat (constructor; [done|]). apply Forall_app.
    split; [by apply Hexpr|]. constructor; [done|].
    apply Forall_app. split; [apply Hblock; [done | lia]|].
    apply Forall_app. split; [|by repeat constructor].
    destruct alternate as [[]|]; try discriminate Halt; [|constructor].
    apply andb_prop in Halt as [Halt _]. cbn [length] in Hlen.
    constructor; [done|]. apply Hblock; [done | lia].
  - apply andb_prop in Hwf as [Hiter Hbody].
    destruct s2; try discriminate Hbody.
    apply andb_prop in Hbody as [Hbody _].
    repeat (constructor; [done|]). apply Forall_app.
    split; [by apply Hexpr|]. constructor; [done|].
    apply Forall_app.
    split; [apply Hblock; [done | lia] | by repeat constructor].
  - apply andb_prop in Hwf as [Hcond Hbody].
    destruct s2; try discriminate Hbody.
    apply andb_prop in Hbody as [Hbody _].
    repeat (constructor; [done|]). apply Forall_app.
    split; [by apply Hexpr|]. constructor; [done|].
    apply Forall_app.
    split; [apply Hblock; [done | lia] | by repeat constructor].
Qed.

End StatementFacts.

(* ================================================================= *)
(** ** Lists without commas: lemmas *)

Section LooseItems.
Import Parser.
Implicit Types (T ts : list Lexer.Token) (i j k : nat) (p : Parser)
  (e : node) (items : list (string * bool)).

Lemma loose_items_tokens items :
  Forall (fun t => Lexer.type t ∈ [Lexer.IDENTIFIER; Lexer.COMMA])
    (loose_items items).
Proof.
  induction items as [|[x []] items IH]; simpl;
    repeat (constructor; [set_solver|]); done.
Qed.

Lemma length_loose_items items : length items ≤ length (loose_items items).
Proof.
  induction items as [|[x []] items IH]; simpl; lia.
Qed.

Lemma first_stops T j t ts :
  occurs T j (t :: ts) → continues (Lexer.type t) = false → stops T j.
Proof.
  intros [Ht _]%occurs_cons Hc u Hu. rewrite Ht in Hu. by injection Hu as <-.
Qed.

Lemma closing_continues t :
  Lexer.type t ∈ [Lexer.RPAREN; Lexer.RBRACKET] →
  continues (Lexer.type t) = false.
Proof.
  intros Hin. repeat (apply elem_of_cons in Hin as [-> | Hin]; [done|]).
  by apply elem_of_nil in Hin.
Qed.

(** The loop over the items of a list reads names whether or not commas
    separate them. *)
Lemma parseItems_loose o close T :
  close ∈ [Lexer.RPAREN; Lexer.RBRACKET] →
  (∀ x, reads o T (Identifier x)) →
  ∀ rest item k acc i tclose,
    occurs T i (loose_items (item :: rest) ++ [tclose]) →
    Lexer.type tclose = close →
    length rest ≤ k →
    parseItems o close k acc (mkParser T i)
      = Ok (acc ++ item_names (item :: rest),
            mkParser T (i + length (loose_items (item :: rest)))).
Proof.
  intros Hclose Hread.
  induction rest as [|item2 rest IH];
    intros [x c] k acc i tclose Hocc Hty Hk.
  - assert (Hc : Lexer.type tclose ∈ [Lexer.RPAREN; Lexer.RBRACKET])
      by (by rewrite Hty).
    cbn [loose_items flat_map fst snd app] in Hocc |- *.
    rewrite app_nil_r in Hocc |- *.
    apply occurs_cons in Hocc as [Hx Hocc].
    assert (Hrun : o (mkParser T i) = Ok (Identifier x, mkParser T (S i))).
    { rewrite (Hread x i).
      - cbn [print length]. by rewrite Nat.add_1_r.
      - apply occurs_cons. split; [done | apply occurs_nil].
      - cbn [print length]. rewrite Nat.add_1_r.
        destruct c; cbn [app] in Hocc;
          (eapply first_stops; [exact Hocc|]);
          [done | by apply closing_continues]. }
    destruct c; cbn [app length] in Hocc |- *.
    + apply occurs_cons in Hocc as [Hcomma Hocc].
      apply occurs_cons in Hocc as [Hend _].
      assert (Hskip : skipComma (mkParser T (S i)) = mkParser T (S (S i))).
      { unfold skipComma. by rewrite (match_one _ _ _ _ Hcomma) by types. }
      destruct k; cbn [parseItems]; rewrite Hrun; cbn [mbind outcome_bind];
        rewrite Hskip, (match_one _ _ _ _ Hend) by (rewrite Hty; by left);
        cbn [item_names map fst]; do 3 f_equal; lia.
    + apply occurs_cons in Hocc as [Hend _].
      assert (Hskip : skipComma (mkParser T (S i)) = mkParser T (S i)).
      { unfold skipComma. rewrite (match_other _ _ _ _ Hend); [done|].
        rewrite Hty. intros Hin. apply list_elem_of_singleton in Hin.
        rewrite Hin in Hclose. revert Hclose. types. }
      destruct k; cbn [parseItems]; rewrite Hrun; cbn [mbind outcome_bind];
        rewrite Hskip, (match_one _ _ _ _ Hend) by (rewrite Hty; by left);
        cbn [item_names map fst]; do 3 f_equal; lia.
  - destruct item2 as [x2 c2].
    assert (Hnext : ∀ j, occurs T j (loose_items ((x2, c2) :: rest)
                                      ++ [tclose]) →
                         T !! j = Some (mark Lexer.IDENTIFIER x2)).
    { intros j Hj. simpl in Hj. by apply occurs_cons in Hj as [? _]. }
    assert (Hnc : ∀ j, T !! j = Some (mark Lexer.IDENTIFIER x2) →
                       match_ [close] (mkParser T j) = false).
    { intros j Hj. apply (match_other _ _ _ _ Hj). intros Hin.
      apply list_elem_of_singleton in Hin. cbn [mark Lexer.type] in Hin.
      rewrite <- Hin in Hclose. revert Hclose. types. }
    destruct k as [|k]; [simpl in Hk; lia|]. cbn [parseItems].
    destruct c.
    + change (loose_items (_ :: _ :: rest))
        with (mark Lexer.IDENTIFIER x :: mark Lexer.COMMA ","
              :: loose_items ((x2, c2) :: rest)) in *.
      cbn [app] in Hocc. apply occurs_cons in Hocc as [Hx Hocc].
      apply occurs_cons in Hocc as [Hcomma Hocc].
      pose proof (Hnext _ Hocc) as Hx2.
      rewrite (Hread x i);
        [| apply occurs_cons; split; [done | apply occurs_nil]
         | cbn [print length]; rewrite Nat.add_1_r;
           intros u Hu; rewrite Hcomma in Hu; by injection Hu as <- ].
      cbn [mbind outcome_bind print length]. rewrite Nat.add_1_r.
      unfold skipComma. rewrite (match_one _ _ _ _ Hcomma) by types.
      cbn [advance snd tokens position]. rewrite (Hnc _ Hx2).
      rewrite (IH (x2, c2) k (acc ++ [Identifier x]) _ tclose Hocc Hty)
        by (simpl in Hk; lia).
      rewrite <- app_assoc. cbn [item_names map fst app length].
      do 3 f_equal. lia.
    + change (loose_items (_ :: _ :: rest))
        with (mark Lexer.IDENTIFIER x :: loose_items ((x2, c2) :: rest))
        in *.
      cbn [app] in Hocc. apply occurs_cons in Hocc as [Hx Hocc].
      pose proof (Hnext _ Hocc) as Hx2.
      rewrite (Hread x i);
        [| apply occurs_cons; split; [done | apply occurs_nil]
         | cbn [print length]; rewrite Nat.add_1_r;
           intros u Hu; rewrite Hx2 in Hu; by injection Hu as <- ].
      cbn [mbind outcome_bind print length]. rewrite Nat.add_1_r.
      unfold skipComma. rewrite (match_other _ _ _ _ Hx2) by types.
      rewrite (Hnc _ Hx2).
      rewrite (IH (x2, c2) k (acc ++ [Identifier x]) _ tclose Hocc Hty)
        by (simpl in Hk; lia).
      rewrite <- app_assoc. cbn [item_names map fst app length].
      do 3 f_equal. lia.
Qed.

Lemma parseItemList_loose o close T items i tclose :
  close ∈ [Lexer.RPAREN; Lexer.RBRACKET] →
  (∀ x, reads o T (Identifier x)) →
  occurs T i (loose_items items ++ [tclose]) →
  Lexer.type tclose = close →
  parseItemList o close (mkParser T i)
    = Ok (item_names items,
          mkParser T (S (i + length (loose_items items)))).
Proof.
  intros Hclose Hread Hocc Hty. unfold parseItemList.
  pose proof Hocc as Hend. apply occurs_app in Hend as [_ Hend].
  apply occurs_cons in Hend as [Hend _].
  destruct items as [|[x c] rest].
  - simpl in Hend |- *. rewrite Nat.add_0_r in Hend |- *.
    rewrite (match_one _ _ _ _ Hend) by (rewrite Hty; by left).
    cbn [mbind outcome_bind]. by rewrite (expect_at _ _ _ _ Hend Hty).
  - assert (Hx : T !! i = Some (mark Lexer.IDENTIFIER x)).
    { simpl in Hocc. by apply occurs_cons in Hocc as [? _]. }
    assert (Hnc : match_ [close] (mkParser T i) = false).
    { apply (match_other _ _ _ _ Hx). intros Hin.
      apply list_elem_of_singleton in Hin. cbn [mark Lexer.type] in Hin.
      rewrite <- Hin in Hclose. revert Hclose. types. }
    rewrite Hnc. cbn [tokens].
    rewrite (parseItems_loose o close T Hclose Hread rest (x, c) (length T)
               [] i tclose Hocc Hty).
    + cbn [mbind outcome_bind app].
      by rewrite (expect_at _ _ _ _ Hend Hty).
    + apply lookup_lt_Some in Hend.
      pose proof (length_loose_items ((x, c) :: rest)) as Hlen.
      cbn [length] in Hlen. lia.
Qed.

(** What [parsePostfix] reads is a whole expression when nothing that
    follows continues it. *)
Lemma lift_postfix pe T i t e i' :
  T !! i = Some t → opens (Lexer.type t) = true →
  parsePostfix pe (mkParser T i) = Ok (e, mkParser T i') →
  stops T i' →
  parseLogicalOr pe (mkParser T i) = Ok (e, mkParser T i').
Proof.
  intros Ht Ho Hp Hs. rewrite parseLogicalOr_climb. apply climb_pass.
  - unfold parseUnary. by rewrite parseUnary_plain by (by eapply opens_plain).
  - unfold levels. repeat constructor;
      apply (match_stops _ _ _ Hs); by repeat constructor.
Qed.

Lemma postfixLoop_call pe k expr T i t args j :
  1 ≤ k → T !! i = Some t → Lexer.type t = Lexer.LPAREN →
  parseItemList pe Lexer.RPAREN (mkParser T (S i))
    = Ok (args, mkParser T j) →
  stops T j →
  postfixLoop pe k expr (mkParser T i)
    = Ok (CallExpression expr args, mkParser T j).
Proof.
  intros Hk Ht Hty Hargs Hs. destruct k as [|k]; [lia|].
  cbn [postfixLoop].
  rewrite (match_one _ _ _ _ Ht) by (rewrite Hty; by left).
  cbn [advance snd tokens position]. rewrite Hargs.
  cbn [mbind outcome_bind]. by apply postfixLoop_stop.
Qed.

(** A token list that is one expression is parsed as the program of that
    expression. *)
Lemma parse_single_expression ts eof e t :
  head ts = Some t → opens (Lexer.type t) = true →
  Forall (fun u => Lexer.type u ≠ Lexer.NEWLINE) ts →
  Lexer.type eof = Lexer.EOF →
  match_ [Lexer.IDENTIFIER] (mkParser (ts ++ [eof]) 0)
  && peek_is Lexer.ASSIGN (mkParser (ts ++ [eof]) 0) = false →
  parseExpression (mkParser (ts ++ [eof]) 0)
    = Ok (e, mkParser (ts ++ [eof]) (length ts)) →
  parse (new (ts ++ [eof])) = Ok (Program [e]).
Proof.
  intros Hhead Ho Htoks Heof Hassign Hrun.
  assert (Hnew : new (ts ++ [eof]) = mkParser (ts ++ [eof]) 0).
  { unfold new. f_equal. apply filter_all, Forall_app. split; [done|].
    constructor; [|done]. by rewrite Heof. }
  rewrite Hnew. set (T := ts ++ [eof]) in *.
  assert (Ht : T !! 0 = Some t).
  { unfold T. destruct ts; [done|]. by injection Hhead as ->. }
  assert (Hlen : length T = S (length ts)).
  { unfold T. rewrite length_app. simpl. lia. }
  assert (Hend : T !! length ts = Some eof).
  { unfold T. rewrite lookup_app_r by done. by rewrite Nat.sub_diag. }
  unfold parse. cbn [tokens]. rewrite Hlen.
  cbn [parse_loop]. unfold current.
  cbn [tokens position]. rewrite Ht.
  assert (Hneof : Lexer.type t ≠ Lexer.EOF).
  { intros Hty. rewrite Hty in Ho. discriminate Ho. }
  rewrite (bool_decide_eq_true_2 _ Hneof).
  unfold parseStatement. cbn [tokens].
  rewrite Hlen. cbn [parseStatement_fuel].
  rewrite (parseStatement_body_at _ _ _ _ Ht).
  assert (Hexpr : match Lexer.type t with
                  | Lexer.ACTION | Lexer.CHECK | Lexer.EACH | Lexer.AS =>
                      False
                  | _ => True
                  end).
  { unfold opens in Ho. apply bool_decide_eq_true_1 in Ho.
    destruct (Lexer.type t); try done; set_solver. }
  assert (Hstmt : parseExpressionStatement (mkParser T 0)
                  = Ok (e, mkParser T (length ts))).
  { unfold parseExpressionStatement. by rewrite Hassign. }
  assert (Hloop : ∀ k, parse_loop k [e] (mkParser T (length ts)) = Ok [e]).
  { intros k. destruct k; cbn [parse_loop]; unfold current;
      cbn [tokens position]; rewrite Hend, Heof; done. }
  destruct (Lexer.type t); try done; rewrite Hstmt;
    cbn [mbind outcome_bind app]; by rewrite Hloop.
Qed.

End LooseItems.

(* ================================================================= *)
(** ** Progress of the parser: lemmas *)

Section Advances.
Import Parser.
Implicit Types (p : Parser) (k n : nat).

Lemma advances_weaken {A} strict p (r : outcome (A * Parser)) :
  advances strict p r → advances false p r.
Proof.
  destruct r as [[a p']|[m]| |]; simpl; try done.
  intros (Ht & Hp & Hl). repeat split; try done. destruct strict; lia.
Qed.

Lemma advances_bind {A B} s1 s2 p (m : outcome (A * Parser))
    (f : A * Parser → outcome (B * Parser)) :
  advances s1 p m →
  (∀ a p', tokens p' = tokens p →
           position p + (if s1 then 1 else 0) ≤ position p' →
           position p' ≤ length (tokens p) →
           advances s2 p' (f (a, p'))) →
  advances (s1 || s2) p (m ≫= f).
Proof.
  destruct m as [[a p']|[msg]| |]; simpl; try done.
  intros (Ht & Hp & Hl) Hf. specialize (Hf a p' Ht Hp Hl).
  destruct (f (a, p')) as [[b p'']|[msg]| |]; simpl in *; try done.
  - destruct Hf as (Ht' & Hp' & Hl'). rewrite Ht in Ht', Hl'.
    repeat split; try done. destruct s1, s2; simpl in *; lia.
  - by rewrite <- Ht.
Qed.

Lemma settles_bind {A B} s p (m : outcome A) (f : A → outcome (B * Parser)) :
  settles p m → (∀ a, advances s p (f a)) → advances s p (m ≫= f).
Proof. by destruct m as [a|[msg]| |]; simpl; auto. Qed.

Lemma current_lt p t : current p = Some t → position p < length (tokens p).
Proof. apply lookup_lt_Some. Qed.

Lemma match_current types p :
  match_ types p = true →
  ∃ t, current p = Some t ∧ Lexer.type t ∈ types.
Proof.
  unfold match_. destruct (current p) as [t|]; [|done].
  intros H. apply bool_decide_eq_true_1 in H. eauto.
Qed.

Lemma typed_current p t :
  current p = Some t →
  Forall (fun t => well_typed t = true) (tokens p) → well_typed t = true.
Proof.
  intros Hc Hall. rewrite Forall_forall in Hall. apply Hall.
  by eapply list_elem_of_lookup_2.
Qed.

Lemma expect_advances type p : advances true p (expect type p).
Proof.
  unfold expect. destruct (current p) as [t|] eqn:Hc.
  - destruct (bool_decide _); simpl.
    + apply current_lt in Hc. repeat split; lia.
    + left. by exists type, (Some t).
  - left. by exists type, None.
Qed.

(** The value of a token that is neither a number, a boolean nor the end
    marker is a string. *)
Lemma text_value_settles p t :
  current p = Some t →
  Lexer.type t ∉ [Lexer.NUMBER; Lexer.BOOLEAN; Lexer.EOF] →
  settles p (text_value (Some t)).
Proof.
  intros Hc Hty. unfold text_value, settles.
  destruct (Lexer.tvalue t) eqn:Hv; try done;
    intros Hall; pose proof (typed_current _ _ Hc Hall) as Hw;
    unfold well_typed in Hw; rewrite Hv in Hw;
    destruct (Lexer.type t); try discriminate; set_solver.
Qed.

Lemma literal_value_settles p t :
  current p = Some t →
  Lexer.type t ≠ Lexer.EOF →
  settles p (literal_value (Some t)).
Proof.
  intros Hc Hty. unfold literal_value, settles.
  destruct (Lexer.tvalue t) eqn:Hv; try done.
  intros Hall. pose proof (typed_current _ _ Hc Hall) as Hw.
  unfold well_typed in Hw. rewrite Hv in Hw.
  destruct (Lexer.type t); try discriminate; done.
Qed.

Lemma skipComma_fields p :
  tokens (skipComma p) = tokens p ∧
  position p ≤ position (skipComma p) ∧
  (position p ≤ length (tokens p) →
   position (skipComma p) ≤ length (tokens p)).
Proof.
  unfold skipComma. destruct (match_ [Lexer.COMMA] p) eqn:Hm; [|done].
  apply match_current in Hm as (t & Hc & _). apply current_lt in Hc.
  simpl. repeat split; lia.
Qed.

Lemma advances_shift {A} s p q (r : outcome (A * Parser)) :
  tokens q = tokens p → position p ≤ position q →
  advances s q r → advances s p r.
Proof.
  intros Ht Hp. destruct r as [[a p']|[m]| |]; simpl; try done.
  - rewrite Ht. intros (Ht' & Hp' & Hl). repeat split; try done. lia.
  - by rewrite Ht.
Qed.

Lemma advances_strict {A B} p (m : outcome (A * Parser))
    (f : A * Parser → outcome (B * Parser)) :
  advances true p m →
  (∀ a p', tokens p' = tokens p → position p + 1 ≤ position p' →
           position p' ≤ length (tokens p) →
           advances false p' (f (a, p'))) →
  advances true p (m ≫= f).
Proof. intros Hm Hf. by apply (advances_bind true false). Qed.

Lemma advances_then {A B} s p (m : outcome (A * Parser))
    (f : A * Parser → outcome (B * Parser)) :
  advances false p m →
  (∀ a p', tokens p' = tokens p → position p ≤ position p' →
           position p' ≤ length (tokens p) →
           advances s p' (f (a, p'))) →
  advances s p (m ≫= f).
Proof.
  intros Hm Hf. apply (advances_bind false s); [done|].
  intros a p' Ht Hp Hl. apply Hf; [done | simpl in Hp; lia | done].
Qed.

Lemma advances_lift {A} p q (r : outcome (A * Parser)) :
  tokens q = tokens p → position p + 1 ≤ position q →
  advances false q r → advances true p r.
Proof.
  intros Ht Hp. destruct r as [[a p']|[m]| |]; simpl; try done.
  - rewrite Ht. intros (Ht' & Hp' & Hl). repeat split; try done. lia.
  - by rewrite Ht.
Qed.

(** [this.expect(type).value], where the value is a name. *)
Lemma expect_name_advances {B} type p
    (f : string → Parser → outcome (B * Parser)) :
  type ∉ [Lexer.NUMBER; Lexer.BOOLEAN; Lexer.EOF] →
  (∀ name p', tokens p' = tokens p → position p + 1 ≤ position p' →
              position p' ≤ length (tokens p) →
              advances false p' (f name p')) →
  advances true p
    ('(token, p1) ← expect type p; name ← text_value (Some token); f name p1).
Proof.
  intros Hty Hf. unfold expect. destruct (current p) as [t|] eqn:Hc.
  - destruct (bool_decide _) eqn:Hd; cbn [mbind outcome_bind].
    + apply bool_decide_eq_true_1 in Hd.
      pose proof (text_value_settles p t Hc) as Hs. rewrite Hd in Hs.
      specialize (Hs Hty).
      destruct (text_value (Some t)) as [name| | |]; try done.
      cbn [mbind outcome_bind]. apply current_lt in Hc.
      apply (advances_lift _ (advance p).2); [done | simpl; lia |].
      apply Hf; simpl; [done | lia | lia].
    + left. by exists type, (Some t).
  - left. by exists type, None.
Qed.

Lemma after_strict p p' :
  tokens p' = tokens p → position p + 1 ≤ position p' →
  position p' ≤ length (tokens p) →
  position p' ≤ length (tokens p') ∧ remaining p' + 1 ≤ remaining p ∧
  0 < position p'.
Proof. unfold remaining. intros -> ??. lia. Qed.

Lemma after_same p p' :
  tokens p' = tokens p → position p ≤ position p' →
  position p' ≤ length (tokens p) →
  position p' ≤ length (tokens p') ∧ remaining p' ≤ remaining p ∧
  (0 < position p → 0 < position p').
Proof. unfold remaining. intros -> ??. lia. Qed.

Lemma remaining_le p : remaining p ≤ length (tokens p).
Proof. unfold remaining. lia. Qed.

Lemma remaining_inside p :
  0 < position p → position p ≤ length (tokens p) →
  remaining p < length (tokens p).
Proof. unfold remaining. lia. Qed.

Lemma remaining_current p t : current p = Some t → 0 < remaining p.
Proof. intros H%current_lt. unfold remaining. lia. Qed.

Lemma advance_after p t :
  current p = Some t →
  tokens (advance p).2 = tokens p ∧
  position (advance p).2 = S (position p) ∧
  position (advance p).2 ≤ length (tokens (advance p).2) ∧
  remaining (advance p).2 + 1 = remaining p.
Proof. intros H%current_lt. unfold remaining. simpl. split; [done|]. split; [done|]. lia. Qed.

End Advances.

(** Take the facts of one step of a parsing function. *)
Ltac step a p' :=
  let Ht := fresh "Ht" in
  let Hp := fresh "Hp" in
  let Hl := fresh "Hl" in
  intros a p' Ht Hp Hl;
  first [ pose proof (after_strict _ _ Ht Hp Hl) as (? & ? & ?)
        | pose proof (after_same _ _ Ht Hp Hl) as (? & ? & ?) ];
  cbn beta iota.

Section ExpressionsAdvance.
Import Parser.
Implicit Types (p : Parser) (k : nat).

Variable pe_ : Parser → outcome (node * Parser).
Variable n : nat.
Hypothesis pe_advances :
  ∀ p, position p ≤ length (tokens p) → remaining p < n →
       advances true p (pe_ p).

Lemma parseItems_advances close k items p :
  position p ≤ length (tokens p) → remaining p < n → remaining p ≤ k →
  advances true p (parseItems pe_ close k items p).
Proof.
  revert items p.
  induction k as [|k IH]; intros items p Hl Hn Hk; cbn [parseItems];
    (apply advances_strict; [by apply pe_advances|]); step item p1;
    destruct (skipComma_fields p1) as (Hst & Hsp & Hsl);
    destruct (match_ [close] (skipComma p1)).
  - simpl. rewrite Hst. split; [done|]. split; [lia | auto].
  - lia.
  - simpl. rewrite Hst. split; [done|]. split; [lia | auto].
  - apply (advances_shift _ _ (skipComma p1)); [done | done |].
    apply advances_weaken with true. unfold remaining in *.
    apply IH; rewrite ?Hst; [auto | lia | lia].
Qed.

Lemma parseItemList_advances close p :
  position p ≤ length (tokens p) → remaining p < n →
  advances true p (parseItemList pe_ close p).
Proof.
  intros Hl Hn. unfold parseItemList.
  apply (advances_bind false true).
  - destruct (match_ [close] p).
    + simpl. repeat split; lia.
    + apply advances_weaken with true.
      apply parseItems_advances; [done | done | apply remaining_le].
  - intros items p1 _ _ _. cbn beta iota.
    apply advances_strict; [apply expect_advances|]. step t p2.
    simpl. repeat split; lia.
Qed.

Lemma literal_advances types p :
  Lexer.EOF ∉ types →
  match_ types p = true →
  advances true p
    (let '(token, p1) := advance p in
     v ← literal_value token; Ok (Literal v, p1)).
Proof.
  intros Hty Hm. apply match_current in Hm as (t & Hc & Hin).
  destruct (advance_after _ _ Hc) as (Ht & Hp & Hl & Hr).
  unfold advance at 1. fold (current p). rewrite Hc. cbn iota beta.
  apply settles_bind.
  - apply literal_value_settles; [done|]. intros E. by rewrite E in Hin.
  - intros v. simpl. apply current_lt in Hc. repeat split; lia.
Qed.

Lemma parsePrimary_advances p :
  position p ≤ length (tokens p) → remaining p ≤ n →
  advances true p (parsePrimary pe_ p).
Proof.
  intros Hl Hn. unfold parsePrimary.
  destruct (match_ [Lexer.NUMBER] p) eqn:H1;
    [apply (literal_advances [Lexer.NUMBER]); [set_solver | done]|].
  destruct (match_ [Lexer.STRING] p) eqn:H2;
    [apply (literal_advances [Lexer.STRING]); [set_solver | done]|].
  destruct (match_ [Lexer.BOOLEAN] p) eqn:H3;
    [apply (literal_advances [Lexer.BOOLEAN]); [set_solver | done]|].
  destruct (match_ [Lexer.IDENTIFIER] p) eqn:H4.
  { apply match_current in H4 as (t & Hc & Hin).
    unfold advance. fold (current p). rewrite Hc. cbn iota beta.
    apply settles_bind.
    - apply text_value_settles; [done|].
      apply list_elem_of_singleton in Hin. rewrite Hin. set_solver.
    - intros v. simpl. apply current_lt in Hc. repeat split; lia. }
  destruct (match_ [Lexer.LBRACKET] p) eqn:H5.
  { apply match_current in H5 as (t & Hc & _).
    destruct (advance_after _ _ Hc) as (Ht & Hp & Hl1 & Hr).
    apply (advances_shift _ _ (advance p).2); [done | lia |].
    apply advances_strict;
      [apply parseItemList_advances; [done | lia]|].
    step xs p1. simpl. repeat split; lia. }
  destruct (match_ [Lexer.LPAREN] p) eqn:H6.
  { apply match_current in H6 as (t & Hc & _).
    destruct (advance_after _ _ Hc) as (Ht & Hp & Hl1 & Hr).
    apply (advances_shift _ _ (advance p).2); [done | lia |].
    apply advances_strict; [apply pe_advances; [done | lia]|].
    step x p1.
    apply advances_weaken with true.
    apply advances_strict; [apply expect_advances|].
    step t1 p2. simpl. repeat split; lia. }
  right. by exists (current p).
Qed.

Lemma postfixLoop_advances k expr p :
  position p ≤ length (tokens p) → remaining p < n → remaining p ≤ k →
  advances false p (postfixLoop pe_ k expr p).
Proof.
  revert expr p.
  induction k as [|k IH]; intros expr p Hl Hn Hk; cbn [postfixLoop];
    (destruct (match_ [Lexer.LPAREN] p) eqn:H1;
     [|destruct (match_ [Lexer.LBRACKET] p) eqn:H2;
       [|destruct (match_ [Lexer.DOT] p) eqn:H3;
         [|simpl; repeat split; lia]]]);
    try (apply match_current in H1 as (t & Hc & _));
    try (apply match_current in H2 as (t & Hc & _));
    try (apply match_current in H3 as (t & Hc & _));
    try (apply remaining_current in Hc as Hpos; lia);
    destruct (advance_after _ _ Hc) as (Ht & Hp & Hl1 & Hr);
    (apply (advances_shift _ _ (advance p).2); [done | lia |]).
  - apply advances_then;
      [apply advances_weaken with true;
       apply parseItemList_advances; [done | lia]|].
    step xs p1. apply IH; [done | lia | lia].
  - apply advances_then;
      [apply advances_weaken with true; apply pe_advances; [done | lia]|].
    step x p1.
    apply advances_then;
      [apply advances_weaken with true; apply expect_advances|].
    step t1 p2. apply IH; [done | lia | lia].
  - apply advances_weaken with true. apply expect_name_advances; [set_solver|].
    step x p1. apply IH; [done | lia | lia].
Qed.

Lemma parsePostfix_advances p :
  position p ≤ length (tokens p) → remaining p ≤ n →
  advances true p (parsePostfix pe_ p).
Proof.
  intros Hl Hn. unfold parsePostfix.
  apply advances_strict; [by apply parsePrimary_advances|].
  step x p1. apply postfixLoop_advances; [done | lia |].
  pose proof (remaining_le p). lia.
Qed.

Lemma operator_settles types p t :
  current p = Some t → Lexer.type t ∈ types →
  types ## [Lexer.NUMBER; Lexer.BOOLEAN; Lexer.EOF] →
  settles p (text_value (Some t)).
Proof.
  intros Hc Hin Hty. apply text_value_settles; [done|].
  intros Hin'. by apply (Hty (Lexer.type t)).
Qed.

Lemma parseUnary__advances k p :
  position p ≤ length (tokens p) → remaining p ≤ n → remaining p ≤ k →
  advances true p (parseUnary_ pe_ k p).
Proof.
  revert p. induction k as [|k IH]; intros p Hl Hn Hk; cbn [parseUnary_];
    (destruct (match_ [Lexer.NOT; Lexer.MINUS] p) eqn:H1;
     [|by apply parsePostfix_advances]);
    apply match_current in H1 as (t & Hc & Hin);
    [apply remaining_current in Hc; lia|].
  destruct (advance_after _ _ Hc) as (Ht & Hp & Hl1 & Hr).
  unfold advance at 1. fold (current p). rewrite Hc. cbn iota beta.
  change (mkParser (tokens p) (S (position p))) with (advance p).2.
  apply settles_bind.
  { apply (operator_settles _ _ _ Hc Hin). set_solver. }
  intros operator.
  apply (advances_lift _ (advance p).2); [done | lia |].
  apply advances_then;
    [apply advances_weaken with true; apply IH; [done | lia | lia]|].
  step x p1. simpl. repeat split; lia.
Qed.

Lemma parseUnary_advances p :
  position p ≤ length (tokens p) → remaining p ≤ n →
  advances true p (parseUnary pe_ p).
Proof.
  intros Hl Hn. apply parseUnary__advances; [done | done |].
  apply remaining_le.
Qed.

Section BinaryLevel.

Variable types : list Lexer.TokenType.
Variable next : Parser → outcome (node * Parser).
Hypothesis types_operators :
  types ## [Lexer.NUMBER; Lexer.BOOLEAN; Lexer.EOF].
Hypothesis next_advances :
  ∀ p, position p ≤ length (tokens p) → remaining p ≤ n →
       advances true p (next p).

Lemma binaryLoop_advances k lhs p :
  position p ≤ length (tokens p) → remaining p ≤ n → remaining p ≤ k →
  advances false p (binaryLoop types next k lhs p).
Proof.
  revert lhs p.
  induction k as [|k IH]; intros lhs p Hl Hn Hk; cbn [binaryLoop];
    (destruct (match_ types p) eqn:H1; [|simpl; repeat split; lia]);
    apply match_current in H1 as (t & Hc & Hin);
    [apply remaining_current in Hc; lia|].
  destruct (advance_after _ _ Hc) as (Ht & Hp & Hl1 & Hr).
  unfold advance at 1. fold (current p). rewrite Hc. cbn iota beta.
  change (mkParser (tokens p) (S (position p))) with (advance p).2.
  apply settles_bind; [by apply (operator_settles types)|].
  intros operator.
  apply (advances_shift _ _ (advance p).2); [done | lia |].
  apply advances_then;
    [apply advances_weaken with true; apply next_advances; [done | lia]|].
  step rhs p1. apply IH; [done | lia | lia].
Qed.

Lemma binaryLevel_advances p :
  position p ≤ length (tokens p) → remaining p ≤ n →
  advances true p (binaryLevel types next p).
Proof.
  intros Hl Hn. unfold binaryLevel.
  apply advances_strict; [by apply next_advances|].
  step lhs p1. apply binaryLoop_advances; [done | lia |].
  pose proof (remaining_le p). lia.
Qed.

End BinaryLevel.

Lemma parseLogicalOr_advances p :
  position p ≤ length (tokens p) → remaining p ≤ n →
  advances true p (parseLogicalOr pe_ p).
Proof.
  revert p. unfold parseLogicalOr, parseLogicalAnd, parseEquality,
    parseRelational, parseAdditive, parseMultiplicative.
  repeat (apply binaryLevel_advances; [set_solver|]).
  apply parseUnary_advances.
Qed.

End ExpressionsAdvance.

Section StatementsAdvance.
Import Parser.
Implicit Types (p : Parser) (k : nat).

Lemma parseExpression_fuel_advances n p :
  position p ≤ length (tokens p) → remaining p < n →
  advances true p (parseExpression_fuel n p).
Proof.
  revert p. induction n as [|n IH]; intros p Hl Hn; [lia|].
  cbn [parseExpression_fuel].
  apply (parseLogicalOr_advances _ n IH); [done | lia].
Qed.

Lemma parseExpression_advances p :
  position p ≤ length (tokens p) → advances true p (parseExpression p).
Proof.
  intros Hl. apply parseExpression_fuel_advances; [done|].
  pose proof (remaining_le p). lia.
Qed.

Section Blocks.

Variable ps_ : Parser → outcome (node * Parser).
Variable n : nat.
Hypothesis ps_advances :
  ∀ p, position p ≤ length (tokens p) → remaining p < n →
       advances true p (ps_ p).

Lemma parseBlock_loop_advances k statements p :
  position p ≤ length (tokens p) → remaining p < n → remaining p < k →
  advances false p (parseBlock_loop ps_ k statements p).
Proof.
  revert statements p.
  induction k as [|k IH]; intros statements p Hl Hn Hk; [lia|].
  cbn [parseBlock_loop].
  destruct (negb _); [|simpl; repeat split; lia].
  apply advances_weaken with true.
  apply advances_strict; [by apply ps_advances|].
  step statement p1. apply IH; [done | lia | lia].
Qed.

Lemma parseBlock_advances p :
  0 < position p → position p ≤ length (tokens p) → remaining p < n →
  advances false p (parseBlock ps_ p).
Proof.
  intros H0 Hl Hn. apply parseBlock_loop_advances; [done | done |].
  by apply remaining_inside.
Qed.

Lemma parseParams_advances k params p :
  position p ≤ length (tokens p) → remaining p ≤ k →
  advances true p (parseParams k params p).
Proof.
  revert params p.
  induction k as [|k IH]; intros params p Hl Hk; cbn [parseParams];
    (apply expect_name_advances; [set_solver|]); step name p1;
    destruct (skipComma_fields p1) as (Hst & Hsp & Hsl);
    destruct (match_ [Lexer.RPAREN] (skipComma p1)).
  - simpl. rewrite Hst. split; [done|]. split; [lia | auto].
  - lia.
  - simpl. rewrite Hst. split; [done|]. split; [lia | auto].
  - apply (advances_shift _ _ (skipComma p1)); [done | done |].
    apply advances_weaken with true. unfold remaining in *.
    apply IH; rewrite ?Hst; [auto | lia].
Qed.

(** One step of a statement, after its first token. *)
Ltac expect_then a p' :=
  apply advances_then;
  [apply advances_weaken with true; apply expect_advances|];
  step a p'.

Ltac block_then a p' :=
  apply advances_then; [apply parseBlock_advances; [lia | done | lia]|];
  step a p'.

Ltac expression_then a p' :=
  apply advances_then;
  [apply advances_weaken with true; by apply parseExpression_advances|];
  step a p'.

Lemma parseActionDeclaration_advances p :
  position p ≤ length (tokens p) → remaining p ≤ n →
  advances true p (parseActionDeclaration ps_ p).
Proof.
  intros Hl Hn. unfold parseActionDeclaration.
  apply advances_strict; [apply expect_advances|]. step t1 p1.
  apply advances_weaken with true.
  apply expect_name_advances; [set_solver|]. step name p2.
  expect_then t3 p3.
  apply advances_then.
  { destruct (match_ [Lexer.RPAREN] p3); [simpl; repeat split; lia|].
    apply advances_weaken with true. apply parseParams_advances; [done|].
    pose proof (remaining_le p). lia. }
  step params p4. expect_then t5 p5. block_then body p6.
  expect_then t7 p7. simpl. repeat split; lia.
Qed.

Lemma parseCheckStatement_advances p :
  position p ≤ length (tokens p) → remaining p ≤ n →
  advances true p (parseCheckStatement ps_ p).
Proof.
  intros Hl Hn. unfold parseCheckStatement.
  apply advances_strict; [apply expect_advances|]. step t1 p1.
  expect_then t2 p2. expression_then condition p3. expect_then t4 p4.
  block_then consequent p5.
  apply advances_then.
  { destruct (match_ [Lexer.ELSE] p5) eqn:Hm; [|simpl; repeat split; lia].
    apply match_current in Hm as (t & Hc & _).
    destruct (advance_after _ _ Hc) as (Ht' & Hp' & Hl' & Hr').
    apply (advances_shift _ _ (advance p5).2); [done | lia |].
    block_then statements p6. simpl. repeat split; lia. }
  step alternate p6. expect_then t7 p7. simpl. repeat split; lia.
Qed.

Lemma parseEachStatement_advances p :
  position p ≤ length (tokens p) → remaining p ≤ n →
  advances true p (parseEachStatement ps_ p).
Proof.
  intros Hl Hn. unfold parseEachStatement.
  apply advances_strict; [apply expect_advances|]. step t1 p1.
  expect_then t2 p2.
  apply advances_weaken with true.
  apply expect_name_advances; [set_solver|]. step variable p3.
  expect_then t4 p4. expression_then iterable p5. expect_then t6 p6.
  block_then body p7. expect_then t8 p8. simpl. repeat split; lia.
Qed.

Lemma parseAsStatement_advances p :
  position p ≤ length (tokens p) → remaining p ≤ n →
  advances true p (parseAsStatement ps_ p).
Proof.
  intros Hl Hn. unfold parseAsStatement.
  apply advances_strict; [apply expect_advances|]. step t1 p1.
  expect_then t2 p2. expression_then condition p3. expect_then t4 p4.
  block_then body p5. expect_then t6 p6. simpl. repeat split; lia.
Qed.

Lemma parseExpressionStatement_advances p :
  position p ≤ length (tokens p) →
  advances true p (parseExpressionStatement p).
Proof.
  intros Hl. unfold parseExpressionStatement.
  destruct (match_ [Lexer.IDENTIFIER] p) eqn:Hm;
    [|by apply parseExpression_advances].
  destruct (peek_is Lexer.ASSIGN p) eqn:Hpk;
    [|by apply parseExpression_advances].
  cbn [andb]. apply match_current in Hm as (t & Hc & Hin).
  unfold advance at 1. fold (current p). rewrite Hc. cbn iota beta.
  apply settles_bind.
  { apply text_value_settles; [done|].
    apply list_elem_of_singleton in Hin. rewrite Hin. set_solver. }
  intros name. unfold peek_is, peek in Hpk.
  destruct (tokens p !! (position p + 1)) as [t'|] eqn:Hp1; [|done].
  apply lookup_lt_Some in Hp1.
  set (p2 := (advance (mkParser (tokens p) (S (position p)))).2).
  apply (advances_lift _ p2); [done | simpl; lia |].
  apply advances_then;
    [apply advances_weaken with true; apply parseExpression_advances;
     simpl; lia|].
  step v p3. simpl. repeat split; lia.
Qed.

Lemma parseStatement_body_advances p :
  position p ≤ length (tokens p) → remaining p ≤ n →
  advances true p (parseStatement_body ps_ p).
Proof.
  intros Hl Hn. unfold parseStatement_body.
  destruct (match_ [Lexer.ACTION] p);
    [by apply parseActionDeclaration_advances|].
  destruct (match_ [Lexer.CHECK] p);
    [by apply parseCheckStatement_advances|].
  destruct (match_ [Lexer.EACH] p);
    [by apply parseEachStatement_advances|].
  destruct (match_ [Lexer.AS] p);
    [by apply parseAsStatement_advances|].
  by apply parseExpressionStatement_advances.
Qed.

End Blocks.

Lemma parseStatement_fuel_advances n p :
  position p ≤ length (tokens p) → remaining p < n →
  advances true p (parseStatement_fuel n p).
Proof.
  revert p. induction n as [|n IH]; intros p Hl Hn; [lia|].
  cbn [parseStatement_fuel].
  apply (parseStatement_body_advances _ n IH); [done | lia].
Qed.

Lemma parseStatement_advances p :
  position p ≤ length (tokens p) → advances true p (parseStatement p).
Proof.
  intros Hl. apply parseStatement_fuel_advances; [done|].
  pose proof (remaining_le p). lia.
Qed.

Lemma parse_loop_finishes k statements p :
  position p ≤ length (tokens p) → remaining p ≤ k →
  match parse_loop k statements p with
  | Ok _ => True
  | Throw (Error_ message) => syntax_error message
  | Unsupported => ¬ Forall (fun t => well_typed t = true) (tokens p)
  | OutOfFuel => False
  end.
Proof.
  revert statements p.
  induction k as [|k IH]; intros statements p Hl Hk; cbn [parse_loop];
    (destruct (current p) as [t|] eqn:Hc; [|done]);
    (destruct (bool_decide _); [|done]);
    [apply remaining_current in Hc; lia|].
  pose proof (parseStatement_advances p Hl) as Hs.
  destruct (parseStatement p) as [[statement p1]|[m]| |];
    cbn [mbind outcome_bind]; try done.
  destruct Hs as (Ht & Hp & Hl1).
  destruct (after_strict _ _ Ht Hp Hl1) as (? & ? & ?).
  rewrite <- Ht. apply IH; [done | lia].
Qed.

End StatementsAdvance.

Section FrontEnd.

Lemma tokenize_finishes text :
  match Lexer.tokenize text with
  | Ok toks => Forall (fun t => well_typed t = true) toks
  | Throw (Error_ message) => lexical_error message
  | Unsupported => True
  | OutOfFuel => False
  end.
Proof.
  unfold Lexer.tokenize.
  pose proof (tokenize_loop_spec (length (Lexer.input (Lexer.new text)))
                (length (Lexer.input (Lexer.new text))) (Lexer.new text))
    as H.
  unfold scanned in H.
  destruct (Lexer.tokenize_loop _ _ _) as [lx'|[message]| |]; simpl.
  - destruct H as (new & Htok & Hnew); [simpl; lia | done |].
    simpl in Htok. rewrite Htok. apply Forall_app. split.
    + eapply Forall_impl; [exact Hnew|]. by intros t [_ Ht].
    + by constructor.
  - apply H; [simpl; lia | done].
  - done.
  - apply H; [simpl; lia | done].
Qed.

Lemma parse_finishes p :
  Parser.position p ≤ length (Parser.tokens p) →
  match Parser.parse p with
  | Ok ast => ∃ statements, ast = Program statements
  | Throw (Error_ message) => syntax_error message
  | Unsupported =>
      ¬ Forall (fun t => well_typed t = true) (Parser.tokens p)
  | OutOfFuel => False
  end.
Proof.
  intros Hl. unfold Parser.parse.
  pose proof (parse_loop_finishes (length (Parser.tokens p)) [] p Hl
                (remaining_le p)) as H.
  destruct (Parser.parse_loop _ _ _) as [statements|[m]| |];
    cbn [mbind outcome_bind]; [by exists statements | done..].
Qed.

(** Dropping the NEWLINE tokens keeps what holds of every token. *)
Lemma Forall_new (P : Lexer.Token → Prop) toks :
  Forall P toks → Forall P (Parser.tokens (Parser.new toks)).
Proof.
  intros Hall. simpl. rewrite Forall_forall in Hall. apply Forall_forall.
  intros t Ht. apply Hall. apply list_elem_of_filter in Ht. tauto.
Qed.

End FrontEnd.

(* ================================================================= *)
(** ** The implicit-return protocol *)

(** C1.  In a call of an action, every assignment statement of the body
    to a name that is no parameter records the name: it is added after the
    names recorded so far unless it is one of them, and the name is bound
    in the scope of the call.  Nothing is recorded when the body starts,
    and when it has run the recorded names are exactly the names bound in
    the scope of the call that are no parameters, each once; names
    recorded by a prefix of the body stay in front in the same order
    (first-assignment order).  The call then returns: the value of the
    last statement when no name was recorded; the final value of the name
    when exactly one was recorded; otherwise a record whose keys are
    exactly the recorded names, in the order of the set, each with its
    final value in the call's scope.  Names are identifiers
    ([plain_key]). *)
Theorem implicit_return_protocol (this : Interpreter) (n : nat)
    (params : list string) (body : list node) (cenv : loc)
    (args : list value) (st : state) (lastValue : value) (st' : state) :
  good st → cenv < length (envs st) →
  let actionEnv := length (envs st) in
  let entered := (enter_action params cenv args st).2 in
  evaluateStatements (evaluate this n) body actionEnv VNull entered
    = Ok (lastValue, st') →
  Forall (fun x => plain_key x = true) (recorded st' actionEnv) →
  (∃ result,
     callAction (evaluate this n) params body cenv args st
       = Ok (result, st') ∧
     implicit_return_spec (recorded st' actionEnv) (binding st' actionEnv)
       lastValue result) ∧
  NoDup (recorded st' actionEnv) ∧
  recorded entered actionEnv = [] ∧
  (∀ pre name valueNode post,
     body = pre ++ NodeDeclaration name valueNode :: post →
     name ∉ params →
     ∃ m r0 st0 v stv st1,
       n = S m ∧
       evaluateStatements (evaluate this n) pre actionEnv VNull entered
         = Ok (r0, st0) ∧
       evaluate this m valueNode actionEnv st0 = Ok (v, stv) ∧
       evaluate this n (NodeDeclaration name valueNode) actionEnv st0
         = Ok (v, st1) ∧
       recorded st1 actionEnv = Set_add name (recorded stv actionEnv) ∧
       binding st1 actionEnv name = Some v ∧
       name ∈ recorded st' actionEnv) ∧
  (∀ x, x ∈ recorded st' actionEnv ↔
        is_Some (binding st' actionEnv x) ∧ x ∉ params) ∧
  (∀ pre post r1 st1,
     body = pre ++ post →
     evaluateStatements (evaluate this n) pre actionEnv VNull entered
       = Ok (r1, st1) →
     recorded st1 actionEnv `prefix_of` recorded st' actionEnv).
Proof.
  intros Hg Hc actionEnv entered Hrun Hplain.
  assert (Hacc0 : accounted_at actionEnv entered).
  { apply enter_action_accounted. intros fr t Hfr.
    apply lookup_lt_Some in Hfr. unfold actionEnv in Hfr. lia. }
  destruct (enter_action params cenv args st) as [a st0] eqn:Hent.
  destruct (enter_action_facts _ _ _ _ _ _ Hent)
    as (-> & Hlen & _ & _ & (fr0 & Hfr0 & _ & Hh0) & Hgood).
  simpl in entered. subst entered. fold actionEnv in Hent, Hfr0.
  pose proof (Hgood Hg Hc) as Hg0.
  assert (Ha0 : actionEnv < length (envs st0)) by (unfold actionEnv; lia).
  pose proof (evaluate_sound this n) as Hsound.
  pose proof (evaluate_accounting this n actionEnv) as Haccount.
  destruct (evaluateStatements_sound _ Hsound body
              actionEnv VNull _ _ _ Hrun Hg0 Ha0) as [Hg' Hx'].
  pose proof (evaluateStatements_accounting _ actionEnv Hsound Haccount body
                actionEnv VNull _ _ _ Hrun Hg0 Ha0 Hacc0) as Hacc'.
  destruct (recorded_bound st' actionEnv Hg') as [Hnd Hb].
  destruct (ext_hooks _ _ _ _ _ _ Hx' Hfr0 Hh0)
    as (fr' & t' & Hfr' & Hh' & Hpar').
  simpl in Hpar'.
  split; [|split; [done|]]; [|split; [|split; [|split]]].
  - unfold callAction. apply Nat.ltb_lt in Hc. rewrite Hc, Hent.
    rewrite Hrun. simpl. unfold implicitReturn.
    destruct (recorded st' actionEnv) as [|x [|y rest]] eqn:Hrec;
      cbn -[collect Env.get].
    + by eexists.
    + destruct (Hb x) as [v Hv]; [by left|].
      exists v. by rewrite (get_local _ _ _ _ Hv).
    + destruct (collect_spec st' actionEnv (x :: y :: rest) [])
        as (fields & Hcol & Hk & Hf); [done | done | done |].
      rewrite Hcol. simpl. exists (VObj fields). split; [done|].
      by exists fields.
  - unfold recorded. by rewrite Hfr0, Hh0.
  - intros pre name valueNode post -> Hname.
    rewrite evaluateStatements_app in Hrun.
    destruct (evaluateStatements (evaluate this n) pre actionEnv VNull st0)
      as [[r0 s0]| | |] eqn:Hpre; simpl in Hrun; try discriminate.
    destruct (evaluateStatements_sound _ Hsound pre
                actionEnv VNull _ _ _ Hpre Hg0 Ha0) as [Hgp Hxp].
    pose proof (evaluateStatements_accounting _ actionEnv Hsound Haccount
                  pre actionEnv VNull _ _ _ Hpre Hg0 Ha0 Hacc0) as Haccp.
    assert (Hap : actionEnv < length (envs s0)).
    { apply ext_length in Hxp. lia. }
    destruct (evaluate this n (NodeDeclaration name valueNode) actionEnv s0)
      as [[r1 s1]| | |] eqn:Hdecl; simpl in Hrun; try discriminate.
    destruct (Hsound _ _ _ _ _ Hdecl Hgp Hap) as [Hg1 Hx1].
    assert (Ha1 : actionEnv < length (envs s1)).
    { apply ext_length in Hx1. lia. }
    destruct (evaluateStatements_sound _ Hsound post
                actionEnv r1 _ _ _ Hrun Hg1 Ha1) as [_ Hxq].
    destruct n as [|m]; [discriminate|]. cbn [evaluate] in Hdecl.
    pose proof Hdecl as Hdecl'. unfold evaluateNodeDeclaration in Hdecl'.
    destruct (evaluate this m valueNode actionEnv s0)
      as [[v sv]| | |] eqn:Hval; simpl in Hdecl'; try discriminate.
    clear Hdecl'.
    destruct (evaluate_sound this m _ _ _ _ _ Hval Hgp Hap) as [Hgv Hxv].
    pose proof (evaluate_accounting this m actionEnv _ _ _ _ _ Hval Hgp Hap
                  Haccp) as Haccv.
    destruct (ext_hooks _ _ _ _ _ _ (ext_trans _ _ _ _ Hxp Hxv) Hfr0 Hh0)
      as (frv & tv & Hfrv & Hhv & Hparv).
    simpl in Hparv.
    destruct (assign_in_action _ _ _ _ _ _ _ _ _ _ _ Hdecl Hval Hfrv Hhv)
      as (-> & Hrec1 & Hb1); [by rewrite Hparv | done |].
    exists m, r0, s0, v, sv, s1.
    split; [done|]. split; [done|]. split; [done|].
    split; [by cbn [evaluate]|]. split; [done|]. split; [done|].
    assert (Hin1 : name ∈ recorded s1 actionEnv).
    { rewrite Hrec1. apply Set_add_elem. by right. }
    destruct (recorded_prefix _ _ _ actionEnv Hxq) as [more ->].
    apply elem_of_app. by left.
  - intros x.
    destruct (accounted_recorded actionEnv st' fr' t' x Hacc' Hfr' Hh')
      as [H1 H2].
    rewrite Hpar' in H1, H2. split.
    + intros Hx. split; [by apply Hb | by apply H1].
    + intros [Hbx Hpx]. by apply H2.
  - intros pre post r1 st1 -> Hpre.
    rewrite evaluateStatements_app, Hpre in Hrun. simpl in Hrun.
    destruct (evaluateStatements_sound _ Hsound pre
                actionEnv VNull _ _ _ Hpre Hg0 Ha0) as [Hg1 Hx1].
    assert (Ha1 : actionEnv < length (envs st1)).
    { apply ext_length in Hx1. lia. }
    destruct (evaluateStatements_sound _ Hsound post
                actionEnv r1 _ _ _ Hrun Hg1 Ha1) as [_ Hx2].
    by eapply recorded_prefix.
Qed.

Lemma implicit_return_protocol_witness :
  ∃ fields,
    callAction (evaluate Interpreter_new.1 3) ["a"; "b"] calculate_body 0
      [VNum 10; VNum 5] Interpreter_new.2
      = Ok (VObj fields, calculate_final) ∧
    fields.*1 = recorded calculate_final 1 ∧
    Forall (fun kv => binding calculate_final 1 kv.1 = Some kv.2) fields ∧
    "sum" ∈ fields.*1 ∧ "diff" ∈ fields.*1 ∧ "prod" ∈ fields.*1 ∧
    ("a" ∉ fields.*1) ∧ ("b" ∉ fields.*1) ∧
    NoDup fields.*1.
Proof.
  destruct (implicit_return_protocol Interpreter_new.1 3 ["a"; "b"]
              calculate_body 0 [VNum 10; VNum 5] Interpreter_new.2
              (VNum 50) calculate_final)
    as ((result & Hcall & Hspec) & Hnd & _ & Hassign & Hexact & _).
  - exact good_Interpreter_new.
  - vm_compute. lia.
  - apply observe_final. vm_compute. reflexivity.
  - vm_compute. repeat constructor.
  - change (length (envs Interpreter_new.2)) with 1 in *.
    destruct (Hassign [] "sum" _ _ eq_refl)
      as (? & ? & ? & ? & ? & ? & _ & _ & _ & _ & _ & _ & Hsum).
    { intros H. by repeat (apply elem_of_cons in H as [H | H];
                           [discriminate|]); apply elem_of_nil in H. }
    destruct (Hassign [_] "diff" _ _ eq_refl)
      as (? & ? & ? & ? & ? & ? & _ & _ & _ & _ & _ & _ & Hdiff).
    { intros H. by repeat (apply elem_of_cons in H as [H | H];
                           [discriminate|]); apply elem_of_nil in H. }
    destruct (Hassign [_; _] "prod" _ _ eq_refl)
      as (? & ? & ? & ? & ? & ? & _ & _ & _ & _ & _ & _ & Hprod).
    { intros H. by repeat (apply elem_of_cons in H as [H | H];
                           [discriminate|]); apply elem_of_nil in H. }
    assert (Ha : "a" ∉ recorded calculate_final 1).
    { intros H. apply Hexact in H as [_ H]. apply H. by left. }
    assert (Hb : "b" ∉ recorded calculate_final 1).
    { intros H. apply Hexact in H as [_ H]. apply H. right. by left. }
    unfold implicit_return_spec in Hspec.
    destruct (recorded calculate_final 1) as [|key1 [|key2 others]] eqn:Hrec.
    + by apply elem_of_nil in Hsum.
    + apply list_elem_of_singleton in Hsum, Hdiff. congruence.
    + destruct Hspec as (fields & -> & Hk & Hf).
      exists fields. rewrite Hk. repeat split; done.
Defined.

(** [calculate(10, 5)] returns [{sum: 15, diff: 5, prod: 50}]; the three
    names are recorded in this order. *)
Example calculate_10_5 :
  observe (fun st' => recorded st' 1)
    (callAction (evaluate Interpreter_new.1 3) ["a"; "b"] calculate_body
       0 [VNum 10; VNum 5] Interpreter_new.2)
  = Ok (VObj [("sum", VNum 15); ("diff", VNum 5); ("prod", VNum 50)],
        ["sum"; "diff"; "prod"]).
Proof. vm_compute. reflexivity. Qed.

(* ================================================================= *)
(** ** Assignments in a loop nested in an action *)

(** C2 (as the code has it).  An assignment [name = value] evaluated in a
    loop scope [l] (a plain scope with a parent [p]), at any depth of
    nesting:
    - when [l] binds [name] itself (its loop variable, or a name first
      assigned in it), that binding is overwritten; nothing is recorded
      and no other scope changes;
    - otherwise, when [name] is bound in the chain that starts at [p],
      [set] walks from [p] to the first scope [f] that binds [name] or is
      the scope of an action call, and there is such a scope.  When [f]
      is the scope of an action call, the installed [set] binds [name]
      in [f] and records it unless it is a parameter, and no other scope
      changes, so no ancestor of [f] is updated.  When [f] is a plain
      scope (an enclosing loop scope that binds [name], reached before
      any scope of an action call), the binding in [f] is overwritten,
      nothing is recorded and no other scope changes;
    - when [name] is bound nowhere in the chain that starts at [p], it is
      defined in [l]; nothing is recorded and no other scope changes.
    One of the cases always applies. *)
Theorem nested_each_assignment (this : Interpreter) (n : nat)
    (name : string) (valueNode : node) (l p : loc) (st : state)
    (v : value) (st1 : state) (frl : Environment) :
  evaluate this n valueNode l st = Ok (v, st1) →
  good st1 →
  envs st1 !! l = Some frl → parent frl = Some p → hooks frl = None →
  (is_Some (variables frl !! name) →
   ∃ st2,
     evaluate this (S n) (NodeDeclaration name valueNode) l st
       = Ok (v, st2) ∧
     binding st2 l name = Some v ∧
     (∀ g, recorded st2 g = recorded st1 g) ∧
     (∀ g, g ≠ l → envs st2 !! g = envs st1 !! g)) ∧
  (variables frl !! name = None →
   (∀ f fr t,
      (∃ b, nearest st1 name p b) → set_target st1 name p f →
      envs st1 !! f = Some fr → hooks fr = Some t →
      ∃ st2,
        evaluate this (S n) (NodeDeclaration name valueNode) l st
          = Ok (v, st2) ∧
        binding st2 f name = Some v ∧
        recorded st2 f =
          (if includes (tr_params t) name then recorded st1 f
           else Set_add name (recorded st1 f)) ∧
        (∀ g, g ≠ f → envs st2 !! g = envs st1 !! g)) ∧
   (∀ f fr,
      set_target st1 name p f →
      envs st1 !! f = Some fr → hooks fr = None →
      ∃ st2,
        evaluate this (S n) (NodeDeclaration name valueNode) l st
          = Ok (v, st2) ∧
        is_Some (binding st1 f name) ∧
        binding st2 f name = Some v ∧
        (∀ g, recorded st2 g = recorded st1 g) ∧
        (∀ g, g ≠ f → envs st2 !! g = envs st1 !! g)) ∧
   (unbound st1 name p →
    ∃ st2,
      evaluate this (S n) (NodeDeclaration name valueNode) l st
        = Ok (v, st2) ∧
      binding st2 l name = Some v ∧
      (∀ g, recorded st2 g = recorded st1 g) ∧
      (∀ g, g ≠ l → envs st2 !! g = envs st1 !! g)) ∧
   (((∃ b, nearest st1 name p b) ∧ (∃ f, set_target st1 name p f)) ∨
    unbound st1 name p)).
Proof.
  intros Hv [Hwf _] Hl Hp Hh.
  pose proof (Hwf _ _ _ Hl Hp) as Hlt.
  assert (Hpv : p < length (envs st1)).
  { apply lookup_lt_Some in Hl. lia. }
  split.
  { intros Hown. exists (variables_set l name v st1).
    split; [cbn [evaluate]; by eapply assign_own|].
    split; [apply binding_variables_set_same; by eapply lookup_lt_Some|].
    split; [intros g; apply recorded_variables_set|].
    intros g Hg. by apply lookup_variables_set_ne. }
  intros Hnone. split; [|split; [|split]].
  - intros f fr t [b Hn] Ht Hf Hhf.
    exists (Env.action_set t f name v st1).
    destruct (recorded_action_define t f name v st1 fr Hf Hhf)
      as (Hr & Hb & Ho).
    split.
    { cbn [evaluate].
      rewrite (assign_through_target _ name valueNode l st v st1 frl p b f
                 fr Hv Hwf Hl Hp Hh Hnone Hn Ht Hf).
      by rewrite Hhf. }
    split; [done|]. split; [|done].
    unfold recorded at 2 3. by rewrite Hf, Hhf.
  - intros f fr Ht Hf Hhf.
    assert (Hbf : is_Some (variables fr !! name)).
    { destruct (set_walk_target_plain st1 name p f fr v (S p) Hwf Ht Hf Hhf)
        as [Hb _]; [lia | done]. }
    assert (Hn : ∃ b, nearest st1 name p b).
    { destruct (nearest_or_unbound st1 name p Hwf Hpv) as [Hn | Hu];
        [done|]. exfalso.
      clear -Hu Ht Hf Hbf.
      induction Ht as [e fr' Hfr' _ | e fr' q f Hfr' Hh' Hnone' Hq Ht IH].
      - rewrite Hf in Hfr'. injection Hfr' as <-.
        destruct Hbf as [w Hw].
        inversion Hu; simplify_eq.
      - apply IH; [done|]. inversion Hu; simplify_eq. done. }
    destruct Hn as [b Hn].
    exists (variables_set f name v st1).
    split.
    { cbn [evaluate].
      rewrite (assign_through_target _ name valueNode l st v st1 frl p b f
                 fr Hv Hwf Hl Hp Hh Hnone Hn Ht Hf).
      by rewrite Hhf. }
    split; [unfold binding; by rewrite Hf|].
    split; [apply binding_variables_set_same; by eapply lookup_lt_Some|].
    split; [intros g; apply recorded_variables_set|].
    intros g Hg. by apply lookup_variables_set_ne.
  - intros Hu. exists (variables_set l name v st1).
    split; [cbn [evaluate]; by eapply assign_new|].
    split; [apply binding_variables_set_same; by eapply lookup_lt_Some|].
    split; [intros g; apply recorded_variables_set|].
    intros g Hg. by apply lookup_variables_set_ne.
  - destruct (nearest_or_unbound st1 name p Hwf Hpv) as [[b Hn] | Hu];
      [left | by right].
    split; [by exists b | by eapply nearest_set_target].
Qed.

Lemma nested_each_assignment_witness :
  (∃ st2,
     evaluate Interpreter_new.1 2 (NodeDeclaration "g" (num 5)) 2
       nested_state = Ok (VNum 5, st2) ∧
     binding st2 1 "g" = Some (VNum 5) ∧
     recorded st2 1 = ["g"] ∧
     binding st2 0 "g" = Some (VNum 0)) ∧
  (∃ st2,
     evaluate Interpreter_new.1 2 (NodeDeclaration "h" (num 5)) 2
       nested_state = Ok (VNum 5, st2) ∧
     binding st2 2 "h" = Some (VNum 5) ∧
     recorded st2 1 = []) ∧
  (∃ st2,
     evaluate Interpreter_new.1 2 (NodeDeclaration "g" (num 5)) 3
       deep_state = Ok (VNum 5, st2) ∧
     binding st2 2 "g" = Some (VNum 5) ∧
     recorded st2 1 = [] ∧
     binding st2 1 "g" = None ∧
     binding st2 0 "g" = Some (VNum 0)).
Proof.
  assert (Hgood : good nested_state).
  { split.
    - intros e fr p Hfr Hp.
      destruct e as [|[|[|e]]]; simpl in Hfr; simplify_eq; simpl in Hp;
        simplify_eq; lia.
    - intros e fr t Hfr Ht.
      destruct e as [|[|[|e]]]; simpl in Hfr; simplify_eq; simpl in Ht;
        simplify_eq. simpl. split; [constructor|].
      intros x Hx. by apply elem_of_nil in Hx. }
  assert (Hgood' : good deep_state).
  { split.
    - intros e fr p Hfr Hp.
      destruct e as [|[|[|[|e]]]]; simpl in Hfr; simplify_eq; simpl in Hp;
        simplify_eq; lia.
    - intros e fr t Hfr Ht.
      destruct e as [|[|[|[|e]]]]; simpl in Hfr; simplify_eq; simpl in Ht;
        simplify_eq. simpl. split; [constructor|].
      intros x Hx. by apply elem_of_nil in Hx. }
  split; [|split].
  - destruct (nested_each_assignment Interpreter_new.1 1 "g" (num 5) 2 1
                nested_state (VNum 5) nested_state
                (mkEnvironment (Some 1) {["i" := VNum 1]} None))
      as [_ Hrest]; try reflexivity; [exact Hgood|].
    destruct (Hrest eq_refl) as (Haction & _).
    destruct (Haction 1 (mkEnvironment (Some 0) ∅ (Some (mkTracker [] [])))
                (mkTracker [] []))
      as (st2 & Hrun & Hb & Hr & Ho); try reflexivity.
    { exists 0. eapply nearest_up; [reflexivity..|].
      eapply nearest_here; [reflexivity|]. by eexists. }
    { eapply set_target_here; [reflexivity|]. left. by eexists. }
    exists st2. split; [exact Hrun|]. split; [exact Hb|].
    split; [exact Hr|]. unfold binding. rewrite Ho by lia. reflexivity.
  - destruct (nested_each_assignment Interpreter_new.1 1 "h" (num 5) 2 1
                nested_state (VNum 5) nested_state
                (mkEnvironment (Some 1) {["i" := VNum 1]} None))
      as [_ Hrest]; try reflexivity; [exact Hgood|].
    destruct (Hrest eq_refl) as (_ & _ & Hnew & _).
    destruct Hnew as (st2 & Hrun & Hb & Hr & _).
    { eapply unbound_up; [reflexivity..|].
      eapply unbound_root; reflexivity. }
    exists st2. split; [exact Hrun|]. split; [exact Hb|].
    rewrite Hr. reflexivity.
  - destruct (nested_each_assignment Interpreter_new.1 1 "g" (num 5) 3 2
                deep_state (VNum 5) deep_state
                (mkEnvironment (Some 2) {["j" := VNum 2]} None))
      as [_ Hrest]; try reflexivity; [exact Hgood'|].
    destruct (Hrest eq_refl) as (_ & Hplain & _).
    destruct (Hplain 2 (mkEnvironment (Some 1) {["g" := VNum 1]} None))
      as (st2 & Hrun & _ & Hb & Hr & Ho); try reflexivity.
    { eapply set_target_here; [reflexivity|]. right. by eexists. }
    exists st2. split; [exact Hrun|]. split; [exact Hb|].
    split; [rewrite Hr; reflexivity|].
    unfold binding. rewrite !Ho by lia. split; reflexivity.
Defined.

(** C2 as stated fails for a name that only an ancestor of the action
    scope binds:
    [g = 0  action f() each (i in [1]) g = 5 end end  f()].
    [g] is not bound in the action's own scope (1) when the call starts,
    yet the assignment in the loop is recorded: the call returns 5, the
    final value of the one recorded name [g], now bound in the action's
    scope.  The global [g] is still 0. *)
Lemma nested_each_assignment_counterexample :
  binding (enter_action [] 0 [] before_call).2 1 "g" = None ∧
  observe (fun st' => (recorded st' 1, binding st' 1 "g", binding st' 0 "g"))
    (callAction (evaluate Interpreter_new.1 5) [] assign_global_body 0 []
       before_call)
  = Ok (VNum 5, (["g"], Some (VNum 5), Some (VNum 0))) ∧
  observe (fun st' => binding st' 0 "g")
    (execute Interpreter_new.1 7
       (Program [ NodeDeclaration "g" (num 0);
                  ActionDeclaration "f" [] assign_global_body;
                  CallExpression (Identifier "f") [] ])
       Interpreter_new.2)
  = Ok (VNum 5, Some (VNum 0)).
Proof. repeat split; vm_compute; reflexivity. Qed.

(** Two loops deep, with the variable of the outer loop shadowing a
    global:
    [g = 0  action f() each (g in [1]) each (j in [2]) g = 5 end end 7 end
     f()].
    The assignment in the inner loop overwrites the variable of the outer
    loop; the call records nothing and returns 7, the value of its last
    statement, and the global [g] is still 0. *)
Example shadowed_loop_variable :
  observe (fun st' => (recorded st' 1, binding st' 0 "g"))
    (execute Interpreter_new.1 9
       (Program [ NodeDeclaration "g" (num 0);
                  ActionDeclaration "f" [] shadowed_loop_body;
                  CallExpression (Identifier "f") [] ])
       Interpreter_new.2)
  = Ok (VNum 7, ([], Some (VNum 0))).
Proof. vm_compute. reflexivity. Qed.

(* ================================================================= *)
(** ** The iteration ceiling *)

(** C3.  With the ceiling of 10000 passes: an each-loop over an array of
    more than 10000 elements runs its body for the first 10000 elements,
    in order, and ends with the value and state of the last pass, raising
    nothing of its own; an as-loop whose condition is truthy 10001 times
    in a row throws "Maximum iteration limit exceeded in as loop"; an
    each-loop whose iterable is not an array throws "Each statement
    requires an array". *)
Theorem loop_ceiling_asymmetry (this : Interpreter) (n : nat) (env : loc)
    (st : state) :
  maxIterations this = 10000 →
  good st → env < length (envs st) →
  (∀ variable iterable body a xs st1,
     evaluate this n iterable env st = Ok (VArr a, st1) →
     arrays st1 !! a = Some xs → 10000 < length xs →
     evaluate this (S n) (EachStatement variable iterable body) env st =
       each_items (evaluate this n) variable body env (take 10000 xs)
         VNull st1 ∧
     length (take 10000 xs) = 10000) ∧
  (∀ condition body,
     stays_true (evaluate this n) condition body env 10000 st = true →
     evaluate this (S n) (AsStatement condition body) env st
       = Throw RuntimeLimitError) ∧
  (∀ variable iterable body v st1,
     evaluate this n iterable env st = Ok (v, st1) →
     (∀ a, v ≠ VArr a) →
     evaluate this (S n) (EachStatement variable iterable body) env st
       = Throw TypeError_each).
Proof.
  intros Hmax Hg He. split; [|split].
  - intros variable iterable body a xs st1 Hit Ha Hlen.
    split; [|rewrite length_take; lia].
    cbn [evaluate]. unfold evaluateEachStatement. rewrite Hit. simpl.
    rewrite Ha.
    destruct (sound_step _ _ _ _ _ (evaluate_sound this n iterable env)
                Hit Hg He) as (Hg1 & _ & He1).
    rewrite (eachLoop_each_items this _ (evaluate_sound this n)
               _ _ _ _ _ xs) by (done || lia).
    by rewrite drop_0, Hmax.
  - intros condition body Hst. cbn [evaluate].
    unfold evaluateAsStatement. apply asLoop_limit; [lia|].
    by rewrite Hmax.
  - intros variable iterable body v st1 Hit Hv. cbn [evaluate].
    unfold evaluateEachStatement. rewrite Hit. simpl.
    destruct v; try done. by destruct (Hv a).
Qed.

Lemma loop_ceiling_asymmetry_witness :
  (evaluate Interpreter_new.1 2
     (EachStatement "x" (Identifier "xs") (BlockStatement [])) 0
     long_array_state =
   each_items (evaluate Interpreter_new.1 1) "x" (BlockStatement []) 0
     (take 10000 (replicate 10001 VNull)) VNull long_array_state) ∧
  evaluate Interpreter_new.1 2
    (AsStatement (Literal (LBool true)) (BlockStatement [])) 0
    long_array_state = Throw RuntimeLimitError ∧
  evaluate Interpreter_new.1 2
    (EachStatement "n" (Literal (LNum 5)) (BlockStatement [])) 0
    long_array_state = Throw TypeError_each.
Proof.
  destruct (loop_ceiling_asymmetry Interpreter_new.1 1 0 long_array_state)
    as (Heach & Has & Hnot).
  - reflexivity.
  - apply good_single.
  - simpl. lia.
  - split; [|split].
    + eapply (Heach "x" (Identifier "xs") (BlockStatement []) 0).
      * reflexivity.
      * reflexivity.
      * rewrite length_replicate. apply Nat.ltb_lt. vm_compute. reflexivity.
    + apply Has. vm_compute. reflexivity.
    + apply (Hnot "n" (Literal (LNum 5)) (BlockStatement [])
               (VNum 5) long_array_state); [reflexivity | discriminate].
Defined.

(* ================================================================= *)
(** ** The scopes of an each-loop *)

(** C4 (as the code has it).  For an each-loop over an array: the loop is
    the run of its body for the first elements of the array (at most the
    ceiling), each pass in one new child scope of the enclosing scope that
    binds the loop variable and nothing else.  An assignment in such a
    scope to a name that the scope itself does not bind (so not the loop
    variable) and that the plain enclosing chain binds overwrites the
    nearest enclosing binding; an assignment to a name that the scope
    itself binds (the loop variable) changes that scope only.  Every
    plain scope that existed when the loop started binds the same names
    when the loop has finished: the loop variable is bound in the
    enclosing scope afterwards only if it was before. *)
Theorem each_scoping (this : Interpreter) (n : nat) (variable : string)
    (iterable body : node) (env : loc) (st : state) (a : loc)
    (xs : list value) (st1 : state) :
  good st → env < length (envs st) →
  evaluate this n iterable env st = Ok (VArr a, st1) →
  arrays st1 !! a = Some xs →
  evaluate this (S n) (EachStatement variable iterable body) env st =
    each_items (evaluate this n) variable body env
      (take (maxIterations this) xs) VNull st1 ∧
  (∀ x st_i,
     let '(l, st_i') := iteration_scope env variable x st_i in
     l = length (envs st_i) ∧
     envs st_i' !! l = Some (mkEnvironment (Some env) {[variable := x]} None) ∧
     keys st_i' l = Some {[variable]} ∧
     ∀ g, g < l → envs st_i' !! g = envs st_i !! g) ∧
  (∀ m name valueNode l st2 v st3 frl f,
     evaluate this m valueNode l st2 = Ok (v, st3) →
     good st3 →
     envs st3 !! l = Some frl → parent frl = Some env → hooks frl = None →
     variables frl !! name = None →
     plain_chain st3 env → nearest st3 name env f →
     evaluate this (S m) (NodeDeclaration name valueNode) l st2
       = Ok (v, variables_set f name v st3) ∧
     binding (variables_set f name v st3) f name = Some v ∧
     Env.get (variables_set f name v st3) env name = Ok v ∧
     binding (variables_set f name v st3) l name = None) ∧
  (∀ m name valueNode l st2 v st3 frl,
     evaluate this m valueNode l st2 = Ok (v, st3) →
     envs st3 !! l = Some frl → is_Some (variables frl !! name) →
     evaluate this (S m) (NodeDeclaration name valueNode) l st2
       = Ok (v, variables_set l name v st3)) ∧
  (∀ r st',
     evaluate this (S n) (EachStatement variable iterable body) env st
       = Ok (r, st') →
     ∀ g fr, envs st1 !! g = Some fr → hooks fr = None →
             keys st' g = keys st1 g).
Proof.
  intros Hg He Hit Ha.
  destruct (sound_step _ _ _ _ _ (evaluate_sound this n iterable env)
              Hit Hg He) as (Hg1 & _ & He1).
  assert (Hloop : evaluate this (S n) (EachStatement variable iterable body)
                    env st
                  = eachLoop this (evaluate this n) (length xs) variable body
                      env a 0 VNull st1).
  { cbn [evaluate]. unfold evaluateEachStatement. rewrite Hit. simpl.
    by rewrite Ha. }
  split; [|split; [|split; [|split]]].
  - rewrite Hloop.
    rewrite (eachLoop_each_items this _ (evaluate_sound this n)
               _ _ _ _ _ xs) by (done || lia).
    by rewrite drop_0.
  - intros x st_i. unfold iteration_scope, keys. simpl.
    rewrite lookup_app_r by done. rewrite Nat.sub_diag. simpl.
    split; [done|]. split; [done|]. split.
    + f_equal. by rewrite dom_singleton_L.
    + intros g Hlt. by apply lookup_app_l.
  - intros m name valueNode l st2 v st3 frl f Hv Hg3 Hl Hp Hh Hnone Hpl Hn.
    pose proof Hg3 as [Hwf _].
    assert (Hf : f < length (envs st3)).
    { destruct (nearest_binding _ _ _ _ Hn) as [w Hw]. unfold binding in Hw.
      destruct (envs st3 !! f) eqn:Hfl; [|discriminate].
      by eapply lookup_lt_Some. }
    assert (Hfl : f ≠ l).
    { assert (Hle : ∀ e f', nearest st3 name e f' → f' ≤ e).
      { clear -Hwf. induction 1 as [|e fr p f' Hfr _ Hp _ IH]; [lia|].
        specialize (Hwf _ _ _ Hfr Hp). lia. }
      specialize (Hle _ _ Hn). specialize (Hwf _ _ _ Hl Hp). lia. }
    split; [|split; [|split]].
    + cbn [evaluate]. by eapply assign_through_plain.
    + by apply binding_variables_set_same.
    + destruct (good_variables_set f name v st3 Hg3) as [Hwf' _].
      assert (Hn' : nearest (variables_set f name v st3) name env f).
      { clear -Hn. induction Hn as [e fr Hfr Hb | e fr p f Hfr Hnone Hp Hn IH].
        - eapply nearest_here.
          + by apply lookup_variables_set_eq.
          + simpl. rewrite lookup_insert_eq. by eexists.
        - assert (Hne : f ≠ e).
          { intros ->. destruct (nearest_binding _ _ _ _ Hn) as [w Hw].
            unfold binding in Hw. rewrite Hfr in Hw. simpl in Hw.
            congruence. }
          eapply nearest_up; [|exact Hnone|exact Hp|exact IH].
          by rewrite lookup_variables_set_ne. }
      destruct (get_walk_nearest _ _ _ _ (S env) Hwf' Hn') as (w & Hw & Hget);
        [lia|].
      rewrite binding_variables_set_same in Hw by done.
      unfold Env.get. rewrite Hget. congruence.
    + rewrite binding_variables_set_other by congruence.
      unfold binding. rewrite Hl. done.
  - intros m name valueNode l st2 v st3 frl Hv Hl [w Hw].
    cbn [evaluate]. unfold evaluateNodeDeclaration. rewrite Hv. simpl.
    rewrite Hl. unfold variables_has. by rewrite Hw.
  - intros r st' Hrun g fr Hgfr Hpl. rewrite Hloop in Hrun.
    destruct (eachLoop_ext this (evaluate this n) (evaluate_sound this n)
                (length xs) variable body env a 0 VNull st1 r st' (S g)
                Hrun Hg1 He1) as [_ [_ Hx]].
    destruct (Hx g fr Hgfr) as (fr' & Hfr' & _ & Hd).
    unfold keys. rewrite Hfr', Hgfr. simpl. f_equal. apply Hd; [lia|done].
Qed.

Lemma each_scoping_witness :
  (evaluate Interpreter_new.1 5
     (EachStatement "item" (Identifier "items") add_item) 0 sum_state =
   each_items (evaluate Interpreter_new.1 4) "item" add_item 0
     (take 10000 [VNum 1; VNum 2; VNum 3]) VNull sum_state) ∧
  ∀ r st',
    evaluate Interpreter_new.1 5
      (EachStatement "item" (Identifier "items") add_item) 0 sum_state
      = Ok (r, st') →
    keys st' 0 = keys sum_state 0.
Proof.
  destruct (each_scoping Interpreter_new.1 4 "item" (Identifier "items")
              add_item 0 sum_state 0 [VNum 1; VNum 2; VNum 3] sum_state)
    as (Hrun & _ & _ & _ & Hkeys).
  - apply good_single.
  - simpl. lia.
  - reflexivity.
  - reflexivity.
  - split; [exact Hrun|]. intros r st' H.
    eapply Hkeys; [exact H | reflexivity | reflexivity].
Defined.

(** [items = [1, 2, 3]  sum = 0  each (item in items) sum = sum + item end
    sum] evaluates to 6, and [item] is not bound afterwards. *)
Example each_sum_6 :
  observe (fun st' => (binding st' 0 "sum", binding st' 0 "item"))
    (execute Interpreter_new.1 6
       (Program
          [ NodeDeclaration "items" (ArrayExpression [num 1; num 2; num 3]);
            NodeDeclaration "sum" (num 0);
            EachStatement "item" (Identifier "items") add_item;
            Identifier "sum" ])
       Interpreter_new.2)
  = Ok (VNum 6, (Some (VNum 6), None)).
Proof. vm_compute. reflexivity. Qed.

(** C4 as stated fails when the assigned name is the loop variable and the
    enclosing scope binds that name too:
    [item = 0  each (item in [1, 2, 3]) item = 5 end].
    The assignment changes the binding of the pass's own scope; the
    enclosing [item] is still 0 after the loop, not 5, and [item] is
    bound in the enclosing scope after the loop. *)
Lemma each_scoping_counterexample :
  observe (fun st' => (binding st' 0 "item", Env.get st' 0 "item"))
    (execute Interpreter_new.1 6
       (Program
          [ NodeDeclaration "item" (num 0);
            EachStatement "item" (ArrayExpression [num 1; num 2; num 3])
              (BlockStatement [NodeDeclaration "item" (num 5)]) ])
       Interpreter_new.2)
  = Ok (VNum 5, (Some (VNum 0), Ok (VNum 0))).
Proof. vm_compute. reflexivity. Qed.

(* ================================================================= *)
(** ** Scope-chain operations *)

(** C5 (as the code has it).  Over a well-formed store, for the chain
    that starts at [e]:
    - [get] returns the binding of the nearest environment that binds the
      name, and throws "Undefined variable" when none does; one of the
      two always applies;
    - [set] walks to the first environment that binds the name or is the
      scope of an action call.  When that environment is a plain one it
      binds the name, and [set] overwrites that binding, changes no other
      binding, adds no name to any environment and records nothing.
      When it is the scope of an action call, [set] binds the name there
      (whether or not it was bound there), records it unless it is a
      parameter, and leaves every other environment as it was, a binding
      of the name further up included; it throws nothing.
    - [set] throws "Undefined variable" when the walk reaches the root
      through plain environments that do not bind the name; one of the
      three cases always applies, and on a chain of plain environments
      the first environment [set] stops at is the nearest binding, a
      plain environment. *)
Theorem scope_chain_get_set (st : state) (e : loc) (name : string) :
  wf_envs st → e < length (envs st) →
  (∀ f, nearest st name e f →
     ∃ v, binding st f name = Some v ∧ Env.get st e name = Ok v) ∧
  (unbound st name e → Env.get st e name = Throw (NameError name)) ∧
  ((∃ f, nearest st name e f) ∨ unbound st name e) ∧
  (∀ f fr v,
     set_target st name e f → envs st !! f = Some fr → hooks fr = None →
     ∃ st',
       Env.set st e name v = Ok st' ∧
       is_Some (binding st f name) ∧
       binding st' f name = Some v ∧
       (∀ g name', (g, name') ≠ (f, name) →
                   binding st' g name' = binding st g name') ∧
       (∀ g, keys st' g = keys st g) ∧
       (∀ g, recorded st' g = recorded st g)) ∧
  (∀ f fr t v,
     set_target st name e f → envs st !! f = Some fr → hooks fr = Some t →
     ∃ st',
       Env.set st e name v = Ok st' ∧
       binding st' f name = Some v ∧
       recorded st' f =
         (if includes (tr_params t) name then assignedVars t
          else Set_add name (assignedVars t)) ∧
       (∀ g name', (g, name') ≠ (f, name) →
                   binding st' g name' = binding st g name') ∧
       (∀ g, g ≠ f → envs st' !! g = envs st !! g)) ∧
  (unbound st name e → plain_chain st e →
   ∀ v, Env.set st e name v = Throw (NameError name)) ∧
  ((∃ f, set_target st name e f) ∨ (unbound st name e ∧ plain_chain st e)) ∧
  (plain_chain st e →
   ∀ f, (set_target st name e f ↔ nearest st name e f) ∧
        (nearest st name e f → plain_at st f)).
Proof.
  intros Hwf He.
  split; [intros f Hn; apply get_walk_nearest; auto|].
  split; [intros Hu; apply get_walk_unbound; auto|].
  split; [by apply nearest_or_unbound|].
  split.
  { intros f fr v Ht Hfr Hh.
    destruct (set_walk_target_plain st name e f fr v (S e) Hwf Ht Hfr Hh)
      as [Hb Hset]; [lia|].
    assert (Hb' : is_Some (binding st f name)).
    { unfold binding. by rewrite Hfr. }
    exists (variables_set f name v st).
    split; [exact Hset|]. split; [exact Hb'|].
    split; [apply binding_variables_set_same; by eapply lookup_lt_Some|].
    split; [intros g name' Hne; by apply binding_variables_set_other|].
    split; [intros g; by apply keys_variables_set_bound|].
    intros g. apply recorded_variables_set. }
  split.
  { intros f fr t v Ht Hfr Hh.
    exists (Env.action_set t f name v st).
    split; [apply set_walk_target_action with fr; auto|].
    destruct (recorded_action_define t f name v st fr Hfr Hh)
      as (Hr & Hb & Ho).
    split; [exact Hb|]. split; [exact Hr|].
    split; [intros g name' Hne; by apply binding_action_define | exact Ho]. }
  split; [intros Hu Hpl v; apply set_walk_unbound; auto|].
  split; [by apply set_target_or_none|].
  intros Hpl f. split; [by apply set_target_plain_chain|].
  by apply nearest_plain.
Qed.

Lemma scope_chain_get_set_witness :
  Env.get chain_example 1 "x" = Ok (VBool true) ∧
  Env.get chain_example 1 "z" = Throw (NameError "z") ∧
  Env.set chain_example 1 "z" VNull = Throw (NameError "z") ∧
  (∃ st', Env.set chain_example 1 "x" VNull = Ok st' ∧
          binding st' 0 "x" = Some VNull ∧ binding st' 1 "x" = None) ∧
  (∃ st', Env.set nested_state 2 "g" (VNum 5) = Ok st' ∧
          binding st' 1 "g" = Some (VNum 5) ∧
          recorded st' 1 = ["g"] ∧
          binding st' 0 "g" = Some (VNum 0)).
Proof.
  assert (Hwf : wf_envs chain_example).
  { intros e fr p Hfr Hp.
    destruct e as [|[|e]]; simpl in Hfr; simplify_eq; simpl in Hp;
      simplify_eq. lia. }
  assert (Hwf' : wf_envs nested_state).
  { intros e fr p Hfr Hp.
    destruct e as [|[|[|e]]]; simpl in Hfr; simplify_eq; simpl in Hp;
      simplify_eq; lia. }
  assert (He : 1 < length (envs chain_example)) by (simpl; lia).
  assert (He' : 2 < length (envs nested_state)) by (simpl; lia).
  assert (Hpl0 : plain_chain chain_example 0).
  { eapply plain_root; reflexivity. }
  assert (Hpl : plain_chain chain_example 1).
  { eapply plain_up; [reflexivity..|exact Hpl0]. }
  assert (Hn : nearest chain_example "x" 1 0).
  { eapply nearest_up; [reflexivity..|].
    eapply nearest_here; [reflexivity|]. by eexists. }
  assert (Ht : set_target chain_example "x" 1 0).
  { eapply set_target_up; [reflexivity..|].
    eapply set_target_here; [reflexivity|]. right. by eexists. }
  assert (Hu : unbound chain_example "z" 1).
  { eapply unbound_up; [reflexivity..|]. eapply unbound_root; reflexivity. }
  assert (Ht' : set_target nested_state "g" 2 1).
  { eapply set_target_up; [reflexivity..|].
    eapply set_target_here; [reflexivity|]. left. by eexists. }
  destruct (scope_chain_get_set chain_example 1 "x" Hwf He)
    as (Hgetx & _ & _ & Hsetx & _).
  destruct (scope_chain_get_set chain_example 1 "z" Hwf He)
    as (_ & Hgetz & _ & _ & _ & Hthrow & _).
  destruct (scope_chain_get_set nested_state 2 "g" Hwf' He')
    as (_ & _ & _ & _ & Hsetg & _).
  destruct (Hgetx 0 Hn) as (v & Hv & Hget).
  destruct (Hsetx 0 _ VNull Ht eq_refl eq_refl)
    as (st' & Hs & _ & Hb & Hother & _).
  destruct (Hsetg 1 _ _ (VNum 5) Ht' eq_refl eq_refl)
    as (st2 & Hs2 & Hb2 & Hr2 & Hother2 & _).
  split; [|split; [|split; [|split]]].
  - rewrite Hget. f_equal. vm_compute in Hv. congruence.
  - exact (Hgetz Hu).
  - exact (Hthrow Hu Hpl VNull).
  - exists st'. split; [exact Hs|]. split; [exact Hb|].
    rewrite Hother; [reflexivity | congruence].
  - exists st2. split; [exact Hs2|]. split; [exact Hb2|].
    split; [exact Hr2|]. rewrite Hother2; [reflexivity | congruence].
Defined.

(** C5 as stated fails on a chain that passes through the scope of an
    action call, as the chain of every loop in an action body does.  In
    [nested_state] the nearest binding of [g] seen from the loop scope (2)
    is the global one (0), yet [set] creates a new binding in the scope of
    the call (1) and leaves the global binding alone; and for [h], bound
    nowhere, [set] creates a binding instead of throwing.  The program
    [g = 0  action f() each (i in [1]) g = 5 end end  f()] runs this
    [set]: the global [g] is 0 when it ends. *)
Lemma scope_chain_set_counterexample :
  nearest nested_state "g" 2 0 ∧
  binding nested_state 1 "g" = None ∧
  observe (fun st' => (binding st' 0 "g", binding st' 1 "g"))
    (st' ← Env.set nested_state 2 "g" (VNum 5); Ok (VNull, st'))
  = Ok (VNull, (Some (VNum 0), Some (VNum 5))) ∧
  unbound nested_state "h" 2 ∧
  observe (fun st' => binding st' 1 "h")
    (st' ← Env.set nested_state 2 "h" (VNum 5); Ok (VNull, st'))
  = Ok (VNull, Some (VNum 5)) ∧
  observe (fun st' => binding st' 0 "g")
    (execute Interpreter_new.1 7
       (Program [ NodeDeclaration "g" (num 0);
                  ActionDeclaration "f" [] assign_global_body;
                  CallExpression (Identifier "f") [] ])
       Interpreter_new.2)
  = Ok (VNum 5, Some (VNum 0)).
Proof.
  split.
  { eapply nearest_up; [reflexivity..|].
    eapply nearest_up; [reflexivity..|].
    eapply nearest_here; [reflexivity|]. by eexists. }
  split; [reflexivity|]. split; [vm_compute; reflexivity|].
  split.
  { eapply unbound_up; [reflexivity..|].
    eapply unbound_up; [reflexivity..|].
    eapply unbound_root; reflexivity. }
  split; vm_compute; reflexivity.
Qed.

(* ================================================================= *)
(** ** Logical operators and truthiness *)

(** C6.  [&&] and [||] evaluate the left operand, then the right operand
    in the state the left one produced, whatever the left value is, and
    only then combine the two values by truthiness; a failure of either
    operand is the failure of the expression.  Truthiness: [undefined]
    and [null] are false, a boolean is itself, a number is false exactly
    when it equals zero, a string exactly when it is empty, and arrays,
    records and callables are true. *)
Theorem logical_operators_evaluate_both (this : Interpreter) (n : nat)
    (l r : node) (env : loc) (st : state) :
  evaluate this (S n) (BinaryExpression "&&" l r) env st =
    ('(lv, st1) ← evaluate this n l env st;
     '(rv, st2) ← evaluate this n r env st1;
     Ok (VBool (isTruthy lv && isTruthy rv), st2)) ∧
  evaluate this (S n) (BinaryExpression "||" l r) env st =
    ('(lv, st1) ← evaluate this n l env st;
     '(rv, st2) ← evaluate this n r env st1;
     Ok (VBool (isTruthy lv || isTruthy rv), st2)) ∧
  isTruthy VUndefined = false ∧
  isTruthy VNull = false ∧
  (∀ b, isTruthy (VBool b) = b) ∧
  (∀ f, isTruthy (VNum f) = false ↔ PrimFloat.eqb f 0%float = true) ∧
  (∀ s, isTruthy (VStr s) = false ↔ s = "") ∧
  (∀ a, isTruthy (VArr a) = true) ∧
  (∀ fields, isTruthy (VObj fields) = true) ∧
  (∀ params body cenv, isTruthy (VAction params body cenv) = true) ∧
  (∀ name, isTruthy (VBuiltin name) = true).
Proof.
  split; [|split].
  - cbn [evaluate]. unfold evaluateBinaryExpression.
    destruct (evaluate this n l env st) as [[lv st1]| | |]; [|done..].
    simpl. by destruct (evaluate this n r env st1) as [[rv st2]| | |].
  - cbn [evaluate]. unfold evaluateBinaryExpression.
    destruct (evaluate this n l env st) as [[lv st1]| | |]; [|done..].
    simpl. by destruct (evaluate this n r env st1) as [[rv st2]| | |].
  - repeat split; try done.
    + simpl. by intros ->%negb_false_iff.
    + simpl. by intros ->.
    + by destruct s.
    + by intros ->.
Qed.

(** [false && print("x")] still prints. *)
Example and_runs_right_operand :
  observe console
    (evaluate Interpreter_new.1 3
       (BinaryExpression "&&" (Literal (LBool false))
          (CallExpression (Identifier "print") [Literal (LStr "x")]))
       0 Interpreter_new.2)
  = Ok (VBool false, [[VStr "x"]]).
Proof. vm_compute. reflexivity. Qed.

(* ================================================================= *)
(** ** Array builtins *)

(** C7.  [push(arr, x)] and [pop(arr)] allocate a new array object and
    leave every existing array, [arr] included, as it was.  The array
    [push] returns holds the elements of [arr] followed by [x].  [pop]
    returns the record [{array, item}]: for [arr = init ++ [z]] the new
    array holds [init] and [item] is [z]; for an empty [arr] the new array
    is empty and [item] is [undefined]. *)
Theorem push_pop_copy (arr : loc) (xs : list value) (x : value)
    (st : state) :
  arrays st !! arr = Some xs →
  let copy := length (arrays st) in
  (∃ st', Builtins.push [VArr arr; x] st = Ok (VArr copy, st') ∧
          arrays st' = arrays st ++ [xs ++ [x]] ∧
          arrays st' !! arr = Some xs ∧
          envs st' = envs st ∧ console st' = console st) ∧
  (∃ item st',
      Builtins.pop [VArr arr] st
        = Ok (VObj [("array", VArr copy); ("item", item)], st') ∧
      arrays st' !! arr = Some xs ∧
      (∀ a ys, arrays st !! a = Some ys → arrays st' !! a = Some ys) ∧
      envs st' = envs st ∧ console st' = console st ∧
      (∀ init z, xs = init ++ [z] →
                 arrays st' !! copy = Some init ∧ item = z) ∧
      (xs = [] → arrays st' !! copy = Some [] ∧ item = VUndefined)).
Proof.
  intros Harr copy.
  assert (Hlt : arr < length (arrays st)) by (by eapply lookup_lt_Some).
  split.
  - eexists. unfold Builtins.push, Builtins.spread. rewrite Harr. simpl.
    split; [reflexivity|]. unfold Builtins.Array_push. simpl.
    assert (Halt : alter (λ ys, ys ++ [x]) (length (arrays st))
                     (arrays st ++ [xs]) = arrays st ++ [xs ++ [x]]).
    { rewrite alter_app_r_alt by done. by rewrite Nat.sub_diag. }
    rewrite Halt. split; [done|]. split; [|done].
    by rewrite lookup_app_l.
  - unfold Builtins.pop, Builtins.spread. rewrite Harr. simpl.
    unfold Builtins.Array_pop. simpl.
    rewrite lookup_app_r by done. rewrite Nat.sub_diag. simpl.
    destruct (length xs) as [|m] eqn:Hlen.
    + apply length_zero_iff_nil in Hlen as ->.
      eexists _, _. split; [reflexivity|]. simpl.
      split; [by rewrite lookup_app_l|].
      split; [intros a ys Ha; rewrite lookup_app_l; [done|];
              by eapply lookup_lt_Some|].
      split; [done|]. split; [done|]. split.
      * intros init z Hx. by destruct init.
      * intros _. split; [|done].
        rewrite lookup_app_r by done. by rewrite Nat.sub_diag.
    + eexists _, _. split; [reflexivity|]. simpl.
      assert (Halt : alter (take m) (length (arrays st)) (arrays st ++ [xs])
                     = arrays st ++ [take m xs]).
      { rewrite alter_app_r_alt by done. by rewrite Nat.sub_diag. }
      rewrite Halt.
      split; [by rewrite lookup_app_l|].
      split; [intros a ys Ha; rewrite lookup_app_l; [done|];
              by eapply lookup_lt_Some|].
      split; [done|]. split; [done|]. split.
      * intros init z ->. rewrite length_app in Hlen. simpl in Hlen.
        assert (m = length init) as -> by lia.
        rewrite lookup_app_r by done. rewrite Nat.sub_diag. simpl.
        rewrite take_app_length. split; [done|].
        rewrite app_nth2 by lia. by rewrite Nat.sub_diag.
      * intros ->. discriminate.
Qed.

Lemma push_pop_copy_witness :
  let st := mkState [] [[VNum 1; VNum 2]] [] in
  (∃ st', Builtins.push [VArr 0; VNum 3] st = Ok (VArr 1, st') ∧
          arrays st' = [[VNum 1; VNum 2]; [VNum 1; VNum 2; VNum 3]]) ∧
  (∃ st', Builtins.pop [VArr 0] st
            = Ok (VObj [("array", VArr 1); ("item", VNum 2)], st') ∧
          arrays st' = [[VNum 1; VNum 2]; [VNum 1]]).
Proof.
  intros st.
  destruct (push_pop_copy 0 [VNum 1; VNum 2] (VNum 3) st eq_refl)
    as [(st1 & Hpush & Harr & _) (item & st2 & Hpop & _)].
  split.
  - exists st1. split; [exact Hpush | exact Harr].
  - exists st2. vm_compute in Hpop. vm_compute. injection Hpop as ? ?.
    subst. split; reflexivity.
Defined.

(* ================================================================= *)
(** ** Numeric literals *)

(** C8.  ["42 3.14"] scans to NUMBER 42, NUMBER 3.14 and EOF.  The text
    of a number is the longest run of digits and points that starts at
    the position and holds at most one point: a sign or an exponent
    letter is never part of it, so ["-5"] scans to MINUS and NUMBER 5,
    and ["1e5"] to NUMBER 1 and the identifier [e5]. *)
Theorem tokenize_numbers :
  Lexer.tokenize "42 3.14" =
    Ok [ Lexer.mkToken Lexer.NUMBER (Lexer.NumberValue 42%float) 1 1;
         Lexer.mkToken Lexer.NUMBER (Lexer.NumberValue 3.14%float) 1 4;
         Lexer.mkToken Lexer.EOF Lexer.NullValue 1 8 ] ∧
  Lexer.tokenize "-5" =
    Ok [ Lexer.mkToken Lexer.MINUS (Lexer.StringValue "-") 1 1;
         Lexer.mkToken Lexer.NUMBER (Lexer.NumberValue 5%float) 1 2;
         Lexer.mkToken Lexer.EOF Lexer.NullValue 1 3 ] ∧
  Lexer.tokenize "1e5" =
    Ok [ Lexer.mkToken Lexer.NUMBER (Lexer.NumberValue 1%float) 1 1;
         Lexer.mkToken Lexer.IDENTIFIER (Lexer.StringValue "e5") 1 2;
         Lexer.mkToken Lexer.EOF Lexer.NullValue 1 4 ] ∧
  (∀ lx : Lexer.Lexer,
     ∃ num lx',
       Lexer.readNumber_loop (length (Lexer.input lx)) lx [] false
         = Ok (num, lx') ∧
       Lexer.position lx' = Lexer.position lx + length num ∧
       take (length num) (drop (Lexer.position lx) (Lexer.input lx)) = num ∧
       Forall (fun c => Lexer.is_digit c = true ∨ c = "."%char) num ∧
       points num ≤ 1 ∧
       match Lexer.peek lx' 0 with
       | None => True
       | Some c => Lexer.is_digit c = false ∧ (c = "."%char → points num = 1)
       end).
Proof.
  split; [vm_compute; reflexivity|].
  split; [vm_compute; reflexivity|].
  split; [vm_compute; reflexivity|].
  intros lx.
  destruct (readNumber_loop_spec (length (Lexer.input lx)) lx [] false)
    as (num & lx' & Hrun & _ & Hpos & _ & Htake & Hall & Hpts & Hstop);
    [lia|].
  exists num, lx'. split; [exact Hrun|]. do 4 (split; [done|]).
  destruct (Lexer.peek lx' 0) as [c|]; [|done].
  destruct Hstop as [Hnd Hdot]. split; [done|]. intros Hc.
  by destruct (Hdot Hc).
Qed.

(* ================================================================= *)
(** ** Parameter binding *)

(** C9.  An action call performs no arity check: whatever the number of
    arguments, the call is the run of the body in a new scope whose parent
    is the captured scope and which binds exactly the parameters.  A
    parameter without an argument is bound to [undefined]; a parameter
    (last of its name) with an argument is bound to it; arguments beyond
    the parameters change nothing. *)
Theorem missing_arguments_are_absent (this : Interpreter) (n : nat)
    (params : list string) (body : list node) (cenv : loc)
    (args : list value) (st : state) :
  cenv < length (envs st) →
  let actionEnv := length (envs st) in
  let entered := (enter_action params cenv args st).2 in
  callAction (evaluate this n) params body cenv args st =
    ('(lastValue, st2) ←
       evaluateStatements (evaluate this n) body actionEnv VNull entered;
     implicitReturn actionEnv lastValue st2) ∧
  keys entered actionEnv = Some (list_to_set params) ∧
  (∃ fr, envs entered !! actionEnv = Some fr ∧ parent fr = Some cenv) ∧
  (∀ j p, params !! j = Some p → length args ≤ j →
          binding entered actionEnv p = Some VUndefined) ∧
  (∀ j p, params !! j = Some p → p ∉ drop (S j) params →
          binding entered actionEnv p = Some (nth j args VUndefined)) ∧
  callAction (evaluate this n) params body cenv
    (take (length params) args) st =
  callAction (evaluate this n) params body cenv args st.
Proof.
  intros Hc actionEnv entered.
  assert (Hpl : plain_at (newEnvironment (Some cenv) st).2 actionEnv).
  { exists (mkEnvironment (Some cenv) ∅ None). split; [|done]. simpl.
    rewrite lookup_app_r by done. by rewrite Nat.sub_diag. }
  assert (Hinst : ∀ q st0, binding (install_hooks actionEnv params st0)
                             actionEnv q = binding st0 actionEnv q).
  { intros q st0. unfold binding, install_hooks. simpl.
    rewrite list_lookup_alter_eq. by destruct (envs st0 !! actionEnv). }
  assert (Hkeys : ∀ st0, keys (install_hooks actionEnv params st0) actionEnv
                         = keys st0 actionEnv).
  { intros st0. unfold keys, install_hooks. simpl.
    rewrite list_lookup_alter_eq. by destruct (envs st0 !! actionEnv). }
  split; [|split; [|split; [|split; [|split]]]].
  - unfold callAction. apply Nat.ltb_lt in Hc. rewrite Hc.
    reflexivity.
  - change (keys (install_hooks actionEnv params
                    (bindParameters actionEnv params args 0
                       (newEnvironment (Some cenv) st).2)) actionEnv
            = Some (list_to_set params)).
    rewrite Hkeys, bindParameters_keys by done.
    unfold keys. cbn [newEnvironment snd with_envs envs].
    rewrite lookup_app_r by done. unfold actionEnv.
    rewrite Nat.sub_diag. simpl. f_equal. set_solver.
  - destruct (enter_action params cenv args st) as [a st0] eqn:Hent.
    destruct (enter_action_facts _ _ _ _ _ _ Hent)
      as (-> & _ & _ & _ & (fr & Hfr & Hp & _) & _).
    exists fr. by split.
  - intros j p Hj Hlen. unfold entered, enter_action. simpl.
    rewrite Hinst. by eapply bindParameters_missing.
  - intros j p Hj Hlast. unfold entered, enter_action. simpl.
    rewrite Hinst. by erewrite bindParameters_last.
  - unfold callAction, enter_action. simpl.
    by rewrite (bindParameters_take _ params args 0).
Qed.

(** [action second(a, b) b end] called with one argument and with three. *)
Lemma missing_arguments_are_absent_witness :
  observe (fun _ => tt)
    (callAction (evaluate Interpreter_new.1 1) ["a"; "b"]
       [Identifier "b"] 0 [VNum 1] Interpreter_new.2)
  = Ok (VUndefined, tt) ∧
  callAction (evaluate Interpreter_new.1 1) ["a"; "b"] [Identifier "b"] 0
    [VNum 1; VNum 2; VNum 3] Interpreter_new.2 =
  callAction (evaluate Interpreter_new.1 1) ["a"; "b"] [Identifier "b"] 0
    [VNum 1; VNum 2] Interpreter_new.2.
Proof.
  assert (Hc : 0 < length (envs Interpreter_new.2)) by (simpl; lia).
  split.
  - destruct (missing_arguments_are_absent Interpreter_new.1 1 ["a"; "b"]
                [Identifier "b"] 0 [VNum 1] Interpreter_new.2 Hc)
      as (Hcall & _).
    rewrite Hcall. vm_compute. reflexivity.
  - destruct (missing_arguments_are_absent Interpreter_new.1 1 ["a"; "b"]
                [Identifier "b"] 0 [VNum 1; VNum 2; VNum 3]
                Interpreter_new.2 Hc) as (_ & _ & _ & _ & _ & Htake).
    symmetry. exact Htake.
Defined.

(* ================================================================= *)
(** ** String concatenation *)

(** C10.  When both operands of [+] evaluate to strings, the expression
    evaluates to their concatenation. *)
Theorem plus_concatenates_strings (this : Interpreter) (n : nat)
    (l r : node) (env : loc) (st st1 st2 : state) (s t : string) :
  evaluate this n l env st = Ok (VStr s, st1) →
  evaluate this n r env st1 = Ok (VStr t, st2) →
  evaluate this (S n) (BinaryExpression "+" l r) env st
    = Ok (VStr (s +:+ t), st2).
Proof.
  intros Hl Hr. cbn [evaluate]. unfold evaluateBinaryExpression.
  rewrite Hl. simpl. rewrite Hr. reflexivity.
Qed.

Lemma plus_concatenates_strings_witness :
  evaluate Interpreter_new.1 2
    (BinaryExpression "+" (Literal (LStr "John ")) (Literal (LStr "Doe")))
    0 Interpreter_new.2 = Ok (VStr "John Doe", Interpreter_new.2).
Proof.
  apply (plus_concatenates_strings Interpreter_new.1 1
           (Literal (LStr "John ")) (Literal (LStr "Doe")) 0
           Interpreter_new.2 Interpreter_new.2 Interpreter_new.2
           "John " "Doe"); reflexivity.
Defined.

(* ================================================================= *)
(** ** Programs of the test suite *)

(** [action square(x) x * x end  result = square(5)] is 25. *)
Example test_square :
  observe (fun _ => tt)
    (execute Interpreter_new.1 6
       (Program
          [ ActionDeclaration "square" ["x"]
              [BinaryExpression "*" (Identifier "x") (Identifier "x")];
            NodeDeclaration "result"
              (CallExpression (Identifier "square") [num 5]) ])
       Interpreter_new.2)
  = Ok (VNum 25, tt).
Proof. vm_compute. reflexivity. Qed.

(** [action double(x) result = x * 2 end  value = double(5)] is 10. *)
Example test_double :
  observe (fun st' => binding st' 0 "result")
    (execute Interpreter_new.1 6
       (Program
          [ ActionDeclaration "double" ["x"]
              [NodeDeclaration "result"
                 (BinaryExpression "*" (Identifier "x") (num 2))];
            NodeDeclaration "value"
              (CallExpression (Identifier "double") [num 5]) ])
       Interpreter_new.2)
  = Ok (VNum 10, None).
Proof. vm_compute. reflexivity. Qed.

(** [x = 10  check (x > 5) result = "greater" else result = "smaller" end
    result] is ["greater"]. *)
Example test_check :
  observe (fun _ => tt)
    (execute Interpreter_new.1 6
       (Program
          [ NodeDeclaration "x" (num 10);
            CheckStatement (BinaryExpression ">" (Identifier "x") (num 5))
              (BlockStatement
                 [NodeDeclaration "result" (Literal (LStr "greater"))])
              (Some (BlockStatement
                       [NodeDeclaration "result" (Literal (LStr "smaller"))]));
            Identifier "result" ])
       Interpreter_new.2)
  = Ok (VStr "greater", tt).
Proof. vm_compute. reflexivity. Qed.

(** [x = 5  as (x > 0) x = x - 1 end  x] is 0. *)
Example test_as :
  observe (fun st' => binding st' 0 "x")
    (execute Interpreter_new.1 6
       (Program
          [ NodeDeclaration "x" (num 5);
            AsStatement (BinaryExpression ">" (Identifier "x") (num 0))
              (BlockStatement
                 [NodeDeclaration "x"
                    (BinaryExpression "-" (Identifier "x") (num 1))]);
            Identifier "x" ])
       Interpreter_new.2)
  = Ok (VNum 0, Some (VNum 0)).
Proof. vm_compute. reflexivity. Qed.

(** [arr = [10, 20, 30]  arr[1]] is 20, and [length(arr)] is 3. *)
Example test_array :
  observe (fun _ => tt)
    (execute Interpreter_new.1 6
       (Program
          [ NodeDeclaration "arr" (ArrayExpression [num 10; num 20; num 30]);
            BinaryExpression "+"
              (MemberExpression (Identifier "arr") (num 1) true)
              (CallExpression (Identifier "length") [Identifier "arr"]) ])
       Interpreter_new.2)
  = Ok (VNum 23, tt).
Proof. vm_compute. reflexivity. Qed.

(** [2 + 3 * 4] is 14 and [(2 + 3) * 4] is 20, on the trees the parser
    builds for them. *)
Example test_precedence :
  observe (fun _ => tt)
    (execute Interpreter_new.1 3
       (BinaryExpression "+" (num 2) (BinaryExpression "*" (num 3) (num 4)))
       Interpreter_new.2)
  = Ok (VNum 14, tt) ∧
  observe (fun _ => tt)
    (execute Interpreter_new.1 3
       (BinaryExpression "*" (BinaryExpression "+" (num 2) (num 3)) (num 4))
       Interpreter_new.2)
  = Ok (VNum 20, tt).
Proof. split; vm_compute; reflexivity. Qed.

(* ================================================================= *)
(** ** Confinement of action calls *)

(** X1.  An action call never changes an environment that existed before the
    call: whatever the body assigns, at any depth of loops and of further
    calls, lands in the environments the call creates.  The existing
    arrays are unchanged as well; only the console can tell that the
    call took place. *)
Theorem action_call_is_pure (this : Interpreter) (n : nat)
    (params : list string) (body : list node) (cenv : loc)
    (args : list value) (st : state) (r : value) (st' : state) :
  good st → cenv < length (envs st) →
  callAction (evaluate this n) params body cenv args st = Ok (r, st') →
  envs st `prefix_of` envs st' ∧ arrays st `prefix_of` arrays st'.
Proof.
  intros Hg Hc H.
  destruct (callAction_sound (evaluate this n) (evaluate_sound this n)
              params body cenv args cenv _ _ _ H Hg Hc) as [_ Hx].
  split; [|by destruct Hx].
  pose proof (callAction_same_below (evaluate this n)
                (evaluate_sound this n) (evaluate_confined this n)
                _ _ _ _ _ _ _ H Hg) as Hsame.
  apply ext_length in Hx.
  exists (drop (length (envs st)) (envs st')).
  rewrite <- (take_drop (length (envs st)) (envs st')) at 1.
  f_equal. apply list_eq. intros g.
  destruct (decide (g < length (envs st))) as [Hlt|Hge].
  - rewrite lookup_take_lt by done. by apply Hsame.
  - rewrite lookup_take_ge by lia. symmetry. apply lookup_ge_None. lia.
Qed.

Lemma action_call_is_pure_witness :
  envs global_g `prefix_of` envs global_g_called ∧
  arrays global_g `prefix_of` arrays global_g_called.
Proof.
  apply (action_call_is_pure Interpreter_new.1 4 [] assign_global_body 0 []
           global_g (VNum 5) global_g_called).
  - apply good_single.
  - vm_compute. lia.
  - apply observe_final. vm_compute. reflexivity.
Defined.

(** X3.  [define] followed by [get] or [has] in the same environment finds the
    new value; no other binding changes, an enclosing environment sees
    what it saw before (the new binding only shadows), and every other
    name resolves as before from everywhere. *)
Theorem define_then_get (st : state) (e : loc) (name : string) (v : value) :
  wf_envs st → e < length (envs st) →
  let st' := Env.define e name v st in
  Env.get st' e name = Ok v ∧
  Env.has st' e name = Ok true ∧
  (∀ g name', (g, name') ≠ (e, name) →
              binding st' g name' = binding st g name') ∧
  (∀ p name', p < e → Env.get st' p name' = Env.get st p name') ∧
  (∀ g name', name' ≠ name → Env.get st' g name' = Env.get st g name').
Proof.
  intros Hwf He st'.
  assert (Hb : binding st' e name = Some v)
    by (by apply binding_variables_set_same).
  split; [by apply get_local|].
  split.
  { unfold binding in Hb. unfold Env.has. cbn [Env.has_walk].
    destruct (envs st' !! e) as [fr|]; [|done]. simpl in Hb.
    unfold variables_has. by rewrite Hb. }
  split; [intros g name' Hne; by apply binding_variables_set_other|].
  split.
  - intros p name' Hlt. by apply get_walk_define_below.
  - intros g name' Hne. by apply get_walk_define_other.
Qed.

Lemma define_then_get_witness :
  let st' := Env.define 1 "x" (VNum 1) chain_example in
  Env.get st' 1 "x" = Ok (VNum 1) ∧
  Env.has st' 1 "x" = Ok true ∧
  (∀ g name', (g, name') ≠ (1, "x") →
              binding st' g name' = binding chain_example g name') ∧
  (∀ p name', p < 1 → Env.get st' p name' = Env.get chain_example p name') ∧
  (∀ g name', name' ≠ "x" →
              Env.get st' g name' = Env.get chain_example g name').
Proof.
  apply (define_then_get chain_example 1 "x" (VNum 1)).
  - intros e fr p Hfr Hp.
    destruct e as [|[|e]]; simpl in Hfr; simplify_eq; simpl in Hp;
      simplify_eq; lia.
  - simpl. lia.
Defined.

(** X4.  [has] answers whether [get] would succeed: it returns true exactly
    when [get] returns a value and false exactly when [get] throws the
    undefined-variable error. *)
Theorem has_agrees_with_get (st : state) (e : loc) (name : string) :
  wf_envs st → e < length (envs st) →
  (Env.has st e name = Ok true ∧ ∃ v, Env.get st e name = Ok v) ∨
  (Env.has st e name = Ok false ∧
   Env.get st e name = Throw (NameError name)).
Proof.
  intros Hwf He.
  destruct (nearest_or_unbound st name e Hwf He) as [[f Hn]|Hu].
  - left. split; [unfold Env.has; eapply has_walk_nearest; [done..|lia]|].
    destruct (get_walk_nearest st name e f (S e) Hwf Hn) as (v & _ & Hv);
      [lia|]. by exists v.
  - right. split; [unfold Env.has; apply has_walk_unbound; [done..|lia]|].
    unfold Env.get. apply get_walk_unbound; [done..|lia].
Qed.

Lemma has_agrees_with_get_witness :
  (Env.has chain_example 1 "x" = Ok true ∧
   ∃ v, Env.get chain_example 1 "x" = Ok v) ∨
  (Env.has chain_example 1 "x" = Ok false ∧
   Env.get chain_example 1 "x" = Throw (NameError "x")).
Proof.
  apply (has_agrees_with_get chain_example 1 "x").
  - intros e fr p Hfr Hp.
    destruct e as [|[|e]]; simpl in Hfr; simplify_eq; simpl in Hp;
      simplify_eq; lia.
  - simpl. lia.
Defined.

(** X2.  Evaluation only ever adds to the store: an existing array keeps its
    elements, and an existing environment stays in place with the same
    parent and the same kind (plain, or the scope of an action call). *)
Theorem evaluation_only_extends (this : Interpreter) (n : nat) (nd : node)
    (env : loc) (st : state) (r : value) (st' : state) :
  good st → env < length (envs st) →
  evaluate this n nd env st = Ok (r, st') →
  (∀ a xs, arrays st !! a = Some xs → arrays st' !! a = Some xs) ∧
  length (envs st) ≤ length (envs st') ∧
  (∀ g fr, envs st !! g = Some fr →
     ∃ fr', envs st' !! g = Some fr' ∧ parent fr' = parent fr ∧
            (is_Some (hooks fr') ↔ is_Some (hooks fr))).
Proof.
  intros Hg He H.
  destruct (evaluate_sound this n nd env _ _ _ H Hg He) as [_ Hx].
  split; [intros a xs; by eapply ext_arrays|].
  split; [by eapply ext_length|].
  intros g fr Hfr. destruct Hx as [_ Hx].
  destruct (Hx _ _ Hfr) as (fr' & Hfr' & (Hp & Hh & _) & _).
  exists fr'. split; [done|]. split; [done|].
  destruct (hooks fr), (hooks fr'); simpl in Hh; try discriminate;
    split; intros [? ?]; eauto; discriminate.
Qed.

Lemma evaluation_only_extends_witness :
  let st' := final_state
               (evaluate Interpreter_new.1 4
                  (ArrayExpression [Identifier "sum"; Identifier "items"])
                  0 sum_state) sum_state in
  (∀ a xs, arrays sum_state !! a = Some xs → arrays st' !! a = Some xs) ∧
  length (envs sum_state) ≤ length (envs st') ∧
  (∀ g fr, envs sum_state !! g = Some fr →
     ∃ fr', envs st' !! g = Some fr' ∧ parent fr' = parent fr ∧
            (is_Some (hooks fr') ↔ is_Some (hooks fr))).
Proof.
  apply (evaluation_only_extends Interpreter_new.1 4
           (ArrayExpression [Identifier "sum"; Identifier "items"])
           0 sum_state (VArr 1)).
  - apply good_single.
  - simpl. lia.
  - apply observe_final. vm_compute. reflexivity.
Defined.

(* ================================================================= *)
(** ** Array builtins *)

(** X5.  [pop] undoes [push]: popping the array that [push(arr, x)] returned
    yields the item [x] and an array with the elements of [arr].  The
    three arrays are distinct objects and [arr] itself is never touched. *)
Theorem push_then_pop (arr : loc) (xs : list value) (x : value)
    (st : state) :
  arrays st !! arr = Some xs →
  ∃ pushed st1 popped st2,
    Builtins.push [VArr arr; x] st = Ok (VArr pushed, st1) ∧
    Builtins.pop [VArr pushed] st1
      = Ok (VObj [("array", VArr popped); ("item", x)], st2) ∧
    arrays st2 !! popped = Some xs ∧
    arrays st2 !! pushed = Some (xs ++ [x]) ∧
    arrays st2 !! arr = Some xs ∧
    arr < pushed < popped.
Proof.
  intros Ha.
  pose proof (lookup_lt_Some _ _ _ Ha) as Hlt.
  eexists _, _, _, _.
  split; [by apply push_spec|].
  split.
  { apply pop_spec. simpl. rewrite lookup_app_r by done.
    by rewrite Nat.sub_diag. }
  simpl. rewrite length_app. simpl.
  split.
  { rewrite lookup_app_r by (rewrite length_app; simpl; lia).
    rewrite length_app. simpl.
    by replace (_ - _) with 0 by lia. }
  split.
  { rewrite lookup_app_l by (rewrite length_app; simpl; lia).
    rewrite lookup_app_r by done. by rewrite Nat.sub_diag. }
  split; [|lia].
  rewrite lookup_app_l by (rewrite length_app; simpl; lia).
  by rewrite lookup_app_l.
Qed.

Lemma push_then_pop_witness :
  ∃ pushed st1 popped st2,
    Builtins.push [VArr 0; VNum 4] sum_state = Ok (VArr pushed, st1) ∧
    Builtins.pop [VArr pushed] st1
      = Ok (VObj [("array", VArr popped); ("item", VNum 4)], st2) ∧
    arrays st2 !! popped = Some [VNum 1; VNum 2; VNum 3] ∧
    arrays st2 !! pushed = Some ([VNum 1; VNum 2; VNum 3] ++ [VNum 4]) ∧
    arrays st2 !! 0 = Some [VNum 1; VNum 2; VNum 3] ∧
    0 < pushed < popped.
Proof.
  apply (push_then_pop 0 [VNum 1; VNum 2; VNum 3] (VNum 4) sum_state).
  reflexivity.
Defined.

(** X6.  [reverse] returns a reversed copy and leaves its argument alone, so
    reversing twice gives a new array with the elements of the first in
    their original order. *)
Theorem reverse_twice (arr : loc) (xs : list value) (st : state) :
  arrays st !! arr = Some xs →
  ∃ once st1 twice st2,
    Builtins.reverse [VArr arr] st = Ok (VArr once, st1) ∧
    Builtins.reverse [VArr once] st1 = Ok (VArr twice, st2) ∧
    arrays st2 !! once = Some (rev xs) ∧
    arrays st2 !! twice = Some xs ∧
    arrays st2 !! arr = Some xs ∧
    arr < once < twice.
Proof.
  intros Ha.
  pose proof (lookup_lt_Some _ _ _ Ha) as Hlt.
  eexists _, _, _, _.
  split; [by apply reverse_spec|].
  split.
  { apply reverse_spec. simpl. rewrite lookup_app_r by done.
    by rewrite Nat.sub_diag. }
  simpl. rewrite length_app. simpl. rewrite rev_involutive.
  split.
  { rewrite lookup_app_l by (rewrite length_app; simpl; lia).
    rewrite lookup_app_r by done. by rewrite Nat.sub_diag. }
  split.
  { rewrite lookup_app_r by (rewrite length_app; simpl; lia).
    rewrite length_app. simpl.
    by replace (_ - _) with 0 by lia. }
  split; [|lia].
  rewrite lookup_app_l by (rewrite length_app; simpl; lia).
  by rewrite lookup_app_l.
Qed.

Lemma reverse_twice_witness :
  ∃ once st1 twice st2,
    Builtins.reverse [VArr 0] sum_state = Ok (VArr once, st1) ∧
    Builtins.reverse [VArr once] st1 = Ok (VArr twice, st2) ∧
    arrays st2 !! once = Some (rev [VNum 1; VNum 2; VNum 3]) ∧
    arrays st2 !! twice = Some [VNum 1; VNum 2; VNum 3] ∧
    arrays st2 !! 0 = Some [VNum 1; VNum 2; VNum 3] ∧
    0 < once < twice.
Proof.
  apply (reverse_twice 0 [VNum 1; VNum 2; VNum 3] sum_state).
  reflexivity.
Defined.

(** X7.  No builtin reaches into the program: a call of a builtin leaves every
    environment as it is, keeps every array that exists with its
    elements (results are new arrays), and only adds to the output. *)
Theorem builtin_call_effects (name : string) (args : list value)
    (st : state) (v : value) (st' : state) :
  Builtins.call name args st = Ok (v, st') →
  envs st' = envs st ∧
  arrays st `prefix_of` arrays st' ∧
  console st `prefix_of` console st'.
Proof.
  intros H. destruct (call_ok _ _ _ _ _ H) as [Henvs Harr].
  split; [done|]. split; [done|]. by eapply call_console.
Qed.

Lemma builtin_call_effects_witness :
  let st' := with_arrays sum_state
               (arrays sum_state ++ [rev [VNum 1; VNum 2; VNum 3]]) in
  envs st' = envs sum_state ∧
  arrays sum_state `prefix_of` arrays st' ∧
  console sum_state `prefix_of` console st'.
Proof.
  apply (builtin_call_effects "reverse" [VArr 0] sum_state (VArr 1)).
  reflexivity.
Defined.

(* ================================================================= *)
(** ** Progress of the scanner *)

(** X8.  The scanner terminates: no loop of [tokenize] runs out of its bound
    on any text.  When it returns, the token list ends with the one end
    marker, whose value is null, and the value of every token before it
    fits its type; when it throws, the error is one of the two errors of
    the scanner.  The embedding gives no result only on a text that
    contains a name inherited from [Object.prototype] or a numeric
    literal of 2^53 or more or with more than 18 digits after the
    point. *)
Theorem tokenize_outcomes (text : string) :
  match Lexer.tokenize text with
  | Ok toks =>
      ∃ front l c,
        toks = front ++ [Lexer.mkToken Lexer.EOF Lexer.NullValue l c] ∧
        Forall lexical front
  | Throw (Error_ message) => lexical_error message
  | Unsupported => left_out (list_ascii_of_string text)
  | OutOfFuel => False
  end.
Proof.
  unfold Lexer.tokenize.
  pose proof (tokenize_loop_spec (length (Lexer.input (Lexer.new text)))
                (length (Lexer.input (Lexer.new text))) (Lexer.new text))
    as H.
  unfold scanned in H.
  destruct (Lexer.tokenize_loop _ _ _) as [lx'|[message]| |]; simpl.
  - destruct H as (new & Htok & Hnew); [simpl; lia | done |].
    exists new, (Lexer.line lx'), (Lexer.column lx').
    split; [by rewrite Htok|done].
  - apply H; [simpl; lia | done].
  - apply H; [simpl; lia | done].
  - apply H; [simpl; lia | done].
Qed.

(* ================================================================= *)
(** ** String literals *)

(** X9.  Every string has a literal, and the scanner reads the literal back as
    that string: with either delimiter, [string_literal] is scanned as one
    STRING token whose value is the string, followed by the end marker. *)
Theorem string_literal_round_trip (quote : ascii) (s : list ascii) :
  quote = Lexer.double_quote ∨ quote = Lexer.single_quote →
  Lexer.tokenize (string_literal quote s) =
    Ok [ Lexer.mkToken Lexer.STRING
           (Lexer.StringValue (string_of_list_ascii s)) 1 1;
         Lexer.mkToken Lexer.EOF Lexer.NullValue 1
           (3 + length (encode_string quote s)) ].
Proof. apply tokenize_string_literal. Qed.

Lemma string_literal_round_trip_witness :
  Lexer.tokenize
    (string_literal Lexer.double_quote
       (list_ascii_of_string "a\b") ) =
    Ok [ Lexer.mkToken Lexer.STRING
           (Lexer.StringValue
              (string_of_list_ascii (list_ascii_of_string "a\b"))) 1 1;
         Lexer.mkToken Lexer.EOF Lexer.NullValue 1
           (3 + length (encode_string Lexer.double_quote
                          (list_ascii_of_string "a\b"))) ].
Proof.
  apply (string_literal_round_trip Lexer.double_quote
           (list_ascii_of_string "a\b")).
  by left.
Defined.

(** X10.  A string literal whose closing delimiter is missing is rejected with
    the position of its opening delimiter, whatever it contains. *)
Theorem unterminated_string_is_rejected (quote : ascii) (s : list ascii) :
  quote = Lexer.double_quote ∨ quote = Lexer.single_quote →
  Lexer.tokenize (open_string_literal quote s) =
    Throw (Error_ "Unterminated string at line 1, column 1").
Proof.
  intros Hq. unfold Lexer.tokenize, open_string_literal, Lexer.new.
  rewrite list_ascii_of_string_of_list_ascii.
  set (text := quote :: encode_string quote s).
  set (lx := Lexer.mkLexer text 0 1 1 []).
  assert (Hlen : length text = S (length (encode_string quote s))) by done.
  change (Lexer.input lx) with text. rewrite Hlen.
  assert (Hb : between [] (quote :: encode_string quote s ++ []) lx).
  { by rewrite app_nil_r. }
  destruct (between_advance _ _ _ _ Hb) as (Ha & Hb1 & Hl1 & Hc1 & Ht1);
    [destruct Hq as [-> | ->]; done|].
  destruct (readString_loop_decodes quote s Hq
              (S (length (encode_string quote s))) (Lexer.advance lx).2
              _ [] [] Hb1) as (lx2 & Hrun & Hb2 & Hl2 & Hc2 & Ht2);
    [by right | pose proof (length_encode_string quote s); lia |].
  rewrite (tokenize_loop_step _ _ lx lx quote);
    [| change (0 < length text); lia
     | by apply (skipWhitespace_quote _ quote lx [] _ Hq Hb)
     | by apply (between_peek _ _ _ _ Hb) ].
  rewrite (scan_quote _ _ _ Hq). unfold Lexer.readString.
  destruct (Lexer.advance lx) as [first lx1]. cbn [fst snd] in *.
  subst first. rewrite Hrun. cbn [mbind outcome_bind app].
  rewrite (between_peek_end _ _ Hb2). reflexivity.
Qed.

Lemma unterminated_string_is_rejected_witness :
  Lexer.tokenize
    (open_string_literal Lexer.single_quote (list_ascii_of_string "abc")) =
    Throw (Error_ "Unterminated string at line 1, column 1").
Proof.
  apply (unterminated_string_is_rejected Lexer.single_quote
           (list_ascii_of_string "abc")).
  by right.
Defined.

(* ================================================================= *)
(** ** Words *)

(** X11.  Keywords are whole words.  A text that is one run of letters, digits
    and underscores starting with a letter or an underscore is scanned as
    one token: an IDENTIFIER carrying the text, unless the whole text is
    one of the nine reserved words, which are scanned as their own token
    types ([true] and [false] as BOOLEAN with the boolean as value). *)
Theorem words_and_keywords (c : ascii) (w : list ascii) :
  Lexer.is_letter c = true →
  Forall (fun x => is_word_char x = true) w →
  let id := string_of_list_ascii (c :: w) in
  (id ∉ Lexer.KEYWORDS.*1 → id ∉ Object_prototype_names →
   Lexer.tokenize id =
     Ok [ Lexer.mkToken Lexer.IDENTIFIER (Lexer.StringValue id) 1 1;
          Lexer.mkToken Lexer.EOF Lexer.NullValue 1 (2 + length w) ]) ∧
  (∀ t, (id, t) ∈ Lexer.KEYWORDS →
   Lexer.tokenize id =
     Ok [ Lexer.mkToken t (keyword_value id t) 1 1;
          Lexer.mkToken Lexer.EOF Lexer.NullValue 1 (2 + length w) ] ∧
   t ≠ Lexer.IDENTIFIER).
Proof.
  intros Hc Hw id. pose proof (tokenize_one_word c w Hc Hw) as Htok.
  fold id in Htok. cbv zeta in Htok. split.
  - intros Hk Hp. rewrite Htok. unfold Lexer.classify.
    rewrite (find_entry_None _ _ Hk).
    unfold includes. by rewrite bool_decide_eq_false_2.
  - intros t Hin. rewrite Htok. clear Htok. revert Hin. generalize id.
    clear. intros id Hin. unfold Lexer.KEYWORDS in Hin.
    repeat (apply elem_of_cons in Hin as [[= -> ->] | Hin];
            [by split|]).
    by apply elem_of_nil in Hin.
Qed.

Lemma words_and_keywords_witness :
  let id := string_of_list_ascii ("e"%char :: list_ascii_of_string "nd_") in
  (id ∉ Lexer.KEYWORDS.*1 → id ∉ Object_prototype_names →
   Lexer.tokenize id =
     Ok [ Lexer.mkToken Lexer.IDENTIFIER (Lexer.StringValue id) 1 1;
          Lexer.mkToken Lexer.EOF Lexer.NullValue 1
            (2 + length (list_ascii_of_string "nd_")) ]) ∧
  (∀ t, (id, t) ∈ Lexer.KEYWORDS →
   Lexer.tokenize id =
     Ok [ Lexer.mkToken t (keyword_value id t) 1 1;
          Lexer.mkToken Lexer.EOF Lexer.NullValue 1
            (2 + length (list_ascii_of_string "nd_")) ] ∧
   t ≠ Lexer.IDENTIFIER).
Proof.
  apply (words_and_keywords "e"%char (list_ascii_of_string "nd_")).
  - reflexivity.
  - repeat constructor.
Defined.

(* ================================================================= *)
(** ** Comments *)

(** X12.  A comment yields no token: a text that is two slashes followed by
    anything but a line feed is scanned as the end marker alone, placed
    behind the comment. *)
Theorem comment_is_skipped (w : list ascii) :
  Forall (fun c => c ≠ Lexer.newline) w →
  Lexer.tokenize (comment w) =
    Ok [Lexer.mkToken Lexer.EOF Lexer.NullValue 1 (3 + length w)].
Proof.
  intros Hw. unfold Lexer.tokenize, comment, Lexer.new.
  rewrite list_ascii_of_string_of_list_ascii.
  set (text := "/"%char :: "/"%char :: w).
  set (lx := Lexer.mkLexer text 0 1 1 []).
  change (Lexer.input lx) with text.
  assert (Hlen : length text = S (S (length w))) by done. rewrite Hlen.
  assert (Hb : between [] (text ++ []) lx) by (by rewrite app_nil_r).
  destruct (skipComment_loop_reads text
              ltac:(repeat (constructor; [done|]); done)
              (S (S (length w))) lx [] [] Hb) as
    (lx' & Hrun & [Hin Hpos] & Hl & Hc & Ht); [by right | by rewrite Hlen |].
  rewrite (tokenize_loop_step _ _ lx lx "/"%char);
    [| change (0 < length text); lia | done | done].
  unfold Lexer.scan.
  change (Lexer.peek lx 1) with (Some "/"%char).
  cbn [Ascii.eqb Bool.eqb Lexer.is_char andb]. unfold Lexer.skipComment.
  change (Lexer.peek lx 0) with (Some "/"%char).
  change (Lexer.peek lx 1) with (Some "/"%char).
  cbn [Ascii.eqb Bool.eqb Lexer.is_char andb].
  rewrite Hrun. cbn [mbind outcome_bind].
  rewrite tokenize_loop_done by (rewrite Hin, Hpos, app_nil_r; done).
  cbn [mbind outcome_bind]. rewrite Ht, Hl, Hc, Hlen. reflexivity.
Qed.

Lemma comment_is_skipped_witness :
  Lexer.tokenize (comment (list_ascii_of_string " x = 1")) =
    Ok [Lexer.mkToken Lexer.EOF Lexer.NullValue 1
          (3 + length (list_ascii_of_string " x = 1"))].
Proof.
  apply (comment_is_skipped (list_ascii_of_string " x = 1")).
  repeat (constructor; [done|]). constructor.
Defined.

(* ================================================================= *)
(** ** Precedence *)

(** X13.  Precedence and associativity of the binary operators: in
    [x o1 y o2 z] the first operator takes [y] when it binds at least as
    strongly as the second (so operators of one level group to the left),
    and the second takes [y] otherwise. *)
Theorem binary_precedence (x y z o1 o2 : string) (t1 t2 : Lexer.TokenType)
    (n1 n2 : nat) (line column : nat → nat) :
  precedence t1 = Some n1 → precedence t2 = Some n2 →
  Parser.parse (Parser.new (two_operators x y z o1 o2 t1 t2 line column)) =
    Ok (Program
          [ if n2 <=? n1
            then BinaryExpression o2
                   (BinaryExpression o1 (Identifier x) (Identifier y))
                   (Identifier z)
            else BinaryExpression o1 (Identifier x)
                   (BinaryExpression o2 (Identifier y) (Identifier z)) ]).
Proof.
  intros H1 H2.
  destruct t1; try discriminate; injection H1 as <-;
    destruct t2; try discriminate; injection H2 as <-;
    vm_compute; reflexivity.
Qed.

Lemma binary_precedence_witness :
  Parser.parse
    (Parser.new (two_operators "a" "b" "c" "+" "*" Lexer.PLUS Lexer.MULTIPLY
                   (fun _ => 1) (fun i => 1 + 2 * i))) =
    Ok (Program
          [ if 6 <=? 5
            then BinaryExpression "*"
                   (BinaryExpression "+" (Identifier "a") (Identifier "b"))
                   (Identifier "c")
            else BinaryExpression "+" (Identifier "a")
                   (BinaryExpression "*" (Identifier "b") (Identifier "c")) ]).
Proof.
  apply (binary_precedence "a" "b" "c" "+" "*" Lexer.PLUS Lexer.MULTIPLY 5 6
           (fun _ => 1) (fun i => 1 + 2 * i)); reflexivity.
Defined.

(* ================================================================= *)
(** ** The printer of expressions *)

(** X14.  The parser inverts the printer.  The tokens of a well-formed
    expression, wherever they stand in a token list, are read back as that
    expression when no token that continues an expression follows them;
    followed by the end marker they are parsed as the program that
    consists of the expression. *)
Theorem parse_print_expression (e : node) :
  wf_expr e = true →
  (∀ T i,
     occurs T i (print e) → stops T (i + length (print e)) →
     Parser.parseExpression (Parser.mkParser T i)
       = Ok (e, Parser.mkParser T (i + length (print e)))) ∧
  (∀ eof,
     Lexer.type eof = Lexer.EOF →
     Parser.parse (Parser.new (print e ++ [eof])) = Ok (Program [e])).
Proof.
  intros Hwf. split; [intros T i; by apply parseExpression_print|].
  intros eof Heof.
  pose proof (print_tokens e Hwf) as Htoks.
  assert (Hnew : Parser.new (print e ++ [eof])
                 = Parser.mkParser (print e ++ [eof]) 0).
  { unfold Parser.new. f_equal. apply filter_all, Forall_app.
    split.
    - eapply Forall_impl; [exact Htoks|]. intros u Hu Hnl.
      cbv beta in Hu. rewrite Hnl in Hu. discriminate Hu.
    - constructor; [|done]. by rewrite Heof. }
  rewrite Hnew. set (T := print e ++ [eof]).
  destruct (print_opens e Hwf) as (t & ts & Hp & Ho).
  assert (Ht : T !! 0 = Some t) by (unfold T; by rewrite Hp).
  assert (Hlen : length T = S (length (print e))).
  { unfold T. rewrite length_app. simpl. lia. }
  assert (Hend : T !! length (print e) = Some eof).
  { unfold T. rewrite lookup_app_r by done. by rewrite Nat.sub_diag. }
  assert (Hrun : Parser.parseExpression (Parser.mkParser T 0)
                 = Ok (e, Parser.mkParser T (length (print e)))).
  { apply (parseExpression_print e T 0 Hwf); [apply occurs_prefix|].
    simpl. eapply stops_at; [done|]. by rewrite Heof. }
  assert (Hassign : Parser.peek_is Lexer.ASSIGN (Parser.mkParser T 0)
                    = false).
  { unfold Parser.peek_is, Parser.peek. simpl.
    destruct (T !! 1) as [u|] eqn:Hu; [|done].
    apply bool_decide_eq_false_2. intros Hty.
    unfold T in Hu. rewrite Hp in Hu. simpl in Hu.
    apply list_elem_of_lookup_2, elem_of_app in Hu as [Hu | Hu].
    - rewrite Hp in Htoks. apply Forall_cons in Htoks as [_ Htoks].
      rewrite Forall_forall in Htoks. specialize (Htoks _ Hu).
      rewrite Hty in Htoks. discriminate Htoks.
    - apply list_elem_of_singleton in Hu as ->. congruence. }
  unfold Parser.parse. cbn [Parser.tokens]. rewrite Hlen.
  cbn [Parser.parse_loop]. unfold Parser.current.
  cbn [Parser.tokens Parser.position]. rewrite Ht.
  assert (Hneof : Lexer.type t ≠ Lexer.EOF).
  { intros Hty. rewrite Hty in Ho. discriminate Ho. }
  rewrite (bool_decide_eq_true_2 _ Hneof).
  unfold Parser.parseStatement. cbn [Parser.tokens].
  rewrite Hlen. cbn [Parser.parseStatement_fuel].
  unfold Parser.parseStatement_body.
  assert (Hkw : ∀ ty, ty ∈ [Lexer.ACTION; Lexer.CHECK; Lexer.EACH; Lexer.AS] →
                      Parser.match_ [ty] (Parser.mkParser T 0) = false).
  { intros ty Hty. apply (match_other _ _ _ _ Ht). intros Hin.
    apply list_elem_of_singleton in Hin. rewrite Hin in Ho.
    repeat (apply elem_of_cons in Hty as [-> | Hty]; [discriminate Ho|]).
    by apply elem_of_nil in Hty. }
  rewrite !Hkw by set_solver.
  unfold Parser.parseExpressionStatement. rewrite Hassign, andb_false_r.
  rewrite Hrun. cbn [mbind outcome_bind].
  destruct (length (print e)) as [|k] eqn:Hk;
    cbn [Parser.parse_loop]; unfold Parser.current;
    cbn [Parser.tokens Parser.position]; rewrite Hend, Heof; done.
Qed.

Lemma parse_print_expression_witness :
  let e := BinaryExpression "*"
             (CallExpression (Identifier "f") [num 1; Identifier "x"])
             (UnaryExpression "-"
                (MemberExpression (ArrayExpression []) (Identifier "n")
                   false)) in
  (∀ T i,
     occurs T i (print e) → stops T (i + length (print e)) →
     Parser.parseExpression (Parser.mkParser T i)
       = Ok (e, Parser.mkParser T (i + length (print e)))) ∧
  (∀ eof,
     Lexer.type eof = Lexer.EOF →
     Parser.parse (Parser.new (print e ++ [eof])) = Ok (Program [e])).
Proof.
  apply (parse_print_expression
           (BinaryExpression "*"
              (CallExpression (Identifier "f") [num 1; Identifier "x"])
              (UnaryExpression "-"
                 (MemberExpression (ArrayExpression []) (Identifier "n")
                    false)))).
  reflexivity.
Defined.

(* ================================================================= *)
(** ** The printer of statements *)

(** X15.  The parser inverts the printer on whole programs.  The tokens of a
    list of well-formed statements, in which no statement that ends with
    an expression is followed by a token that would continue the
    expression, are parsed, with the end marker behind them, as the
    program of these statements: actions, checks with and without else,
    loops, assignments and expressions, nested to any depth. *)
Theorem parse_print_program (statements : list node) (eof : Lexer.Token) :
  forallb wf_statement statements = true →
  sequenced statements = true →
  Lexer.type eof = Lexer.EOF →
  Parser.parse (Parser.new (flat_map print_statement statements ++ [eof]))
    = Ok (Program statements).
Proof.
  intros Hwf Hseq Heof.
  set (T := flat_map print_statement statements ++ [eof]).
  assert (Hnew : Parser.new T = Parser.mkParser T 0).
  { unfold Parser.new. f_equal. apply filter_all, Forall_app. split.
    - apply Forall_flat_map, Forall_forall. intros s Hin.
      apply (print_statement_tokens (S (length (print_statement s)))); [|lia].
      rewrite forallb_forall in Hwf. by apply Hwf, list_elem_of_In.
    - constructor; [|done]. by rewrite Heof. }
  rewrite Hnew. unfold Parser.parse. cbn [Parser.tokens].
  rewrite (parse_loop_print T statements Hwf Hseq (length T) [] 0 eof).
  - done.
  - pose proof (length_flat_map_print statements Hwf).
    unfold T. rewrite length_app. simpl. lia.
  - by intros j t Hj.
  - done.
Qed.

Lemma parse_print_program_witness :
  Parser.parse
    (Parser.new (flat_map print_statement every_statement
                 ++ [Lexer.mkToken Lexer.EOF Lexer.NullValue 1 1]))
    = Ok (Program every_statement).
Proof.
  apply (parse_print_program every_statement
           (Lexer.mkToken Lexer.EOF Lexer.NullValue 1 1));
    reflexivity.
Defined.

(* ================================================================= *)
(** ** Lists without commas *)

(** X16.  The commas of a list are optional.  In an array literal and in the
    arguments of a call, a list of names is read as the same items
    whether each name is followed by a comma or not: the parser accepts a
    missing comma and a trailing comma alike. *)
Theorem commas_are_optional (f : string) (items : list (string * bool))
    (eof : Lexer.Token) :
  Lexer.type eof = Lexer.EOF →
  Parser.parse
    (Parser.new ((mark Lexer.LBRACKET "[" :: loose_items items
                  ++ [mark Lexer.RBRACKET "]"]) ++ [eof]))
    = Ok (Program
            [ArrayExpression (item_names items)]) ∧
  Parser.parse
    (Parser.new ((mark Lexer.IDENTIFIER f :: mark Lexer.LPAREN "("
                  :: loose_items items ++ [mark Lexer.RPAREN ")"])
                 ++ [eof]))
    = Ok (Program
            [CallExpression (Identifier f)
               (item_names items)]).
Proof.
  intros Heof.
  assert (Hread : ∀ T x, 2 ≤ length T →
            reads (Parser.parseExpression_fuel (length T)) T (Identifier x)).
  { intros T x HT.
    apply primary_reads_expression;
      [apply parsePrimary_print | done | simpl; lia]. }
  assert (Hnl : ∀ ts, Forall (fun u => Lexer.type u ≠ Lexer.NEWLINE)
                        (loose_items items ++ ts) ↔
                      Forall (fun u => Lexer.type u ≠ Lexer.NEWLINE) ts).
  { intros ts. rewrite Forall_app. split; [tauto|]. intros H.
    split; [|done]. eapply Forall_impl; [apply loose_items_tokens|].
    intros u Hu Hn. cbv beta in Hu. rewrite Hn in Hu. set_solver. }
  split.
  - set (ts := mark Lexer.LBRACKET "[" :: loose_items items
               ++ [mark Lexer.RBRACKET "]"]).
    apply (parse_single_expression ts eof _ (mark Lexer.LBRACKET "["));
      [done | done | | done | done |].
    { constructor; [done|]. apply Hnl. by repeat constructor. }
    set (T := ts ++ [eof]).
    assert (HT : length T = S (length ts)).
    { unfold T. rewrite length_app. simpl. lia. }
    assert (Hts : length ts = S (S (length (loose_items items)))).
    { unfold ts. cbn [length]. rewrite length_app. simpl. lia. }
    assert (Hall : occurs T 0 ts) by apply occurs_prefix.
    unfold ts in Hall. apply occurs_cons in Hall as [H0 Hitems].
    assert (Hend : stops T (length ts)).
    { intros u Hu. unfold T in Hu. rewrite lookup_app_r in Hu by done.
      rewrite Nat.sub_diag in Hu. injection Hu as <-. by rewrite Heof. }
    clearbody T ts.
    change (Parser.parseExpression (Parser.mkParser T 0))
      with (Parser.parseLogicalOr (Parser.parseExpression_fuel (length T))
              (Parser.mkParser T 0)).
    apply (lift_primary _ _ _ (mark Lexer.LBRACKET "[")); [done..| |done].
    unfold Parser.parsePrimary.
    rewrite !(match_other T 0 _ _ H0) by types.
    rewrite (match_one T 0 _ _ H0) by types.
    cbn [Parser.advance snd Parser.tokens Parser.position].
    rewrite (parseItemList_loose _ Lexer.RBRACKET T items 1
               (mark Lexer.RBRACKET "]"));
      [| set_solver | intros x; apply Hread; lia | done | done].
    cbn [mbind outcome_bind]. do 3 f_equal. lia.
  - set (ts := mark Lexer.IDENTIFIER f :: mark Lexer.LPAREN "("
               :: loose_items items ++ [mark Lexer.RPAREN ")"]).
    apply (parse_single_expression ts eof _ (mark Lexer.IDENTIFIER f));
      [done | done | | done | done |].
    { constructor; [done|]. constructor; [done|].
      apply Hnl. by repeat constructor. }
    set (T := ts ++ [eof]).
    assert (HT : length T = S (length ts)).
    { unfold T. rewrite length_app. simpl. lia. }
    assert (Hts : length ts = S (S (S (length (loose_items items))))).
    { unfold ts. cbn [length]. rewrite length_app. simpl. lia. }
    assert (Hall : occurs T 0 ts) by apply occurs_prefix.
    unfold ts in Hall. apply occurs_cons in Hall as [H0 Hall].
    apply occurs_cons in Hall as [H1 Hitems].
    assert (Hend : stops T (length ts)).
    { intros u Hu. unfold T in Hu. rewrite lookup_app_r in Hu by done.
      rewrite Nat.sub_diag in Hu. injection Hu as <-. by rewrite Heof. }
    clearbody T ts.
    change (Parser.parseExpression (Parser.mkParser T 0))
      with (Parser.parseLogicalOr (Parser.parseExpression_fuel (length T))
              (Parser.mkParser T 0)).
    apply (lift_postfix _ _ _ (mark Lexer.IDENTIFIER f)); [done..| |done].
    unfold Parser.parsePostfix.
    rewrite (parsePrimary_print (Identifier f) eq_refl (length T) T 0);
      [| simpl; lia | apply occurs_cons; split; [done | apply occurs_nil]].
    cbn [mbind outcome_bind Parser.tokens print length].
    apply (postfixLoop_call _ _ _ _ _ (mark Lexer.LPAREN "("));
      [lia | done | done | | done].
    rewrite (parseItemList_loose _ Lexer.RPAREN T items 2
               (mark Lexer.RPAREN ")"));
      [| set_solver | intros x; apply Hread; lia | done | done].
    do 3 f_equal. lia.
Qed.

Lemma commas_are_optional_witness :
  Parser.parse
    (Parser.new ((mark Lexer.LBRACKET "["
                  :: loose_items [("a", false); ("b", true)]
                  ++ [mark Lexer.RBRACKET "]"])
                 ++ [Lexer.mkToken Lexer.EOF Lexer.NullValue 1 1]))
    = Ok (Program
            [ArrayExpression
               (item_names [("a", false); ("b", true)])]) ∧
  Parser.parse
    (Parser.new ((mark Lexer.IDENTIFIER "f" :: mark Lexer.LPAREN "("
                  :: loose_items [("a", false); ("b", true)]
                  ++ [mark Lexer.RPAREN ")"])
                 ++ [Lexer.mkToken Lexer.EOF Lexer.NullValue 1 1]))
    = Ok (Program
            [CallExpression (Identifier "f")
               (item_names [("a", false); ("b", true)])]).
Proof.
  apply (commas_are_optional "f" [("a", false); ("b", true)]
           (Lexer.mkToken Lexer.EOF Lexer.NullValue 1 1)).
  reflexivity.
Defined.

(* ================================================================= *)
(** ** Progress of the parser *)

(** X17.  The parser always comes to an end, on any list of tokens: it returns
    a Program, or throws one of its two errors, [Expected T but got U at
    line L] or [Unexpected token U at line L].  (It leaves the embedding
    only on a token whose value does not fit its type, which the scanner
    never makes.) *)
Theorem parse_outcomes (toks : list Lexer.Token) :
  match Parser.parse (Parser.new toks) with
  | Ok ast => ∃ statements, ast = Program statements
  | Throw (Error_ message) => syntax_error message
  | Unsupported => ¬ Forall (fun t => well_typed t = true) toks
  | OutOfFuel => False
  end.
Proof.
  pose proof (parse_finishes (Parser.new toks)) as H.
  destruct (Parser.parse (Parser.new toks)) as [ast|[message]| |].
  - apply H. simpl. lia.
  - apply H. simpl. lia.
  - intros Hall. apply H; [simpl; lia|]. by apply Forall_new.
  - apply H. simpl. lia.
Qed.

(** X18.  [PlutoInterpreter.execute] on any source text.  Either the text scans
    and parses to a Program, and the result is that of the interpreter on
    it, an error rethrown with the prefix [Pluto Error: ]; or nothing is
    run and the error thrown is, after that prefix, one of the two errors
    of the scanner or one of the two errors of the parser.  Scanning and
    parsing never run out of their bounds, and the parser reads no value
    of the wrong kind from the tokens of the scanner.  (The texts left
    out are those the embedding of the scanner leaves out.) *)
Theorem execute_front_end (this : Interpreter) (fuel : nat) (code : string)
    (st : state) :
  (∃ toks statements,
     Lexer.tokenize code = Ok toks ∧
     Parser.parse (Parser.new toks) = Ok (Program statements) ∧
     PlutoInterpreter_execute this fuel code st =
       match execute this fuel (Program statements) st with
       | Throw (Error_ message) =>
           Throw (Error_ ("Pluto Error: " +:+ message))
       | r => r
       end) ∨
  (∃ message,
     (lexical_error message ∨ syntax_error message) ∧
     PlutoInterpreter_execute this fuel code st =
       Throw (Error_ ("Pluto Error: " +:+ message))) ∨
  (Lexer.tokenize code = Unsupported ∧
   PlutoInterpreter_execute this fuel code st = Unsupported).
Proof.
  unfold PlutoInterpreter_execute.
  pose proof (tokenize_finishes code) as Hscan.
  destruct (Lexer.tokenize code) as [toks|[message]| |];
    cbn [mbind outcome_bind]; [| |by right; right|done].
  - pose proof (parse_finishes (Parser.new toks)) as Hparse.
    specialize (Hparse ltac:(simpl; lia)).
    destruct (Parser.parse (Parser.new toks)) as [ast|[message]| |] eqn:E;
      cbn [mbind outcome_bind];
      [| |destruct Hparse; by apply Forall_new|done].
    + destruct Hparse as [statements ->]. left. by exists toks, statements.
    + right; left. exists message. by split; [right|].
  - right; left. exists message. by split; [left|].
Qed.

(* ================================================================= *)
(** ** Whole programs *)

(** X19.  A prefix operator binds more strongly than every binary operator and
    less strongly than a call, an index or a member access: in [o x o2 y]
    the prefix operator takes [x] alone, while in [o x.y], [o x[y]] and
    [o x(y)] it takes the whole postfix expression. *)
Theorem prefix_operator_precedence (o o2 x y : string)
    (u t2 : Lexer.TokenType) (n2 : nat) :
  u ∈ [Lexer.NOT; Lexer.MINUS] → precedence t2 = Some n2 →
  Parser.parse (Parser.new
    (prefixed u o x [mark t2 o2; mark Lexer.IDENTIFIER y])) =
    Ok (Program [BinaryExpression o2 (UnaryExpression o (Identifier x))
                   (Identifier y)]) ∧
  Parser.parse (Parser.new
    (prefixed u o x [mark Lexer.DOT "."; mark Lexer.IDENTIFIER y])) =
    Ok (Program [UnaryExpression o
                   (MemberExpression (Identifier x) (Identifier y) false)]) ∧
  Parser.parse (Parser.new
    (prefixed u o x [mark Lexer.LBRACKET "["; mark Lexer.IDENTIFIER y;
                     mark Lexer.RBRACKET "]"])) =
    Ok (Program [UnaryExpression o
                   (MemberExpression (Identifier x) (Identifier y) true)]) ∧
  Parser.parse (Parser.new
    (prefixed u o x [mark Lexer.LPAREN "("; mark Lexer.IDENTIFIER y;
                     mark Lexer.RPAREN ")"])) =
    Ok (Program [UnaryExpression o
                   (CallExpression (Identifier x) [Identifier y])]).
Proof.
  intros Hu H2.
  assert (Hu' : u = Lexer.NOT ∨ u = Lexer.MINUS) by set_solver.
  destruct Hu' as [-> | ->];
    (destruct t2; try discriminate; repeat split; vm_compute; reflexivity).
Qed.

Lemma prefix_operator_precedence_witness :
  Parser.parse (Parser.new
    (prefixed Lexer.MINUS "-" "a" [mark Lexer.MULTIPLY "*";
                                   mark Lexer.IDENTIFIER "b"])) =
    Ok (Program [BinaryExpression "*" (UnaryExpression "-" (Identifier "a"))
                   (Identifier "b")]) ∧
  Parser.parse (Parser.new
    (prefixed Lexer.MINUS "-" "a" [mark Lexer.DOT ".";
                                   mark Lexer.IDENTIFIER "b"])) =
    Ok (Program [UnaryExpression "-"
                   (MemberExpression (Identifier "a") (Identifier "b")
                      false)]) ∧
  Parser.parse (Parser.new
    (prefixed Lexer.MINUS "-" "a" [mark Lexer.LBRACKET "[";
                                   mark Lexer.IDENTIFIER "b";
                                   mark Lexer.RBRACKET "]"])) =
    Ok (Program [UnaryExpression "-"
                   (MemberExpression (Identifier "a") (Identifier "b")
                      true)]) ∧
  Parser.parse (Parser.new
    (prefixed Lexer.MINUS "-" "a" [mark Lexer.LPAREN "(";
                                   mark Lexer.IDENTIFIER "b";
                                   mark Lexer.RPAREN ")"])) =
    Ok (Program [UnaryExpression "-"
                   (CallExpression (Identifier "a") [Identifier "b"])]).
Proof.
  apply (prefix_operator_precedence "-" "*" "a" "b" Lexer.MINUS
           Lexer.MULTIPLY 6).
  - set_solver.
  - reflexivity.
Defined.

(** X20.  A program that is one string literal evaluates to the string the
    literal denotes, escapes decoded, and leaves the store as it was:
    scanner, parser and evaluator agree on string literals. *)
Theorem string_program_evaluates (this : Interpreter) (fuel : nat)
    (quote : ascii) (s : list ascii) (st : state) :
  quote = Lexer.double_quote ∨ quote = Lexer.single_quote →
  PlutoInterpreter_execute this (S (S fuel)) (string_literal quote s) st =
    Ok (VStr (string_of_list_ascii s), st).
Proof.
  intros Hq. unfold PlutoInterpreter_execute.
  rewrite (tokenize_string_literal quote s Hq).
  cbn [mbind outcome_bind]. reflexivity.
Qed.

Lemma string_program_evaluates_witness :
  PlutoInterpreter_execute Interpreter_new.1 2
    (string_literal Lexer.double_quote (list_ascii_of_string "a\b"))
    Interpreter_new.2 =
    Ok (VStr (string_of_list_ascii (list_ascii_of_string "a\b")),
        Interpreter_new.2).
Proof.
  apply (string_program_evaluates Interpreter_new.1 0 Lexer.double_quote
           (list_ascii_of_string "a\b") Interpreter_new.2).
  by left.
Defined.
